(** * tailwind-color-reader: the OKLCH scanner, the palette lookup and the
      comment reconciliation of [src/extension.ts], embedded in Rocq.

    Strings are sequences of UTF-16 code units, numbers are IEEE 754 binary64
    values (the Standard Library's [SpecFloat], instantiated at 53 and 1024),
    regular expressions are run by a small backtracking matcher whose results
    come in the priority order of the ECMAScript matcher, and the editor's
    document is a text buffer with LF line breaks. *)

From Stdlib Require Import List Bool Arith ZArith NArith Lia String Ascii.
From Stdlib Require Import Floats.SpecFloat.
Import ListNotations.

Set Implicit Arguments.

(* ================================================================== *)
(** ** Strings as lists of UTF-16 code units *)

Definition code_unit := N.
Definition jsstring := list code_unit.

(** A Rocq string literal (8-bit characters) read as a JavaScript string. *)
Definition lit (s : string) : jsstring :=
  List.map N_of_ascii (list_ascii_of_string s).

Definition unit_eqb (a b : code_unit) : bool := N.eqb a b.

Fixpoint jsstring_eqb (a b : jsstring) : bool :=
  match a, b with
  | [], [] => true
  | x :: a', y :: b' => unit_eqb x y && jsstring_eqb a' b'
  | _, _ => false
  end.

(** Character classes. [\d] is 0-9; [\s] is WhiteSpace and LineTerminator of
    ECMAScript; [.] (no [s] flag) is every code unit but a line terminator. *)
Definition is_digit (c : code_unit) : bool := (N.leb 48 c && N.leb c 57)%bool.

Definition is_line_terminator (c : code_unit) : bool :=
  N.eqb c 10 || N.eqb c 13 || N.eqb c 8232 || N.eqb c 8233.

Definition is_space (c : code_unit) : bool :=
  N.eqb c 9 || N.eqb c 11 || N.eqb c 12 || N.eqb c 32 || N.eqb c 160
  || N.eqb c 5760 || (N.leb 8192 c && N.leb c 8202) || N.eqb c 8239
  || N.eqb c 8287 || N.eqb c 12288 || N.eqb c 65279
  || is_line_terminator c.

Definition is_dot_char (c : code_unit) : bool := negb (is_line_terminator c).

(** [[\d.]] and [[\d.%]]. *)
Definition is_numch (c : code_unit) : bool := is_digit c || N.eqb c 46.
Definition is_alphach (c : code_unit) : bool := is_digit c || N.eqb c 46 || N.eqb c 37.

Definition ch_o : code_unit := 111%N.
Definition ch_lparen : code_unit := 40%N.
Definition ch_rparen : code_unit := 41%N.
Definition ch_slash : code_unit := 47%N.
Definition ch_star : code_unit := 42%N.
Definition ch_percent : code_unit := 37%N.
Definition ch_lf : code_unit := 10%N.

(** [String.prototype.substring(n)], [slice(0, -1)], [endsWith], [trim],
    [indexOf]. *)
Definition substring_from (n : nat) (s : jsstring) : jsstring := skipn n s.
Definition substring (a b : nat) (s : jsstring) : jsstring :=
  firstn (b - a) (skipn a s).
Definition slice_drop_last (s : jsstring) : jsstring := removelast s.

Definition endsWith (s : jsstring) (c : code_unit) : bool :=
  match rev s with
  | x :: _ => unit_eqb x c
  | [] => false
  end.

Fixpoint trim_start (s : jsstring) : jsstring :=
  match s with
  | c :: s' => if is_space c then trim_start s' else s
  | [] => []
  end.

Definition trim (s : jsstring) : jsstring := rev (trim_start (rev (trim_start s))).

Fixpoint starts_with (p s : jsstring) : bool :=
  match p, s with
  | [], _ => true
  | x :: p', y :: s' => unit_eqb x y && starts_with p' s'
  | _ :: _, [] => false
  end.

(** [hay.indexOf(needle)]: the first index at which [needle] occurs, -1 when none. *)
Fixpoint indexOf_from (i : nat) (hay needle : jsstring) : Z :=
  if starts_with needle hay then Z.of_nat i
  else match hay with
       | [] => (-1)%Z
       | _ :: hay' => indexOf_from (S i) hay' needle
       end.

Definition indexOf (hay needle : jsstring) : Z := indexOf_from 0 hay needle.

(* ================================================================== *)
(** ** Regular expressions

    The fragment of ECMAScript patterns the source uses: literal characters,
    classes, [*] and [*?] on a class, sequence, a greedy optional group,
    capture groups and [^]. [rmatch r st] lists the states in which a match of
    [r] started in [st] can end, in the order the backtracking matcher tries
    them; the matcher's answer is the first one. *)

Record mstate := MState {
  m_pos : nat;                           (* index of the next code unit *)
  m_rest : jsstring;                     (* input from that index on *)
  m_caps : list (nat * (nat * nat))      (* group number, start and end index *)
}.

Inductive regex :=
| RChar (c : code_unit)
| RClass (p : code_unit -> bool)
| RStar (greedy : bool) (p : code_unit -> bool)
| RSeq (r1 r2 : regex)
| ROpt (r : regex)
| RGroup (n : nat) (r : regex)
| RBol
| REmpty.

Fixpoint star_greedy (p : code_unit -> bool) (pos : nat) (rest : jsstring)
  (caps : list (nat * (nat * nat))) : list mstate :=
  match rest with
  | c :: rest' =>
      if p c then star_greedy p (S pos) rest' caps ++ [MState pos rest caps]
      else [MState pos rest caps]
  | [] => [MState pos rest caps]
  end.

Fixpoint star_lazy (p : code_unit -> bool) (pos : nat) (rest : jsstring)
  (caps : list (nat * (nat * nat))) : list mstate :=
  MState pos rest caps ::
  match rest with
  | c :: rest' => if p c then star_lazy p (S pos) rest' caps else []
  | [] => []
  end.

Definition step_class (p : code_unit -> bool) (st : mstate) : list mstate :=
  match m_rest st with
  | c :: rest' => if p c then [MState (S (m_pos st)) rest' (m_caps st)] else []
  | [] => []
  end.

Fixpoint rmatch (r : regex) (st : mstate) : list mstate :=
  match r with
  | RChar c => step_class (unit_eqb c) st
  | RClass p => step_class p st
  | RStar true p => star_greedy p (m_pos st) (m_rest st) (m_caps st)
  | RStar false p => star_lazy p (m_pos st) (m_rest st) (m_caps st)
  | RSeq r1 r2 => flat_map (rmatch r2) (rmatch r1 st)
  | ROpt r1 => rmatch r1 st ++ [st]
  | RGroup n r1 =>
      List.map (fun st' => MState (m_pos st') (m_rest st')
                             ((n, (m_pos st, m_pos st')) :: m_caps st'))
               (rmatch r1 st)
  | RBol => if Nat.eqb (m_pos st) 0 then [st] else []
  | REmpty => [st]
  end.

(** A sequence of patterns, and a literal string as a pattern. *)
Fixpoint rseq (rs : list regex) : regex :=
  match rs with
  | [] => REmpty
  | [r] => r
  | r :: rs' => RSeq r (rseq rs')
  end.

Definition rlit (s : jsstring) : regex := rseq (List.map RChar s).
Definition rplus (p : code_unit -> bool) : regex := RSeq (RClass p) (RStar true p).

(** The result of a successful match: [index], the end of [match[0]] and the
    groups as index pairs into the input. *)
Record MatchResult := MkMatch {
  mr_index : nat;
  mr_end : nat;
  mr_caps : list (nat * (nat * nat))
}.

Fixpoint cap_lookup (n : nat) (caps : list (nat * (nat * nat))) : option (nat * nat) :=
  match caps with
  | [] => None
  | (k, se) :: caps' => if Nat.eqb k n then Some se else cap_lookup n caps'
  end.

(** [match[0]] and [match[n]] ([None] is JavaScript's [undefined]). *)
Definition match0 (input : jsstring) (m : MatchResult) : jsstring :=
  substring (mr_index m) (mr_end m) input.

Definition group (input : jsstring) (m : MatchResult) (n : nat) : option jsstring :=
  match cap_lookup n (mr_caps m) with
  | Some (a, b) => Some (substring a b input)
  | None => None
  end.

(** The matcher tried at [pos], then at every later index: what [exec] does
    from [lastIndex], and what [String.prototype.match] does from 0. *)
Fixpoint search (r : regex) (pos : nat) (rest : jsstring) : option MatchResult :=
  match rmatch r (MState pos rest []) with
  | st :: _ => Some (MkMatch pos (m_pos st) (m_caps st))
  | [] =>
      match rest with
      | [] => None
      | _ :: rest' => search r (S pos) rest'
      end
  end.

Definition exec_from (r : regex) (input : jsstring) (lastIndex : nat) : option MatchResult :=
  if Nat.leb lastIndex (List.length input) then search r lastIndex (skipn lastIndex input)
  else None.

Definition str_match (r : regex) (input : jsstring) : option MatchResult :=
  search r 0 input.

(** The pattern of [parseOklchFunctionsInRange] (flag [g]): the literal
    [oklch] and an opening parenthesis, optional white space, three groups
    [[\d.]+] separated by [\s+], an optional group 4 made of [\s*], a slash,
    [\s*] and [[\d.%]+], then [\s*] and the closing parenthesis. *)
Definition oklch_regex : regex :=
  RSeq (rlit (lit "oklch("))
  (rseq [ RStar true is_space;
          RGroup 1 (rplus is_numch);
          rplus is_space;
          RGroup 2 (rplus is_numch);
          rplus is_space;
          RGroup 3 (rplus is_numch);
          ROpt (RGroup 4 (rseq [ RStar true is_space; RChar ch_slash;
                                 RStar true is_space; rplus is_alphach ]));
          RStar true is_space;
          RChar ch_rparen ]).

(** The block comment shared by the comment patterns: slash, star, a lazy
    run of [.], star, slash. *)
Definition block_comment : regex :=
  rseq [ RChar ch_slash; RChar ch_star; RStar false is_dot_char;
         RChar ch_star; RChar ch_slash ].

(** The pattern of the removal and selection handlers: [^], group 1 a greedy
    run of white space, group 2 the block comment. *)
Definition comment_regex2 : regex :=
  rseq [ RBol; RGroup 1 (RStar true is_space); RGroup 2 block_comment ].

(** The pattern of the annotation handler: [^], a greedy run of white space,
    group 1 the block comment. *)
Definition comment_regex1 : regex :=
  rseq [ RBol; RStar true is_space; RGroup 1 block_comment ].

(** [/[\d.%]+/] *)
Definition alpha_value_regex : regex := rplus is_alphach.

(* ================================================================== *)
(** ** Numbers: IEEE 754 binary64 *)

Definition prec : Z := 53.
Definition emax : Z := 1024.

Definition number := spec_float.

Definition NaN : number := S754_nan.
Definition num_sub : number -> number -> number := SFsub prec emax.
Definition num_mul : number -> number -> number := SFmul prec emax.
Definition num_div : number -> number -> number := SFdiv prec emax.
Definition num_abs : number -> number := SFabs.
Definition num_ltb : number -> number -> bool := SFltb.
Definition num_leb : number -> number -> bool := SFleb.
Definition num_eqb : number -> number -> bool := SFeqb.

Definition isNaN (x : number) : bool :=
  match x with
  | S754_nan => true
  | _ => false
  end.

(** The binary64 value nearest to [m * 10^e] (ties to even), for [m >= 0]: the
    Number value of a decimal literal. *)
Definition number_of_decimal (m e : Z) : number :=
  match m with
  | Z0 => S754_zero false
  | Zpos _ =>
      let num := if Z.leb 0 e then (m * 10 ^ e)%Z else m in
      let den := if Z.leb 0 e then 1%Z else (10 ^ (- e))%Z in
      let '(q, e', l) := SFdiv_core_binary prec emax num 0 den 0 in
      binary_round_aux prec emax false q e' l
  | Zneg _ => NaN
  end.

Definition num_one : number := number_of_decimal 1 0.
Definition num_hundred : number := number_of_decimal 100 0.

Fixpoint span (p : code_unit -> bool) (s : jsstring) : jsstring * jsstring :=
  match s with
  | c :: s' =>
      if p c then let (a, b) := span p s' in (c :: a, b) else ([], s)
  | [] => ([], [])
  end.

Definition digit_val (c : code_unit) : Z := Z.of_N (c - 48).

Fixpoint digits_value (acc : Z) (ds : jsstring) : Z :=
  match ds with
  | [] => acc
  | d :: ds' => digits_value (acc * 10 + digit_val d) ds'
  end.

(** The value of the ExponentPart [s] starts with, 0 when it starts with none. *)
Definition parse_exponent (s : jsstring) : Z :=
  match s with
  | c :: s1 =>
      if (N.eqb c 101 || N.eqb c 69)%bool then
        let '(sign, s2) :=
          match s1 with
          | x :: r => if N.eqb x 43 then (1%Z, r)
                      else if N.eqb x 45 then ((-1)%Z, r) else (1%Z, s1)
          | [] => (1%Z, s1)
          end in
        match fst (span is_digit s2) with
        | [] => 0%Z
        | ds => (sign * digits_value 0 ds)%Z
        end
      else 0%Z
  | [] => 0%Z
  end.

(** The longest prefix of [s] that is a StrUnsignedDecimalLiteral, as a number;
    NaN when no prefix is one. *)
Definition parse_unsigned (s : jsstring) : number :=
  if starts_with (lit "Infinity") s then S754_infinity false
  else
    let (ip, s1) := span is_digit s in
    match s1 with
    | c :: s2 =>
        if N.eqb c 46 then
          let (fp, s3) := span is_digit s2 in
          match ip ++ fp with
          | [] => NaN
          | ds => number_of_decimal (digits_value 0 ds)
                    (parse_exponent s3 - Z.of_nat (List.length fp))
          end
        else
          match ip with
          | [] => NaN
          | _ => number_of_decimal (digits_value 0 ip) (parse_exponent s1)
          end
    | [] =>
        match ip with
        | [] => NaN
        | _ => number_of_decimal (digits_value 0 ip) 0
        end
    end.

(** [parseFloat]: leading white space is skipped, then the longest prefix that
    is a decimal literal is read. *)
Definition parseFloat (s : jsstring) : number :=
  match trim_start s with
  | c :: r =>
      if N.eqb c 43 then parse_unsigned r
      else if N.eqb c 45 then SFopp (parse_unsigned r)
      else parse_unsigned (c :: r)
  | [] => NaN
  end.

(** [Math.round]: the nearest integer, ties towards +infinity. *)
Definition Math_round (x : number) : number :=
  match x with
  | S754_finite s m e =>
      if Z.leb 0 e then x
      else
        let v := if s then Zneg m else Zpos m in
        let r := Z.div (2 * v + 2 ^ (- e)) (2 ^ (1 - e)) in
        match r with
        | Z0 => S754_zero s
        | _ => binary_normalize prec emax r 0 false
        end
  | _ => x
  end.

(** Number::toString in radix 10: the shortest digit string [s] of [k] digits
    and the exponent [n] with [s * 10^(n-k)] rounding to [x], then the
    notation ECMAScript chooses from [n] and [k]. *)
Fixpoint decimal_digits (fuel : nat) (v : Z) (acc : jsstring) : jsstring :=
  match fuel with
  | O => acc
  | S f =>
      let acc' := (Z.to_N (v mod 10) + 48)%N :: acc in
      if Z.ltb v 10 then acc' else decimal_digits f (v / 10) acc'
  end.

Definition digits_of_Z (v : Z) : jsstring :=
  decimal_digits (S (Z.to_nat (Z.log2 v))) v [].

(** [x = p / q] lies below [10^n]. *)
Definition below_pow10 (p q n : Z) : bool :=
  if Z.leb 0 n then Z.ltb p (q * 10 ^ n) else Z.ltb (p * 10 ^ (- n)) q.

Fixpoint find_magnitude (fuel : nat) (p q n : Z) : Z :=
  match fuel with
  | O => n
  | S f => if below_pow10 p q n then n else find_magnitude f p q (n + 1)
  end.

(** The candidates with [k] digits: [floor (x * 10^(k-n))] and its successor,
    each kept when it reads back as [x]; the nearer one when both do. *)
Definition shortest_at (x : number) (p q n k : Z) : option (Z * Z) :=
  let d := (k - n)%Z in
  let num := if Z.leb 0 d then (p * 10 ^ d)%Z else p in
  let den := if Z.leb 0 d then q else (q * 10 ^ (- d))%Z in
  let lo := Z.div num den in
  let hi := (lo + 1)%Z in
  let ok_lo := num_eqb (number_of_decimal lo (n - k)) x in
  let ok_hi := num_eqb (number_of_decimal hi (n - k)) x in
  let norm (s : Z) := if Z.eqb s (10 ^ k) then (s / 10, n + 1)%Z else (s, n) in
  let r := (num - lo * den)%Z in
  if (ok_lo && ok_hi)%bool then
    match Z.compare (2 * r) den with
    | Lt => Some (norm lo)
    | Gt => Some (norm hi)
    | Eq => if Z.even lo then Some (norm lo) else Some (norm hi)
    end
  else if ok_lo then Some (norm lo)
  else if ok_hi then Some (norm hi)
  else None.

Fixpoint shortest_digits (fuel : nat) (x : number) (p q n k : Z) : Z * Z * Z :=
  match fuel with
  | O => (Z.div (if Z.leb 0 (k - n) then p * 10 ^ (k - n) else p)
                (if Z.leb 0 (k - n) then q else q * 10 ^ (n - k)), n, k)%Z
  | S f =>
      match shortest_at x p q n k with
      | Some (s, n') => (s, n', k)
      | None => shortest_digits f x p q n (k + 1)
      end
  end.

Definition zeros (n : Z) : jsstring := repeat 48%N (Z.to_nat n).

Definition exponent_text (n : Z) : jsstring :=
  let e := (n - 1)%Z in
  101%N :: (if Z.ltb e 0 then 45%N else 43%N) :: digits_of_Z (Z.abs e).

Definition format_digits (s n k : Z) : jsstring :=
  let ds := digits_of_Z s in
  if (Z.leb k n && Z.leb n 21)%bool then ds ++ zeros (n - k)
  else if (Z.ltb 0 n && Z.leb n 21)%bool then
    firstn (Z.to_nat n) ds ++ 46%N :: skipn (Z.to_nat n) ds
  else if (Z.ltb (-6) n && Z.leb n 0)%bool then
    48%N :: 46%N :: zeros (- n) ++ ds
  else if Z.eqb k 1 then ds ++ exponent_text n
  else firstn 1 ds ++ 46%N :: skipn 1 ds ++ exponent_text n.

Definition Number_toString (x : number) : jsstring :=
  match x with
  | S754_nan => lit "NaN"
  | S754_zero _ => lit "0"
  | S754_infinity s => (if s then lit "-" else []) ++ lit "Infinity"
  | S754_finite sg m e =>
      let p := if Z.leb 0 e then (Zpos m * 2 ^ e)%Z else Zpos m in
      let q := if Z.leb 0 e then 1%Z else (2 ^ (- e))%Z in
      let n := find_magnitude 640 p q (-324) in
      let '(s, n', k) := shortest_digits 17 (S754_finite false m e) p q n 1 in
      (if sg then lit "-" else []) ++ format_digits s n' k
  end.

(* ================================================================== *)
(** ** The editor: documents, positions, ranges and edits

    A [TextDocument] is its text, lines separated by LF. [lineAt],
    [positionAt], [offsetAt] and [getText] are the editor's; positions past
    the end of a line or of the document are clamped, as the editor does. *)

Record Position := MkPos { line : nat; character : nat }.
Record Range := MkRange { r_start : Position; r_end : Position }.

Definition TextDocument := jsstring.

Definition is_lf (c : code_unit) : bool := N.eqb c 10.

(** The text of the line [s] starts in, and what follows its line break. *)
Fixpoint line_rest (s : jsstring) : jsstring :=
  match s with
  | c :: s' => if is_lf c then [] else c :: line_rest s'
  | [] => []
  end.

Fixpoint next_line (s : jsstring) : option jsstring :=
  match s with
  | c :: s' => if is_lf c then Some s' else next_line s'
  | [] => None
  end.

(** The text from the start of line [n] on; [None] when there is no such line. *)
Fixpoint from_line (n : nat) (s : jsstring) : option jsstring :=
  match n with
  | O => Some s
  | S k =>
      match next_line s with
      | Some s' => from_line k s'
      | None => None
      end
  end.

Definition lineAt (doc : TextDocument) (n : nat) : jsstring :=
  match from_line n doc with
  | Some s => line_rest s
  | None => []
  end.

Fixpoint position_walk (l c : nat) (off : nat) (s : jsstring) : Position :=
  match off, s with
  | S k, x :: s' =>
      if is_lf x then position_walk (S l) 0 k s' else position_walk l (S c) k s'
  | _, _ => MkPos l c
  end.

Definition positionAt (doc : TextDocument) (offset : nat) : Position :=
  position_walk 0 0 offset doc.

Definition offsetAt (doc : TextDocument) (p : Position) : nat :=
  match from_line (line p) doc with
  | Some s =>
      (List.length doc - List.length s)
      + Nat.min (character p) (List.length (line_rest s))
  | None => List.length doc
  end.

Definition getText (doc : TextDocument) (r : Range) : jsstring :=
  substring (offsetAt doc (r_start r)) (offsetAt doc (r_end r)) doc.

Definition fullRange (doc : TextDocument) : Range :=
  MkRange (positionAt doc 0) (positionAt doc (List.length doc)).

(** Positions are ordered by line, then by character. *)
Definition isBefore (a b : Position) : bool :=
  if Nat.ltb (line a) (line b) then true
  else if Nat.ltb (line b) (line a) then false
  else Nat.ltb (character a) (character b).

Definition isBeforeOrEqual (a b : Position) : bool :=
  if Nat.ltb (line a) (line b) then true
  else if Nat.ltb (line b) (line a) then false
  else Nat.leb (character a) (character b).

Definition isAfter (a b : Position) : bool := negb (isBeforeOrEqual a b).

(** [new vscode.Range(start, end)]: the constructor puts the earlier of its
    two positions first, so a range never ends before it starts. *)
Definition Range_new (a b : Position) : Range :=
  if isBefore a b then MkRange a b else MkRange b a.

(** [document.lineAt(n)] raises an error when the document has no line [n]. *)
Definition has_line (doc : TextDocument) (n : nat) : bool :=
  match from_line n doc with
  | Some _ => true
  | None => false
  end.

(** A text edit of a [WorkspaceEdit]: [insert] and [delete] are replacements
    of an empty range and by an empty text. *)
Record TextEdit := MkEdit { te_range : Range; te_newText : jsstring }.

Definition edit_replace (r : Range) (t : jsstring) : TextEdit := MkEdit r t.
Definition edit_insert (p : Position) (t : jsstring) : TextEdit := MkEdit (MkRange p p) t.
Definition edit_delete (r : Range) : TextEdit := MkEdit r [].

(** An edit over offsets: start, end, new text. *)
Definition OffsetEdit := (nat * nat * jsstring)%type.

Definition oe_start (e : OffsetEdit) : nat := fst (fst e).
Definition oe_end (e : OffsetEdit) : nat := snd (fst e).
Definition oe_text (e : OffsetEdit) : jsstring := snd e.

Definition to_offsets (doc : TextDocument) (e : TextEdit) : OffsetEdit :=
  (offsetAt doc (r_start (te_range e)), offsetAt doc (r_end (te_range e)), te_newText e).

Definition splice (e : OffsetEdit) (t : jsstring) : jsstring :=
  firstn (oe_start e) t ++ oe_text e ++ skipn (oe_end e) t.

(** Two edits overlap when their ranges share more than an end point. *)
Definition disjoint_edits (a b : OffsetEdit) : bool :=
  Nat.leb (oe_end a) (oe_start b) || Nat.leb (oe_end b) (oe_start a).

Fixpoint pairwise_disjoint (es : list OffsetEdit) : bool :=
  match es with
  | [] => true
  | e :: es' => forallb (disjoint_edits e) es' && pairwise_disjoint es'
  end.

(** [a] is applied before [b]: it lies further down the document. *)
Definition applied_before (a b : OffsetEdit) : bool :=
  Nat.ltb (oe_start b) (oe_start a)
  || (Nat.eqb (oe_start a) (oe_start b) && Nat.ltb (oe_end b) (oe_end a)).

Fixpoint insert_edit (e : OffsetEdit) (es : list OffsetEdit) : list OffsetEdit :=
  match es with
  | [] => [e]
  | x :: es' => if applied_before e x then e :: es else x :: insert_edit e es'
  end.

Fixpoint sort_edits (es : list OffsetEdit) : list OffsetEdit :=
  match es with
  | [] => []
  | e :: es' => insert_edit e (sort_edits es')
  end.

(** [workspace.applyEdit]: the batch is taken against one snapshot of the
    text; it is refused as a whole ([None], the text stays as it is) when two
    of its edits overlap, and otherwise applied from the end of the document
    towards its start, so that no edit moves the range of one still to come. *)
Definition applyEdit (doc : TextDocument) (edit : list TextEdit) : option TextDocument :=
  let es := List.map (to_offsets doc) edit in
  if pairwise_disjoint es then Some (fold_left (fun t e => splice e t) (sort_edits es) doc)
  else None.

(* ================================================================== *)
(** ** The palette and the parsed colors *)

Record Oklch := MkOklch { ok_l : number; ok_c : number; ok_h : number }.
Record ColorMapEntry := MkEntry { name : jsstring; oklch : Oklch }.

Record ParsedOklch := MkParsed {
  p_l : number;
  p_c : number;
  p_h : number;
  alpha : option number;
  alphaString : option jsstring;
  range : Range
}.

(** [0.0001], the default [epsilon], and [0.001]. *)
Definition default_epsilon : number := number_of_decimal 1 (-4).
Definition alpha_epsilon : number := number_of_decimal 1 (-3).

(** [Math.abs(a - b) < epsilon] *)
Definition approxEqual (a b epsilon : number) : bool :=
  num_ltb (num_abs (num_sub a b)) epsilon.

(** The [for ... of] loop over [colorMap], returning at the first match. *)
Fixpoint findColorName (colorMap : list ColorMapEntry) (l c h : number) : option jsstring :=
  match colorMap with
  | [] => None
  | entry :: colorMap' =>
      if approxEqual (ok_l (oklch entry)) l default_epsilon
         && approxEqual (ok_c (oklch entry)) c default_epsilon
         && approxEqual (ok_h (oklch entry)) h default_epsilon
      then Some (name entry)
      else findColorName colorMap' l c h
  end.

(** A string in a condition: [undefined] and the empty string are false. *)
Definition truthy (s : option jsstring) : bool :=
  match s with
  | Some (_ :: _) => true
  | _ => false
  end.

(** Lines 208-219: the numeric alpha of group 4. *)
Definition parse_alpha (alphaString : option jsstring) : option number :=
  match alphaString with
  | Some a =>
      if truthy alphaString then
        match str_match alpha_value_regex a with
        | Some alphaValueMatch =>
            let alphaStrNumeric := match0 a alphaValueMatch in
            if endsWith alphaStrNumeric ch_percent
            then Some (num_div (parseFloat (slice_drop_last alphaStrNumeric)) num_hundred)
            else Some (parseFloat alphaStrNumeric)
        | None => None
        end
      else None
  | None => None
  end.

(** Line 224: [alphaString && alpha === undefined || (alpha !== undefined && isNaN(alpha))] *)
Definition alpha_rejected (alphaString : option jsstring) (alpha : option number) : bool :=
  (truthy alphaString && match alpha with None => true | Some _ => false end)
  || match alpha with Some a => isNaN a | None => false end.

Definition group_text (text : jsstring) (m : MatchResult) (n : nat) : jsstring :=
  match group text m n with
  | Some s => s
  | None => []
  end.

(** The body of the [while] loop for one match: the record pushed, if any. *)
Definition parse_match (doc : TextDocument) (rangeStart : nat) (text : jsstring)
  (m : MatchResult) : option ParsedOklch :=
  let l := parseFloat (group_text text m 1) in
  let c := parseFloat (group_text text m 2) in
  let h := parseFloat (group_text text m 3) in
  let alphaString := group text m 4 in
  let alpha := parse_alpha alphaString in
  if negb (isNaN l) && negb (isNaN c) && negb (isNaN h) then
    if alpha_rejected alphaString alpha then None
    else
      let matchStartOffset := mr_index m in
      let matchEndOffset := matchStartOffset + List.length (match0 text m) in
      let startPos := positionAt doc (rangeStart + matchStartOffset) in
      let endPos := positionAt doc (rangeStart + matchEndOffset) in
      Some (MkParsed l c h alpha alphaString (MkRange startPos endPos))
  else None.

(** The [while ((match = regex.exec(text)) !== null)] loop; [lastIndex] is the
    pattern's. [None]: the fuel ran out. *)
Fixpoint parse_loop (fuel : nat) (doc : TextDocument) (rangeStart : nat)
  (text : jsstring) (lastIndex : nat) (results : list ParsedOklch)
  : option (list ParsedOklch) :=
  match fuel with
  | O => None
  | S fuel' =>
      match exec_from oklch_regex text lastIndex with
      | None => Some results
      | Some m =>
          let results' :=
            match parse_match doc rangeStart text m with
            | Some p => results ++ [p]
            | None => results
            end in
          parse_loop fuel' doc rangeStart text (mr_end m) results'
      end
  end.

Definition parseOklchFunctionsInRange (doc : TextDocument) (r : Range)
  : option (list ParsedOklch) :=
  let text := getText doc r in
  parse_loop (S (List.length text)) doc (offsetAt doc (r_start r)) text 0 [].

(* ================================================================== *)
(** ** The handlers *)

(** A counting loop [for (let i = n - 1; i >= 0; i--)] collecting the edits
    its body adds. *)
Fixpoint loop_down (A : Type) (n : nat) (body : nat -> list A) : list A :=
  match n with
  | O => []
  | S i => body i ++ loop_down i body
  end.

(** The text after a color on the line it ends on:
    [document.lineAt(end.line).text.substring(end.character)]. *)
Definition textAfter (doc : TextDocument) (p : Position) : jsstring :=
  substring_from (character p) (lineAt doc (line p)).

(** Lines 130-133 and 314-317: the alpha part of a label. *)
Definition alpha_label (a : option number) : jsstring :=
  match a with
  | Some al =>
      if negb (approxEqual al num_one alpha_epsilon)
      then lit " / " ++ Number_toString (Math_round (num_mul al num_hundred)) ++ lit "%"
      else []
  | None => []
  end.

(** Lines 126-134: [commentText]. *)
Definition baseCommentText (colorMap : list ColorMapEntry) (color : ParsedOklch) : jsstring :=
  let colorName := findColorName colorMap (p_l color) (p_c color) (p_h color) in
  (if truthy colorName then match colorName with Some n => n | None => [] end
   else lit "Custom")
  ++ alpha_label (alpha color).

Definition commentText (colorMap : list ColorMapEntry) (color : ParsedOklch) : jsstring :=
  lit " /* " ++ baseCommentText colorMap color ++ lit " */".

(** Lines 137-164: the edit the loop body adds for one color, if any. *)
Definition annotate_color (colorMap : list ColorMapEntry) (doc : TextDocument)
  (color : ParsedOklch) : list TextEdit :=
  let comment := commentText colorMap color in
  let endp := r_end (range color) in
  let textAfterColor := textAfter doc endp in
  match str_match comment_regex1 textAfterColor with
  | Some existingCommentMatch =>
      let existing := group_text textAfterColor existingCommentMatch 1 in
      let commentStartIndex :=
        Z.to_nat (Z.of_nat (character endp) + indexOf textAfterColor existing) in
      let commentEndIndex := commentStartIndex + List.length existing in
      let commentRange :=
        MkRange (MkPos (line endp) commentStartIndex) (MkPos (line endp) commentEndIndex) in
      if negb (jsstring_eqb existing (trim comment))
      then [edit_replace commentRange (trim comment)]
      else []
  | None => [edit_insert endp comment]
  end.

Definition annotate_edits (colorMap : list ColorMapEntry) (doc : TextDocument)
  (parsedColors : list ParsedOklch) : list TextEdit :=
  loop_down (List.length parsedColors)
    (fun i => match nth_error parsedColors i with
              | Some color => annotate_color colorMap doc color
              | None => []
              end).

(** [annotateOklchColorsHandler]: the document it leaves. [None]: the scanner
    ran out of fuel. *)
Definition annotateOklchColorsHandler (colorMap : list ColorMapEntry)
  (doc : TextDocument) : option TextDocument :=
  match parseOklchFunctionsInRange doc (fullRange doc) with
  | None => None
  | Some [] => Some doc
  | Some parsedColors =>
      match applyEdit doc (annotate_edits colorMap doc parsedColors) with
      | Some doc' => Some doc'
      | None => Some doc
      end
  end.

(** Lines 64-86: the deletion the loop body adds for one color, if any. *)
Definition remove_color (doc : TextDocument) (color : ParsedOklch) : list TextEdit :=
  let endp := r_end (range color) in
  let textAfterColor := textAfter doc endp in
  match str_match comment_regex2 textAfterColor with
  | Some commentMatch =>
      let commentStartIndex :=
        character endp + List.length (group_text textAfterColor commentMatch 1) in
      let commentEndIndex :=
        commentStartIndex + List.length (group_text textAfterColor commentMatch 2) in
      let whitespaceStartIndex := character endp in
      [edit_delete (MkRange (MkPos (line endp) whitespaceStartIndex)
                            (MkPos (line endp) commentEndIndex))]
  | None => []
  end.

Definition remove_edits (doc : TextDocument) (parsedColors : list ParsedOklch)
  : list TextEdit :=
  loop_down (List.length parsedColors)
    (fun i => match nth_error parsedColors i with
              | Some color => remove_color doc color
              | None => []
              end).

(** [removeOklchColorAnnotationsHandler]: every deletion counts one removed
    comment, and the batch is applied when the count is positive. *)
Definition removeOklchColorAnnotationsHandler (doc : TextDocument) : option TextDocument :=
  match parseOklchFunctionsInRange doc (fullRange doc) with
  | None => None
  | Some [] => Some doc
  | Some parsedColors =>
      let edit := remove_edits doc parsedColors in
      let commentsRemovedCount := List.length edit in
      if Nat.ltb 0 commentsRemovedCount then
        match applyEdit doc edit with
        | Some doc' => Some doc'
        | None => Some doc
        end
      else Some doc
  end.

(** Lines 266-274: [replacementString]. *)
Definition replacementString (selectedEntry : ColorMapEntry)
  (originalAlphaString : option jsstring) : jsstring :=
  lit "oklch(" ++ Number_toString (ok_l (oklch selectedEntry)) ++ lit " "
  ++ Number_toString (ok_c (oklch selectedEntry)) ++ lit " "
  ++ Number_toString (ok_h (oklch selectedEntry))
  ++ match originalAlphaString with
     | Some a => a
     | None => []
     end
  ++ lit ")".

(** Lines 298-320: the comment that replaces an existing one on selection. *)
Definition select_comment (selectedEntry : ColorMapEntry)
  (originalAlphaString : option jsstring) : jsstring :=
  lit "/* " ++ name selectedEntry
  ++ alpha_label (if truthy originalAlphaString then parse_alpha originalAlphaString else None)
  ++ lit " */".

(** Lines 266-331 of [selectColorHandler], for the entry the user picked: the
    edits of the batch, in the order they are added. [None]: the document has
    no line [targetRange.end.line], so [document.lineAt] (line 283) raises an
    error before any edit is added. *)
Definition select_edits (doc : TextDocument) (targetRange : Range)
  (originalAlphaString : option jsstring) (selectedEntry : ColorMapEntry)
  : option (list TextEdit) :=
  let rangeToReplace :=
    Range_new (MkPos (line (r_start targetRange)) (character (r_start targetRange)))
              (MkPos (line (r_end targetRange)) (character (r_end targetRange))) in
  let endp := r_end targetRange in
  if has_line doc (line endp) then
    let textAfterColor := textAfter doc endp in
    Some
      (match str_match comment_regex2 textAfterColor with
       | Some commentMatch =>
           let whitespaceLength := List.length (group_text textAfterColor commentMatch 1) in
           let commentTextLength := List.length (group_text textAfterColor commentMatch 2) in
           let commentStartChar := character endp + whitespaceLength in
           let commentEndChar := commentStartChar + commentTextLength in
           [edit_replace (MkRange (MkPos (line endp) commentStartChar)
                                  (MkPos (line endp) commentEndChar))
                         (select_comment selectedEntry originalAlphaString)]
       | None => []
       end
       ++ [edit_replace rangeToReplace (replacementString selectedEntry originalAlphaString)])
  else None.

(** [selectColorHandler]: the document it leaves. Nothing happens when the
    pick is dismissed, and a batch the editor refuses leaves the text as it
    is. [None]: [document.lineAt] raised an error, the handler stops there and
    nothing is written. *)
Definition selectColorHandler (doc : TextDocument) (targetRange : Range)
  (originalAlphaString : option jsstring) (selectedItem : option ColorMapEntry)
  : option TextDocument :=
  match selectedItem with
  | Some selectedEntry =>
      match select_edits doc targetRange originalAlphaString selectedEntry with
      | Some edit =>
          match applyEdit doc edit with
          | Some doc' => Some doc'
          | None => Some doc
          end
      | None => None
      end
  | None => Some doc
  end.

(* ================================================================== *)
(** ** The providers

    The comparisons of positions and ranges are the editor's: positions are
    ordered by line, then by character; a range contains a position that is
    neither before its start nor after its end, and another range when it
    contains both its ends; two ranges intersect when the later start is not
    after the earlier end. *)

(** [Position.Max(a, b)] and [Position.Min(a, b)]. *)
Definition Position_Max (a b : Position) : Position := if isAfter b a then b else a.
Definition Position_Min (a b : Position) : Position := if isBefore b a then b else a.

Definition contains_position (r : Range) (p : Position) : bool :=
  if isBefore p (r_start r) then false
  else if isBefore (r_end r) p then false
  else true.

Definition contains_range (r other : Range) : bool :=
  contains_position r (r_start other) && contains_position r (r_end other).

Definition intersection (r other : Range) : option Range :=
  let s := Position_Max (r_start other) (r_start r) in
  let e := Position_Min (r_end other) (r_end r) in
  if isAfter s e then None else Some (MkRange s e).

(** [document.lineAt(n).range]: the line without its line break. *)
Definition line_range (doc : TextDocument) (n : nat) : Range :=
  MkRange (MkPos n 0) (MkPos n (List.length (lineAt doc n))).

(** The arguments a code action hands to the [selectColor] command: the range
    of the target color, as plain data, and its alpha text. *)
Record SelectColorArguments := MkArguments {
  targetRangeData : Range;
  originalAlphaString : option jsstring
}.

(** Lines 351-357: the loop that looks for the target color. [isSelection]
    tells whether the range the editor passes is a [Selection]. *)
Fixpoint find_target (isSelection : bool) (r : Range) (parsedColorsOnLine : list ParsedOklch)
  : option ParsedOklch :=
  match parsedColorsOnLine with
  | [] => None
  | parsedColor :: rest =>
      if isSelection then
        match intersection (range parsedColor) r with
        | Some _ => Some parsedColor
        | None => find_target isSelection r rest
        end
      else if contains_range (range parsedColor) r then Some parsedColor
      else find_target isSelection r rest
  end.

(** [provideCodeActions]: the actions offered, each given by the arguments of
    its command. [None]: [lineAt] raised an error (or the scanner ran out of
    fuel). *)
Definition provideCodeActions (doc : TextDocument) (r : Range) (isSelection : bool)
  : option (list SelectColorArguments) :=
  if has_line doc (line (r_start r)) then
    match parseOklchFunctionsInRange doc (line_range doc (line (r_start r))) with
    | Some parsedColorsOnLine =>
        match find_target isSelection r parsedColorsOnLine with
        | None => Some []
        | Some targetColor =>
            Some [MkArguments
                    (MkRange (MkPos (line (r_start (range targetColor)))
                                    (character (r_start (range targetColor))))
                             (MkPos (line (r_end (range targetColor)))
                                    (character (r_end (range targetColor)))))
                    (alphaString targetColor)]
        end
    | None => None
    end
  else None.

(** Lines 394-403: the [selectColor] command builds the range again from its
    data and calls the handler. *)
Definition selectColorCommand (doc : TextDocument) (args : SelectColorArguments)
  (selectedItem : option ColorMapEntry) : option TextDocument :=
  let d := targetRangeData args in
  let targetRange :=
    Range_new (MkPos (line (r_start d)) (character (r_start d)))
              (MkPos (line (r_end d)) (character (r_end d))) in
  selectColorHandler doc targetRange (originalAlphaString args) selectedItem.

(** A hover: its markdown text and the range it stands for. *)
Record Hover := MkHover { contents : jsstring; hover_range : Range }.

(** Lines 416-423: the text shown for a named color. *)
Definition hoverText (colorName : jsstring) (a : option number) : jsstring :=
  lit "**" ++ colorName ++ lit "**"
  ++ match a with
     | Some al =>
         let alphaPercentage := Math_round (num_mul al num_hundred) in
         if negb (num_eqb alphaPercentage num_hundred)
         then lit " / " ++ Number_toString alphaPercentage ++ lit "%"
         else []
     | None => []
     end.

(** Lines 412-431: the loop over the colors of the line; it returns at the
    first color that contains the position, named or not. *)
Fixpoint hover_loop (colorMap : list ColorMapEntry) (position : Position)
  (parsedColors : list ParsedOklch) : option Hover :=
  match parsedColors with
  | [] => None
  | color :: rest =>
      if contains_position (range color) position then
        let colorName := findColorName colorMap (p_l color) (p_c color) (p_h color) in
        if truthy colorName
        then Some (MkHover (hoverText (match colorName with Some n => n | None => [] end)
                                      (alpha color))
                           (range color))
        else None
      else hover_loop colorMap position rest
  end.

(** [provideHover]: the hover, if any. The outer [None]: [lineAt] raised an
    error (or the scanner ran out of fuel). *)
Definition provideHover (colorMap : list ColorMapEntry) (doc : TextDocument)
  (position : Position) : option (option Hover) :=
  if has_line doc (line position) then
    match parseOklchFunctionsInRange doc (line_range doc (line position)) with
    | Some parsedColors => Some (hover_loop colorMap position parsedColors)
    | None => None
    end
  else None.

(* ================================================================== *)
(** ** Closed forms of the patterns

    What the backtracking matcher computes on each pattern of the source,
    written as a function of the input: every quantified class is followed by
    a character outside it, so each run is the longest one. The lemmas below
    prove the matcher equal to these forms. *)

Definition nonempty (s : jsstring) : bool :=
  match s with
  | [] => false
  | _ :: _ => true
  end.

Definition take_plus (p : code_unit -> bool) (s : jsstring) : option (jsstring * jsstring) :=
  match span p s with
  | ([], _) => None
  | (a, b) => Some (a, b)
  end.

(** The pieces of one [oklch(...)] occurrence, in source order; the alpha
    part, when there is one, is white space, the slash, white space and the
    alpha token. *)
Record OklchTokens := MkTokens {
  tk_w0 : jsstring;
  tk_t1 : jsstring;
  tk_w1 : jsstring;
  tk_t2 : jsstring;
  tk_w2 : jsstring;
  tk_t3 : jsstring;
  tk_alpha : option (jsstring * jsstring * jsstring);
  tk_wl : jsstring
}.

Definition alpha_text (a : option (jsstring * jsstring * jsstring)) : jsstring :=
  match a with
  | Some (w3, w4, t) => w3 ++ ch_slash :: w4 ++ t
  | None => []
  end.

Definition tokens_text (tk : OklchTokens) : jsstring :=
  lit "oklch(" ++ tk_w0 tk ++ tk_t1 tk ++ tk_w1 tk ++ tk_t2 tk ++ tk_w2 tk
  ++ tk_t3 tk ++ alpha_text (tk_alpha tk) ++ tk_wl tk ++ [ch_rparen].

Definition tokens_len (tk : OklchTokens) : nat := List.length (tokens_text tk).

Definition alpha_wf (a : option (jsstring * jsstring * jsstring)) : bool :=
  match a with
  | Some (w3, w4, t) =>
      forallb is_space w3 && forallb is_space w4 && forallb is_alphach t && nonempty t
  | None => true
  end.

Definition tokens_wf (tk : OklchTokens) : bool :=
  forallb is_space (tk_w0 tk)
  && (forallb is_numch (tk_t1 tk) && nonempty (tk_t1 tk))
  && (forallb is_space (tk_w1 tk) && nonempty (tk_w1 tk))
  && (forallb is_numch (tk_t2 tk) && nonempty (tk_t2 tk))
  && (forallb is_space (tk_w2 tk) && nonempty (tk_w2 tk))
  && (forallb is_numch (tk_t3 tk) && nonempty (tk_t3 tk))
  && alpha_wf (tk_alpha tk)
  && forallb is_space (tk_wl tk).

(** The groups of a match that starts at [pos], most recent first. *)
Definition tokens_caps (pos : nat) (tk : OklchTokens) : list (nat * (nat * nat)) :=
  let a1 := pos + 6 + List.length (tk_w0 tk) in
  let b1 := a1 + List.length (tk_t1 tk) in
  let a2 := b1 + List.length (tk_w1 tk) in
  let b2 := a2 + List.length (tk_t2 tk) in
  let a3 := b2 + List.length (tk_w2 tk) in
  let b3 := a3 + List.length (tk_t3 tk) in
  match tk_alpha tk with
  | Some _ => [(4, (b3, b3 + List.length (alpha_text (tk_alpha tk))))]
  | None => []
  end ++ [(3, (a3, b3)); (2, (a2, b2)); (1, (a1, b1))].

Definition oklch_tail (w0 t1 w1 t2 w2 t3 : jsstring) (s6 : jsstring) : option OklchTokens :=
  let (w3, s7) := span is_space s6 in
  match s7 with
  | c :: s8 =>
      if unit_eqb ch_rparen c then Some (MkTokens w0 t1 w1 t2 w2 t3 None w3)
      else if unit_eqb ch_slash c then
        let (w4, s9) := span is_space s8 in
        match take_plus is_alphach s9 with
        | Some (a, s10) =>
            let (w5, s11) := span is_space s10 in
            match s11 with
            | c' :: _ =>
                if unit_eqb ch_rparen c'
                then Some (MkTokens w0 t1 w1 t2 w2 t3 (Some (w3, w4, a)) w5)
                else None
            | [] => None
            end
        | None => None
        end
      else None
  | [] => None
  end.

Definition oklch_tokens (s : jsstring) : option OklchTokens :=
  if starts_with (lit "oklch(") s then
    let (w0, s1) := span is_space (skipn 6 s) in
    match take_plus is_numch s1 with
    | Some (t1, s2) =>
    match take_plus is_space s2 with
    | Some (w1, s3) =>
    match take_plus is_numch s3 with
    | Some (t2, s4) =>
    match take_plus is_space s4 with
    | Some (w2, s5) =>
    match take_plus is_numch s5 with
    | Some (t3, s6) => oklch_tail w0 t1 w1 t2 w2 t3 s6
    | None => None end
    | None => None end
    | None => None end
    | None => None end
    | None => None end
  else None.

(** The block comment a text starts with after white space: the white space,
    the comment and what follows it. The comment ends at the first star-slash
    after its opening, and only if no line terminator comes before. *)
Fixpoint comment_body (s : jsstring) : option (jsstring * jsstring) :=
  match s with
  | c :: s' =>
      if unit_eqb ch_star c && starts_with [ch_slash] s' then Some ([], skipn 1 s')
      else if is_dot_char c then
        match comment_body s' with
        | Some (b, r) => Some (c :: b, r)
        | None => None
        end
      else None
  | [] => None
  end.

Definition comment_split (s : jsstring) : option (jsstring * jsstring * jsstring) :=
  let (ws, r) := span is_space s in
  if starts_with [ch_slash; ch_star] r then
    match comment_body (skipn 2 r) with
    | Some (b, rest) => Some (ws, ch_slash :: ch_star :: b ++ [ch_star; ch_slash], rest)
    | None => None
    end
  else None.

(** The occurrences the scanning loop visits, each with the offset it starts
    at, by recursion on the text: [skip] counts the code units of the text
    still inside the previous occurrence. *)
Fixpoint tscan (skip : nat) (pos : nat) (rest : jsstring) : list (nat * OklchTokens) :=
  match rest with
  | [] => []
  | _ :: rest' =>
      match skip with
      | S k => tscan k (S pos) rest'
      | O =>
          match oklch_tokens rest with
          | Some tk => (pos, tk) :: tscan (tokens_len tk - 1) (S pos) rest'
          | None => tscan 0 (S pos) rest'
          end
      end
  end.

Fixpoint filter_map (A B : Type) (f : A -> option B) (l : list A) : list B :=
  match l with
  | [] => []
  | x :: l' =>
      match f x with
      | Some y => y :: filter_map f l'
      | None => filter_map f l'
      end
  end.

Definition fails_on (p : code_unit -> bool) (f : mstate -> list mstate) : Prop :=
  forall pos c rest caps, p c = true -> f (MState pos (c :: rest) caps) = [].

(** The matcher with the rest of the pattern as a continuation. *)
Definition rk (r : regex) (k : mstate -> list mstate) (st : mstate) : list mstate :=
  flat_map k (rmatch r st).

Definition with_cap (n : nat) (st st' : mstate) : mstate :=
  MState (m_pos st') (m_rest st') ((n, (m_pos st, m_pos st')) :: m_caps st').

(** The code units a match can hold between its first and its last. *)
Definition is_interior (c : code_unit) : bool :=
  is_space c || is_alphach c || unit_eqb ch_slash c
  || N.eqb c 107 || N.eqb c 108 || N.eqb c 99 || N.eqb c 104 || N.eqb c 40.

(** [s] holds a star directly followed by a slash. *)
Fixpoint has_star_slash (s : jsstring) : bool :=
  match s with
  | c :: s' => (unit_eqb ch_star c && starts_with [ch_slash] s') || has_star_slash s'
  | [] => false
  end.

Definition match_of_tokens (pos : nat) (tk : OklchTokens) : MatchResult :=
  MkMatch pos (pos + tokens_len tk) (tokens_caps pos tk).

Definition shift_found (d : nat) (x : nat * OklchTokens) : nat * OklchTokens :=
  (d + fst x, snd x).

Definition no_lf (s : jsstring) : bool := forallb (fun c => negb (is_lf c)) s.

(** The record the loop body builds from the pieces of an occurrence. *)
Definition alpha_of_token (t : jsstring) : number :=
  if endsWith t ch_percent
  then num_div (parseFloat (slice_drop_last t)) num_hundred
  else parseFloat t.

Definition tokens_alpha (tk : OklchTokens) : option number :=
  match tk_alpha tk with
  | Some (_, _, t) => Some (alpha_of_token t)
  | None => None
  end.

Definition tokens_alphaString (tk : OklchTokens) : option jsstring :=
  match tk_alpha tk with
  | Some _ => Some (alpha_text (tk_alpha tk))
  | None => None
  end.

Definition tokens_valid (tk : OklchTokens) : bool :=
  negb (isNaN (parseFloat (tk_t1 tk))) && negb (isNaN (parseFloat (tk_t2 tk)))
  && negb (isNaN (parseFloat (tk_t3 tk)))
  && negb (match tokens_alpha tk with Some a => isNaN a | None => false end).

Definition parsed_of_tokens (doc : TextDocument) (rangeStart : nat)
  (x : nat * OklchTokens) : option ParsedOklch :=
  let (pos, tk) := x in
  if tokens_valid tk then
    Some (MkParsed (parseFloat (tk_t1 tk)) (parseFloat (tk_t2 tk)) (parseFloat (tk_t3 tk))
            (tokens_alpha tk) (tokens_alphaString tk)
            (MkRange (positionAt doc (rangeStart + pos))
                     (positionAt doc (rangeStart + (pos + tokens_len tk)))))
  else None.

(* ================================================================== *)
(** ** Notions the statements use *)

(** [|a - b| < 1e-4] on binary64 numbers. *)
Definition within_tolerance (a b : number) : bool :=
  num_ltb (num_abs (num_sub a b)) (number_of_decimal 1 (-4)).

Definition entry_close (l c h : number) (e : ColorMapEntry) : bool :=
  within_tolerance (ok_l (oklch e)) l && within_tolerance (ok_c (oklch e)) c
  && within_tolerance (ok_h (oklch e)) h.

(** A number that is +0, positive or +infinity. *)
Definition is_nonneg (x : number) : bool :=
  match x with
  | S754_nan => false
  | S754_zero s | S754_infinity s | S754_finite s _ _ => negb s
  end.

Definition nonneg_or_nan (x : number) : bool := isNaN x || is_nonneg x.

Definition is_finite (x : number) : bool :=
  match x with
  | S754_zero _ | S754_finite _ _ _ => true
  | _ => false
  end.

(** An occurrence of the pattern at offset [p] of [text]. *)
Definition occurrence_at (text : jsstring) (p : nat) (tk : OklchTokens) : Prop :=
  exists pre R, text = pre ++ tokens_text tk ++ R /\ List.length pre = p
                /\ tokens_wf tk = true.

(** The record pushed for an occurrence at offset [p] of the scanned text,
    which starts at offset [rangeStart] of the document. *)
Definition color_of (doc : TextDocument) (rangeStart : nat) (x : nat * OklchTokens)
  : ParsedOklch :=
  MkParsed (parseFloat (tk_t1 (snd x))) (parseFloat (tk_t2 (snd x)))
    (parseFloat (tk_t3 (snd x))) (tokens_alpha (snd x)) (tokens_alphaString (snd x))
    (MkRange (positionAt doc (rangeStart + fst x))
             (positionAt doc (rangeStart + (fst x + tokens_len (snd x))))).

(** Occurrences listed from left to right, none reaching into the next. *)
Fixpoint left_to_right (from : nat) (occs : list (nat * OklchTokens)) : Prop :=
  match occs with
  | [] => True
  | (p, tk) :: occs' => from <= p /\ left_to_right (p + tokens_len tk) occs'
  end.

(** The offsets a parsed color spans in its document. *)
Definition span_of (doc : TextDocument) (c : ParsedOklch) : nat * nat :=
  (offsetAt doc (r_start (range c)), offsetAt doc (r_end (range c))).

(** The grammar as the specification words it: an occurrence is the literal
    [oklch] and an opening parenthesis, optional white space, three decimals
    separated by white space, optionally a slash between optional white space
    and a decimal with an optional percent sign, optional white space and the
    closing parenthesis; a decimal is digits with an optional fractional part
    (a dot and digits), no sign and no exponent. *)
Definition spec_decimal : regex :=
  RSeq (rplus is_digit) (ROpt (RSeq (RChar 46%N) (rplus is_digit))).

Definition spec_grammar : regex :=
  RSeq (rlit (lit "oklch("))
  (rseq [ RStar true is_space; spec_decimal; rplus is_space; spec_decimal;
          rplus is_space; spec_decimal;
          ROpt (rseq [ RStar true is_space; RChar ch_slash; RStar true is_space;
                       spec_decimal; ROpt (RChar ch_percent) ]);
          RStar true is_space; RChar ch_rparen ]).

Definition conforms_to_spec_grammar (s : jsstring) : bool :=
  existsb (fun st => negb (nonempty (m_rest st))) (rmatch spec_grammar (MState 0 s [])).

(** The serialisation the data model's round-trip invariant names: the
    fields of a parsed color written as [oklch(l c h] followed by the alpha
    text as it was, when there is one, and the closing parenthesis (the
    string [selectColorHandler] builds from an entry with these numbers). *)
Definition serialize (c : ParsedOklch) : jsstring :=
  replacementString (MkEntry [] (MkOklch (p_l c) (p_c c) (p_h c))) (alphaString c).

(** A number that prints as digits and dots only, and reads back as itself. *)
Definition prints_plainly (x : number) : Prop :=
  forallb is_numch (Number_toString x) = true /\ parseFloat (Number_toString x) = x.

(* ================================================================== *)
(** ** The handlers over offsets *)

(** A code unit that is no line terminator, no closing parenthesis and no
    star: what a number prints as. *)
Definition plain_char (c : code_unit) : bool :=
  is_dot_char c && negb (N.eqb c 41) && negb (N.eqb c 42).

(** A palette name that can stand in a comment: it holds no line terminator
    and no star directly followed by a slash, and the scanner finds no color
    in it. *)
Definition sane_name (n : jsstring) : Prop :=
  forallb is_dot_char n = true /\ has_star_slash n = false
  /\ parseOklchFunctionsInRange n (fullRange n) = Some [].

Definition sane_palette (colorMap : list ColorMapEntry) : Prop :=
  forall e, In e colorMap -> sane_name (name e).

(** The label of the color an occurrence stands for; the range of the color
    plays no part in it. *)
Definition label_of (colorMap : list ColorMapEntry) (tk : OklchTokens) : jsstring :=
  baseCommentText colorMap (color_of [] 0 (0, tk)).

(** The comment without its leading space. *)
Definition new_comment (label : jsstring) : jsstring := lit "/* " ++ label ++ lit " */".

(** The edit of [annotate_color] for a color that ends at offset [e], [after]
    being the text from there to the end of the line. *)
Definition annotate_off (label : jsstring) (e : nat) (after : jsstring) : list OffsetEdit :=
  match comment_split after with
  | Some (ws, old, rest) =>
      if jsstring_eqb old (new_comment label) then []
      else [(e + List.length ws, e + List.length ws + List.length old, new_comment label)]
  | None => [(e, e, 32%N :: new_comment label)]
  end.

(** The edit of [remove_color], likewise. *)
Definition remove_off (e : nat) (after : jsstring) : list OffsetEdit :=
  match comment_split after with
  | Some (ws, old, rest) => [(e, e + List.length ws + List.length old, [])]
  | None => []
  end.

Definition occ_end (x : nat * OklchTokens) : nat := fst x + tokens_len (snd x).

(** The occurrences that become colors. *)
Definition valid_occs (text : jsstring) : list (nat * OklchTokens) :=
  filter (fun x => tokens_valid (snd x)) (tscan 0 0 text).

(** The edits of a loop that runs over the colors of [P] from the last to the
    first, [P] being followed by [S] in the text. *)
Definition inner_edits (F : OklchTokens -> nat -> jsstring -> list OffsetEdit)
  (P S : jsstring) : list OffsetEdit :=
  flat_map (fun x => F (snd x) (occ_end x) (line_rest (skipn (occ_end x) (P ++ S))))
           (rev (valid_occs P)).

Definition occ_edits (F : OklchTokens -> nat -> jsstring -> list OffsetEdit)
  (text : jsstring) : list OffsetEdit :=
  inner_edits F text [].

Definition annot_F (colorMap : list ColorMapEntry) (tk : OklchTokens) :=
  annotate_off (label_of colorMap tk).

Definition remove_F (tk : OklchTokens) := remove_off.

Definition annot_offsets (colorMap : list ColorMapEntry) : jsstring -> list OffsetEdit :=
  occ_edits (annot_F colorMap).

Definition remove_offsets : jsstring -> list OffsetEdit := occ_edits remove_F.

Definition shift_edit (d : nat) (e : OffsetEdit) : OffsetEdit :=
  (d + oe_start e, d + oe_end e, oe_text e).

(** An edit function that moves with the offset it is given. *)
Definition shifts (F : OklchTokens -> nat -> jsstring -> list OffsetEdit) : Prop :=
  forall tk d e after, F tk (d + e) after = List.map (shift_edit d) (F tk e after).

(** The white space a text starts with, counted. *)
Definition lead_spaces (s : jsstring) : nat := List.length (fst (span is_space s)).

(** An edit function whose edits start at the offset it is given or in the
    white space after it, and that gives one edit at most. *)
Definition starts_near (F : OklchTokens -> nat -> jsstring -> list OffsetEdit) : Prop :=
  forall tk e after x,
    In x (F tk e after) ->
    e <= oe_start x /\ oe_start x <= e + lead_spaces after /\ oe_start x <= oe_end x.

Definition single (F : OklchTokens -> nat -> jsstring -> list OffsetEdit) : Prop :=
  forall tk e after, List.length (F tk e after) <= 1.

(** A label built from a sane name and the alpha part. *)
Definition sane_label (L : jsstring) : Prop :=
  exists N S, L = N ++ S /\ sane_name N /\ forallb plain_char S = true
              /\ match S with c :: _ => c = 32%N | [] => True end.

Definition apply_all (es : list OffsetEdit) (t : jsstring) : jsstring :=
  fold_left (fun t e => splice e t) es t.

(** Edits listed from the end of the text towards its start. *)
Fixpoint descending (es : list OffsetEdit) : Prop :=
  match es with
  | [] => True
  | e :: es' =>
      match es' with
      | [] => True
      | x :: _ => oe_start x < oe_start e
      end /\ descending es'
  end.

(** A text in which every attempt of the scanner is settled before the text
    ends: what follows the text plays no part. *)
Definition closed_text (P : jsstring) : Prop :=
  forall x s, P = x ++ s -> s <> [] -> forall Y, oklch_tokens (s ++ Y) = oklch_tokens s.

(* ================================================================== *)
(** ** The providers *)

(** The test of the loop of [provideCodeActions], lines 352-356. *)
Definition target_test (isSelection : bool) (r : Range) (c : ParsedOklch) : bool :=
  if isSelection then
    match intersection (range c) r with
    | Some _ => true
    | None => false
    end
  else contains_range (range c) r.

(* ================================================================== *)
(** ** Rounding to binary64 *)

(** The record of the shifts of [binary_round_aux] stands for the ratio
    [A / B]: its mantissa is the quotient, its round bit tells whether the
    remainder is at least half of [B], its sticky bit whether the remainder
    is neither zero nor that half. *)
Definition represents (A B : Z) (mrs : shr_record) : Prop :=
  (0 < B)%Z /\ (0 <= A)%Z /\ shr_m mrs = (A / B)%Z
  /\ shr_r mrs = (B <=? 2 * (A mod B))%Z
  /\ shr_s mrs = (negb (A mod B =? 0)%Z && negb (2 * (A mod B) =? B)%Z)%bool.

(** The binary64 value nearest to [num / den], as [number_of_decimal]
    computes it for a positive mantissa. *)
Definition round_ratio (num den : Z) : number :=
  let '(q, e', l) := SFdiv_core_binary prec emax num 0 den 0 in
  binary_round_aux prec emax false q e' l.

(* ================================================================== *)
(** * Lemmas *)

Unset Implicit Arguments.

(** ** Character classes *)

Lemma is_digit_iff c : is_digit c = true <-> (48 <= c <= 57)%N.
Proof.
  unfold is_digit. rewrite Bool.andb_true_iff, !N.leb_le. tauto.
Qed.

Lemma is_line_terminator_iff c :
  is_line_terminator c = true <-> (c = 10 \/ c = 13 \/ c = 8232 \/ c = 8233)%N.
Proof.
  unfold is_line_terminator. rewrite !Bool.orb_true_iff, !N.eqb_eq. tauto.
Qed.

Lemma is_space_iff c :
  is_space c = true <->
  (c = 9 \/ c = 11 \/ c = 12 \/ c = 32 \/ c = 160 \/ c = 5760
   \/ (8192 <= c <= 8202) \/ c = 8239 \/ c = 8287 \/ c = 12288 \/ c = 65279
   \/ c = 10 \/ c = 13 \/ c = 8232 \/ c = 8233)%N.
Proof.
  unfold is_space. rewrite !Bool.orb_true_iff, Bool.andb_true_iff, !N.eqb_eq, !N.leb_le,
    is_line_terminator_iff. tauto.
Qed.

Lemma is_numch_iff c : is_numch c = true <-> ((48 <= c <= 57) \/ c = 46)%N.
Proof.
  unfold is_numch. rewrite Bool.orb_true_iff, is_digit_iff, N.eqb_eq. tauto.
Qed.

Lemma is_alphach_iff c :
  is_alphach c = true <-> ((48 <= c <= 57) \/ c = 46 \/ c = 37)%N.
Proof.
  unfold is_alphach. rewrite !Bool.orb_true_iff, is_digit_iff, !N.eqb_eq. tauto.
Qed.

Lemma unit_eqb_iff a b : unit_eqb a b = true <-> a = b.
Proof. apply N.eqb_eq. Qed.

Lemma unit_eqb_refl a : unit_eqb a a = true.
Proof. apply N.eqb_refl. Qed.

Lemma is_dot_char_iff c :
  is_dot_char c = true <-> ~ (c = 10 \/ c = 13 \/ c = 8232 \/ c = 8233)%N.
Proof.
  unfold is_dot_char. rewrite Bool.negb_true_iff, <- Bool.not_true_iff_false,
    is_line_terminator_iff. tauto.
Qed.

Lemma numch_not_space c : is_numch c = true -> is_space c = false.
Proof.
  rewrite is_numch_iff. intros H. apply Bool.not_true_is_false.
  rewrite is_space_iff. lia.
Qed.

Lemma numch_not_slash c : is_numch c = true -> unit_eqb ch_slash c = false.
Proof.
  rewrite is_numch_iff. intros H. apply Bool.not_true_is_false.
  rewrite unit_eqb_iff. unfold ch_slash. lia.
Qed.

Lemma numch_not_rparen c : is_numch c = true -> unit_eqb ch_rparen c = false.
Proof.
  rewrite is_numch_iff. intros H. apply Bool.not_true_is_false.
  rewrite unit_eqb_iff. unfold ch_rparen. lia.
Qed.

Lemma numch_alphach c : is_numch c = true -> is_alphach c = true.
Proof. rewrite is_numch_iff, is_alphach_iff. lia. Qed.

Lemma space_not_numch c : is_space c = true -> is_numch c = false.
Proof.
  rewrite is_space_iff. intros H. apply Bool.not_true_is_false.
  rewrite is_numch_iff. lia.
Qed.

Lemma space_not_alphach c : is_space c = true -> is_alphach c = false.
Proof.
  rewrite is_space_iff. intros H. apply Bool.not_true_is_false.
  rewrite is_alphach_iff. lia.
Qed.

Lemma space_not_slash c : is_space c = true -> unit_eqb ch_slash c = false.
Proof.
  rewrite is_space_iff. intros H. apply Bool.not_true_is_false.
  rewrite unit_eqb_iff. unfold ch_slash. lia.
Qed.

Lemma space_not_rparen c : is_space c = true -> unit_eqb ch_rparen c = false.
Proof.
  rewrite is_space_iff. intros H. apply Bool.not_true_is_false.
  rewrite unit_eqb_iff. unfold ch_rparen. lia.
Qed.

Lemma alphach_not_space c : is_alphach c = true -> is_space c = false.
Proof.
  rewrite is_alphach_iff. intros H. apply Bool.not_true_is_false.
  rewrite is_space_iff. lia.
Qed.

Lemma alphach_not_rparen c : is_alphach c = true -> unit_eqb ch_rparen c = false.
Proof.
  rewrite is_alphach_iff. intros H. apply Bool.not_true_is_false.
  rewrite unit_eqb_iff. unfold ch_rparen. lia.
Qed.

Lemma slash_not_space : is_space ch_slash = false.
Proof. reflexivity. Qed.

(** ** Runs of a class *)

Lemma span_app (p : code_unit -> bool) s :
  fst (span p s) ++ snd (span p s) = s.
Proof.
  induction s as [|c s IH]; simpl; [reflexivity|].
  destruct (p c); simpl; [|reflexivity].
  destruct (span p s); simpl in *. now rewrite IH.
Qed.

Lemma span_all (p : code_unit -> bool) s : forallb p (fst (span p s)) = true.
Proof.
  induction s as [|c s IH]; simpl; [reflexivity|].
  destruct (p c) eqn:E; simpl; [|reflexivity].
  destruct (span p s); simpl in *. now rewrite E, IH.
Qed.

Lemma span_stop (p : code_unit -> bool) s c r :
  snd (span p s) = c :: r -> p c = false.
Proof.
  induction s as [|x s IH]; simpl; [discriminate|].
  destruct (p x) eqn:E; simpl.
  - destruct (span p s); simpl in *. exact IH.
  - intros H. inversion H; subst. exact E.
Qed.

Lemma span_eq (p : code_unit -> bool) a b :
  forallb p a = true ->
  match b with c :: _ => p c = false | [] => True end ->
  span p (a ++ b) = (a, b).
Proof.
  intros Ha Hb. induction a as [|x a IH]; simpl in *.
  - destruct b as [|c b]; simpl; [reflexivity|]. now rewrite Hb.
  - apply Bool.andb_true_iff in Ha as [Hx Ha]. rewrite Hx, (IH Ha). reflexivity.
Qed.

Lemma span_pair (p : code_unit -> bool) s : span p s = (fst (span p s), snd (span p s)).
Proof. destruct (span p s); reflexivity. Qed.

Lemma take_plus_some (p : code_unit -> bool) s a b :
  take_plus p s = Some (a, b) ->
  s = a ++ b /\ forallb p a = true /\ nonempty a = true
  /\ match b with c :: _ => p c = false | [] => True end.
Proof.
  unfold take_plus. intros H.
  pose proof (span_app p s) as Happ. pose proof (span_all p s) as Hall.
  pose proof (span_stop p s) as Hstop.
  destruct (span p s) as [x y]; simpl in *.
  destruct x as [|x0 x]; [discriminate|]. inversion H; subst.
  repeat split; auto.
  destruct b as [|c b]; [exact I|]. eapply Hstop; reflexivity.
Qed.

Lemma take_plus_eq (p : code_unit -> bool) a b :
  forallb p a = true -> nonempty a = true ->
  match b with c :: _ => p c = false | [] => True end ->
  take_plus p (a ++ b) = Some (a, b).
Proof.
  intros Ha Hn Hb. unfold take_plus. rewrite (span_eq p a b Ha Hb).
  destruct a; [discriminate|reflexivity].
Qed.

Lemma forallb_firstn (p : code_unit -> bool) n l :
  forallb p l = true -> forallb p (firstn n l) = true.
Proof.
  revert n. induction l as [|x l IH]; intros n H; destruct n; cbn in *; auto.
  apply Bool.andb_true_iff in H as [Hx Hl]. now rewrite Hx, IH.
Qed.

Lemma forallb_skipn (p : code_unit -> bool) n l :
  forallb p l = true -> forallb p (skipn n l) = true.
Proof.
  revert n. induction l as [|x l IH]; intros n H; destruct n; cbn in *; auto.
  apply Bool.andb_true_iff in H as [Hx Hl]. now apply IH.
Qed.


(** ** The matcher, one construct at a time *)

Lemma flat_map_flat_map (A B C : Type) (f : A -> list B) (g : B -> list C) l :
  flat_map g (flat_map f l) = flat_map (fun x => flat_map g (f x)) l.
Proof.
  induction l as [|x l IH]; simpl; [reflexivity|].
  now rewrite flat_map_app, IH.
Qed.

Lemma flat_map_map (A B C : Type) (f : A -> B) (g : B -> list C) l :
  flat_map g (List.map f l) = flat_map (fun x => g (f x)) l.
Proof.
  induction l as [|x l IH]; simpl; [reflexivity|]. now rewrite IH.
Qed.

Lemma rmatch_rk r st : rmatch r st = rk r (fun x => [x]) st.
Proof.
  unfold rk. induction (rmatch r st) as [|x l IH]; simpl; [reflexivity|].
  now rewrite <- IH.
Qed.

Lemma rk_seq a b k st : rk (RSeq a b) k st = rk a (rk b k) st.
Proof. unfold rk. simpl. apply flat_map_flat_map. Qed.

Lemma rk_group n r k st : rk (RGroup n r) k st = rk r (fun st' => k (with_cap n st st')) st.
Proof. unfold rk. simpl. apply flat_map_map. Qed.

Lemma rk_opt r k st : rk (ROpt r) k st = rk r k st ++ k st.
Proof. unfold rk. simpl. rewrite flat_map_app. simpl. now rewrite app_nil_r. Qed.

Lemma rk_class p k pos s caps :
  rk (RClass p) k (MState pos s caps) =
  match s with
  | c :: s' => if p c then k (MState (S pos) s' caps) else []
  | [] => []
  end.
Proof.
  unfold rk. simpl. unfold step_class. simpl.
  destruct s as [|c s']; [reflexivity|]. destruct (p c); simpl; [|reflexivity].
  apply app_nil_r.
Qed.

Lemma rk_char x k pos s caps :
  rk (RChar x) k (MState pos s caps) =
  match s with
  | c :: s' => if unit_eqb x c then k (MState (S pos) s' caps) else []
  | [] => []
  end.
Proof.
  unfold rk. simpl. unfold step_class. simpl.
  destruct s as [|c s']; [reflexivity|]. destruct (unit_eqb x c); simpl; [|reflexivity].
  apply app_nil_r.
Qed.

Lemma rk_bol k st : rk RBol k st = if Nat.eqb (m_pos st) 0 then k st else [].
Proof.
  unfold rk. simpl. destruct (Nat.eqb (m_pos st) 0); simpl; [apply app_nil_r|reflexivity].
Qed.

Lemma star_greedy_flat p f pos s caps :
  fails_on p f ->
  flat_map f (star_greedy p pos s caps) =
  f (MState (pos + List.length (fst (span p s))) (snd (span p s)) caps).
Proof.
  intros Hf. revert pos. induction s as [|c s IH]; intros pos; simpl.
  - now rewrite app_nil_r, Nat.add_0_r.
  - destruct (p c) eqn:E; simpl.
    + rewrite flat_map_app. simpl. rewrite (Hf pos c s caps E), !app_nil_r, IH.
      destruct (span p s); simpl. f_equal. f_equal. lia.
    + now rewrite app_nil_r, Nat.add_0_r.
Qed.

Lemma rk_star p k pos s caps :
  fails_on p k ->
  rk (RStar true p) k (MState pos s caps) =
  k (MState (pos + List.length (fst (span p s))) (snd (span p s)) caps).
Proof. intros H. unfold rk. simpl. now apply star_greedy_flat. Qed.

Lemma rk_plus p k pos s caps :
  fails_on p k ->
  rk (rplus p) k (MState pos s caps) =
  match take_plus p s with
  | Some (a, b) => k (MState (pos + List.length a) b caps)
  | None => []
  end.
Proof.
  intros H. unfold rplus. rewrite rk_seq, rk_class. unfold take_plus.
  destruct s as [|c s']; simpl; [reflexivity|].
  destruct (p c) eqn:E; [|reflexivity].
  rewrite (rk_star _ _ _ _ _ H). destruct (span p s'); simpl.
  f_equal. f_equal. lia.
Qed.

Lemma rk_lit l k pos s caps :
  rk (rlit l) k (MState pos s caps) =
  if starts_with l s then k (MState (pos + List.length l) (skipn (List.length l) s) caps)
  else [].
Proof.
  unfold rlit. revert pos s. induction l as [|x l IH]; intros pos s.
  - simpl. unfold rk. simpl. now rewrite app_nil_r, Nat.add_0_r.
  - destruct l as [|y l].
    + simpl. rewrite rk_char. destruct s as [|c s']; [reflexivity|].
      destruct (unit_eqb x c); simpl; [|reflexivity].
      destruct s'; simpl; now rewrite Nat.add_1_r.
    + change (rseq (List.map RChar (x :: y :: l)))
        with (RSeq (RChar x) (rseq (List.map RChar (y :: l)))).
      rewrite rk_seq, rk_char. destruct s as [|c s']; [reflexivity|].
      change (starts_with (x :: y :: l) (c :: s'))
        with (unit_eqb x c && starts_with (y :: l) s').
      destruct (unit_eqb x c); [|reflexivity].
      rewrite IH. cbn [andb]. destruct (starts_with (y :: l) s'); [|reflexivity].
      simpl List.length. simpl skipn. f_equal. f_equal. lia.
Qed.

(** A continuation that starts by reading a character outside [p] fails on
    every input that starts inside [p]. *)
Lemma fails_on_class p q k :
  (forall c, p c = true -> q c = false) -> fails_on p (rk (RClass q) k).
Proof. intros H pos c rest caps Hc. rewrite rk_class, (H c Hc). reflexivity. Qed.

Lemma fails_on_char p x k :
  (forall c, p c = true -> unit_eqb x c = false) -> fails_on p (rk (RChar x) k).
Proof. intros H pos c rest caps Hc. rewrite rk_char, (H c Hc). reflexivity. Qed.

Lemma fails_on_seq p a b k : fails_on p (rk a (rk b k)) -> fails_on p (rk (RSeq a b) k).
Proof. intros H pos c rest caps Hc. rewrite rk_seq. now apply H. Qed.

Lemma fails_on_plus p q k :
  (forall c, p c = true -> q c = false) -> fails_on p (rk (rplus q) k).
Proof. intros H. unfold rplus. apply fails_on_seq. now apply fails_on_class. Qed.

Lemma fails_on_group p n r k :
  (forall k', fails_on p (rk r k')) -> fails_on p (rk (RGroup n r) k).
Proof. intros H pos c rest caps Hc. rewrite rk_group. now apply H. Qed.

Lemma fails_on_star p q k :
  (forall c, p c = true -> q c = false) -> fails_on p k ->
  fails_on p (rk (RStar true q) k).
Proof.
  intros H Hk pos c rest caps Hc. unfold rk. simpl. rewrite (H c Hc). simpl.
  rewrite (Hk pos c rest caps Hc). reflexivity.
Qed.

Lemma fails_on_opt p r k :
  fails_on p (rk r k) -> fails_on p k -> fails_on p (rk (ROpt r) k).
Proof.
  intros H Hk pos c rest caps Hc. rewrite rk_opt, (H pos c rest caps Hc).
  simpl. now apply Hk.
Qed.

Lemma fails_on_ext p (f g : mstate -> list mstate) :
  (forall st, f st = g st) -> fails_on p g -> fails_on p f.
Proof. intros E H pos c rest caps Hc. rewrite E. now apply H. Qed.

(** ** The OKLCH pattern in closed form *)
Lemma rk_close k pos s caps :
  rk (RSeq (RStar true is_space) (RChar ch_rparen)) k (MState pos s caps) =
  match snd (span is_space s) with
  | c :: r => if unit_eqb ch_rparen c
              then k (MState (pos + List.length (fst (span is_space s)) + 1) r caps) else []
  | [] => []
  end.
Proof.
  rewrite rk_seq, rk_star.
  - rewrite rk_char. destruct (snd (span is_space s)); [reflexivity|].
    destruct (unit_eqb ch_rparen c); [|reflexivity]. f_equal. f_equal. lia.
  - apply fails_on_char. apply space_not_rparen.
Qed.



Lemma skipn_add_app (A : Type) (a b : list A) n :
  skipn (List.length a + n) (a ++ b) = skipn n b.
Proof. induction a; simpl; auto. Qed.

Lemma skipn_len_app (A : Type) (a b : list A) :
  skipn (List.length a) (a ++ b) = b.
Proof. induction a; simpl; auto. Qed.

Lemma rk_tail k pos s caps w0 t1 w1 t2 w2 t3 :
  rk (RSeq (ROpt (RGroup 4 (rseq [ RStar true is_space; RChar ch_slash;
                                 RStar true is_space; rplus is_alphach ])))
           (RSeq (RStar true is_space) (RChar ch_rparen))) k (MState pos s caps) =
  match oklch_tail w0 t1 w1 t2 w2 t3 s with
  | Some tk =>
      let n := List.length (alpha_text (tk_alpha tk)) + List.length (tk_wl tk) + 1 in
      k (MState (pos + n) (skipn n s)
           (match tk_alpha tk with
            | Some _ => [(4, (pos, pos + List.length (alpha_text (tk_alpha tk))))]
            | None => []
            end ++ caps))
  | None => []
  end.
Proof.
  rewrite rk_seq, rk_opt, rk_group. cbn [rseq].
  rewrite rk_seq, rk_star.
  2:{ apply fails_on_seq, fails_on_char, space_not_slash. }
  rewrite rk_seq, rk_char. rewrite rk_close.
  unfold oklch_tail.
  pose proof (span_app is_space s) as Happ.
  destruct (span is_space s) as [w3 s7] eqn:E3. cbn [fst snd] in *.
  destruct s7 as [|c s8]; [reflexivity|].
  destruct (unit_eqb ch_rparen c) eqn:Er.
  - apply unit_eqb_iff in Er. subst c.
    replace (unit_eqb ch_slash ch_rparen) with false by reflexivity.
    cbn [app tk_alpha tk_wl alpha_text List.length].
    subst s. f_equal. f_equal; [lia|].
    replace (0 + List.length w3 + 1) with (List.length w3 + 1) by lia.
    now rewrite skipn_add_app.
  - rewrite app_nil_r. destruct (unit_eqb ch_slash c) eqn:Es; [|reflexivity].
    apply unit_eqb_iff in Es. subst c.
    rewrite rk_seq, rk_star.
    2:{ apply fails_on_plus, space_not_alphach. }
    pose proof (span_app is_space s8) as Happ4.
    destruct (span is_space s8) as [w4 s9] eqn:E4. cbn [fst snd] in *.
    rewrite rk_plus.
    2:{ intros p c r cp Hc. unfold with_cap; cbn [m_pos m_rest m_caps]. rewrite rk_close.
        cbn [span]. rewrite (alphach_not_space _ Hc). cbn [fst snd].
        now rewrite (alphach_not_rparen _ Hc). }
    destruct (take_plus is_alphach s9) as [[a s10]|] eqn:Ea; [|reflexivity].
    apply take_plus_some in Ea as (Hs9 & Ha & Hne & Hb).
    unfold with_cap; cbn [m_pos m_rest m_caps]. rewrite rk_close.
    pose proof (span_app is_space s10) as Happ5.
    destruct (span is_space s10) as [w5 s11] eqn:E5. cbn [fst snd] in *.
    destruct s11 as [|c' s12]; [reflexivity|].
    destruct (unit_eqb ch_rparen c'); [|reflexivity].
    cbn [tk_alpha tk_wl alpha_text].
    assert (Hlen : List.length (w3 ++ ch_slash :: w4 ++ a) =
                   List.length w3 + 1 + List.length w4 + List.length a).
    { rewrite length_app. simpl. rewrite length_app. lia. }
    rewrite Hlen. f_equal. f_equal.
    + lia.
    + subst s s8 s9 s10.
      replace (List.length w3 + 1 + List.length w4 + List.length a + List.length w5 + 1)
        with (List.length w3 + (1 + (List.length w4 + (List.length a + (List.length w5 + 1)))))
        by lia.
      rewrite skipn_add_app. simpl. rewrite skipn_add_app, skipn_add_app, skipn_add_app.
      reflexivity.
    + simpl. do 3 f_equal. lia.
Qed.

Lemma fails_on_with_cap p f n st :
  fails_on p f -> fails_on p (fun st' => f (with_cap n st st')).
Proof. intros H pos c rest caps Hc. unfold with_cap; cbn. now apply H. Qed.


Lemma starts_with_app l s : starts_with l s = true -> s = l ++ skipn (List.length l) s.
Proof.
  revert s. induction l as [|x l IH]; intros s H; simpl in *; [reflexivity|].
  destruct s as [|c s]; [discriminate|].
  apply Bool.andb_true_iff in H as [Hx Hl]. apply unit_eqb_iff in Hx. subst c.
  simpl. f_equal. now apply IH.
Qed.

Lemma starts_with_app_iff l s : starts_with l (l ++ s) = true.
Proof. induction l as [|x l IH]; simpl; [reflexivity|]. now rewrite unit_eqb_refl. Qed.

Lemma oklch_tail_fields w0 t1 w1 t2 w2 t3 s tk :
  oklch_tail w0 t1 w1 t2 w2 t3 s = Some tk ->
  tk_w0 tk = w0 /\ tk_t1 tk = t1 /\ tk_w1 tk = w1 /\ tk_t2 tk = t2
  /\ tk_w2 tk = w2 /\ tk_t3 tk = t3.
Proof.
  unfold oklch_tail. destruct (span is_space s) as [w3 s7].
  destruct s7 as [|c s8]; [discriminate|].
  destruct (unit_eqb ch_rparen c).
  - intros H. inversion H; subst. simpl. tauto.
  - destruct (unit_eqb ch_slash c); [|discriminate].
    destruct (span is_space s8) as [w4 s9].
    destruct (take_plus is_alphach s9) as [[a s10]|]; [|discriminate].
    destruct (span is_space s10) as [w5 s11].
    destruct s11 as [|c' s12]; [discriminate|].
    destruct (unit_eqb ch_rparen c'); [|discriminate].
    intros H. inversion H; subst. simpl. tauto.
Qed.

Lemma tokens_len_eq tk :
  tokens_len tk =
  6 + List.length (tk_w0 tk) + List.length (tk_t1 tk) + List.length (tk_w1 tk)
  + List.length (tk_t2 tk) + List.length (tk_w2 tk) + List.length (tk_t3 tk)
  + (List.length (alpha_text (tk_alpha tk)) + List.length (tk_wl tk) + 1).
Proof.
  unfold tokens_len, tokens_text. rewrite !length_app. simpl. lia.
Qed.

Lemma rk_oklch k pos s caps :
  rk oklch_regex k (MState pos s caps) =
  match oklch_tokens s with
  | Some tk => k (MState (pos + tokens_len tk) (skipn (tokens_len tk) s)
                         (tokens_caps pos tk ++ caps))
  | None => []
  end.
Proof.
  unfold oklch_regex, oklch_tokens. rewrite rk_seq, rk_lit.
  destruct (starts_with (lit "oklch(") s) eqn:Hlit; [|reflexivity].
  cbn [rseq]. change (List.length (lit "oklch(")) with 6.
  rewrite rk_seq, rk_star.
  2:{ apply fails_on_seq, fails_on_group. intros k'. apply fails_on_plus, space_not_numch. }
  pose proof (span_app is_space (skipn 6 s)) as H0.
  destruct (span is_space (skipn 6 s)) as [w0 s1] eqn:E0. cbn [fst snd] in *.
  rewrite rk_seq, rk_group, rk_plus.
  2:{ apply fails_on_with_cap, fails_on_seq, fails_on_plus, numch_not_space. }
  destruct (take_plus is_numch s1) as [[t1 s2]|] eqn:E1; [|reflexivity].
  unfold with_cap; cbn [m_pos m_rest m_caps].
  rewrite rk_seq, rk_plus.
  2:{ apply fails_on_seq, fails_on_group. intros k'. apply fails_on_plus, space_not_numch. }
  destruct (take_plus is_space s2) as [[w1 s3]|] eqn:E2; [|reflexivity].
  rewrite rk_seq, rk_group, rk_plus.
  2:{ apply fails_on_with_cap, fails_on_seq, fails_on_plus, numch_not_space. }
  destruct (take_plus is_numch s3) as [[t2 s4]|] eqn:E3; [|reflexivity].
  unfold with_cap; cbn [m_pos m_rest m_caps].
  rewrite rk_seq, rk_plus.
  2:{ apply fails_on_seq, fails_on_group. intros k'. apply fails_on_plus, space_not_numch. }
  destruct (take_plus is_space s4) as [[w2 s5]|] eqn:E4; [|reflexivity].
  rewrite rk_seq, rk_group, rk_plus.
  2:{ apply fails_on_with_cap, fails_on_seq, fails_on_opt.
      - apply fails_on_group. intros k'. cbn [rseq].
        apply fails_on_seq, fails_on_star; [apply numch_not_space|].
        apply fails_on_seq, fails_on_char, numch_not_slash.
      - apply fails_on_seq, fails_on_star; [apply numch_not_space|].
        apply fails_on_char, numch_not_rparen. }
  destruct (take_plus is_numch s5) as [[t3 s6]|] eqn:E5; [|reflexivity].
  unfold with_cap; cbn [m_pos m_rest m_caps].
  rewrite (rk_tail _ _ _ _ w0 t1 w1 t2 w2 t3).
  destruct (oklch_tail w0 t1 w1 t2 w2 t3 s6) as [tk|] eqn:Et; [|reflexivity].
  apply oklch_tail_fields in Et as (F0 & F1 & F2 & F3 & F4 & F5).
  apply take_plus_some in E1 as (-> & _), E2 as (-> & _), E3 as (-> & _),
    E4 as (-> & _), E5 as (-> & _).
  apply starts_with_app in Hlit. change (List.length (lit "oklch(")) with 6 in Hlit.
  rewrite <- H0 in Hlit.
  cbv zeta. rewrite tokens_len_eq, F0, F1, F2, F3, F4, F5.
  unfold tokens_caps. rewrite F0, F1, F2, F3, F4, F5.
  f_equal. f_equal.
  - lia.
  - rewrite Hlit at 1.
    replace (6 + List.length w0 + List.length t1 + List.length w1 + List.length t2
             + List.length w2 + List.length t3
             + (List.length (alpha_text (tk_alpha tk)) + List.length (tk_wl tk) + 1))
      with (List.length (lit "oklch(") + (List.length w0 + (List.length t1 + (List.length w1
             + (List.length t2 + (List.length w2 + (List.length t3
             + (List.length (alpha_text (tk_alpha tk)) + List.length (tk_wl tk) + 1))))))))
      by (change (List.length (lit "oklch(")) with 6; lia).
    now rewrite !skipn_add_app.
  - destruct (tk_alpha tk); simpl; reflexivity.
Qed.
Lemma head_outside (p q : code_unit -> bool) a b :
  (forall c, p c = true -> q c = false) ->
  forallb p a = true -> nonempty a = true ->
  match a ++ b with c :: _ => q c = false | [] => True end.
Proof.
  intros H Ha Hn. destruct a as [|x a]; [discriminate|]. simpl in *.
  apply Bool.andb_true_iff in Ha as [Hx _]. now apply H.
Qed.

Lemma head_outside_or (p q : code_unit -> bool) a c b :
  (forall c, p c = true -> q c = false) -> q c = false ->
  forallb p a = true ->
  match a ++ c :: b with x :: _ => q x = false | [] => True end.
Proof.
  intros H Hc Ha. destruct a as [|x a]; simpl in *; [exact Hc|].
  apply Bool.andb_true_iff in Ha as [Hx _]. now apply H.
Qed.

Lemma oklch_tail_sound w0 t1 w1 t2 w2 t3 s tk :
  oklch_tail w0 t1 w1 t2 w2 t3 s = Some tk ->
  exists rest,
    s = alpha_text (tk_alpha tk) ++ tk_wl tk ++ ch_rparen :: rest
    /\ alpha_wf (tk_alpha tk) = true /\ forallb is_space (tk_wl tk) = true.
Proof.
  unfold oklch_tail.
  pose proof (span_app is_space s) as H3. pose proof (span_all is_space s) as A3.
  destruct (span is_space s) as [w3 s7]. cbn [fst snd] in *.
  destruct s7 as [|c s8]; [discriminate|].
  destruct (unit_eqb ch_rparen c) eqn:Er.
  - apply unit_eqb_iff in Er. subst c. intros H. inversion H; subst; clear H.
    exists s8. simpl. auto.
  - destruct (unit_eqb ch_slash c) eqn:Es; [|discriminate].
    apply unit_eqb_iff in Es. subst c.
    pose proof (span_app is_space s8) as H4. pose proof (span_all is_space s8) as A4.
    destruct (span is_space s8) as [w4 s9]. cbn [fst snd] in *.
    destruct (take_plus is_alphach s9) as [[a s10]|] eqn:Ea; [|discriminate].
    apply take_plus_some in Ea as (Hs9 & Ha & Hne & _).
    pose proof (span_app is_space s10) as H5. pose proof (span_all is_space s10) as A5.
    destruct (span is_space s10) as [w5 s11]. cbn [fst snd] in *.
    destruct s11 as [|c' s12]; [discriminate|].
    destruct (unit_eqb ch_rparen c') eqn:Er'; [|discriminate].
    apply unit_eqb_iff in Er'. subst c'. intros H. inversion H; subst; clear H.
    exists s12. cbn [tk_alpha tk_wl alpha_text alpha_wf]. split.
    + rewrite <- !app_assoc. simpl. now rewrite <- !app_assoc.
    + rewrite A3, A4, Ha, Hne. auto.
Qed.

Lemma oklch_tokens_sound s tk :
  oklch_tokens s = Some tk ->
  tokens_wf tk = true /\ exists rest, s = tokens_text tk ++ rest.
Proof.
  unfold oklch_tokens.
  destruct (starts_with (lit "oklch(") s) eqn:Hlit; [|discriminate].
  apply starts_with_app in Hlit. change (List.length (lit "oklch(")) with 6 in Hlit.
  pose proof (span_app is_space (skipn 6 s)) as H0.
  pose proof (span_all is_space (skipn 6 s)) as A0.
  destruct (span is_space (skipn 6 s)) as [w0 s1]. cbn [fst snd] in *.
  destruct (take_plus is_numch s1) as [[t1 s2]|] eqn:E1; [|discriminate].
  destruct (take_plus is_space s2) as [[w1 s3]|] eqn:E2; [|discriminate].
  destruct (take_plus is_numch s3) as [[t2 s4]|] eqn:E3; [|discriminate].
  destruct (take_plus is_space s4) as [[w2 s5]|] eqn:E4; [|discriminate].
  destruct (take_plus is_numch s5) as [[t3 s6]|] eqn:E5; [|discriminate].
  intros Ht. pose proof (oklch_tail_fields _ _ _ _ _ _ _ _ Ht) as (F0 & F1 & F2 & F3 & F4 & F5).
  apply oklch_tail_sound in Ht as (rest & Hs6 & Hwa & Hwl).
  apply take_plus_some in E1 as (-> & B1 & N1 & _), E2 as (-> & B2 & N2 & _),
    E3 as (-> & B3 & N3 & _), E4 as (-> & B4 & N4 & _), E5 as (-> & B5 & N5 & _).
  split.
  - unfold tokens_wf. rewrite F0, F1, F2, F3, F4, F5, A0, B1, N1, B2, N2, B3, N3, B4, N4,
      B5, N5, Hwa, Hwl. reflexivity.
  - exists rest. unfold tokens_text. rewrite F0, F1, F2, F3, F4, F5.
    rewrite Hlit at 1. rewrite <- H0, Hs6. rewrite <- !app_assoc. reflexivity.
Qed.

Lemma oklch_tail_complete w0 t1 w1 t2 w2 t3 al wl Y :
  alpha_wf al = true -> forallb is_space wl = true ->
  oklch_tail w0 t1 w1 t2 w2 t3 (alpha_text al ++ wl ++ ch_rparen :: Y)
  = Some (MkTokens w0 t1 w1 t2 w2 t3 al wl).
Proof.
  intros Ha Hwl. unfold oklch_tail. destruct al as [[[w3 w4] a]|]; cbn [alpha_text alpha_wf] in *.
  - apply Bool.andb_true_iff in Ha as [Ha Hne].
    apply Bool.andb_true_iff in Ha as [Ha Hal].
    apply Bool.andb_true_iff in Ha as [H3 H4].
    rewrite <- app_assoc. cbn [app].
    rewrite (span_eq is_space w3 (ch_slash :: _) H3 slash_not_space).
    replace (unit_eqb ch_rparen ch_slash) with false by reflexivity.
    rewrite unit_eqb_refl. rewrite <- app_assoc.
    rewrite (span_eq is_space w4 _ H4).
    2:{ apply (head_outside is_alphach is_space); auto using alphach_not_space. }
    rewrite (take_plus_eq is_alphach a _ Hal Hne).
    2:{ apply (head_outside_or is_space is_alphach); auto using space_not_alphach. }
    rewrite (span_eq is_space wl (ch_rparen :: Y) Hwl); [|reflexivity].
    now rewrite unit_eqb_refl.
  - cbn [app]. rewrite (span_eq is_space wl (ch_rparen :: Y) Hwl); [|reflexivity].
    now rewrite unit_eqb_refl.
Qed.

Lemma tail_head_not_numch al wl Y :
  alpha_wf al = true -> forallb is_space wl = true ->
  match alpha_text al ++ wl ++ [ch_rparen] ++ Y with
  | c :: _ => is_numch c = false
  | [] => True
  end.
Proof.
  intros Ha Hl. destruct al as [[[w3 w4] a]|]; cbn [alpha_text alpha_wf] in *.
  - destruct w3 as [|x w3]; simpl in *; [reflexivity|].
    apply Bool.andb_true_iff in Ha as [Ha _]. apply Bool.andb_true_iff in Ha as [Ha _].
    apply Bool.andb_true_iff in Ha as [Ha _]. apply Bool.andb_true_iff in Ha as [Ha _].
    now apply space_not_numch.
  - destruct wl as [|x wl]; simpl in *; [reflexivity|].
    apply Bool.andb_true_iff in Hl as [Hl _]. now apply space_not_numch.
Qed.

Lemma oklch_tokens_complete tk Y :
  tokens_wf tk = true -> oklch_tokens (tokens_text tk ++ Y) = Some tk.
Proof.
  destruct tk as [w0 t1 w1 t2 w2 t3 al wl]. unfold tokens_wf, tokens_text.
  cbn [tk_w0 tk_t1 tk_w1 tk_t2 tk_w2 tk_t3 tk_alpha tk_wl].
  rewrite !Bool.andb_true_iff.
  intros [[[[[[[H0 [H1 N1]] [H2 N2]] [H3 N3]] [H4 N4]] [H5 N5]] Ha] Hl].
  unfold oklch_tokens. rewrite <- !app_assoc.
  rewrite starts_with_app_iff.
  change 6 with (List.length (lit "oklch(")). rewrite skipn_len_app.
  rewrite (span_eq is_space w0).
  2: assumption.
  2:{ apply (head_outside is_numch is_space); auto using numch_not_space. }
  rewrite (take_plus_eq is_numch t1); auto.
  2:{ apply (head_outside is_space is_numch); auto using space_not_numch. }
  rewrite (take_plus_eq is_space w1); auto.
  2:{ apply (head_outside is_numch is_space); auto using numch_not_space. }
  rewrite (take_plus_eq is_numch t2); auto.
  2:{ apply (head_outside is_space is_numch); auto using space_not_numch. }
  rewrite (take_plus_eq is_space w2); auto.
  2:{ apply (head_outside is_numch is_space); auto using numch_not_space. }
  rewrite (take_plus_eq is_numch t3); auto.
  - cbn [app]. now apply oklch_tail_complete.
  - now apply tail_head_not_numch.
Qed.

(** ** The scanning loop *)

Lemma rmatch_oklch pos s caps :
  rmatch oklch_regex (MState pos s caps) =
  match oklch_tokens s with
  | Some tk => [MState (pos + tokens_len tk) (skipn (tokens_len tk) s)
                       (tokens_caps pos tk ++ caps)]
  | None => []
  end.
Proof. rewrite rmatch_rk, rk_oklch. now destruct (oklch_tokens s). Qed.

Lemma is_interior_space c : is_space c = true -> is_interior c = true.
Proof. intros H. unfold is_interior. now rewrite H. Qed.

Lemma is_interior_alphach c : is_alphach c = true -> is_interior c = true.
Proof. intros H. unfold is_interior. rewrite H. now rewrite Bool.orb_true_r. Qed.

Lemma forallb_impl (p q : code_unit -> bool) l :
  (forall c, p c = true -> q c = true) -> forallb p l = true -> forallb q l = true.
Proof.
  intros H. induction l as [|x l IH]; simpl; [reflexivity|].
  rewrite !Bool.andb_true_iff. intros [Hx Hl]. auto.
Qed.

Lemma interior_spaces w : forallb is_space w = true -> forallb is_interior w = true.
Proof. apply forallb_impl, is_interior_space. Qed.

Lemma interior_numchs w : forallb is_numch w = true -> forallb is_interior w = true.
Proof. apply forallb_impl. intros c H. apply is_interior_alphach. now apply numch_alphach. Qed.

Lemma interior_alphachs w : forallb is_alphach w = true -> forallb is_interior w = true.
Proof. apply forallb_impl, is_interior_alphach. Qed.

Lemma tokens_text_shape tk :
  tokens_wf tk = true ->
  exists mid, tokens_text tk = ch_o :: mid ++ [ch_rparen]
              /\ forallb is_interior mid = true.
Proof.
  destruct tk as [w0 t1 w1 t2 w2 t3 al wl]. unfold tokens_wf, tokens_text.
  cbn [tk_w0 tk_t1 tk_w1 tk_t2 tk_w2 tk_t3 tk_alpha tk_wl].
  rewrite !Bool.andb_true_iff.
  intros [[[[[[[H0 [H1 N1]] [H2 N2]] [H3 N3]] [H4 N4]] [H5 N5]] Ha] Hl].
  exists (skipn 1 (lit "oklch(") ++ w0 ++ t1 ++ w1 ++ t2 ++ w2 ++ t3 ++ alpha_text al ++ wl).
  split.
  - rewrite <- !app_assoc. reflexivity.
  - rewrite !forallb_app.
    rewrite (interior_spaces _ H0), (interior_numchs _ H1), (interior_spaces _ H2),
      (interior_numchs _ H3), (interior_spaces _ H4), (interior_numchs _ H5),
      (interior_spaces _ Hl).
    assert (Hal : forallb is_interior (alpha_text al) = true).
    { destruct al as [[[w3 w4] a]|]; cbn [alpha_text alpha_wf] in *; [|reflexivity].
      rewrite !Bool.andb_true_iff in Ha. destruct Ha as [[[A3 A4] Aa] _].
      rewrite forallb_app. cbn [forallb]. rewrite forallb_app.
      rewrite (interior_spaces _ A3), (interior_spaces _ A4), (interior_alphachs _ Aa).
      reflexivity. }
    rewrite Hal. reflexivity.
Qed.

Lemma oklch_tokens_head s tk : oklch_tokens s = Some tk -> exists s', s = ch_o :: s'.
Proof.
  intros H. apply oklch_tokens_sound in H as (Hwf & rest & ->).
  destruct (tokens_text_shape _ Hwf) as (mid & -> & _). simpl. eauto.
Qed.

Lemma oklch_tokens_not_o c s : c <> ch_o -> oklch_tokens (c :: s) = None.
Proof.
  intros Hc. destruct (oklch_tokens (c :: s)) as [tk|] eqn:E; [|reflexivity].
  apply oklch_tokens_head in E as (s' & E). congruence.
Qed.

Lemma oklch_tokens_nil : oklch_tokens [] = None.
Proof. reflexivity. Qed.

(** A match does not depend on the text after it. *)
Lemma oklch_tokens_prefix s tk :
  oklch_tokens s = Some tk -> forall Y, oklch_tokens (tokens_text tk ++ Y) = Some tk.
Proof.
  intros H Y. apply oklch_tokens_sound in H as (Hwf & _).
  now apply oklch_tokens_complete.
Qed.

Lemma tokens_len_pos tk : 0 < tokens_len tk.
Proof. rewrite tokens_len_eq. lia. Qed.

Lemma app_prefix_cases (A : Type) (a b c d : list A) :
  a ++ b = c ++ d ->
  (exists e, c = a ++ e /\ b = e ++ d) \/ (exists e, a = c ++ e /\ d = e ++ b).
Proof.
  revert c. induction a as [|x a IH]; intros c H; simpl in *.
  - left. exists c. auto.
  - destruct c as [|y c]; simpl in *.
    + right. exists (x :: a). auto.
    + inversion H; subst. destruct (IH c H2) as [(e & -> & ->)|(e & -> & ->)].
      * left. exists e. auto.
      * right. exists e. auto.
Qed.

(** A code unit that no match holds inside it ends every attempt that reaches
    it: the attempts started before it do not depend on what follows it. *)
Lemma oklch_tokens_barrier X b Y Y' :
  X <> [] -> is_interior b = false ->
  oklch_tokens (X ++ b :: Y) = None -> oklch_tokens (X ++ b :: Y') = None.
Proof.
  intros HX Hb Hn.
  destruct (oklch_tokens (X ++ b :: Y')) as [tk|] eqn:E; [|reflexivity].
  exfalso. pose proof (oklch_tokens_sound _ _ E) as (Hwf & rest & Hs).
  destruct (tokens_text_shape _ Hwf) as (mid & Htxt & Hmid).
  change (X ++ b :: Y') with (X ++ [b] ++ Y') in Hs. rewrite app_assoc in Hs.
  apply app_prefix_cases in Hs as [(e & He & HY)|(e & He & Hrest)].
  - (* the match goes past [b] *)
    destruct e as [|e0 e].
    + rewrite app_nil_r in He.
      assert (Hc : oklch_tokens (tokens_text tk ++ Y) = Some tk)
        by now apply oklch_tokens_complete.
      rewrite He, <- app_assoc in Hc. simpl in Hc. congruence.
    + rewrite Htxt in He. destruct X as [|x X]; [congruence|].
      simpl in He. inversion He as [[Hx He']]. clear He.
      assert (Hin : In b mid).
      { assert (Hm : mid ++ [ch_rparen] = X ++ b :: (e0 :: e)).
        { rewrite He'. rewrite <- app_assoc. reflexivity. }
        clear - Hm. revert X Hm. induction mid as [|y mid IH]; intros X Hm.
        - destruct X as [|x X]; simpl in Hm; [discriminate|].
          inversion Hm. destruct X; discriminate.
        - destruct X as [|x X]; simpl in Hm; inversion Hm; subst.
          + now left.
          + right. eapply IH. eassumption. }
      rewrite forallb_forall in Hmid. rewrite (Hmid _ Hin) in Hb. discriminate.
  - (* the match ends at or before [b] *)
    assert (Hc : oklch_tokens (tokens_text tk ++ e ++ Y) = Some tk)
      by now apply oklch_tokens_complete.
    rewrite app_assoc, <- He, <- app_assoc in Hc. simpl in Hc. congruence.
Qed.

Lemma tscan_skip a b pos :
  tscan (List.length a) pos (a ++ b) = tscan 0 (pos + List.length a) b.
Proof.
  revert pos. induction a as [|x a IH]; intros pos; simpl.
  - now rewrite Nat.add_0_r.
  - rewrite IH. f_equal. lia.
Qed.

Lemma tscan_hit pos tk R :
  tokens_wf tk = true ->
  tscan 0 pos (tokens_text tk ++ R) = (pos, tk) :: tscan 0 (pos + tokens_len tk) R.
Proof.
  intros Hwf. destruct (tokens_text_shape _ Hwf) as (mid & Htxt & _).
  pose proof (oklch_tokens_complete tk R Hwf) as Hc.
  assert (Hlen : tokens_len tk = S (List.length (mid ++ [ch_rparen]))).
  { unfold tokens_len. now rewrite Htxt. }
  rewrite Htxt in *. cbn [app tscan]. cbn [app] in Hc. rewrite Hc. f_equal.
  replace (tokens_len tk - 1) with (List.length (mid ++ [ch_rparen])) by lia.
  rewrite tscan_skip. f_equal. lia.
Qed.

Lemma tscan_miss pos c s :
  oklch_tokens (c :: s) = None -> tscan 0 pos (c :: s) = tscan 0 (S pos) s.
Proof. intros H. cbn [tscan]. now rewrite H. Qed.

Lemma tscan_gap g X pos :
  (forall g0 g', g = g0 ++ g' -> g' <> [] -> oklch_tokens (g' ++ X) = None) ->
  tscan 0 pos (g ++ X) = tscan 0 (pos + List.length g) X.
Proof.
  revert pos. induction g as [|c g IH]; intros pos H.
  - simpl. now rewrite Nat.add_0_r.
  - cbn [app]. rewrite tscan_miss.
    + rewrite IH.
      * f_equal. simpl. lia.
      * intros g0 g' -> Hne. apply (H (c :: g0) g'); auto.
    + apply (H [] (c :: g)); [reflexivity|discriminate].
Qed.

(** Either no attempt succeeds anywhere in [s], or [s] is a gap in which every
    attempt fails, the first occurrence and the rest. *)
Lemma tscan_inv pos s :
  (tscan 0 pos s = [] /\ forall s0 s1, s = s0 ++ s1 -> oklch_tokens s1 = None)
  \/ (exists g tk R,
        s = g ++ tokens_text tk ++ R /\ tokens_wf tk = true
        /\ (forall g0 g', g = g0 ++ g' -> g' <> [] ->
                          oklch_tokens (g' ++ tokens_text tk ++ R) = None)
        /\ tscan 0 pos s =
           (pos + List.length g, tk) :: tscan 0 (pos + List.length g + tokens_len tk) R).
Proof.
  revert pos. induction s as [|c s IH]; intros pos.
  - left. split; [reflexivity|]. intros s0 s1 H.
    destruct s0; destruct s1; try discriminate. reflexivity.
  - destruct (oklch_tokens (c :: s)) as [tk|] eqn:E.
    + right. pose proof (oklch_tokens_sound _ _ E) as (Hwf & R & Hs).
      exists [], tk, R. cbn [app List.length]. repeat split; auto.
      * intros g0 g' H Hne. destruct g0; destruct g'; try discriminate. congruence.
      * rewrite Hs, tscan_hit by assumption. now rewrite Nat.add_0_r.
    + destruct (IH (S pos)) as [[Hnil Hall]|(g & tk & R & Hs & Hwf & Hgap & Hscan)].
      * left. split; [now rewrite tscan_miss|].
        intros s0 s1 H. destruct s0 as [|x s0]; simpl in H.
        -- now subst.
        -- inversion H; subst. eapply Hall. reflexivity.
      * right. exists (c :: g), tk, R. repeat split; auto.
        -- cbn [app]. now rewrite Hs.
        -- intros g0 g' H Hne. destruct g0 as [|x g0]; simpl in H.
           ++ subst g'. cbn [app]. now rewrite <- Hs.
           ++ inversion H; subst. eapply Hgap; eauto.
        -- rewrite tscan_miss, Hscan by assumption. simpl. do 2 f_equal; lia.
Qed.

Lemma tscan_shift d skip pos s :
  tscan skip (d + pos) s = List.map (shift_found d) (tscan skip pos s).
Proof.
  revert skip pos. induction s as [|c s IH]; intros skip pos; [reflexivity|].
  cbn [tscan]. replace (S (d + pos)) with (d + S pos) by lia.
  destruct skip as [|k]; [|apply IH].
  destruct (oklch_tokens (c :: s)) as [tk|]; [|apply IH].
  cbn [map]. f_equal. apply IH.
Qed.

Lemma search_tscan pos s :
  search oklch_regex pos s =
  option_map (fun x => match_of_tokens (fst x) (snd x)) (hd_error (tscan 0 pos s)).
Proof.
  revert pos. induction s as [|c s IH]; intros pos.
  - cbn [search tscan]. now rewrite rmatch_oklch.
  - cbn [search tscan]. rewrite rmatch_oklch. destruct (oklch_tokens (c :: s)) as [tk|].
    + cbn. unfold match_of_tokens. now rewrite app_nil_r.
    + apply IH.
Qed.

Lemma skipn_skipn' (A : Type) (a b : nat) (l : list A) :
  skipn a (skipn b l) = skipn (b + a) l.
Proof.
  revert l. induction b as [|b IH]; intros l; simpl; [reflexivity|].
  destruct l; simpl; [now destruct a|]. apply IH.
Qed.

Lemma parse_loop_tscan doc rs text :
  forall fuel lastIndex results,
    lastIndex <= List.length text -> List.length text - lastIndex < fuel ->
    parse_loop fuel doc rs text lastIndex results =
    Some (results ++ filter_map (fun x => parse_match doc rs text
                                            (match_of_tokens (fst x) (snd x)))
                       (tscan 0 lastIndex (skipn lastIndex text))).
Proof.
  induction fuel as [|fuel IH]; intros lastIndex results Hle Hfuel; [lia|].
  cbn [parse_loop]. unfold exec_from.
  apply Nat.leb_le in Hle as Hleb. rewrite Hleb, search_tscan.
  destruct (tscan_inv lastIndex (skipn lastIndex text))
    as [[Hnil _]|(g & tk & R & Hs & Hwf & _ & Hscan)].
  - rewrite Hnil. cbn. now rewrite app_nil_r.
  - rewrite Hscan. cbn [hd_error option_map filter_map fst snd].
    cbn [match_of_tokens mr_end].
    assert (Hlen : List.length text - lastIndex
                   = List.length g + tokens_len tk + List.length R).
    { rewrite <- length_skipn, Hs, !length_app. unfold tokens_len. lia. }
    pose proof (tokens_len_pos tk) as Hpos.
    assert (HR : skipn (lastIndex + List.length g + tokens_len tk) text = R).
    { replace (lastIndex + List.length g + tokens_len tk)
        with (lastIndex + (List.length g + tokens_len tk)) by lia.
      rewrite <- skipn_skipn', Hs. unfold tokens_len.
      rewrite app_assoc, <- length_app. apply skipn_len_app. }
    rewrite IH by lia. rewrite HR.
    destruct (parse_match doc rs text _); [|reflexivity].
    now rewrite <- app_assoc.
Qed.

(** ** The editor's positions and offsets *)


Lemma line_rest_app a b : no_lf a = true -> line_rest (a ++ b) = a ++ line_rest b.
Proof.
  unfold no_lf. induction a as [|x a IH]; simpl; [reflexivity|].
  rewrite Bool.andb_true_iff, Bool.negb_true_iff. intros [Hx Ha].
  rewrite Hx. now rewrite IH.
Qed.

Lemma next_line_app a b : no_lf a = true -> next_line (a ++ b) = next_line b.
Proof.
  unfold no_lf. induction a as [|x a IH]; simpl; [reflexivity|].
  rewrite Bool.andb_true_iff, Bool.negb_true_iff. intros [Hx Ha].
  rewrite Hx. now apply IH.
Qed.

Lemma from_line_S l doc :
  from_line (S l) doc =
  match from_line l doc with
  | Some t => next_line t
  | None => None
  end.
Proof.
  revert doc. induction l as [|l IH]; intros doc.
  - simpl. now destruct (next_line doc).
  - change (from_line (S (S l)) doc)
      with (match next_line doc with Some s' => from_line (S l) s' | None => None end).
    change (from_line (S l) doc)
      with (match next_line doc with Some s' => from_line l s' | None => None end).
    destruct (next_line doc); [apply IH|reflexivity].
Qed.

Lemma next_line_suffix s t : next_line s = Some t -> exists pre, s = pre ++ t.
Proof.
  revert t. induction s as [|x s IH]; intros t; simpl; [discriminate|].
  destruct (is_lf x).
  - intros H. inversion H; subst. now exists [x].
  - intros H. destruct (IH _ H) as (pre & ->). now exists (x :: pre).
Qed.

Lemma from_line_suffix l doc t : from_line l doc = Some t -> exists pre, doc = pre ++ t.
Proof.
  revert doc t. induction l as [|l IH]; intros doc t; simpl.
  - intros H. inversion H; subst. now exists [].
  - destruct (next_line doc) as [s|] eqn:E; [|discriminate].
    intros H. destruct (IH _ _ H) as (pre & ->).
    destruct (next_line_suffix _ _ E) as (pre' & ->).
    exists (pre' ++ pre). now rewrite app_assoc.
Qed.

Lemma position_walk_spec doc :
  forall off s l c cp,
    off <= List.length s ->
    from_line l doc = Some (cp ++ s) -> List.length cp = c -> no_lf cp = true ->
    exists cp',
      from_line (line (position_walk l c off s)) doc = Some (cp' ++ skipn off s)
      /\ List.length cp' = character (position_walk l c off s)
      /\ no_lf cp' = true.
Proof.
  induction off as [|off IH]; intros s l c cp Hle Hfrom Hlen Hnl.
  - exists cp. destruct s; simpl; auto.
  - destruct s as [|x s]; [simpl in Hle; lia|].
    cbn [position_walk skipn]. destruct (is_lf x) eqn:Ex.
    + apply (IH s (S l) 0 []); [simpl in Hle; lia| |reflexivity|reflexivity].
      rewrite from_line_S, Hfrom, (next_line_app _ _ Hnl). simpl. now rewrite Ex.
    + apply (IH s l (S c) (cp ++ [x])); [simpl in Hle; lia| | |].
      * now rewrite <- app_assoc.
      * rewrite length_app. simpl. lia.
      * unfold no_lf in *. rewrite forallb_app, Hnl. simpl. now rewrite Ex.
Qed.

Lemma positionAt_spec doc e :
  e <= List.length doc ->
  exists pre cp,
    doc = pre ++ cp ++ skipn e doc
    /\ from_line (line (positionAt doc e)) doc = Some (cp ++ skipn e doc)
    /\ List.length cp = character (positionAt doc e)
    /\ no_lf cp = true.
Proof.
  intros He. destruct (position_walk_spec doc e doc 0 0 [] He) as (cp & Hf & Hl & Hn); auto.
  destruct (from_line_suffix _ _ _ Hf) as (pre & Hd).
  exists pre, cp. auto.
Qed.

Lemma textAfter_positionAt doc e :
  e <= List.length doc -> textAfter doc (positionAt doc e) = line_rest (skipn e doc).
Proof.
  intros He. destruct (positionAt_spec doc e He) as (pre & cp & Hd & Hf & Hl & Hn).
  unfold textAfter, lineAt, substring_from. rewrite Hf, (line_rest_app _ _ Hn), <- Hl.
  apply skipn_len_app.
Qed.

Lemma offsetAt_positionAt doc e k :
  e <= List.length doc -> k <= List.length (line_rest (skipn e doc)) ->
  offsetAt doc (MkPos (line (positionAt doc e)) (character (positionAt doc e) + k)) = e + k.
Proof.
  intros He Hk. destruct (positionAt_spec doc e He) as (pre & cp & Hd & Hf & Hl & Hn).
  unfold offsetAt. cbn [line character]. rewrite Hf, (line_rest_app _ _ Hn).
  assert (Hlen : List.length doc
                 = List.length pre + List.length cp + List.length (skipn e doc)).
  { rewrite Hd at 1. rewrite !length_app. lia. }
  rewrite length_skipn in Hlen. rewrite !length_app, length_skipn.
  rewrite Nat.min_l by lia. lia.
Qed.

Lemma offsetAt_positionAt0 doc e :
  e <= List.length doc -> offsetAt doc (positionAt doc e) = e.
Proof.
  intros He. pose proof (offsetAt_positionAt doc e 0 He (Nat.le_0_l _)) as H.
  rewrite !Nat.add_0_r in H. destruct (positionAt doc e); exact H.
Qed.

Lemma getText_fullRange doc : getText doc (fullRange doc) = doc.
Proof.
  unfold getText, fullRange, substring. cbn [r_start r_end].
  rewrite !offsetAt_positionAt0 by lia. simpl. rewrite Nat.sub_0_r. apply firstn_all.
Qed.

(** ** The loop body on one occurrence *)

Lemma star_greedy_hd p pos s caps :
  hd_error (star_greedy p pos s caps) =
  Some (MState (pos + List.length (fst (span p s))) (snd (span p s)) caps).
Proof.
  revert pos. induction s as [|c s IH]; intros pos; simpl.
  - now rewrite Nat.add_0_r.
  - destruct (p c); simpl.
    + specialize (IH (S pos)). destruct (star_greedy p (S pos) s caps) as [|x l].
      * discriminate.
      * simpl in *. rewrite IH. destruct (span p s); simpl. do 2 f_equal. lia.
    + now rewrite Nat.add_0_r.
Qed.

Lemma search_plus p x a pos :
  forallb (fun c => negb (p c)) x = true -> forallb p a = true -> nonempty a = true ->
  search (rplus p) pos (x ++ a) =
  Some (MkMatch (pos + List.length x) (pos + List.length x + List.length a) []).
Proof.
  intros Hx Ha Hn. revert pos. induction x as [|c x IH]; intros pos.
  - destruct a as [|c a]; [discriminate|]. simpl in Ha.
    apply Bool.andb_true_iff in Ha as [Hc Ha].
    cbn [app search rplus rmatch step_class m_rest m_pos m_caps]. rewrite Hc.
    cbn [flat_map]. rewrite app_nil_r.
    pose proof (star_greedy_hd p (S pos) a []) as Hhd.
    assert (Hs : span p a = (a, [])).
    { rewrite <- (app_nil_r a) at 1. now apply span_eq. }
    rewrite Hs in Hhd. cbn [fst snd] in Hhd. cbn [m_pos m_rest m_caps].
    destruct (star_greedy p (S pos) a []) as [|st l]; [discriminate|].
    simpl in Hhd. inversion Hhd; subst. cbn [m_pos m_caps].
    simpl. f_equal. f_equal; try lia.
  - simpl in Hx. apply Bool.andb_true_iff in Hx as [Hc Hx].
    apply Bool.negb_true_iff in Hc.
    cbn [app search rplus rmatch step_class m_rest m_pos m_caps]. rewrite Hc.
    cbn [flat_map]. rewrite (IH Hx). simpl. f_equal. f_equal; try lia.
Qed.

Lemma substring_mid (x y z : jsstring) :
  substring (List.length x) (List.length x + List.length y) (x ++ y ++ z) = y.
Proof.
  unfold substring. rewrite skipn_len_app.
  replace (List.length x + List.length y - List.length x) with (List.length y) by lia.
  rewrite firstn_app, Nat.sub_diag, firstn_all. simpl. apply app_nil_r.
Qed.

Lemma substring_tail (x y : jsstring) :
  substring (List.length x) (List.length x + List.length y) (x ++ y) = y.
Proof.
  pose proof (substring_mid x y []) as H. now rewrite app_nil_r in H.
Qed.

Lemma alpha_prefix_not_alphach w3 w4 :
  forallb is_space w3 = true -> forallb is_space w4 = true ->
  forallb (fun c => negb (is_alphach c)) (w3 ++ ch_slash :: w4) = true.
Proof.
  intros H3 H4. rewrite forallb_app. cbn [forallb].
  assert (H : forall w, forallb is_space w = true ->
                        forallb (fun c => negb (is_alphach c)) w = true).
  { intros w. apply forallb_impl. intros c Hc. now rewrite (space_not_alphach _ Hc). }
  rewrite (H _ H3), (H _ H4). reflexivity.
Qed.

Lemma parse_alpha_tokens w3 w4 t :
  alpha_wf (Some (w3, w4, t)) = true ->
  parse_alpha (Some (alpha_text (Some (w3, w4, t)))) = Some (alpha_of_token t).
Proof.
  cbn [alpha_wf alpha_text]. rewrite !Bool.andb_true_iff. intros [[[H3 H4] Ht] Hn].
  unfold parse_alpha.
  cbn [alpha_text].
  match goal with
  | |- context [truthy ?x] =>
      assert (Htr : truthy x = true) by (destruct w3; reflexivity); rewrite Htr
  end.
  unfold str_match, alpha_value_regex.
  change (w3 ++ ch_slash :: w4 ++ t) with (w3 ++ (ch_slash :: w4) ++ t).
  rewrite app_assoc.
  rewrite (search_plus is_alphach _ t 0 (alpha_prefix_not_alphach _ _ H3 H4) Ht Hn).
  unfold match0. cbn [mr_index mr_end]. cbn [Nat.add].
  rewrite substring_tail. unfold alpha_of_token. now destruct (endsWith t ch_percent).
Qed.

Lemma substring_at (x y z text : jsstring) a b :
  text = x ++ y ++ z -> a = List.length x -> b = List.length x + List.length y ->
  substring a b text = y.
Proof. intros -> -> ->. apply substring_mid. Qed.

Lemma cap_lookup_123 pos tk :
  let a1 := pos + 6 + List.length (tk_w0 tk) in
  let b1 := a1 + List.length (tk_t1 tk) in
  let a2 := b1 + List.length (tk_w1 tk) in
  let b2 := a2 + List.length (tk_t2 tk) in
  let a3 := b2 + List.length (tk_w2 tk) in
  let b3 := a3 + List.length (tk_t3 tk) in
  cap_lookup 1 (tokens_caps pos tk) = Some (a1, b1)
  /\ cap_lookup 2 (tokens_caps pos tk) = Some (a2, b2)
  /\ cap_lookup 3 (tokens_caps pos tk) = Some (a3, b3)
  /\ cap_lookup 4 (tokens_caps pos tk) =
     match tk_alpha tk with
     | Some _ => Some (b3, b3 + List.length (alpha_text (tk_alpha tk)))
     | None => None
     end.
Proof.
  unfold tokens_caps. destruct (tk_alpha tk); cbn; auto.
Qed.

Lemma groups_of_tokens pre tk R :
  let text := pre ++ tokens_text tk ++ R in
  let m := match_of_tokens (List.length pre) tk in
  group_text text m 1 = tk_t1 tk /\ group_text text m 2 = tk_t2 tk
  /\ group_text text m 3 = tk_t3 tk /\ group text m 4 = tokens_alphaString tk
  /\ match0 text m = tokens_text tk.
Proof.
  intros text m.
  destruct (cap_lookup_123 (List.length pre) tk) as (C1 & C2 & C3 & C4).
  unfold group_text, group. subst m. cbn [match_of_tokens mr_caps].
  rewrite C1, C2, C3, C4. subst text. unfold tokens_text.
  destruct tk as [w0 t1 w1 t2 w2 t3 al wl].
  cbn [tk_w0 tk_t1 tk_w1 tk_t2 tk_w2 tk_t3 tk_alpha tk_wl].
  repeat split.
  - apply (substring_at (pre ++ lit "oklch(" ++ w0) t1
             (w1 ++ t2 ++ w2 ++ t3 ++ alpha_text al ++ wl ++ [ch_rparen] ++ R)).
    + now rewrite <- !app_assoc.
    + rewrite !length_app. simpl. lia.
    + rewrite !length_app. simpl. lia.
  - apply (substring_at (pre ++ lit "oklch(" ++ w0 ++ t1 ++ w1) t2
             (w2 ++ t3 ++ alpha_text al ++ wl ++ [ch_rparen] ++ R)).
    + now rewrite <- !app_assoc.
    + rewrite !length_app. simpl. lia.
    + rewrite !length_app. simpl. lia.
  - apply (substring_at (pre ++ lit "oklch(" ++ w0 ++ t1 ++ w1 ++ t2 ++ w2) t3
             (alpha_text al ++ wl ++ [ch_rparen] ++ R)).
    + now rewrite <- !app_assoc.
    + rewrite !length_app. simpl. lia.
    + rewrite !length_app. simpl. lia.
  - unfold tokens_alphaString. cbn [tk_alpha].
    destruct al as [x|]; [|reflexivity]. f_equal.
    apply (substring_at (pre ++ lit "oklch(" ++ w0 ++ t1 ++ w1 ++ t2 ++ w2 ++ t3)
             (alpha_text (Some x)) (wl ++ [ch_rparen] ++ R)).
    + now rewrite <- !app_assoc.
    + rewrite !length_app. simpl. lia.
    + rewrite !length_app. simpl. lia.
  - unfold match0. cbn [mr_index mr_end].
    apply (substring_at pre
             (lit "oklch(" ++ w0 ++ t1 ++ w1 ++ t2 ++ w2 ++ t3 ++ alpha_text al ++ wl
              ++ [ch_rparen]) R).
    + now rewrite <- !app_assoc.
    + reflexivity.
    + unfold tokens_len, tokens_text. reflexivity.
Qed.

Lemma parse_match_tokens doc rs pre tk R :
  tokens_wf tk = true ->
  parse_match doc rs (pre ++ tokens_text tk ++ R) (match_of_tokens (List.length pre) tk)
  = parsed_of_tokens doc rs (List.length pre, tk).
Proof.
  intros Hwf. destruct (groups_of_tokens pre tk R) as (G1 & G2 & G3 & G4 & G0).
  unfold parse_match, parsed_of_tokens. rewrite G1, G2, G3, G4, G0.
  assert (Ha : parse_alpha (tokens_alphaString tk) = tokens_alpha tk).
  { unfold tokens_alphaString, tokens_alpha.
    assert (Hal : alpha_wf (tk_alpha tk) = true).
    { unfold tokens_wf in Hwf. rewrite !Bool.andb_true_iff in Hwf. tauto. }
    destruct (tk_alpha tk) as [[[w3 w4] t]|]; [|reflexivity].
    now apply parse_alpha_tokens. }
  rewrite Ha. unfold tokens_valid, alpha_rejected.
  assert (Htr : truthy (tokens_alphaString tk)
                && match tokens_alpha tk with None => true | Some _ => false end = false).
  { unfold tokens_alpha, tokens_alphaString.
    destruct (tk_alpha tk) as [[[w3 w4] t]|]; [|reflexivity]. apply Bool.andb_false_r. }
  rewrite Htr. cbn [orb mr_index match_of_tokens].
  destruct (negb (isNaN (parseFloat (tk_t1 tk))) && negb (isNaN (parseFloat (tk_t2 tk)))
            && negb (isNaN (parseFloat (tk_t3 tk)))); [|reflexivity].
  cbn [andb]. destruct (tokens_alpha tk) as [a|]; cbn [negb].
  - destruct (isNaN a); [reflexivity|]. cbn [negb]. reflexivity.
  - reflexivity.
Qed.

(** ** The scanner in closed form *)

Lemma tscan_In s :
  forall pos p tk,
    In (p, tk) (tscan 0 pos s) ->
    exists pre R,
      s = pre ++ tokens_text tk ++ R /\ p = pos + List.length pre
      /\ tokens_wf tk = true.
Proof.
  remember (List.length s) as n eqn:Hn. revert s Hn.
  induction n as [n IH] using lt_wf_ind. intros s Hn pos p tk Hin.
  destruct (tscan_inv pos s) as [[Hnil _]|(g & tk0 & R & Hs & Hwf & _ & Hscan)].
  - rewrite Hnil in Hin. destruct Hin.
  - rewrite Hscan in Hin. destruct Hin as [Heq|Hin].
    + inversion Heq; subst p tk0. exists g, R. auto.
    + pose proof (tokens_len_pos tk0) as Hpos.
      assert (Hlen : List.length R < n).
      { subst n. rewrite Hs, !length_app. unfold tokens_len in Hpos. lia. }
      destruct (IH _ Hlen R eq_refl _ _ _ Hin) as (pre & R' & HR & Hp & Hwf').
      exists (g ++ tokens_text tk0 ++ pre), R'. repeat split; auto.
      * rewrite Hs, HR. now rewrite <- !app_assoc.
      * rewrite Hp, !length_app. unfold tokens_len. lia.
Qed.

Lemma filter_map_ext_in (A B : Type) (f g : A -> option B) l :
  (forall x, In x l -> f x = g x) -> filter_map f l = filter_map g l.
Proof.
  induction l as [|x l IH]; intros H; simpl; [reflexivity|].
  rewrite (H x (or_introl eq_refl)), IH; [reflexivity|].
  intros y Hy. apply H. now right.
Qed.

Lemma offsetAt_le doc p : offsetAt doc p <= List.length doc.
Proof.
  unfold offsetAt. destruct (from_line (line p) doc) as [s|] eqn:E; [|lia].
  destruct (from_line_suffix _ _ _ E) as (pre & Hd).
  assert (Hl : List.length (line_rest s) <= List.length s).
  { clear. induction s as [|c s IH]; simpl; [lia|]. destruct (is_lf c); simpl; lia. }
  assert (Hlen : List.length doc = List.length pre + List.length s).
  { rewrite Hd at 1. apply length_app. }
  lia.
Qed.

Lemma parser_closed doc r :
  parseOklchFunctionsInRange doc r =
  Some (filter_map (parsed_of_tokens doc (offsetAt doc (r_start r)))
          (tscan 0 0 (getText doc r))).
Proof.
  unfold parseOklchFunctionsInRange. rewrite parse_loop_tscan by lia.
  cbn [skipn app]. f_equal. apply filter_map_ext_in.
  intros [p tk] Hin. cbn [fst snd].
  destruct (tscan_In _ _ _ _ Hin) as (pre & R & Hs & Hp & Hwf).
  simpl in Hp. subst p. rewrite Hs. now apply parse_match_tokens.
Qed.

Lemma parser_total doc r : exists colors, parseOklchFunctionsInRange doc r = Some colors.
Proof. rewrite parser_closed. eauto. Qed.

Lemma parser_closed_full doc :
  parseOklchFunctionsInRange doc (fullRange doc) =
  Some (filter_map (parsed_of_tokens doc 0) (tscan 0 0 doc)).
Proof.
  rewrite parser_closed, getText_fullRange. unfold fullRange. cbn [r_start].
  now rewrite offsetAt_positionAt0 by lia.
Qed.

(** ** Signs of parsed numbers *)

Lemma binary_round_aux_sign s m e l :
  match binary_round_aux prec emax s m e l with
  | S754_nan => True
  | S754_zero s' | S754_infinity s' | S754_finite s' _ _ => s' = s
  end.
Proof.
  unfold binary_round_aux.
  destruct (shr_fexp prec emax m e l) as [mrs' e'].
  destruct (shr_fexp prec emax _ e' loc_Exact) as [mrs'' e''].
  destruct (shr_m mrs''); auto.
  destruct (Z.leb e'' (emax - prec)); auto.
Qed.

Lemma number_of_decimal_nn m e : nonneg_or_nan (number_of_decimal m e) = true.
Proof.
  unfold number_of_decimal. destruct m as [|p|p]; try reflexivity.
  destruct (SFdiv_core_binary prec emax _ 0 _ 0) as [[q e'] l].
  pose proof (binary_round_aux_sign false q e' l) as H.
  destruct (binary_round_aux prec emax false q e' l); subst; reflexivity.
Qed.

Lemma parse_unsigned_nn s : nonneg_or_nan (parse_unsigned s) = true.
Proof.
  unfold parse_unsigned. destruct (starts_with (lit "Infinity") s); [reflexivity|].
  destruct (span is_digit s) as [ip s1]. destruct s1 as [|c s2].
  - destruct ip; [reflexivity|apply number_of_decimal_nn].
  - destruct (N.eqb c 46).
    + destruct (span is_digit s2) as [fp s3].
      destruct (ip ++ fp); [reflexivity|apply number_of_decimal_nn].
    + destruct ip; [reflexivity|apply number_of_decimal_nn].
Qed.

Lemma trim_start_alphach c s : is_alphach c = true -> trim_start (c :: s) = c :: s.
Proof. intros H. simpl. now rewrite (alphach_not_space _ H). Qed.

Lemma parseFloat_alphach s :
  forallb is_alphach s = true -> parseFloat s = parse_unsigned s.
Proof.
  destruct s as [|c s]; [reflexivity|]. cbn [forallb].
  rewrite Bool.andb_true_iff. intros [Hc _]. unfold parseFloat.
  rewrite (trim_start_alphach _ _ Hc).
  apply is_alphach_iff in Hc.
  assert (H43 : N.eqb c 43 = false) by (apply N.eqb_neq; lia).
  assert (H45 : N.eqb c 45 = false) by (apply N.eqb_neq; lia).
  now rewrite H43, H45.
Qed.

Lemma forallb_removelast (p : code_unit -> bool) s :
  forallb p s = true -> forallb p (removelast s) = true.
Proof.
  induction s as [|c s IH]; [reflexivity|]. cbn [forallb].
  rewrite Bool.andb_true_iff. intros [Hc Hs]. simpl.
  destruct s; [reflexivity|]. cbn [forallb]. rewrite Hc. now apply IH.
Qed.

Lemma num_div_hundred_nn x :
  nonneg_or_nan x = true -> nonneg_or_nan (num_div x num_hundred) = true.
Proof.
  unfold num_div. change num_hundred with (S754_finite false 7036874417766400 (-46)).
  destruct x as [s|s| |s m e]; cbn [SFdiv]; unfold nonneg_or_nan; cbn [isNaN is_nonneg orb];
    try (now destruct s); try reflexivity.
  intros Hs. destruct (SFdiv_core_binary prec emax _ e _ _) as [[q e'] l].
  pose proof (binary_round_aux_sign (xorb s false) q e' l) as H.
  destruct (binary_round_aux prec emax (xorb s false) q e' l); subst;
    cbn [isNaN is_nonneg orb]; try reflexivity; now destruct s.
Qed.

Lemma alpha_of_token_nn t :
  forallb is_alphach t = true -> nonneg_or_nan (alpha_of_token t) = true.
Proof.
  intros Ht. unfold alpha_of_token. destruct (endsWith t ch_percent).
  - apply num_div_hundred_nn. unfold slice_drop_last.
    rewrite parseFloat_alphach by now apply forallb_removelast.
    apply parse_unsigned_nn.
  - rewrite parseFloat_alphach by assumption. apply parse_unsigned_nn.
Qed.

Lemma nonneg_leb x : is_nonneg x = true -> num_leb (S754_zero false) x = true.
Proof. destruct x as [s|s| |s m e]; simpl; try discriminate; now destruct s. Qed.

Lemma In_filter_map (A B : Type) (f : A -> option B) l y :
  In y (filter_map f l) <-> exists x, In x l /\ f x = Some y.
Proof.
  induction l as [|x l IH]; simpl.
  - split; [tauto|]. intros (x & [] & _).
  - destruct (f x) as [z|] eqn:E; simpl; rewrite IH; split.
    + intros [->|(x' & Hin & Hf)]; eauto.
    + intros (x' & [->|Hin] & Hf); [left; congruence|right; eauto].
    + intros (x' & Hin & Hf); eauto.
    + intros (x' & [->|Hin] & Hf); [congruence|eauto].
Qed.

Lemma parsed_of_tokens_some doc rs x c :
  parsed_of_tokens doc rs x = Some c -> tokens_valid (snd x) = true /\ c = color_of doc rs x.
Proof.
  destruct x as [p tk]. unfold parsed_of_tokens, color_of. cbn [fst snd].
  destruct (tokens_valid tk); [|discriminate]. intros H. inversion H. auto.
Qed.

Lemma emitted_color doc r colors c :
  parseOklchFunctionsInRange doc r = Some colors -> In c colors ->
  exists p tk,
    In (p, tk) (tscan 0 0 (getText doc r)) /\ occurrence_at (getText doc r) p tk
    /\ tokens_valid tk = true /\ c = color_of doc (offsetAt doc (r_start r)) (p, tk).
Proof.
  rewrite parser_closed. intros H Hin. inversion H; subst colors; clear H.
  apply In_filter_map in Hin as ([p tk] & Hin & Hf).
  apply parsed_of_tokens_some in Hf as [Hv ->]. exists p, tk.
  destruct (tscan_In _ _ _ _ Hin) as (pre & R & Hs & Hp & Hwf).
  repeat split; auto. exists pre, R. simpl in Hp. auto.
Qed.

(** ** Every occurrence is visited, once and in order *)

Lemma tscan_left_to_right s : forall pos, left_to_right pos (tscan 0 pos s).
Proof.
  remember (List.length s) as n eqn:Hn. revert s Hn.
  induction n as [n IH] using lt_wf_ind. intros s Hn pos.
  destruct (tscan_inv pos s) as [[Hnil _]|(g & tk & R & Hs & Hwf & _ & Hscan)].
  - rewrite Hnil. exact I.
  - rewrite Hscan. cbn [left_to_right]. split; [lia|].
    pose proof (tokens_len_pos tk) as Hpos.
    apply (IH (List.length R)); [|reflexivity].
    subst n. rewrite Hs, !length_app. unfold tokens_len in Hpos. lia.
Qed.

Lemma tokens_text_inj tk tk' R R' :
  tokens_wf tk = true -> tokens_wf tk' = true ->
  tokens_text tk ++ R = tokens_text tk' ++ R' -> tk = tk'.
Proof.
  intros Hwf Hwf' H.
  pose proof (oklch_tokens_complete tk R Hwf) as H1.
  pose proof (oklch_tokens_complete tk' R' Hwf') as H2.
  rewrite H in H1. congruence.
Qed.

Lemma suffix_of_shape (mid f x : jsstring) c :
  mid ++ [c] = x ++ f -> f <> [] ->
  match f with
  | y :: _ => In y mid \/ f = [c]
  | [] => False
  end.
Proof.
  revert x. induction mid as [|m mid IH]; intros x H Hne.
  - destruct x as [|x0 x]; simpl in H.
    + subst f. now right.
    + inversion H. destruct x; destruct f; try discriminate. congruence.
  - destruct x as [|x0 x]; simpl in H.
    + subst f. left. now left.
    + inversion H; subst. specialize (IH x H2 Hne).
      destruct f as [|y f]; [assumption|]. destruct IH as [Hin|Heq]; auto.
      left. now right.
Qed.

(** Two occurrences in one text do not share a code unit: an occurrence holds
    the letter o only as its first code unit. *)
Lemma no_overlap tk e f :
  tokens_wf tk = true -> tokens_text tk = e ++ f -> e <> [] -> f <> [] ->
  match f with
  | y :: _ => y <> ch_o
  | [] => True
  end.
Proof.
  intros Hwf H He Hf. destruct (tokens_text_shape _ Hwf) as (mid & Htxt & Hmid).
  rewrite Htxt in H. destruct e as [|e0 e]; [congruence|]. simpl in H.
  inversion H as [[H0 H1]]. pose proof (suffix_of_shape _ _ _ _ H1 Hf) as Hs.
  destruct f as [|y f]; [exact I|]. destruct Hs as [Hin|Heq].
  - rewrite forallb_forall in Hmid. specialize (Hmid _ Hin).
    intros ->. discriminate.
  - inversion Heq. discriminate.
Qed.

Lemma tokens_text_head tk R :
  tokens_wf tk = true -> exists t, tokens_text tk ++ R = ch_o :: t.
Proof.
  intros Hwf. destruct (tokens_text_shape _ Hwf) as (mid & -> & _). simpl. eauto.
Qed.

Lemma tscan_complete s :
  forall pos pre tk R,
    s = pre ++ tokens_text tk ++ R -> tokens_wf tk = true ->
    In (pos + List.length pre, tk) (tscan 0 pos s).
Proof.
  remember (List.length s) as n eqn:Hn. revert s Hn.
  induction n as [n IH] using lt_wf_ind. intros s Hn pos pre tk R Hs Hwf.
  pose proof (oklch_tokens_complete tk R Hwf) as Hc.
  destruct (tscan_inv pos s) as [[_ Hall]|(g & tk0 & R0 & Hs0 & Hwf0 & Hgap & Hscan)].
  - rewrite (Hall _ _ Hs) in Hc. discriminate.
  - rewrite Hscan. rewrite Hs in Hs0.
    apply app_prefix_cases in Hs0 as [(e & He & Ht)|(e & He & Ht)].
    + (* the occurrence starts inside the gap or right after it *)
      destruct e as [|e0 e].
      * rewrite app_nil_r in He. subst g. cbn [app] in Ht.
        left. f_equal. symmetry. now apply (tokens_text_inj tk tk0 R R0).
      * exfalso. rewrite Ht in Hc.
        rewrite (Hgap pre (e0 :: e) He) in Hc; discriminate.
    + destruct e as [|e0 e].
      * rewrite app_nil_r in He. subst pre. cbn [app] in Ht.
        left. f_equal. now apply (tokens_text_inj tk0 tk R0 R).
      * right. symmetry in Ht.
        apply app_prefix_cases in Ht as [(f & Hf & HR)|(f & Hf & HR)].
        -- (* inside the first occurrence: impossible *)
           destruct f as [|f0 f].
           ++ rewrite app_nil_r in Hf. cbn [app] in HR. symmetry in HR.
              assert (Hlen : List.length R0 < n).
              { subst n. rewrite Hs, He, HR, !length_app. simpl. lia. }
              pose proof (IH _ Hlen R0 eq_refl (pos + List.length g + tokens_len tk0)
                            [] tk R HR Hwf) as Hin.
              simpl in Hin. rewrite He, length_app, <- Hf.
              unfold tokens_len in *. rewrite Nat.add_0_r in Hin.
              now rewrite Nat.add_assoc.
           ++ exfalso.
              pose proof (no_overlap tk0 (e0 :: e) (f0 :: f) Hwf0 Hf) as Hno.
              destruct (tokens_text_head tk R Hwf) as (t & Hhd).
              rewrite Hhd in HR. cbn [app] in HR. inversion HR. subst f0.
              apply Hno; try discriminate. reflexivity.
        -- (* in what follows the first occurrence *)
           assert (Hlen : List.length R0 < n).
           { subst n. pose proof (tokens_len_pos tk0) as Hp. unfold tokens_len in Hp.
             rewrite Hs, He, !length_app, Hf, !length_app, HR, !length_app. lia. }
           pose proof (IH _ Hlen R0 eq_refl (pos + List.length g + tokens_len tk0)
                         f tk R HR Hwf) as Hin.
           rewrite He, Hf, !length_app. unfold tokens_len in *.
           replace (pos + (List.length g + (List.length (tokens_text tk0) + List.length f)))
             with (pos + List.length g + List.length (tokens_text tk0) + List.length f)
             by lia.
           exact Hin.
Qed.

(** ** The comment patterns in closed form *)

Lemma rk_comment_tail (g : mstate -> mstate) s :
  forall pos caps,
    hd_error (rk (RSeq (RStar false is_dot_char) (RSeq (RChar ch_star) (RChar ch_slash)))
                 (fun st => [g st]) (MState pos s caps))
    = match comment_body s with
      | Some (b, rest) => Some (g (MState (pos + List.length b + 2) rest caps))
      | None => None
      end.
Proof.
  induction s as [|c s IH]; intros pos caps.
  - reflexivity.
  - rewrite rk_seq. unfold rk at 1. cbn [rmatch m_pos m_rest m_caps star_lazy flat_map].
    rewrite rk_seq, rk_char. cbn [comment_body].
    destruct (unit_eqb ch_star c) eqn:Ec.
    + rewrite rk_char. destruct s as [|d s'].
      * cbn [starts_with andb app]. destruct (is_dot_char c); reflexivity.
      * cbn [starts_with]. destruct (unit_eqb ch_slash d) eqn:Ed.
        -- cbn [andb app hd_error skipn List.length]. do 2 f_equal. f_equal. lia.
        -- cbn [andb app]. destruct (is_dot_char c) eqn:Edot; [|reflexivity].
           specialize (IH (S pos) caps). rewrite rk_seq in IH. unfold rk at 1 in IH.
           cbn [rmatch m_pos m_rest m_caps] in IH. rewrite IH.
           destruct (comment_body (d :: s')) as [[b rest]|]; [|reflexivity].
           cbn [List.length]. do 2 f_equal. f_equal. lia.
    + cbn [andb app]. destruct (is_dot_char c) eqn:Edot; [|reflexivity].
      specialize (IH (S pos) caps). rewrite rk_seq in IH. unfold rk at 1 in IH.
      cbn [rmatch m_pos m_rest m_caps] in IH. rewrite IH.
      destruct (comment_body s) as [[b rest]|]; [|reflexivity].
      cbn [List.length]. do 2 f_equal. f_equal. lia.
Qed.

Lemma rk_block_hd (g : mstate -> mstate) pos s caps :
  hd_error (rk block_comment (fun st => [g st]) (MState pos s caps))
  = if starts_with [ch_slash; ch_star] s then
      match comment_body (skipn 2 s) with
      | Some (b, rest) => Some (g (MState (pos + (List.length b + 4)) rest caps))
      | None => None
      end
    else None.
Proof.
  unfold block_comment. cbn [rseq]. rewrite rk_seq, rk_char.
  destruct s as [|c s]; [reflexivity|]. cbn [starts_with].
  destruct (unit_eqb ch_slash c); [|reflexivity]. rewrite rk_seq, rk_char.
  destruct s as [|d s]; [reflexivity|]. cbn [starts_with].
  destruct (unit_eqb ch_star d); [|reflexivity]. cbn [andb skipn].
  rewrite rk_comment_tail. destruct (comment_body s) as [[b rest]|]; [|reflexivity].
  do 2 f_equal. f_equal. lia.
Qed.

Lemma search_bol_fail r s : forall pos, 0 < pos -> search (RSeq RBol r) pos s = None.
Proof.
  induction s as [|c s IH]; intros pos Hpos; cbn [search rmatch m_pos].
  - destruct pos; [lia|reflexivity].
  - destruct pos; [lia|]. cbn [Nat.eqb flat_map]. apply IH. lia.
Qed.

Lemma str_match_bol r s :
  str_match (RSeq RBol r) s =
  match hd_error (rmatch (RSeq RBol r) (MState 0 s [])) with
  | Some st => Some (MkMatch 0 (m_pos st) (m_caps st))
  | None => None
  end.
Proof.
  unfold str_match. destruct s as [|c s]; cbn [search];
    destruct (rmatch (RSeq RBol r) _) as [|st l]; try reflexivity.
  apply search_bol_fail. lia.
Qed.

Lemma comment_split_length ws cm rest s :
  comment_split s = Some (ws, cm, rest) ->
  exists b, cm = ch_slash :: ch_star :: b ++ [ch_star; ch_slash].
Proof.
  unfold comment_split. destruct (span is_space s) as [w r].
  destruct (starts_with [ch_slash; ch_star] r); [|discriminate].
  destruct (comment_body (skipn 2 r)) as [[b rest']|]; [|discriminate].
  intros H. inversion H; subst. eauto.
Qed.

Lemma str_match_comment1 s :
  str_match comment_regex1 s =
  match comment_split s with
  | Some (ws, cm, rest) =>
      Some (MkMatch 0 (List.length ws + List.length cm)
              [(1, (List.length ws, List.length ws + List.length cm))])
  | None => None
  end.
Proof.
  unfold comment_regex1. cbn [rseq]. rewrite str_match_bol.
  rewrite rmatch_rk, rk_seq, rk_bol. cbn [m_pos Nat.eqb].
  rewrite rk_seq, rk_star.
  2:{ apply fails_on_group. intros k'. unfold block_comment. cbn [rseq].
      apply fails_on_seq, fails_on_char, space_not_slash. }
  rewrite rk_group. unfold comment_split.
  destruct (span is_space s) as [ws r]. cbn [fst snd Nat.add].
  pose proof (rk_block_hd (fun st' => with_cap 1 (MState (List.length ws) r []) st')
                (List.length ws) r []) as H.
  cbv beta in H. rewrite H. clear H.
  destruct (starts_with [ch_slash; ch_star] r); [|reflexivity].
  destruct (comment_body (skipn 2 r)) as [[b rest]|]; [|reflexivity].
  unfold with_cap. cbn [m_pos m_caps]. cbn [List.length]. rewrite length_app. cbn [List.length].
  replace (S (S (List.length b + 2))) with (List.length b + 4) by lia. reflexivity.
Qed.

Lemma str_match_comment2 s :
  str_match comment_regex2 s =
  match comment_split s with
  | Some (ws, cm, rest) =>
      Some (MkMatch 0 (List.length ws + List.length cm)
              [(2, (List.length ws, List.length ws + List.length cm));
               (1, (0, List.length ws))])
  | None => None
  end.
Proof.
  unfold comment_regex2. cbn [rseq]. rewrite str_match_bol.
  rewrite rmatch_rk, rk_seq, rk_bol. cbn [m_pos Nat.eqb].
  rewrite rk_seq, rk_group, rk_star.
  2:{ apply fails_on_with_cap, fails_on_group. intros k'. unfold block_comment. cbn [rseq].
      apply fails_on_seq, fails_on_char, space_not_slash. }
  rewrite rk_group. unfold comment_split.
  destruct (span is_space s) as [ws r]. cbn [fst snd Nat.add].
  change (with_cap 1 (MState 0 s []) (MState (List.length ws) r []))
    with (MState (List.length ws) r [(1, (0, List.length ws))]).
  pose proof (rk_block_hd
                (fun st' => with_cap 2 (MState (List.length ws) r [(1, (0, List.length ws))]) st')
                (List.length ws) r [(1, (0, List.length ws))]) as H.
  cbv beta in H. rewrite H. clear H.
  destruct (starts_with [ch_slash; ch_star] r); [|reflexivity].
  destruct (comment_body (skipn 2 r)) as [[b rest]|]; [|reflexivity].
  unfold with_cap. cbn [m_pos m_caps]. cbn [List.length]. rewrite length_app. cbn [List.length].
  replace (S (S (List.length b + 2))) with (List.length b + 4) by lia. reflexivity.
Qed.

Lemma comment_body_sound s b rest :
  comment_body s = Some (b, rest) ->
  s = b ++ ch_star :: ch_slash :: rest /\ forallb is_dot_char b = true
  /\ has_star_slash b = false.
Proof.
  revert b rest. induction s as [|c s IH]; intros b rest; cbn [comment_body]; [discriminate|].
  destruct (unit_eqb ch_star c && starts_with [ch_slash] s) eqn:E.
  - intros H. inversion H; subst. apply Bool.andb_true_iff in E as [Ec Es].
    apply unit_eqb_iff in Ec. subst c. destruct s as [|d s]; [discriminate|].
    cbn [starts_with] in Es. rewrite Bool.andb_true_r in Es.
    apply unit_eqb_iff in Es. subst d. auto.
  - destruct (is_dot_char c) eqn:Ed; [|discriminate].
    destruct (comment_body s) as [[b' rest']|]; [|discriminate].
    intros H. inversion H; subst. destruct (IH _ _ eq_refl) as (Hs & Hb & Hn).
    subst s. repeat split.
    + cbn [forallb]. now rewrite Ed, Hb.
    + cbn [has_star_slash]. rewrite Hn, Bool.orb_false_r.
      destruct (unit_eqb ch_star c); [|reflexivity]. cbn [andb] in *.
      destruct b' as [|x b']; [reflexivity|]. exact E.
Qed.

Lemma comment_body_complete b rest :
  forallb is_dot_char b = true -> has_star_slash b = false ->
  comment_body (b ++ ch_star :: ch_slash :: rest) = Some (b, rest).
Proof.
  induction b as [|c b IH]; intros Hb Hn.
  - reflexivity.
  - cbn [forallb has_star_slash] in *. apply Bool.andb_true_iff in Hb as [Hc Hb].
    apply Bool.orb_false_iff in Hn as [Hn1 Hn2].
    cbn [app comment_body].
    assert (E : unit_eqb ch_star c && starts_with [ch_slash] (b ++ ch_star :: ch_slash :: rest)
                = false).
    { destruct (unit_eqb ch_star c); [|reflexivity]. cbn [andb] in *.
      destruct b as [|x b]; [reflexivity|]. exact Hn1. }
    rewrite E, Hc, (IH Hb Hn2). reflexivity.
Qed.

Lemma comment_split_sound s ws cm rest :
  comment_split s = Some (ws, cm, rest) ->
  s = ws ++ cm ++ rest /\ forallb is_space ws = true
  /\ exists b, cm = ch_slash :: ch_star :: b ++ [ch_star; ch_slash]
               /\ forallb is_dot_char b = true /\ has_star_slash b = false.
Proof.
  unfold comment_split. pose proof (span_app is_space s) as Happ.
  pose proof (span_all is_space s) as Hall.
  destruct (span is_space s) as [w r]. cbn [fst snd] in *.
  destruct (starts_with [ch_slash; ch_star] r) eqn:E; [|discriminate].
  apply starts_with_app in E. cbn [List.length] in E.
  destruct (comment_body (skipn 2 r)) as [[b rest']|] eqn:Eb; [|discriminate].
  intros H. inversion H; subst ws cm rest; clear H.
  apply comment_body_sound in Eb as (Hs & Hb & Hn). repeat split; auto.
  - rewrite <- Happ, E, Hs. cbn [app]. rewrite <- app_assoc. reflexivity.
  - exists b. auto.
Qed.

Lemma comment_split_complete ws b rest :
  forallb is_space ws = true -> forallb is_dot_char b = true -> has_star_slash b = false ->
  comment_split (ws ++ (ch_slash :: ch_star :: b ++ [ch_star; ch_slash]) ++ rest)
  = Some (ws, ch_slash :: ch_star :: b ++ [ch_star; ch_slash], rest).
Proof.
  intros Hw Hb Hn. unfold comment_split. cbn [app].
  rewrite (span_eq is_space ws (ch_slash :: _) Hw slash_not_space).
  cbn [starts_with]. rewrite !unit_eqb_refl. cbn [andb skipn].
  rewrite <- app_assoc. cbn [app]. now rewrite comment_body_complete.
Qed.

Lemma jsstring_eqb_iff a b : jsstring_eqb a b = true <-> a = b.
Proof.
  revert b. induction a as [|x a IH]; intros [|y b]; cbn [jsstring_eqb];
    try (split; [discriminate|discriminate]); [tauto|].
  rewrite Bool.andb_true_iff, unit_eqb_iff, IH. split.
  - intros [-> ->]. reflexivity.
  - intros H. inversion H. auto.
Qed.

Lemma indexOf_from_spaces ws cm rest i :
  forallb is_space ws = true ->
  match cm with c :: _ => is_space c = false | [] => False end ->
  indexOf_from i (ws ++ cm ++ rest) cm = Z.of_nat (i + List.length ws).
Proof.
  intros Hw Hc. revert i. induction ws as [|x ws IH]; intros i.
  - cbn [app indexOf_from List.length]. 
    assert (H : starts_with cm (cm ++ rest) = true) by apply starts_with_app_iff.
    destruct cm as [|c cm]; [destruct Hc|].
    cbn [app indexOf_from] in *. rewrite H. f_equal. lia.
  - cbn [forallb] in Hw. apply Bool.andb_true_iff in Hw as [Hx Hw].
    destruct cm as [|c cm]; [destruct Hc|].
    cbn [app indexOf_from starts_with].
    assert (E : unit_eqb c x = false).
    { apply Bool.not_true_is_false. rewrite unit_eqb_iff. intros ->. congruence. }
    rewrite E. cbn [andb]. rewrite (IH Hw). f_equal. cbn [List.length]. lia.
Qed.

Lemma trim_comment base :
  trim (lit " /* " ++ base ++ lit " */") = lit "/* " ++ base ++ lit " */".
Proof.
  unfold trim.
  change (trim_start (lit " /* " ++ base ++ lit " */"))
    with (lit "/* " ++ base ++ lit " */").
  assert (H : exists Z, rev (lit "/* " ++ base ++ lit " */") = 47%N :: Z).
  { change (lit "/* " ++ base ++ lit " */")
      with (lit "/* " ++ base ++ [32%N; 42%N; 47%N]).
    rewrite !rev_app_distr. cbn [rev app]. eexists. reflexivity. }
  destruct H as [Z HZ]. rewrite HZ.
  change (trim_start (47%N :: Z)) with (47%N :: Z).
  rewrite <- HZ. apply rev_involutive.
Qed.

(** ** Comparisons of numbers *)

Lemma shr_1_nonneg mrs : (0 <= shr_m mrs)%Z -> (0 <= shr_m (shr_1 mrs))%Z.
Proof.
  destruct mrs as [m r s]. destruct m as [|p|p]; [|destruct p|]; simpl; lia.
Qed.

Lemma iter_pos_inv (A : Type) (P : A -> Prop) (f : A -> A) :
  (forall x, P x -> P (f x)) -> forall n x, P x -> P (iter_pos f n x).
Proof.
  intros Hf. induction n as [n IH|n IH|]; intros x Hx; simpl; auto.
Qed.

Lemma shr_nonneg mrs e n : (0 <= shr_m mrs)%Z -> (0 <= shr_m (fst (shr mrs e n)))%Z.
Proof.
  intros H. destruct n; simpl; auto.
  apply (iter_pos_inv _ (fun x => (0 <= shr_m x)%Z)); auto using shr_1_nonneg.
Qed.

Lemma shr_fexp_nonneg m e l :
  (0 <= m)%Z -> (0 <= shr_m (fst (shr_fexp prec emax m e l)))%Z.
Proof.
  intros H. unfold shr_fexp. apply shr_nonneg. destruct l as [|[]]; simpl; auto.
Qed.

Lemma round_nearest_even_nonneg m l : (0 <= m)%Z -> (0 <= round_nearest_even m l)%Z.
Proof.
  intros H. destruct l as [|[]]; simpl; try lia. destruct (Z.even m); lia.
Qed.

Lemma binary_round_aux_not_nan s m e l :
  (0 <= m)%Z -> isNaN (binary_round_aux prec emax s m e l) = false.
Proof.
  intros H. unfold binary_round_aux.
  pose proof (shr_fexp_nonneg m e l H) as H1.
  destruct (shr_fexp prec emax m e l) as [mrs' e']. cbn [fst] in H1.
  pose proof (round_nearest_even_nonneg _ (loc_of_shr_record mrs') H1) as H2.
  pose proof (shr_fexp_nonneg _ e' loc_Exact H2) as H3.
  destruct (shr_fexp prec emax _ e' loc_Exact) as [mrs'' e'']. cbn [fst] in H3.
  destruct (shr_m mrs''); [reflexivity| |lia].
  destruct (Z.leb e'' (emax - prec)); reflexivity.
Qed.

Lemma binary_normalize_not_nan m e sz : isNaN (binary_normalize prec emax m e sz) = false.
Proof.
  unfold binary_normalize, binary_round. destruct m as [|p|p]; [reflexivity| |];
    destruct (shl_align _ _ _) as [mz ez]; apply binary_round_aux_not_nan; lia.
Qed.

Lemma sub_one_not_nan a : isNaN a = false -> isNaN (num_abs (num_sub a num_one)) = false.
Proof.
  intros Ha. assert (H : isNaN (num_sub a num_one) = false).
  { unfold num_sub. change num_one with (S754_finite false 4503599627370496 (-52)).
    destruct a as [s|s| |s m e]; try reflexivity; [discriminate|].
    cbn [SFsub]. apply binary_normalize_not_nan. }
  unfold num_abs. destruct (num_sub a num_one); try reflexivity. discriminate.
Qed.

Lemma SFcompare_finite_antisym m1 e1 m2 e2 :
  SFcompare (S754_finite false m2 e2) (S754_finite false m1 e1)
  = option_map CompOpp (SFcompare (S754_finite false m1 e1) (S754_finite false m2 e2)).
Proof.
  cbn [SFcompare option_map]. rewrite (Z.compare_antisym e1 e2).
  destruct (Z.compare e1 e2); cbn [CompOpp]; try reflexivity.
  now rewrite (Pos.compare_cont_antisym m1 m2 Eq).
Qed.

Lemma leb_epsilon_not_ltb y :
  isNaN y = false -> num_leb alpha_epsilon y = negb (num_ltb y alpha_epsilon).
Proof.
  intros Hy. unfold num_leb, num_ltb, SFleb, SFltb.
  assert (He : exists m e, alpha_epsilon = S754_finite false m e)
    by (vm_compute; eauto).
  destruct He as (me & ee & ->).
  destruct y as [s|s| |s m e]; try discriminate.
  - reflexivity.
  - destruct s; reflexivity.
  - destruct s; [reflexivity|]. rewrite SFcompare_finite_antisym.
    cbn [SFcompare option_map].
    destruct (Z.compare e ee); try reflexivity.
    destruct (Pos.compare_cont Eq m me); reflexivity.
Qed.

(** ** The palette lookup *)

Lemma approxEqual_within a b : approxEqual a b default_epsilon = within_tolerance a b.
Proof. reflexivity. Qed.

(** C3. [findColorName] returns the name of the first entry, in table order,
    whose three components all lie within 1e-4 of the given ones, and nothing
    when no entry does. *)
Theorem findColorName_first_match (colorMap : list ColorMapEntry) (l c h : number) :
  match findColorName colorMap l c h with
  | Some n =>
      exists before entry after,
        colorMap = before ++ entry :: after /\ n = name entry
        /\ entry_close l c h entry = true
        /\ forallb (fun e => negb (entry_close l c h e)) before = true
  | None => forallb (fun e => negb (entry_close l c h e)) colorMap = true
  end.
Proof.
  induction colorMap as [|e cm IH]; [reflexivity|].
  cbn [findColorName]. rewrite !approxEqual_within.
  fold (entry_close l c h e). destruct (entry_close l c h e) eqn:E.
  - exists [], e, cm. auto.
  - destruct (findColorName cm l c h) as [n|].
    + destruct IH as (before & entry & after & -> & -> & Hc & Hb).
      exists (e :: before), entry, after. repeat split; auto.
      cbn [forallb]. now rewrite E, Hb.
    + cbn [forallb]. now rewrite E, IH.
Qed.

(** ** The scanner's contract *)

Lemma left_to_right_le a b l : b <= a -> left_to_right a l -> left_to_right b l.
Proof. destruct l as [|[p tk] l]; simpl; [auto|]. intros H [H1 H2]. split; [lia|auto]. Qed.

Lemma left_to_right_filter (f : nat * OklchTokens -> bool) l :
  forall from, left_to_right from l -> left_to_right from (filter f l).
Proof.
  induction l as [|[p tk] l IH]; intros from H; [exact I|].
  destruct H as [H1 H2]. cbn [filter]. destruct (f (p, tk)).
  - split; [assumption|]. now apply IH.
  - apply IH. apply (left_to_right_le (p + tokens_len tk)); [lia|assumption].
Qed.

Lemma left_to_right_from l :
  forall from q tk, left_to_right from l -> In (q, tk) l -> from <= q.
Proof.
  induction l as [|[p t] l IH]; intros from q tk H Hin; [destruct Hin|].
  destruct H as [H1 H2]. destruct Hin as [Heq|Hin].
  - inversion Heq; subst. assumption.
  - specialize (IH _ _ _ H2 Hin). lia.
Qed.

Lemma left_to_right_pairwise l :
  forall from p tk q tk',
    left_to_right from l -> In (p, tk) l -> In (q, tk') l ->
    (p, tk) = (q, tk') \/ p + tokens_len tk <= q \/ q + tokens_len tk' <= p.
Proof.
  induction l as [|[p0 t0] l IH]; intros from p tk q tk' H Hp Hq; [destruct Hp|].
  destruct H as [H1 H2]. destruct Hp as [Hp|Hp]; destruct Hq as [Hq|Hq].
  - left. congruence.
  - inversion Hp; subst. right. left. eapply left_to_right_from; eauto.
  - inversion Hq; subst. right. right. eapply left_to_right_from; eauto.
  - eapply IH; eauto.
Qed.

Lemma filter_map_parsed doc rs l :
  filter_map (parsed_of_tokens doc rs) l =
  List.map (color_of doc rs) (filter (fun x => tokens_valid (snd x)) l).
Proof.
  induction l as [|[p tk] l IH]; [reflexivity|].
  cbn [filter_map filter snd]. unfold parsed_of_tokens at 1.
  destruct (tokens_valid tk); cbn [map]; now rewrite IH.
Qed.

Lemma tscan_occurrence text p tk :
  In (p, tk) (tscan 0 0 text) <-> occurrence_at text p tk.
Proof.
  split.
  - intros H. destruct (tscan_In _ _ _ _ H) as (pre & R & Hs & Hp & Hwf).
    exists pre, R. simpl in Hp. auto.
  - intros (pre & R & Hs & Hp & Hwf). subst p.
    apply (tscan_complete text 0 pre tk R Hs Hwf).
Qed.

(** C1 (amended). For every document and range, the scanner returns, and what
    it returns is one record per occurrence of the pattern
    [oklch(] white space* token white space+ token white space+ token
    [white space* / white space* alpha-token] white space* [)] whose numbers
    are not NaN, from left to right, no occurrence reaching into the next; a
    token is a non-empty run of digits and dots, an alpha token a non-empty
    run of digits, dots and percent signs. *)
Theorem scanner_emits_occurrences (doc : TextDocument) (r : Range) :
  exists occs,
    parseOklchFunctionsInRange doc r
    = Some (List.map (color_of doc (offsetAt doc (r_start r))) occs)
    /\ (forall p tk, In (p, tk) occs <->
                     occurrence_at (getText doc r) p tk /\ tokens_valid tk = true)
    /\ left_to_right 0 occs.
Proof.
  exists (filter (fun x => tokens_valid (snd x)) (tscan 0 0 (getText doc r))).
  split; [|split].
  - rewrite parser_closed. f_equal. apply filter_map_parsed.
  - intros p tk. rewrite filter_In, tscan_occurrence. cbn [snd]. tauto.
  - apply left_to_right_filter, tscan_left_to_right.
Qed.

(** C1, counterexample: a first component with two dots is emitted, with the
    value of its longest decimal prefix, though the text is no occurrence of
    the grammar the claim states. *)
Lemma scanner_accepts_two_dots :
  parseOklchFunctionsInRange (lit "oklch(1.2.3 0 0)") (fullRange (lit "oklch(1.2.3 0 0)"))
  = Some [MkParsed (number_of_decimal 12 (-1)) (number_of_decimal 0 0) (number_of_decimal 0 0)
            None None (MkRange (MkPos 0 0) (MkPos 0 16))]
  /\ conforms_to_spec_grammar (lit "oklch(1.2.3 0 0)") = false
  /\ conforms_to_spec_grammar (lit "oklch(1.2 0 0)") = true.
Proof. vm_compute. auto. Qed.

(** ** Alpha values *)

Lemma getText_bound doc r :
  offsetAt doc (r_start r) + List.length (getText doc r) <= List.length doc.
Proof.
  unfold getText, substring. pose proof (offsetAt_le doc (r_start r)) as H.
  rewrite length_firstn, length_skipn. lia.
Qed.

Lemma span_of_color doc r p tk :
  occurrence_at (getText doc r) p tk ->
  span_of doc (color_of doc (offsetAt doc (r_start r)) (p, tk))
  = (offsetAt doc (r_start r) + p, offsetAt doc (r_start r) + (p + tokens_len tk)).
Proof.
  intros (pre & R & Hs & Hp & Hwf). pose proof (getText_bound doc r) as Hb.
  rewrite Hs, !length_app in Hb. fold (tokens_len tk) in Hb.
  unfold span_of, color_of. cbn [range r_start r_end fst snd].
  rewrite !offsetAt_positionAt0 by lia. reflexivity.
Qed.

(** C2 (amended). An occurrence whose alpha part parses to NaN is skipped as a
    whole: no emitted record spans any of it; and every emitted record that
    has an alpha text has a numeric alpha that is not NaN. *)
Theorem malformed_alpha_skipped (doc : TextDocument) (r : Range) :
  exists colors,
    parseOklchFunctionsInRange doc r = Some colors
    /\ (forall p tk a,
          occurrence_at (getText doc r) p tk -> tokens_alpha tk = Some a ->
          isNaN a = true ->
          forall c, In c colors ->
            snd (span_of doc c) <= offsetAt doc (r_start r) + p
            \/ offsetAt doc (r_start r) + p + tokens_len tk <= fst (span_of doc c))
    /\ (forall c, In c colors -> alphaString c <> None ->
          exists a, alpha c = Some a /\ isNaN a = false).
Proof.
  destruct (parser_total doc r) as (colors & Hparse). exists colors.
  split; [assumption|]. split.
  - intros p tk a Hocc Ha Hnan c Hin.
    destruct (emitted_color _ _ _ _ Hparse Hin) as (q & tk' & Hq & Hocc' & Hv & ->).
    rewrite (span_of_color _ _ _ _ Hocc'). cbn [fst snd].
    apply tscan_occurrence in Hocc.
    destruct (left_to_right_pairwise _ 0 p tk q tk' (tscan_left_to_right _ 0) Hocc Hq)
      as [Heq|[H|H]]; [|lia|lia].
    inversion Heq; subst. exfalso. unfold tokens_valid in Hv. rewrite Ha, Hnan in Hv.
    cbn in Hv. now rewrite Bool.andb_false_r in Hv.
  - intros c Hin Hal.
    destruct (emitted_color _ _ _ _ Hparse Hin) as (q & tk' & Hq & Hocc' & Hv & ->).
    cbn [color_of alpha alphaString snd] in *.
    unfold tokens_valid, tokens_alphaString, tokens_alpha in *.
    destruct (tk_alpha tk') as [[[w3 w4] t]|]; [|congruence].
    exists (alpha_of_token t). split; [reflexivity|].
    rewrite !Bool.andb_true_iff in Hv. destruct Hv as [_ Hv].
    apply Bool.negb_true_iff in Hv. exact Hv.
Qed.

(** C2, counterexample: an alpha of 310 digits parses to +infinity, which is
    not a finite number, and the occurrence is emitted all the same. *)
Lemma infinite_alpha_emitted :
  let doc := lit "oklch(0 0 0 / 1" ++ repeat 48%N 309 ++ lit ")" in
  exists c,
    parseOklchFunctionsInRange doc (fullRange doc) = Some [c]
    /\ alphaString c = Some (lit " / 1" ++ repeat 48%N 309)
    /\ alpha c = Some (S754_infinity false)
    /\ is_finite (S754_infinity false) = false
    /\ span_of doc c = (0, List.length doc).
Proof.
  eexists. vm_compute. repeat split.
Qed.

(** C9 (amended). The alpha of an emitted record is the alpha token read by
    [parseFloat], divided by 100 when the token ends with a percent sign; it
    is never NaN and never negative, and nothing bounds it from above. *)
Theorem alpha_normalized_nonneg (doc : TextDocument) (r : Range)
  (colors : list ParsedOklch) (c : ParsedOklch) (a : number) :
  parseOklchFunctionsInRange doc r = Some colors -> In c colors -> alpha c = Some a ->
  exists w3 w4 tok,
    alphaString c = Some (w3 ++ ch_slash :: w4 ++ tok)
    /\ forallb is_space w3 = true /\ forallb is_space w4 = true
    /\ forallb is_alphach tok = true
    /\ a = (if endsWith tok ch_percent
            then num_div (parseFloat (slice_drop_last tok)) num_hundred
            else parseFloat tok)
    /\ isNaN a = false
    /\ num_leb (S754_zero false) a = true.
Proof.
  intros Hparse Hin Ha.
  destruct (emitted_color _ _ _ _ Hparse Hin) as (q & tk & Hq & Hocc & Hv & ->).
  destruct Hocc as (pre & R & _ & _ & Hwf).
  cbn [color_of alpha alphaString snd] in *.
  unfold tokens_valid, tokens_alphaString, tokens_alpha in *.
  assert (Hal : alpha_wf (tk_alpha tk) = true).
  { unfold tokens_wf in Hwf. rewrite !Bool.andb_true_iff in Hwf. tauto. }
  destruct (tk_alpha tk) as [[[w3 w4] t]|]; [|discriminate].
  inversion Ha; subst a; clear Ha. cbn [alpha_wf alpha_text] in *.
  rewrite !Bool.andb_true_iff in Hal. destruct Hal as [[[H3 H4] Ht] Hn].
  rewrite !Bool.andb_true_iff in Hv. destruct Hv as [_ Hv].
  apply Bool.negb_true_iff in Hv.
  exists w3, w4, t. repeat split; auto.
  apply nonneg_leb. pose proof (alpha_of_token_nn t Ht) as Hnn.
  unfold nonneg_or_nan in Hnn. now rewrite Hv in Hnn.
Qed.

Lemma alpha_normalized_nonneg_witness :
  exists w3 w4 tok,
    Some (lit " / 50%") = Some (w3 ++ ch_slash :: w4 ++ tok)
    /\ forallb is_space w3 = true /\ forallb is_space w4 = true
    /\ forallb is_alphach tok = true
    /\ number_of_decimal 5 (-1)
       = (if endsWith tok ch_percent
          then num_div (parseFloat (slice_drop_last tok)) num_hundred
          else parseFloat tok)
    /\ isNaN (number_of_decimal 5 (-1)) = false
    /\ num_leb (S754_zero false) (number_of_decimal 5 (-1)) = true.
Proof.
  apply (alpha_normalized_nonneg (lit "oklch(0 0 0 / 50%)")
           (fullRange (lit "oklch(0 0 0 / 50%)"))
           [MkParsed (S754_zero false) (S754_zero false) (S754_zero false)
              (Some (number_of_decimal 5 (-1))) (Some (lit " / 50%"))
              (MkRange (MkPos 0 0) (MkPos 0 18))]
           (MkParsed (S754_zero false) (S754_zero false) (S754_zero false)
              (Some (number_of_decimal 5 (-1))) (Some (lit " / 50%"))
              (MkRange (MkPos 0 0) (MkPos 0 18)))
           (number_of_decimal 5 (-1))).
  - vm_compute. reflexivity.
  - simpl. auto.
  - reflexivity.
Defined.

(** C9, counterexample: a bare alpha of 5 is stored as 5, above 1. *)
Lemma alpha_above_one :
  parseOklchFunctionsInRange (lit "oklch(0 0 0 / 5)") (fullRange (lit "oklch(0 0 0 / 5)"))
  = Some [MkParsed (S754_zero false) (S754_zero false) (S754_zero false)
            (Some (number_of_decimal 5 0)) (Some (lit " / 5"))
            (MkRange (MkPos 0 0) (MkPos 0 16))]
  /\ num_leb (number_of_decimal 5 0) num_one = false
  /\ parseOklchFunctionsInRange (lit "oklch(0 0 0 / 150%)")
       (fullRange (lit "oklch(0 0 0 / 150%)"))
     = Some [MkParsed (S754_zero false) (S754_zero false) (S754_zero false)
            (Some (number_of_decimal 15 (-1))) (Some (lit " / 150%"))
            (MkRange (MkPos 0 0) (MkPos 0 19))].
Proof. vm_compute. auto. Qed.

(** ** The annotation of one color *)

Lemma comment_text_eq colorMap color :
  commentText colorMap color = 32%N :: lit "/* " ++ baseCommentText colorMap color ++ lit " */".
Proof. reflexivity. Qed.

Lemma trim_commentText colorMap color :
  trim (commentText colorMap color) = lit "/* " ++ baseCommentText colorMap color ++ lit " */".
Proof. unfold commentText. apply trim_comment. Qed.

Lemma comment_head_not_space cm ws rest s :
  comment_split s = Some (ws, cm, rest) ->
  match cm with c :: _ => is_space c = false | [] => False end.
Proof.
  intros H. apply comment_split_sound in H as (_ & _ & b & -> & _). reflexivity.
Qed.

Lemma annotate_color_closed colorMap doc color :
  annotate_color colorMap doc color =
  match comment_split (textAfter doc (r_end (range color))) with
  | Some (ws, old, rest) =>
      if jsstring_eqb old (lit "/* " ++ baseCommentText colorMap color ++ lit " */")
      then []
      else [edit_replace
              (MkRange (MkPos (line (r_end (range color)))
                              (character (r_end (range color)) + List.length ws))
                       (MkPos (line (r_end (range color)))
                              (character (r_end (range color)) + List.length ws
                               + List.length old)))
              (lit "/* " ++ baseCommentText colorMap color ++ lit " */")]
  | None => [edit_insert (r_end (range color)) (commentText colorMap color)]
  end.
Proof.
  unfold annotate_color. rewrite str_match_comment1, trim_commentText.
  destruct (comment_split (textAfter doc (r_end (range color)))) as [[[ws old] rest]|] eqn:E;
    [|reflexivity].
  pose proof (comment_head_not_space _ _ _ _ E) as Hhd.
  apply comment_split_sound in E as (Hs & Hw & _).
  assert (Hg : group_text (textAfter doc (r_end (range color)))
                 (MkMatch 0 (List.length ws + List.length old)
                    [(1, (List.length ws, List.length ws + List.length old))]) 1 = old).
  { unfold group_text, group. cbn [mr_caps cap_lookup Nat.eqb]. rewrite Hs.
    apply substring_mid. }
  rewrite Hg. unfold indexOf. rewrite Hs.
  rewrite !(indexOf_from_spaces ws old rest 0 Hw Hhd). cbn [Nat.add].
  rewrite <- !Nat2Z.inj_add, !Nat2Z.id.
  destruct (jsstring_eqb old _); cbn [negb]; reflexivity.
Qed.

(** C10. When the annotation replaces an existing comment, the edit spans the
    comment and nothing else: the white space before it and the rest of the
    line stay, and the new text is the comment without a leading space. *)
Theorem annotate_replaces_comment_only (colorMap : list ColorMapEntry)
  (doc : TextDocument) (color : ParsedOklch) (m : MatchResult) :
  let endp := r_end (range color) in
  let after := textAfter doc endp in
  let new := lit "/* " ++ baseCommentText colorMap color ++ lit " */" in
  str_match comment_regex1 after = Some m ->
  jsstring_eqb (group_text after m 1) (trim (commentText colorMap color)) = false ->
  exists ws old rest,
    after = ws ++ old ++ rest /\ forallb is_space ws = true
    /\ old = group_text after m 1
    /\ annotate_color colorMap doc color
       = [MkEdit (MkRange (MkPos (line endp) (character endp + List.length ws))
                          (MkPos (line endp)
                                 (character endp + List.length ws + List.length old)))
                 new]
    /\ splice (character endp + List.length ws,
               character endp + List.length ws + List.length old, new)
              (lineAt doc (line endp))
       = firstn (character endp) (lineAt doc (line endp)) ++ ws ++ new ++ rest.
Proof.
  intros endp after new Hm Hne. subst endp after new.
  rewrite annotate_color_closed. rewrite str_match_comment1 in Hm.
  rewrite trim_commentText in Hne.
  destruct (comment_split (textAfter doc (r_end (range color)))) as [[[ws old] rest]|] eqn:E;
    [|discriminate].
  inversion Hm; subst m; clear Hm.
  apply comment_split_sound in E as (Hs & Hw & b & Hold & _).
  assert (Hg : group_text (textAfter doc (r_end (range color)))
                 (MkMatch 0 (List.length ws + List.length old)
                    [(1, (List.length ws, List.length ws + List.length old))]) 1 = old).
  { unfold group_text, group. cbn [mr_caps cap_lookup Nat.eqb]. rewrite Hs.
    apply substring_mid. }
  rewrite Hg in *. rewrite Hne.
  exists ws, old, rest. repeat split; auto.
  unfold splice, oe_start, oe_end, oe_text. cbn [fst snd].
  unfold textAfter, substring_from in Hs.
  set (ln := lineAt doc (line (r_end (range color)))) in *.
  set (ch := character (r_end (range color))) in *.
  assert (Hln : ln = firstn ch ln ++ ws ++ old ++ rest).
  { rewrite <- Hs. symmetry. apply firstn_skipn. }
  assert (Hch : List.length (firstn ch ln) = ch).
  { apply firstn_length_le. destruct (Nat.le_gt_cases ch (List.length ln)) as [H|H]; auto.
    rewrite skipn_all2 in Hs by lia. destruct ws; destruct old; discriminate. }
  assert (E1 : firstn (ch + List.length ws) ln = firstn ch ln ++ ws).
  { rewrite Hln at 1.
    replace (ch + List.length ws) with (List.length (firstn ch ln ++ ws) + 0)
      by (rewrite length_app; lia).
    rewrite app_assoc, firstn_app_2. cbn [firstn]. apply app_nil_r. }
  assert (E2 : skipn (ch + List.length ws + List.length old) ln = rest).
  { rewrite Hln at 1.
    replace (ch + List.length ws + List.length old)
      with (List.length (firstn ch ln ++ ws ++ old)) by (rewrite !length_app; lia).
    replace (firstn ch ln ++ ws ++ old ++ rest) with ((firstn ch ln ++ ws ++ old) ++ rest)
      by now rewrite <- !app_assoc.
    apply skipn_len_app. }
  rewrite E1, E2, <- app_assoc. reflexivity.
Qed.

Lemma annotate_replaces_comment_only_witness :
  let doc := lit "a: oklch(1 2 3)  /* old */ x;" in
  let color := MkParsed (number_of_decimal 1 0) (number_of_decimal 2 0) (number_of_decimal 3 0)
                 None None (MkRange (MkPos 0 3) (MkPos 0 15)) in
  exists ws old rest,
    textAfter doc (r_end (range color)) = ws ++ old ++ rest
    /\ forallb is_space ws = true
    /\ old = group_text (textAfter doc (r_end (range color)))
               (MkMatch 0 11 [(1, (2, 11))]) 1
    /\ annotate_color [] doc color
       = [MkEdit (MkRange (MkPos 0 (15 + List.length ws))
                          (MkPos 0 (15 + List.length ws + List.length old)))
                 (lit "/* " ++ baseCommentText [] color ++ lit " */")]
    /\ splice (15 + List.length ws, 15 + List.length ws + List.length old,
               lit "/* " ++ baseCommentText [] color ++ lit " */")
              (lineAt doc 0)
       = firstn 15 (lineAt doc 0) ++ ws
         ++ (lit "/* " ++ baseCommentText [] color ++ lit " */") ++ rest.
Proof.
  intros doc color.
  apply (annotate_replaces_comment_only [] doc color (MkMatch 0 11 [(1, (2, 11))])).
  - vm_compute. reflexivity.
  - vm_compute. reflexivity.
Defined.

(** ** The comment text *)

(** C6 (amended). The comment is [ /* label */] where the label is the
    resolved palette name when there is one and it is not empty, [Custom]
    otherwise, followed by [ / N%] with N = round(alpha * 100) exactly when
    alpha is present and |alpha - 1| >= 0.001; an alpha written [100%] gives
    the comment of the color without alpha. *)
Theorem comment_text_formula (colorMap : list ColorMapEntry) (color : ParsedOklch) :
  match alpha color with Some a => isNaN a = false | None => True end ->
  commentText colorMap color
  = lit " /* "
    ++ match findColorName colorMap (p_l color) (p_c color) (p_h color) with
       | Some (x :: n) => x :: n
       | _ => lit "Custom"
       end
    ++ match alpha color with
       | Some a =>
           if num_leb (number_of_decimal 1 (-3)) (num_abs (num_sub a (number_of_decimal 1 0)))
           then lit " / "
                ++ Number_toString (Math_round (num_mul a (number_of_decimal 100 0)))
                ++ lit "%"
           else []
       | None => []
       end
    ++ lit " */"
  /\ alpha_of_token (lit "100%") = number_of_decimal 1 0
  /\ forall s1 s2 r1 r2,
       commentText colorMap
         (MkParsed (p_l color) (p_c color) (p_h color)
            (Some (alpha_of_token (lit "100%"))) s1 r1)
       = commentText colorMap
           (MkParsed (p_l color) (p_c color) (p_h color) None s2 r2).
Proof.
  intros Ha. split; [|split].
  - change (number_of_decimal 1 (-3)) with alpha_epsilon.
    change (number_of_decimal 1 0) with num_one.
    change (number_of_decimal 100 0) with num_hundred.
    assert (Hs : alpha_label (alpha color)
                 = match alpha color with
                   | Some a =>
                       if num_leb alpha_epsilon (num_abs (num_sub a num_one))
                       then lit " / " ++ Number_toString (Math_round (num_mul a num_hundred))
                            ++ lit "%"
                       else []
                   | None => []
                   end).
    { unfold alpha_label. destruct (alpha color) as [a|]; [|reflexivity].
      unfold approxEqual.
      now rewrite (leb_epsilon_not_ltb _ (sub_one_not_nan _ Ha)). }
    unfold commentText, baseCommentText. rewrite <- app_assoc.
    apply (f_equal (fun t => lit " /* " ++ t)). apply f_equal2.
    + destruct (findColorName colorMap (p_l color) (p_c color) (p_h color)) as [[|x n]|];
        reflexivity.
    + apply (f_equal (fun t => t ++ lit " */")). exact Hs.
  - vm_compute. reflexivity.
  - intros s1 s2 r1 r2. unfold commentText, baseCommentText. cbn [p_l p_c p_h alpha].
    assert (H : alpha_label (Some (alpha_of_token (lit "100%"))) = alpha_label None)
      by (vm_compute; reflexivity).
    now rewrite H.
Qed.

Lemma comment_text_formula_witness :
  let sky := MkEntry (lit "sky-500")
               (MkOklch (number_of_decimal 685 (-3)) (number_of_decimal 169 (-3))
                        (number_of_decimal 237323 (-3))) in
  let color := MkParsed (number_of_decimal 685 (-3)) (number_of_decimal 169 (-3))
                 (number_of_decimal 237323 (-3)) (Some (number_of_decimal 5 (-1)))
                 (Some (lit " / 50%")) (MkRange (MkPos 0 0) (MkPos 0 30)) in
  commentText [sky] color = lit " /* sky-500 / 50% */"
  /\ alpha_of_token (lit "100%") = number_of_decimal 1 0
  /\ forall s1 s2 r1 r2,
       commentText [sky]
         (MkParsed (p_l color) (p_c color) (p_h color)
            (Some (alpha_of_token (lit "100%"))) s1 r1)
       = commentText [sky]
           (MkParsed (p_l color) (p_c color) (p_h color) None s2 r2).
Proof.
  intros sky color.
  destruct (comment_text_formula [sky] color eq_refl) as (H1 & H2 & H3).
  split; [|split]; [|exact H2|exact H3].
  rewrite H1. vm_compute. reflexivity.
Defined.

(** C6, counterexample: an entry whose name is the empty string resolves, and
    the label is [Custom], not the resolved name. *)
Lemma empty_name_labelled_custom :
  let entry := MkEntry [] (MkOklch (S754_zero false) (S754_zero false) (S754_zero false)) in
  let color := MkParsed (S754_zero false) (S754_zero false) (S754_zero false) None None
                 (MkRange (MkPos 0 0) (MkPos 0 12)) in
  findColorName [entry] (p_l color) (p_c color) (p_h color) = Some (name entry)
  /\ commentText [entry] color = lit " /* Custom */"
  /\ commentText [entry] color <> lit " /* " ++ name entry ++ lit " */".
Proof. vm_compute. repeat split. discriminate. Qed.

(** ** The replacement of a color *)

Lemma range_eta r :
  MkRange (MkPos (line (r_start r)) (character (r_start r)))
          (MkPos (line (r_end r)) (character (r_end r))) = r.
Proof. destruct r as [[? ?] [? ?]]. reflexivity. Qed.

Lemma applyEdit_single doc e :
  applyEdit doc [e] = Some (splice (to_offsets doc e) doc).
Proof. reflexivity. Qed.

Section Rounding.

Local Open Scope Z_scope.

(** ** Rounding a ratio to binary64 *)

Lemma digits2_pos_bounds p :
  2 ^ (Zpos (digits2_pos p) - 1) <= Zpos p < 2 ^ Zpos (digits2_pos p).
Proof.
  induction p as [p IH|p IH|]; cbn [digits2_pos].
  - rewrite Pos2Z.inj_succ. replace (Z.succ (Z.pos (digits2_pos p)) - 1) with (Z.pos (digits2_pos p)) by lia.
    rewrite Z.pow_succ_r by lia.
    assert (H : 2 ^ Z.pos (digits2_pos p) = 2 * 2 ^ (Z.pos (digits2_pos p) - 1)).
    { rewrite <- Z.pow_succ_r by lia. f_equal. lia. }
    lia.
  - rewrite Pos2Z.inj_succ. replace (Z.succ (Z.pos (digits2_pos p)) - 1) with (Z.pos (digits2_pos p)) by lia.
    rewrite Z.pow_succ_r by lia.
    assert (H : 2 ^ Z.pos (digits2_pos p) = 2 * 2 ^ (Z.pos (digits2_pos p) - 1)).
    { rewrite <- Z.pow_succ_r by lia. f_equal. lia. }
    lia.
  - cbn. lia.
Qed.

Lemma Zdigits2_bounds q :
  0 < q -> 0 < Zdigits2 q /\ 2 ^ (Zdigits2 q - 1) <= q < 2 ^ Zdigits2 q.
Proof.
  destruct q as [|p|p]; try lia. intros _. cbn [Zdigits2]. split; [lia|].
  apply digits2_pos_bounds.
Qed.

Lemma pow2_lt_inv a b : 0 <= b -> 2 ^ a < 2 ^ b -> a < b.
Proof.
  intros Hb H. destruct (Z.lt_ge_cases a b) as [|Hge]; [assumption|].
  exfalso. assert (2 ^ b <= 2 ^ a) by (apply Z.pow_le_mono_r; lia). lia.
Qed.

(** One shift of the record halves the ratio it stands for. *)
Lemma shr_1_represents A B mrs :
  represents A B mrs -> represents A (2 * B) (shr_1 mrs).
Proof.
  intros (HB & HA & Hm & Hr & Hs).
  destruct mrs as [M r s]. cbn [shr_m shr_r shr_s] in *.
  pose proof (Z.div_mod A B ltac:(lia)) as Hdm.
  pose proof (Z.mod_pos_bound A B HB) as Hmb.
  assert (HM : 0 <= M) by (rewrite Hm; apply Z.div_pos; lia).
  set (R := A mod B) in *.
  assert (Hcase : forall M' b, (b = 0 \/ b = 1) -> M = 2 * M' + b ->
            A / (2 * B) = M' /\ A mod (2 * B) = b * B + R).
  { intros M' b Hb HMb.
    assert (E : A = (2 * B) * M' + (b * B + R)) by (rewrite Hdm, <- Hm, HMb; ring).
    assert (Hbd : 0 <= b * B + R < 2 * B) by (destruct Hb; subst b; lia).
    split; [symmetry; apply (Z.div_unique_pos A (2 * B) M' (b * B + R) Hbd E)|
            symmetry; apply (Z.mod_unique_pos A (2 * B) M' (b * B + R) Hbd E)]. }
  assert (Hs' : (r || s)%bool = negb (R =? 0)).
  { rewrite Hr, Hs. destruct (Z.eqb_spec R 0) as [E0|N0]; cbn [negb andb].
    - rewrite E0. rewrite Bool.orb_false_r. apply Z.leb_gt. lia.
    - destruct (Z.leb_spec B (2 * R)); [reflexivity|]. cbn [orb].
      destruct (Z.eqb_spec (2 * R) B); [lia|reflexivity]. }
  unfold represents. split; [lia|]. split; [exact HA|].
  destruct M as [|[p|p|]|p]; try lia; cbn [shr_1 shr_m shr_r shr_s].
  - (* M = 0 *)
    destruct (Hcase 0 0 (or_introl eq_refl) ltac:(lia)) as [E1 E2].
    rewrite E1, E2, Hs'. split; [reflexivity|]. split.
    + symmetry. apply Z.leb_gt. lia.
    + destruct (Z.eqb_spec R 0) as [E0|N0]; cbn [negb andb].
      * symmetry. apply Bool.andb_false_iff. left. apply Bool.negb_false_iff.
        apply Z.eqb_eq. lia.
      * symmetry. apply Bool.andb_true_iff. split; apply Bool.negb_true_iff; apply Z.eqb_neq; lia.
  - (* M = 2 p + 1 *)
    destruct (Hcase (Zpos p) 1 (or_intror eq_refl) ltac:(lia)) as [E1 E2].
    rewrite E1, E2, Hs'. split; [reflexivity|]. split.
    + symmetry. apply Z.leb_le. lia.
    + destruct (Z.eqb_spec R 0) as [E0|N0]; cbn [negb andb].
      * symmetry. apply Bool.andb_false_iff. right. apply Bool.negb_false_iff.
        apply Z.eqb_eq. lia.
      * symmetry. apply Bool.andb_true_iff. split; apply Bool.negb_true_iff; apply Z.eqb_neq; lia.
  - (* M = 2 p *)
    destruct (Hcase (Zpos p) 0 (or_introl eq_refl) ltac:(lia)) as [E1 E2].
    rewrite E1, E2, Hs'. split; [reflexivity|]. split.
    + symmetry. apply Z.leb_gt. lia.
    + destruct (Z.eqb_spec R 0) as [E0|N0]; cbn [negb andb].
      * symmetry. apply Bool.andb_false_iff. left. apply Bool.negb_false_iff.
        apply Z.eqb_eq. lia.
      * symmetry. apply Bool.andb_true_iff. split; apply Bool.negb_true_iff; apply Z.eqb_neq; lia.
  - (* M = 1 *)
    destruct (Hcase 0 1 (or_intror eq_refl) ltac:(lia)) as [E1 E2].
    rewrite E1, E2, Hs'. split; [reflexivity|]. split.
    + symmetry. apply Z.leb_le. lia.
    + destruct (Z.eqb_spec R 0) as [E0|N0]; cbn [negb andb].
      * symmetry. apply Bool.andb_false_iff. right. apply Bool.negb_false_iff.
        apply Z.eqb_eq. lia.
      * symmetry. apply Bool.andb_true_iff. split; apply Bool.negb_true_iff; apply Z.eqb_neq; lia.
Qed.

Lemma iter_shr_represents p : forall A B mrs,
  represents A B mrs -> represents A (B * 2 ^ Zpos p) (iter_pos shr_1 p mrs).
Proof.
  induction p as [p IH|p IH|]; intros A B mrs H; cbn [iter_pos].
  - apply shr_1_represents in H. apply IH in H. apply IH in H.
    replace (B * 2 ^ Z.pos p~1) with (2 * B * 2 ^ Z.pos p * 2 ^ Z.pos p); [exact H|].
    replace (Z.pos p~1) with (Z.pos p + Z.pos p + 1) by lia.
    rewrite !Z.pow_add_r by lia. change (2 ^ 1) with 2. ring.
  - apply IH in H. apply IH in H.
    replace (B * 2 ^ Z.pos p~0) with (B * 2 ^ Z.pos p * 2 ^ Z.pos p); [exact H|].
    replace (Z.pos p~0) with (Z.pos p + Z.pos p) by lia.
    rewrite !Z.pow_add_r by lia. ring.
  - apply shr_1_represents in H. change (2 ^ 1) with 2.
    replace (B * 2) with (2 * B) by ring. exact H.
Qed.

Lemma new_location_represents A B :
  0 < B -> 0 <= A ->
  represents A B (shr_record_of_loc (A / B) (new_location B (A mod B))).
Proof.
  intros HB HA. pose proof (Z.mod_pos_bound A B HB) as Hmb.
  set (R := A mod B) in *.
  assert (Hshape : forall l,
            l = (if R =? 0 then loc_Exact else loc_Inexact (Z.compare (2 * R) B)) ->
            represents A B (shr_record_of_loc (A / B) l)).
  { intros l ->. unfold represents. fold R. split; [exact HB|]. split; [exact HA|].
    destruct (Z.eqb_spec R 0) as [E0|N0].
    - cbn [shr_record_of_loc shr_m shr_r shr_s negb andb]. split; [reflexivity|].
      split; [|reflexivity]. symmetry. apply Z.leb_gt. lia.
    - cbn [negb andb]. destruct (Z.compare_spec (2 * R) B) as [E|L|G];
        cbn [shr_record_of_loc shr_m shr_r shr_s]; (split; [reflexivity|]); split.
      + symmetry. apply Z.leb_le. lia.
      + symmetry. apply Bool.negb_false_iff. apply Z.eqb_eq. lia.
      + symmetry. apply Z.leb_gt. lia.
      + symmetry. apply Bool.negb_true_iff. apply Z.eqb_neq. lia.
      + symmetry. apply Z.leb_le. lia.
      + symmetry. apply Bool.negb_true_iff. apply Z.eqb_neq. lia. }
  apply Hshape. unfold new_location, new_location_even, new_location_odd.
  destruct (Z.even B) eqn:Ev; [reflexivity|].
  destruct (Z.eqb_spec R 0); [reflexivity|]. f_equal.
  assert (Hodd : 2 * R <> B).
  { intros E. rewrite <- E, Z.even_mul in Ev. discriminate. }
  destruct (Z.compare_spec (2 * R + 1) B) as [E|L|G];
    destruct (Z.compare_spec (2 * R) B) as [E'|L'|G']; try reflexivity; lia.
Qed.

(** The division starts the record at the exponent [e0], not above zero. *)
Lemma div_core_represents num den :
  0 < num -> 0 < den ->
  exists q e0 l,
    SFdiv_core_binary prec emax num 0 den 0 = (q, e0, l)
    /\ e0 = Z.min (fexp prec emax (Zdigits2 num - Zdigits2 den)) 0
    /\ q = num * 2 ^ (- e0) / den
    /\ represents (num * 2 ^ (- e0)) den (shr_record_of_loc q l).
Proof.
  intros Hn Hd. unfold SFdiv_core_binary.
  rewrite !Z.add_0_r. change (Z.sub 0 0) with 0.
  set (e0 := Z.min (fexp prec emax (Zdigits2 num - Zdigits2 den)) 0).
  assert (He0 : e0 <= 0) by apply Z.le_min_r.
  set (m' := match 0 - e0 with
             | 0 => num
             | Z.pos _ => Z.shiftl num (0 - e0)
             | Z.neg _ => 0
             end).
  assert (Hm' : m' = num * 2 ^ (- e0)).
  { unfold m'. replace (0 - e0) with (- e0) by lia.
    destruct (- e0) as [|p|p] eqn:E; [rewrite Z.pow_0_r; lia| |lia].
    rewrite Z.shiftl_mul_pow2 by lia. reflexivity. }
  assert (Hpos : 0 <= m').
  { rewrite Hm'. apply Z.mul_nonneg_nonneg; [lia|]. apply Z.pow_nonneg. lia. }
  pose proof (new_location_represents m' den Hd Hpos) as Hrep.
  unfold Z.div, Z.modulo in Hrep.
  destruct (Z.div_eucl m' den) as [q r] eqn:E. cbn [fst snd] in Hrep.
  exists q, e0, (new_location den r). split; [reflexivity|]. split; [reflexivity|].
  rewrite <- Hm'. split; [|exact Hrep].
  unfold Z.div. now rewrite E.
Qed.

Lemma fexp_eq z : fexp prec emax z = Z.max (z - 53) (-1074).
Proof. reflexivity. Qed.

Lemma pow2_split a b : 0 <= a -> 0 <= b -> 2 ^ (a + b) = 2 ^ a * 2 ^ b.
Proof. intros. now apply Z.pow_add_r. Qed.

Lemma pow2_gt0 a : 0 <= a -> 0 < 2 ^ a.
Proof. intros. apply Z.pow_pos_nonneg; lia. Qed.

Lemma pow2_le a b : 0 <= a <= b -> 2 ^ a <= 2 ^ b.
Proof. intros. apply Z.pow_le_mono_r; lia. Qed.

Lemma shr_represents A B mrs e n :
  0 <= n -> represents A B mrs ->
  represents A (B * 2 ^ n) (fst (shr mrs e n)) /\ snd (shr mrs e n) = e + n.
Proof.
  intros Hn H. unfold shr. destruct n as [|p|p]; [| |lia]; cbn [fst snd].
  - rewrite Z.pow_0_r, Z.mul_1_r, Z.add_0_r. auto.
  - split; [now apply iter_shr_represents|reflexivity].
Qed.

(** After the division and the first run of shifts the record stands for the
    ratio at the exponent of the result: its quotient has 53 bits, or fewer
    at the least exponent. *)
Lemma stage1 num den :
  0 < num -> 0 < den ->
  exists q e0 l mrs e1 sh dn,
    SFdiv_core_binary prec emax num 0 den 0 = (q, e0, l)
    /\ shr_fexp prec emax q e0 l = (mrs, e1)
    /\ 0 <= sh /\ 0 <= dn /\ e1 = dn - sh
    /\ represents (num * 2 ^ sh) (den * 2 ^ dn) mrs
    /\ ((shr_m mrs < 2 ^ 52 /\ e1 = -1074)
        \/ (2 ^ 52 <= shr_m mrs < 2 ^ 53 /\ -1074 <= e1)).
Proof.
  intros Hn Hd.
  destruct (div_core_represents num den Hn Hd) as (q & e0 & l & Hcore & He0 & Hq & Hrep).
  destruct (Zdigits2_bounds num Hn) as [Hd1 Hb1].
  destruct (Zdigits2_bounds den Hd) as [Hd2 Hb2].
  set (d1 := Zdigits2 num) in *. set (d2 := Zdigits2 den) in *.
  rewrite fexp_eq in He0.
  assert (He0' : -1074 <= e0 <= 0) by lia.
  set (A := num * 2 ^ (- e0)) in *.
  assert (HA : 2 ^ (d1 - 1 - e0) <= A).
  { unfold A. replace (d1 - 1 - e0) with ((d1 - 1) + (- e0)) by lia.
    rewrite pow2_split by lia. apply Z.mul_le_mono_nonneg_r; [|lia].
    apply Z.lt_le_incl, pow2_gt0. lia. }
  assert (HA0 : 0 <= A).
  { pose proof (pow2_gt0 (d1 - 1 - e0) ltac:(lia)). lia. }
  assert (Hq0 : 0 <= q) by (rewrite Hq; apply Z.div_pos; lia).
  set (n1 := fexp prec emax (Zdigits2 q + e0) - e0).
  assert (Hshr : shr_fexp prec emax q e0 l = shr (shr_record_of_loc q l) e0 n1) by reflexivity.
  assert (Hn1 : 0 <= n1
                /\ ((q / 2 ^ n1 < 2 ^ 52 /\ e0 + n1 = -1074)
                    \/ (2 ^ 52 <= q / 2 ^ n1 < 2 ^ 53 /\ -1074 <= e0 + n1))).
  { unfold n1. rewrite fexp_eq.
    destruct (Z.eq_dec q 0) as [Eq0|Nq0].
    - (* the quotient is zero *)
      rewrite Eq0. cbn [Zdigits2]. rewrite Z.add_0_l.
      assert (HAd : A < den).
      { pose proof Eq0 as Eq1. rewrite Hq in Eq1.
        apply Z.div_small_iff in Eq1; lia. }
      assert (Hlt : 2 ^ (d1 - 1 - e0) < 2 ^ d2) by lia.
      apply pow2_lt_inv in Hlt; [|lia].
      assert (E : e0 = -1074) by lia.
      rewrite E. cbn. split; [lia|]. left. split; [reflexivity|reflexivity].
    - assert (Hqp : 0 < q) by lia.
      destruct (Zdigits2_bounds q Hqp) as [HD HbD]. set (D := Zdigits2 q) in *.
      assert (HDe : d1 - d2 <= D + e0).
      { pose proof (Z.mul_succ_div_gt A den Hd) as Hgt. rewrite <- Hq in Hgt.
        assert (Hlt : 2 ^ (d1 - 1 - e0) < 2 ^ (d2 + D)).
        { rewrite pow2_split by lia.
          assert (den * Z.succ q <= 2 ^ d2 * 2 ^ D).
          { apply Z.mul_le_mono_nonneg; lia. }
          lia. }
        apply pow2_lt_inv in Hlt; lia. }
      split; [lia|].
      destruct (Z.le_gt_cases (-1074) (D + e0 - 53)) as [Hnorm|Hsub].
      + right. rewrite Z.max_l by lia.
        replace (D + e0 - 53 - e0) with (D - 53) by lia.
        assert (Hnn : 0 <= D - 53) by lia.
        pose proof (pow2_gt0 (D - 53) Hnn) as Hp.
        split; [|lia]. split.
        * apply Z.div_le_lower_bound; [lia|].
          rewrite Z.mul_comm, <- pow2_split by lia.
          replace (52 + (D - 53)) with (D - 1) by lia. lia.
        * apply Z.div_lt_upper_bound; [lia|].
          rewrite <- pow2_split by lia.
          replace (D - 53 + 53) with D by lia. lia.
      + left. rewrite Z.max_r by lia. split; [|lia].
        assert (Hnn : 0 <= -1074 - e0) by lia.
        pose proof (pow2_gt0 (-1074 - e0) Hnn) as Hp.
        apply Z.div_lt_upper_bound; [lia|].
        rewrite <- pow2_split by lia.
        assert (2 ^ D <= 2 ^ (-1074 - e0 + 52)) by (apply pow2_le; lia). lia. }
  destruct Hn1 as [Hn1 Hcase].
  destruct (shr_represents _ _ _ e0 n1 Hn1 Hrep) as [Hrep1 He1].
  destruct (shr (shr_record_of_loc q l) e0 n1) as [mrs e1] eqn:Es. cbn [fst snd] in *.
  exists q, e0, l, mrs, e1, (- e0), n1.
  split; [exact Hcore|]. split; [now rewrite Hshr|].
  split; [lia|]. split; [exact Hn1|]. split; [lia|]. split; [exact Hrep1|].
  assert (HM : shr_m mrs = q / 2 ^ n1).
  { destruct Hrep1 as (_ & _ & -> & _). fold A. rewrite Hq.
    symmetry. apply Z.div_div; [lia|]. apply pow2_gt0. exact Hn1. }
  rewrite HM, He1. exact Hcase.
Qed.

Lemma round_nearest_even_range M l :
  round_nearest_even M l = M \/ round_nearest_even M l = M + 1.
Proof.
  destruct l as [|[| |]]; cbn [round_nearest_even]; auto.
  destruct (Z.even M); auto.
Qed.

Lemma stage3_keep M e1 :
  0 <= M ->
  (M <= 2 ^ 52 /\ e1 = -1074) \/ (2 ^ 52 <= M < 2 ^ 53 /\ -1074 <= e1) ->
  shr_fexp prec emax M e1 loc_Exact = (Build_shr_record M false false, e1).
Proof.
  intros HM Hc. unfold shr_fexp. rewrite fexp_eq. cbn [shr_record_of_loc].
  assert (Hn : Z.max (Zdigits2 M + e1 - 53) (-1074) - e1 = 0).
  { destruct (Z.eq_dec M 0) as [->|Hne]; [cbn [Zdigits2]; lia|].
    destruct (Zdigits2_bounds M ltac:(lia)) as [HD HbD]. set (D := Zdigits2 M) in *.
    destruct Hc as [[Hle ->]|[[Hlo Hhi] He]].
    - assert (Hlt : 2 ^ (D - 1) < 2 ^ 53).
      { assert (2 ^ 52 < 2 ^ 53) by (vm_compute; reflexivity). lia. }
      apply pow2_lt_inv in Hlt; lia.
    - assert (H1 : 2 ^ (D - 1) < 2 ^ 53) by lia. apply pow2_lt_inv in H1; [|lia].
      assert (H2 : 2 ^ 52 < 2 ^ D) by lia. apply pow2_lt_inv in H2; lia. }
  rewrite Hn. reflexivity.
Qed.

Lemma stage3_carry e1 :
  -1074 <= e1 ->
  shr_fexp prec emax (2 ^ 53) e1 loc_Exact = (Build_shr_record (2 ^ 52) false false, e1 + 1).
Proof.
  intros He. unfold shr_fexp. rewrite fexp_eq.
  change (Zdigits2 (2 ^ 53)) with 54.
  replace (Z.max (54 + e1 - 53) (-1074) - e1) with 1 by lia.
  reflexivity.
Qed.

(** The value a ratio rounds to, from the quotient [M] at the exponent [e1]
    of the result and the place of the remainder. *)
Lemma round_ratio_shape num den :
  0 < num -> 0 < den ->
  exists mrs e1 sh dn,
    0 <= sh /\ 0 <= dn /\ e1 = dn - sh
    /\ represents (num * 2 ^ sh) (den * 2 ^ dn) mrs
    /\ let M' := round_nearest_even (shr_m mrs) (loc_of_shr_record mrs) in
       (shr_m mrs < 2 ^ 52 /\ e1 = -1074
        /\ round_ratio num den
           = match M' with
             | Z0 => S754_zero false
             | Zpos m => S754_finite false m (-1074)
             | Zneg _ => NaN
             end)
       \/ (2 ^ 52 <= shr_m mrs < 2 ^ 53 /\ -1074 <= e1 /\ M' < 2 ^ 53
           /\ round_ratio num den
              = if e1 <=? 971 then S754_finite false (Z.to_pos M') e1
                else S754_infinity false)
       \/ (2 ^ 52 <= shr_m mrs < 2 ^ 53 /\ -1074 <= e1 /\ M' = 2 ^ 53
           /\ round_ratio num den
              = if e1 + 1 <=? 971 then S754_finite false (Z.to_pos (2 ^ 52)) (e1 + 1)
                else S754_infinity false).
Proof.
  intros Hn Hd.
  destruct (stage1 num den Hn Hd)
    as (q & e0 & l & mrs & e1 & sh & dn & Hcore & Hshr & Hsh & Hdn & He1 & Hrep & Hcase).
  exists mrs, e1, sh, dn. split; [exact Hsh|]. split; [exact Hdn|]. split; [exact He1|].
  split; [exact Hrep|]. intros M'.
  assert (HM0 : 0 <= shr_m mrs).
  { destruct Hrep as (HB & HA & -> & _). apply Z.div_pos; lia. }
  destruct (round_nearest_even_range (shr_m mrs) (loc_of_shr_record mrs)) as [HM'|HM'];
    fold M' in HM'.
  - (* the quotient is kept *)
    assert (Hk : shr_fexp prec emax M' e1 loc_Exact = (Build_shr_record M' false false, e1)).
    { apply stage3_keep; [lia|]. rewrite HM'. destruct Hcase as [[H1 H2]|[H1 H2]]; [left|right]; lia. }
    assert (Hrr : round_ratio num den
                  = match M' with
                    | Z0 => S754_zero false
                    | Zpos m => if e1 <=? 971 then S754_finite false m e1
                                else S754_infinity false
                    | Zneg _ => NaN
                    end).
    { unfold round_ratio. rewrite Hcore. unfold binary_round_aux. rewrite Hshr.
      fold M'. rewrite Hk. reflexivity. }
    destruct Hcase as [[H1 H2]|[H1 H2]].
    + left. split; [exact H1|]. split; [exact H2|]. rewrite Hrr, H2.
      destruct M'; reflexivity.
    + right. left. split; [exact H1|]. split; [exact H2|]. split; [lia|].
      rewrite Hrr. destruct M' as [|p|p]; try lia. reflexivity.
  - destruct Hcase as [[H1 H2]|[H1 H2]].
    + assert (Hk : shr_fexp prec emax M' e1 loc_Exact = (Build_shr_record M' false false, e1)).
      { apply stage3_keep; [lia|]. left. lia. }
      left. split; [exact H1|]. split; [exact H2|].
      unfold round_ratio. rewrite Hcore. unfold binary_round_aux. rewrite Hshr.
      fold M'. rewrite Hk. cbn [shr_m]. rewrite H2. destruct M'; reflexivity.
    + destruct (Z.eq_dec M' (2 ^ 53)) as [E|NE].
      * right. right. split; [exact H1|]. split; [exact H2|]. split; [exact E|].
        unfold round_ratio. rewrite Hcore. unfold binary_round_aux. rewrite Hshr.
        fold M'. rewrite E, (stage3_carry e1 H2). reflexivity.
      * assert (Hk : shr_fexp prec emax M' e1 loc_Exact
                     = (Build_shr_record M' false false, e1)).
        { apply stage3_keep; [lia|]. right. lia. }
        right. left. split; [exact H1|]. split; [exact H2|]. split; [lia|].
        unfold round_ratio. rewrite Hcore. unfold binary_round_aux. rewrite Hshr.
        fold M'. rewrite Hk. cbn [shr_m]. destruct M' as [|p|p]; try lia. reflexivity.
Qed.

Lemma cancel_lt_r X Y K : 0 < K -> X * K < Y * K -> X < Y.
Proof. intros HK H. apply (Z.mul_lt_mono_pos_r K); assumption. Qed.

Lemma ar_subnormal num den m W P N T S3 :
  0 < num -> 0 < den -> 0 < W -> 0 < P -> 0 < N -> 0 < T -> 0 < S3 ->
  4503599627370496 <= m ->
  num * (W * (4503599627370496 * T)) < 4503599627370496 * (den * W) ->
  N <= S3 * P -> 2 * S3 = 4503599627370496 * T ->
  (2 * m - 1) * P * den < 2 * num * N -> False.
Proof.
  intros Hn Hd HW HP HN HT HS Hm H1 H2 H3 H4.
  assert (E1 : num * T < den).
  { apply (cancel_lt_r _ _ (4503599627370496 * W)); [lia|]. lia. }
  assert (E2 : (2 * m - 1) * den * P < (2 * num * S3) * P).
  { assert (2 * num * N <= 2 * num * (S3 * P)) by (apply Z.mul_le_mono_nonneg_l; lia). lia. }
  apply cancel_lt_r in E2; [|assumption].
  assert (E3 : (2 * m - 1) * (num * T) < (2 * m - 1) * den)
    by (apply Z.mul_lt_mono_pos_l; lia).
  assert (E4 : (2 * m - 1) * (num * T) < 4503599627370496 * (num * T)) by lia.
  assert (E5 : 0 < num * T) by (apply Z.mul_pos_pos; lia).
  apply cancel_lt_r in E4; lia.
Qed.

Lemma ar_exp_upper num den m U W P N :
  0 < num -> 0 < den -> 0 < U -> 0 < W -> 0 < P -> 0 < N ->
  m < 9007199254740992 ->
  4503599627370496 * (den * W) <= num * U ->
  2 * num * N < (2 * m + 1) * P * den ->
  W * N < 2 * (P * U).
Proof.
  intros Hn Hd HU HW HP HN Hm H1 H2.
  assert (E1 : (2 * num * N) * U < ((2 * m + 1) * P * den) * U)
    by (apply Z.mul_lt_mono_pos_r; lia).
  assert (E2 : (4503599627370496 * (den * W)) * (2 * N) <= (num * U) * (2 * N))
    by (apply Z.mul_le_mono_nonneg_r; lia).
  assert (E3 : (9007199254740992 * (W * N)) * den < ((2 * m + 1) * (P * U)) * den) by lia.
  apply cancel_lt_r in E3; [|assumption].
  assert (E4 : (2 * m + 1) * (P * U) <= 18014398509481984 * (P * U)).
  { apply Z.mul_le_mono_nonneg_r; [|lia]. apply Z.lt_le_incl, Z.mul_pos_pos; lia. }
  lia.
Qed.

Lemma ar_exp_lower num den m U W P N :
  0 < num -> 0 < den -> 0 < U -> 0 < W -> 0 < P -> 0 < N ->
  4503599627370496 <= m ->
  num * U < 9007199254740992 * (den * W) ->
  (2 * m - 1) * P * den < 2 * num * N ->
  P * U < 4 * (N * W).
Proof.
  intros Hn Hd HU HW HP HN Hm H1 H2.
  assert (E1 : ((2 * m - 1) * P * den) * U < (2 * num * N) * U)
    by (apply Z.mul_lt_mono_pos_r; lia).
  assert (E2 : (num * U) * (2 * N) < (9007199254740992 * (den * W)) * (2 * N))
    by (apply Z.mul_lt_mono_pos_r; lia).
  assert (E3 : ((2 * m - 1) * (P * U)) * den < (18014398509481984 * (N * W)) * den) by lia.
  apply cancel_lt_r in E3; [|assumption].
  assert (E4 : 4503599627370496 * (P * U) <= (2 * m - 1) * (P * U)).
  { apply Z.mul_le_mono_nonneg_r; [|lia]. apply Z.lt_le_incl, Z.mul_pos_pos; lia. }
  lia.
Qed.

Lemma ar_scale_lt X Y N U P W K :
  0 < N -> 0 < U -> K * (W * N) = P * U ->
  X * N < Y * P -> (X * U) < Y * (K * W).
Proof.
  intros HN HU HK H.
  assert (E1 : (X * N) * U < (Y * P) * U) by (apply Z.mul_lt_mono_pos_r; lia).
  assert (E2 : (X * U) * N < (Y * (K * W)) * N).
  { replace ((Y * (K * W)) * N) with (Y * (K * (W * N))) by ring. rewrite HK. lia. }
  apply cancel_lt_r in E2; assumption.
Qed.

Lemma ar_quotient A B M R m :
  0 < B -> A = B * M + R -> 0 <= R < B ->
  (2 * m - 1) * B < 2 * A -> 2 * A < (2 * m + 1) * B ->
  (M = m - 1 /\ B < 2 * R) \/ (M = m /\ 2 * R < B).
Proof.
  intros HB HA HR H1 H2.
  assert (Hlo : m - 1 <= M).
  { destruct (Z.lt_ge_cases M (m - 1)) as [Hlt|]; [exfalso|assumption].
    assert (B * M <= B * (m - 2)) by (apply Z.mul_le_mono_nonneg_l; lia). lia. }
  assert (Hhi : M <= m).
  { destruct (Z.lt_ge_cases m M) as [Hlt|]; [exfalso|assumption].
    assert (B * (m + 1) <= B * M) by (apply Z.mul_le_mono_nonneg_l; lia). lia. }
  assert (Hc : M = m - 1 \/ M = m) by lia.
  destruct Hc as [Hc|Hc]; subst M; [left|right]; split; try reflexivity; lia.
Qed.

Lemma ar_quotient_up A B M R k :
  0 < B -> A = B * M + R -> 0 <= R < B ->
  (2 * k - 1) * B < 2 * A -> A < k * B ->
  M = k - 1 /\ B < 2 * R.
Proof.
  intros HB HA HR H1 H2.
  assert (Hlo : k - 1 <= M).
  { destruct (Z.lt_ge_cases M (k - 1)) as [Hlt|]; [exfalso|assumption].
    assert (B * M <= B * (k - 2)) by (apply Z.mul_le_mono_nonneg_l; lia). lia. }
  assert (Hhi : M < k).
  { destruct (Z.lt_ge_cases M k) as [|Hge]; [assumption|exfalso].
    assert (B * k <= B * M) by (apply Z.mul_le_mono_nonneg_l; lia). lia. }
  assert (M = k - 1) by lia. subst M. split; [reflexivity|lia].
Qed.

(** A finite result is a binary64 value in normal form. *)
Lemma round_ratio_canonical num den s m e :
  0 < num -> 0 < den -> round_ratio num den = S754_finite s m e ->
  s = false
  /\ ((Zpos m <= 2 ^ 52 /\ e = -1074)
      \/ (2 ^ 52 <= Zpos m < 2 ^ 53 /\ -1074 <= e <= 971)).
Proof.
  intros Hn Hd H.
  destruct (round_ratio_shape num den Hn Hd)
    as (mrs & e1 & sh & dn & _ & _ & _ & Hrep & Hc).
  assert (HM0 : 0 <= shr_m mrs).
  { destruct Hrep as (HB & HA & -> & _). apply Z.div_pos; lia. }
  cbv zeta in Hc.
  pose proof (round_nearest_even_range (shr_m mrs) (loc_of_shr_record mrs)) as Hr.
  set (M' := round_nearest_even (shr_m mrs) (loc_of_shr_record mrs)) in *.
  destruct Hc as [(H1 & H2 & Hrr)|[(H1 & H2 & H3 & Hrr)|(H1 & H2 & H3 & Hrr)]];
    rewrite Hrr in H.
  - destruct M' as [|p|p] eqn:E; try discriminate. injection H as <- <- <-.
    split; [reflexivity|]. left. split; [lia|reflexivity].
  - destruct (Z.leb_spec e1 971); [|discriminate]. injection H as <- <- <-.
    split; [reflexivity|]. right. rewrite Z2Pos.id by lia. lia.
  - destruct (Z.leb_spec (e1 + 1) 971); [|discriminate]. injection H as <- <- <-.
    split; [reflexivity|]. right.
    split; [split; [vm_compute; discriminate|vm_compute; reflexivity]|lia].
Qed.

Lemma round_down A B mrs :
  represents A B mrs -> 2 * (A mod B) < B ->
  round_nearest_even (shr_m mrs) (loc_of_shr_record mrs) = A / B.
Proof.
  intros (HB & HA & Hm & Hr & Hs) H. destruct mrs as [M r s]. cbn [shr_m shr_r shr_s] in *.
  assert (Er : r = false) by (rewrite Hr; apply Z.leb_gt; lia).
  rewrite Er, <- Hm. destruct s; reflexivity.
Qed.

Lemma round_up A B mrs :
  represents A B mrs -> B < 2 * (A mod B) ->
  round_nearest_even (shr_m mrs) (loc_of_shr_record mrs) = A / B + 1.
Proof.
  intros (HB & HA & Hm & Hr & Hs) H. destruct mrs as [M r s]. cbn [shr_m shr_r shr_s] in *.
  assert (Er : r = true) by (rewrite Hr; apply Z.leb_le; lia).
  assert (Es : s = true).
  { rewrite Hs. apply Bool.andb_true_iff.
    split; apply Bool.negb_true_iff; apply Z.eqb_neq; lia. }
  rewrite Er, Es, <- Hm. reflexivity.
Qed.

(** A ratio within half a unit in the last place of a normal binary64 value
    rounds to it; below a power of two the unit is half as large. *)
Lemma round_ratio_near num den m e :
  0 < num -> 0 < den -> 2 ^ 52 <= m < 2 ^ 53 -> -1074 < e <= 971 ->
  2 * num * 2 ^ Z.max (- e) 0 < (2 * m + 1) * 2 ^ Z.max e 0 * den ->
  (2 * m - 1) * 2 ^ Z.max e 0 * den < 2 * num * 2 ^ Z.max (- e) 0 ->
  (m = 2 ^ 52 -> (4 * m - 1) * 2 ^ Z.max e 0 * den < 4 * num * 2 ^ Z.max (- e) 0) ->
  round_ratio num den = S754_finite false (Z.to_pos m) e.
Proof.
  intros Hn Hd Hm He HU HL HL4.
  destruct (round_ratio_shape num den Hn Hd)
    as (mrs & e1 & sh & dn & Hsh & Hdn & He1 & Hrep & Hc).
  cbv zeta in Hc.
  assert (C52 : 2 ^ 52 = 4503599627370496) by reflexivity.
  assert (C53 : 2 ^ 53 = 9007199254740992) by reflexivity.
  rewrite C52, C53 in *.
  set (M' := round_nearest_even (shr_m mrs) (loc_of_shr_record mrs)) in *.
  set (pe := Z.max e 0) in *. set (ne := Z.max (- e) 0) in *.
  assert (Hpe : 0 <= pe) by lia. assert (Hne : 0 <= ne) by lia.
  assert (Hee : e = pe - ne) by lia.
  pose proof (pow2_gt0 pe Hpe) as HP. pose proof (pow2_gt0 ne Hne) as HN.
  pose proof (pow2_gt0 sh Hsh) as HUp. pose proof (pow2_gt0 dn Hdn) as HW.
  pose proof Hrep as (HB & HA & HMd & _).
  pose proof (Z.div_mod (num * 2 ^ sh) (den * 2 ^ dn) ltac:(lia)) as Hdm.
  pose proof (Z.mod_pos_bound (num * 2 ^ sh) (den * 2 ^ dn) HB) as Hmb.
  rewrite <- HMd in Hdm.
  (* the facts about the powers of two *)
  assert (HNP : 2 ^ ne <= 2 ^ 1073 * 2 ^ pe).
  { destruct (Z.le_gt_cases 0 e).
    - replace ne with 0 by lia. rewrite Z.pow_0_r.
      pose proof (pow2_gt0 1073 ltac:(lia)). nia.
    - replace pe with 0 by lia. rewrite Z.pow_0_r, Z.mul_1_r.
      apply pow2_le. lia. }
  assert (HUW : e1 = -1074 -> 2 ^ sh = 2 ^ dn * (4503599627370496 * 2 ^ 1022)).
  { intros E. replace sh with (dn + 1074) by lia. rewrite pow2_split by lia.
    f_equal. }
  assert (H1073 : 2 * 2 ^ 1073 = 4503599627370496 * 2 ^ 1022) by reflexivity.
  pose proof (pow2_gt0 1022 ltac:(lia)) as G1. pose proof (pow2_gt0 1073 ltac:(lia)) as G2.
  assert (Hexp1 : 2 ^ dn * 2 ^ ne < 2 * (2 ^ pe * 2 ^ sh) -> e1 <= e).
  { intros H. rewrite <- !pow2_split in H by lia.
    rewrite <- Z.pow_succ_r in H by lia. apply pow2_lt_inv in H; lia. }
  assert (Hexp2 : 2 ^ pe * 2 ^ sh < 4 * (2 ^ ne * 2 ^ dn) -> e - 1 <= e1).
  { intros H. rewrite <- !pow2_split in H by lia.
    change 4 with (2 ^ 2) in H. rewrite <- pow2_split in H by lia.
    apply pow2_lt_inv in H; lia. }
  assert (Hsame : e1 = e -> 1 * (2 ^ dn * 2 ^ ne) = 2 ^ pe * 2 ^ sh).
  { intros E. rewrite Z.mul_1_l, <- !pow2_split by lia. f_equal. lia. }
  assert (Hone : e1 = e - 1 -> 2 * (2 ^ dn * 2 ^ ne) = 2 ^ pe * 2 ^ sh).
  { intros E. rewrite <- !pow2_split by lia.
    rewrite <- Z.pow_succ_r by lia. f_equal. lia. }
  set (P := 2 ^ pe) in *. set (N := 2 ^ ne) in *.
  set (U := 2 ^ sh) in *. set (W := 2 ^ dn) in *.
  set (T := 2 ^ 1022) in *. set (S3 := 2 ^ 1073) in *.
  set (M := shr_m mrs) in *.
  set (R := (num * U) mod (den * W)) in *.
  clearbody P N U W T S3.
  assert (Hnormal : 4503599627370496 <= M < 9007199254740992 /\ -1074 <= e1).
  { destruct Hc as [(H1 & H2 & _)|[(H1 & H2 & _)|(H1 & H2 & _)]]; [exfalso|auto|auto].
    specialize (HUW H2).
    assert (HAB : num * U < 4503599627370496 * (den * W)).
    { assert (den * W * M <= den * W * 4503599627370495)
        by (apply Z.mul_le_mono_nonneg_l; lia). lia. }
    rewrite HUW in HAB.
    apply (ar_subnormal num den m W P N T S3); try assumption; try lia. }
  destruct Hnormal as [HMn He1n].
  assert (HAB1 : 4503599627370496 * (den * W) <= num * U).
  { assert (den * W * 4503599627370496 <= den * W * M)
      by (apply Z.mul_le_mono_nonneg_l; lia). lia. }
  assert (HAB2 : num * U < 9007199254740992 * (den * W)).
  { assert (den * W * M <= den * W * 9007199254740991)
      by (apply Z.mul_le_mono_nonneg_l; lia). lia. }
  assert (Hle : e1 <= e).
  { apply Hexp1. apply (ar_exp_upper num den m U W P N); try assumption; lia. }
  assert (Hge : e - 1 <= e1).
  { apply Hexp2. apply (ar_exp_lower num den m U W P N); try assumption; lia. }
  assert (Hd01 : e1 = e \/ e1 = e - 1) by lia.
  destruct Hd01 as [Es|Eo].
  - (* same exponent *)
    specialize (Hsame Es).
    assert (HU' : 2 * (num * U) < (2 * m + 1) * (den * W)).
    { pose proof (ar_scale_lt (2 * num) ((2 * m + 1) * den) N U P W 1 HN HUp Hsame) as H.
      lapply H; [lia|lia]. }
    assert (HL' : (2 * m - 1) * (den * W) < 2 * (num * U)).
    { assert (Hsame' : 1 * (U * P) = N * W) by lia.
      pose proof (ar_scale_lt ((2 * m - 1) * den) (2 * num) P W N U 1 HP HW Hsame') as H.
      lapply H; [lia|lia]. }
    destruct (ar_quotient (num * U) (den * W) M R m HB Hdm Hmb HL' HU')
      as [[EM HR]|[EM HR]].
    + assert (HM' : M' = m).
      { unfold M', M. rewrite (round_up _ _ mrs Hrep); [fold M in HMd; lia|]. exact HR. }
      destruct Hc as [(H1 & _)|[(_ & _ & _ & Hrr)|(_ & _ & H3 & _)]]; [lia| |lia].
      rewrite Hrr, HM', Es. destruct (Z.leb_spec e 971); [reflexivity|lia].
    + assert (HM' : M' = m).
      { unfold M', M. rewrite (round_down _ _ mrs Hrep); [fold M in HMd; lia|]. exact HR. }
      destruct Hc as [(H1 & _)|[(_ & _ & _ & Hrr)|(_ & _ & H3 & _)]]; [lia| |lia].
      rewrite Hrr, HM', Es. destruct (Z.leb_spec e 971); [reflexivity|lia].
  - (* one below: the target is a power of two *)
    specialize (Hone Eo).
    assert (Hone' : 1 * (U * P) = N * (2 * W)) by lia.
    assert (HLw : (2 * m - 1) * (den * (2 * W)) < 2 * (num * U)).
    { pose proof (ar_scale_lt ((2 * m - 1) * den) (2 * num) P (2 * W) N U 1 HP
                    ltac:(lia) ltac:(lia)) as H.
      lapply H; [lia|lia]. }
    assert (Hm52 : m = 4503599627370496).
    { assert ((2 * m - 1) * (den * W) < 9007199254740992 * (den * W)) by lia.
      assert (0 < den * W) by lia.
      assert ((2 * m - 1) < 9007199254740992).
      { apply (cancel_lt_r _ _ (den * W)); lia. }
      lia. }
    specialize (HL4 Hm52).
    assert (HL' : (2 * (2 * m) - 1) * (den * W) < 2 * (num * U)).
    { pose proof (ar_scale_lt ((4 * m - 1) * den) (4 * num) P (2 * W) N U 1 HP
                    ltac:(lia) ltac:(lia)) as H.
      lapply H; [lia|lia]. }
    assert (HU' : num * U < 2 * m * (den * W)) by lia.
    destruct (ar_quotient_up (num * U) (den * W) M R (2 * m) HB Hdm Hmb HL' HU')
      as [EM HR].
    assert (HM' : M' = 9007199254740992).
    { unfold M', M. rewrite (round_up _ _ mrs Hrep); [fold M in HMd; lia|]. exact HR. }
    destruct Hc as [(H1 & _)|[(_ & _ & H3 & _)|(_ & _ & _ & Hrr)]]; [lia|lia|].
    rewrite Hrr. replace (e1 + 1) with e by lia. rewrite Hm52.
    destruct (Z.leb_spec e 971); [reflexivity|lia].
Qed.

End Rounding.

Section DecimalDigits.

Local Open Scope Z_scope.

(** ** Decimal digits *)

Lemma pow10_gt0 a : 0 <= a -> 0 < 10 ^ a.
Proof. intros. apply Z.pow_pos_nonneg; lia. Qed.

Lemma pow10_split a b : 0 <= a -> 0 <= b -> 10 ^ (a + b) = 10 ^ a * 10 ^ b.
Proof. intros. now apply Z.pow_add_r. Qed.

Lemma pow10_le a b : 0 <= a <= b -> 10 ^ a <= 10 ^ b.
Proof. intros. apply Z.pow_le_mono_r; lia. Qed.

Lemma pow10_lt_inv a b : 0 <= b -> 10 ^ a < 10 ^ b -> a < b.
Proof.
  intros Hb H. destruct (Z.lt_ge_cases a b) as [|Hge]; [assumption|].
  exfalso. assert (10 ^ b <= 10 ^ a) by (apply Z.pow_le_mono_r; lia). lia.
Qed.

Lemma digit_char_val v :
  0 <= v < 10 ->
  is_digit (Z.to_N v + 48)%N = true /\ digit_val (Z.to_N v + 48)%N = v.
Proof.
  intros Hv. split.
  - apply is_digit_iff. lia.
  - unfold digit_val. rewrite N.add_sub. apply Z2N.id. lia.
Qed.

Lemma digits_value_app a ds t :
  digits_value a (ds ++ t) = digits_value (digits_value a ds) t.
Proof. revert a. induction ds as [|d ds IH]; intros a; cbn [app digits_value]; auto. Qed.

Lemma decimal_digits_spec f : forall v acc,
  0 <= v < 2 ^ Z.of_nat f -> (0 < f)%nat ->
  exists ds,
    decimal_digits f v acc = ds ++ acc
    /\ forallb is_digit ds = true
    /\ (0 < List.length ds)%nat
    /\ (forall a, digits_value a ds = a * 10 ^ Z.of_nat (List.length ds) + v)
    /\ v < 10 ^ Z.of_nat (List.length ds)
    /\ (0 < v -> 10 ^ (Z.of_nat (List.length ds) - 1) <= v).
Proof.
  induction f as [|f IH]; intros v acc Hv Hf; [lia|].
  cbn [decimal_digits].
  pose proof (Z.mod_pos_bound v 10 ltac:(lia)) as Hmod.
  destruct (digit_char_val (v mod 10) Hmod) as [Hd Hdv].
  destruct (Z.ltb_spec v 10) as [Hlt|Hge].
  - exists [(Z.to_N (v mod 10) + 48)%N]. cbn [app forallb List.length digits_value].
    rewrite Hd, Hdv, Z.mod_small by lia. change (10 ^ Z.of_nat 1) with 10.
    change (10 ^ (Z.of_nat 1 - 1)) with 1.
    repeat split; auto; lia.
  - assert (Hv' : 0 <= v / 10 < 2 ^ Z.of_nat f).
    { split; [apply Z.div_pos; lia|].
      apply Z.div_lt_upper_bound; [lia|].
      rewrite Nat2Z.inj_succ, Z.pow_succ_r in Hv by lia. lia. }
    assert (Hf' : (0 < f)%nat).
    { destruct f; [|lia]. cbn in Hv'. assert (1 <= v / 10) by (apply Z.div_le_lower_bound; lia). lia. }
    destruct (IH (v / 10) ((Z.to_N (v mod 10) + 48)%N :: acc) Hv' Hf')
      as (ds & E & Hall & Hlen & Hval & Hup & Hlo).
    exists (ds ++ [(Z.to_N (v mod 10) + 48)%N]).
    rewrite E, <- app_assoc. cbn [app]. split; [reflexivity|].
    rewrite forallb_app, Hall. cbn [forallb]. rewrite Hd. split; [reflexivity|].
    rewrite length_app. cbn [List.length]. split; [lia|].
    replace (Z.of_nat (List.length ds + 1)) with (Z.of_nat (List.length ds) + 1) by lia.
    rewrite pow10_split by lia. change (10 ^ 1) with 10.
    pose proof (Z.div_mod v 10 ltac:(lia)) as Hdm.
    split; [|split].
    + intros a. rewrite digits_value_app, Hval. cbn [digits_value]. rewrite Hdv. lia.
    + lia.
    + intros _. replace (Z.of_nat (List.length ds) + 1 - 1)
        with (Z.of_nat (List.length ds) - 1 + 1) by lia.
      rewrite pow10_split by lia. change (10 ^ 1) with 10.
      assert (0 < v / 10) by (apply Z.div_str_pos; lia). specialize (Hlo H). lia.
Qed.

Lemma digits_of_Z_spec v k :
  0 < v -> 10 ^ (k - 1) <= v < 10 ^ k -> 1 <= k ->
  Z.of_nat (List.length (digits_of_Z v)) = k
  /\ forallb is_digit (digits_of_Z v) = true
  /\ forall a, digits_value a (digits_of_Z v) = a * 10 ^ k + v.
Proof.
  intros Hv Hk Hk1. unfold digits_of_Z.
  pose proof (Z.log2_spec v Hv) as Hlog. pose proof (Z.log2_nonneg v) as Hln.
  destruct (decimal_digits_spec (S (Z.to_nat (Z.log2 v))) v []) as
    (ds & E & Hall & Hlen & Hval & Hup & Hlo).
  { rewrite Nat2Z.inj_succ, Z2Nat.id by lia. lia. }
  { lia. }
  rewrite E, app_nil_r. specialize (Hlo Hv).
  assert (Hkk : Z.of_nat (List.length ds) = k).
  { assert (H1 : 10 ^ (k - 1) < 10 ^ Z.of_nat (List.length ds)) by lia.
    apply pow10_lt_inv in H1; [|lia].
    assert (H2 : 10 ^ (Z.of_nat (List.length ds) - 1) < 10 ^ k) by lia.
    apply pow10_lt_inv in H2; lia. }
  split; [exact Hkk|]. split; [exact Hall|]. intros a. rewrite Hval, Hkk. reflexivity.
Qed.

Lemma zeros_digits j :
  0 <= j -> forallb is_digit (zeros j) = true
  /\ Z.of_nat (List.length (zeros j)) = j
  /\ forall a, digits_value a (zeros j) = a * 10 ^ j.
Proof.
  intros Hj. unfold zeros.
  assert (G : forall n, forallb is_digit (repeat 48%N n) = true
                        /\ Z.of_nat (List.length (repeat 48%N n)) = Z.of_nat n
                        /\ forall a, digits_value a (repeat 48%N n) = a * 10 ^ Z.of_nat n);
    [|destruct (G (Z.to_nat j)) as (G1 & G2 & G3); rewrite Z2Nat.id in G2, G3 by lia; auto].
  clear. induction n as [|n (IH1 & IH2 & IH3)].
  - cbn. repeat split. intros a. lia.
  - cbn [repeat forallb List.length digits_value]. rewrite IH1. split; [reflexivity|].
    split; [lia|]. intros a. rewrite IH3. change (digit_val 48%N) with 0.
    rewrite Nat2Z.inj_succ, Z.pow_succ_r by lia. lia.
Qed.

(** ** Reading a plain decimal text *)

Lemma number_of_decimal_pos m e :
  0 < m ->
  number_of_decimal m e
  = round_ratio (if 0 <=? e then m * 10 ^ e else m) (if 0 <=? e then 1 else 10 ^ (- e)).
Proof. intros H. destruct m; try lia. reflexivity. Qed.

Lemma digit_numch c : is_digit c = true -> is_numch c = true.
Proof. intros H. unfold is_numch. now rewrite H. Qed.

Lemma digits_numch ds : forallb is_digit ds = true -> forallb is_numch ds = true.
Proof. apply forallb_impl. intros c. apply digit_numch. Qed.

Lemma not_infinity c s :
  is_numch c = true -> starts_with (lit "Infinity") (c :: s) = false.
Proof.
  intros H. apply is_numch_iff in H. cbn [lit list_ascii_of_string List.map starts_with].
  assert (E : unit_eqb (N_of_ascii "I") c = false).
  { unfold unit_eqb. apply N.eqb_neq. change (N_of_ascii "I") with 73%N. lia. }
  now rewrite E.
Qed.

Lemma parse_unsigned_integer ds :
  forallb is_digit ds = true -> ds <> [] ->
  parse_unsigned ds = number_of_decimal (digits_value 0 ds) 0.
Proof.
  intros Hd Hne. unfold parse_unsigned.
  destruct ds as [|c ds']; [congruence|].
  rewrite not_infinity by (apply digit_numch; cbn [forallb] in Hd;
                           now apply Bool.andb_true_iff in Hd).
  pose proof (span_eq is_digit (c :: ds') [] Hd I) as Hs. rewrite app_nil_r in Hs.
  rewrite Hs. reflexivity.
Qed.

Lemma parse_unsigned_fraction ip fp :
  forallb is_digit ip = true -> forallb is_digit fp = true -> ip ++ fp <> [] ->
  parse_unsigned (ip ++ 46%N :: fp)
  = number_of_decimal (digits_value 0 (ip ++ fp)) (- Z.of_nat (List.length fp)).
Proof.
  intros Hi Hf Hne. unfold parse_unsigned.
  assert (Hinf : starts_with (lit "Infinity") (ip ++ 46%N :: fp) = false).
  { destruct ip as [|c ip']; cbn [app]; apply not_infinity; [reflexivity|].
    apply digit_numch. cbn [forallb] in Hi. now apply Bool.andb_true_iff in Hi. }
  rewrite Hinf.
  rewrite (span_eq is_digit ip (46%N :: fp) Hi eq_refl).
  change (N.eqb 46 46) with true. cbv iota.
  pose proof (span_eq is_digit fp [] Hf I) as Hs. rewrite app_nil_r in Hs. rewrite Hs.
  destruct (ip ++ fp) as [|x r] eqn:E; [congruence|]. reflexivity.
Qed.

Lemma parse_format s n k :
  1 <= k -> 10 ^ (k - 1) <= s < 10 ^ k -> -6 < n <= 21 ->
  forallb is_numch (format_digits s n k) = true
  /\ parse_unsigned (format_digits s n k) = number_of_decimal s (n - k).
Proof.
  intros Hk Hs Hn.
  assert (Hs0 : 0 < s) by (pose proof (pow10_gt0 (k - 1) ltac:(lia)); lia).
  destruct (digits_of_Z_spec s k Hs0 Hs Hk) as (Hlen & Hall & Hval).
  unfold format_digits. set (ds := digits_of_Z s) in *.
  assert (Hne : ds <> []) by (intros E; rewrite E in Hlen; cbn in Hlen; lia).
  destruct (Z.leb_spec k n) as [Hkn|Hkn]; cbn [andb].
  - (* an integer: the digits, then zeros *)
    destruct (Z.leb_spec n 21) as [_|?]; [|lia].
    destruct (zeros_digits (n - k) ltac:(lia)) as (Z1 & Z2 & Z3). split.
    + rewrite forallb_app, (digits_numch _ Hall), (digits_numch _ Z1). reflexivity.
    + rewrite parse_unsigned_integer.
      * rewrite digits_value_app, Hval, Z3. rewrite Z.mul_0_l, Z.add_0_l.
        rewrite !number_of_decimal_pos.
        -- destruct (Z.leb_spec 0 (n - k)); [|lia]. cbn [Z.leb]. 
           change (0 <=? 0) with true. cbv iota. rewrite Z.pow_0_r, Z.mul_1_r. reflexivity.
        -- exact Hs0.
        -- pose proof (pow10_gt0 (n - k) ltac:(lia)). nia.
      * rewrite forallb_app, Hall, Z1. reflexivity.
      * intros E. apply app_eq_nil in E as [E _]. congruence.
  - destruct (Z.ltb_spec 0 n) as [Hn0|Hn0]; cbn [andb].
    + (* the point inside the digits *)
      destruct (Z.leb_spec n 21) as [_|?]; [|lia].
      assert (Hf1 : forallb is_digit (firstn (Z.to_nat n) ds) = true)
        by (now apply forallb_firstn).
      assert (Hf2 : forallb is_digit (skipn (Z.to_nat n) ds) = true)
        by (now apply forallb_skipn).
      split.
      * rewrite forallb_app. cbn [forallb].
        rewrite (digits_numch _ Hf1), (digits_numch _ Hf2). reflexivity.
      * rewrite parse_unsigned_fraction; try assumption.
        -- rewrite firstn_skipn, Hval, Z.mul_0_l, Z.add_0_l. f_equal.
           rewrite length_skipn. lia.
        -- rewrite firstn_skipn. exact Hne.
    + (* a leading zero, the point, zeros, the digits *)
      destruct (Z.ltb_spec (-6) n) as [_|?]; [|lia].
      destruct (Z.leb_spec n 0) as [_|?]; [|lia]. cbn [andb].
      destruct (zeros_digits (- n) ltac:(lia)) as (Z1 & Z2 & Z3). split.
      * cbn [forallb]. rewrite forallb_app, (digits_numch _ Hall), (digits_numch _ Z1).
        reflexivity.
      * change (48%N :: 46%N :: zeros (- n) ++ ds) with ([48%N] ++ 46%N :: zeros (- n) ++ ds).
        rewrite parse_unsigned_fraction.
        -- cbn [app digits_value]. change (0 * 10 + digit_val 48%N) with 0.
           rewrite digits_value_app, Z3, Hval.
           replace (0 * 10 ^ (- n) * 10 ^ k + s) with s by lia. f_equal.
           rewrite length_app. lia.
        -- reflexivity.
        -- rewrite forallb_app, Z1, Hall. reflexivity.
        -- discriminate.
Qed.

End DecimalDigits.

Section DigitSearch.

Local Open Scope Z_scope.

(** ** The decimal magnitude and the digit search *)

Lemma find_magnitude_spec f : forall p q n0,
  n0 <= find_magnitude f p q n0 <= n0 + Z.of_nat f
  /\ (forall i, n0 <= i < find_magnitude f p q n0 -> below_pow10 p q i = false)
  /\ (find_magnitude f p q n0 < n0 + Z.of_nat f ->
      below_pow10 p q (find_magnitude f p q n0) = true).
Proof.
  induction f as [|f IH]; intros p q n0; cbn [find_magnitude].
  - split; [lia|]. split; [intros i Hi; lia|lia].
  - destruct (below_pow10 p q n0) eqn:E.
    + split; [lia|]. split; [intros i Hi; lia|auto].
    + destruct (IH p q (n0 + 1)) as (H1 & H2 & H3). split; [lia|]. split.
      * intros i Hi. destruct (Z.eq_dec i n0) as [->|Hne]; [exact E|]. apply H2. lia.
      * intros Hlt. apply H3. lia.
Qed.

Lemma below_pow10_iff p q n :
  below_pow10 p q n = true <-> p * 10 ^ Z.max (- n) 0 < q * 10 ^ Z.max n 0.
Proof.
  unfold below_pow10. destruct (Z.leb_spec 0 n).
  - rewrite Z.max_r, Z.max_l by lia. rewrite Z.pow_0_r, Z.mul_1_r. apply Z.ltb_lt.
  - rewrite Z.max_l, Z.max_r by lia. rewrite Z.pow_0_r, Z.mul_1_r. apply Z.ltb_lt.
Qed.

Lemma pow10_identity z1 z2 k :
  k = z1 + z2 -> 0 <= k ->
  10 ^ k * (10 ^ Z.max (- z1) 0 * 10 ^ Z.max (- z2) 0)
  = 10 ^ Z.max z1 0 * 10 ^ Z.max z2 0.
Proof.
  intros Hk Hk0. rewrite <- !pow10_split by lia. f_equal. lia.
Qed.

(** The quotient the search starts from has exactly [k] digits. *)
Lemma candidate_window p q n k :
  0 < p -> 0 < q -> 1 <= k ->
  below_pow10 p q n = true -> below_pow10 p q (n - 1) = false ->
  let d := k - n in
  let num := if 0 <=? d then p * 10 ^ d else p in
  let den := if 0 <=? d then q else q * 10 ^ (- d) in
  0 < den /\ 10 ^ (k - 1) * den <= num /\ num < 10 ^ k * den
  /\ num = p * 10 ^ Z.max d 0 /\ den = q * 10 ^ Z.max (- d) 0.
Proof.
  intros Hp Hq Hk Hb Hnb d num den.
  apply below_pow10_iff in Hb.
  assert (Hnb' : q * 10 ^ Z.max (n - 1) 0 <= p * 10 ^ Z.max (- (n - 1)) 0).
  { destruct (Z.lt_ge_cases (p * 10 ^ Z.max (- (n - 1)) 0) (q * 10 ^ Z.max (n - 1) 0))
      as [H|H]; [|exact H].
    apply below_pow10_iff in H. congruence. }
  assert (Enum : num = p * 10 ^ Z.max d 0).
  { unfold num. destruct (Z.leb_spec 0 d).
    - now rewrite Z.max_l by lia.
    - rewrite Z.max_r by lia. rewrite Z.pow_0_r. lia. }
  assert (Eden : den = q * 10 ^ Z.max (- d) 0).
  { unfold den. destruct (Z.leb_spec 0 d).
    - rewrite Z.max_r by lia. rewrite Z.pow_0_r. lia.
    - now rewrite Z.max_l by lia. }
  pose proof (pow10_gt0 (Z.max d 0) ltac:(lia)) as G1.
  pose proof (pow10_gt0 (Z.max (- d) 0) ltac:(lia)) as G2.
  pose proof (pow10_gt0 (Z.max n 0) ltac:(lia)) as G3.
  pose proof (pow10_gt0 (Z.max (- n) 0) ltac:(lia)) as G4.
  pose proof (pow10_gt0 (Z.max (n - 1) 0) ltac:(lia)) as G5.
  pose proof (pow10_gt0 (Z.max (- (n - 1)) 0) ltac:(lia)) as G6.
  pose proof (pow10_identity d n k ltac:(lia) ltac:(lia)) as I1.
  pose proof (pow10_identity d (n - 1) (k - 1) ltac:(lia) ltac:(lia)) as I2.
  pose proof (pow10_gt0 k ltac:(lia)) as G7.
  pose proof (pow10_gt0 (k - 1) ltac:(lia)) as G8.
  set (Ud := 10 ^ Z.max d 0) in *. set (Dd := 10 ^ Z.max (- d) 0) in *.
  set (Un := 10 ^ Z.max n 0) in *. set (Dn := 10 ^ Z.max (- n) 0) in *.
  set (Um := 10 ^ Z.max (n - 1) 0) in *. set (Dm := 10 ^ Z.max (- (n - 1)) 0) in *.
  set (K := 10 ^ k) in *. set (K1 := 10 ^ (k - 1)) in *.
  clearbody Ud Dd Un Dn Um Dm K K1.
  rewrite Enum, Eden. split; [nia|]. split; [|split; [|split; reflexivity]].
  - assert (E : (K1 * (q * Dd)) * Dm <= (p * Ud) * Dm).
    { replace ((K1 * (q * Dd)) * Dm) with (q * (K1 * (Dd * Dm))) by ring.
      rewrite I2. replace (q * (Ud * Um)) with ((q * Um) * Ud) by ring.
      replace ((p * Ud) * Dm) with ((p * Dm) * Ud) by ring.
      apply Z.mul_le_mono_nonneg_r; lia. }
    apply (Z.mul_le_mono_pos_r _ _ Dm); assumption.
  - assert (E : (p * Ud) * Dn < (K * (q * Dd)) * Dn).
    { replace ((K * (q * Dd)) * Dn) with (q * (K * (Dd * Dn))) by ring.
      rewrite I1. replace (q * (Ud * Un)) with ((q * Un) * Ud) by ring.
      replace ((p * Ud) * Dn) with ((p * Dn) * Ud) by ring.
      apply Z.mul_lt_mono_pos_r; lia. }
    apply (cancel_lt_r _ _ Dn); assumption.
Qed.

Lemma num_eqb_finite y m e :
  num_eqb y (S754_finite false m e) = true -> y = S754_finite false m e.
Proof.
  unfold num_eqb, SFeqb. destruct y as [s|s| |s m' e']; cbn [SFcompare];
    try (destruct s); try discriminate.
  destruct (Z.compare_spec e' e) as [E|L|G]; try discriminate.
  change (Pos.compare_cont Eq m' m) with (Pos.compare m' m).
  destruct (Pos.compare_spec m' m) as [E'|L|G]; try discriminate.
  intros _. now subst.
Qed.

Lemma num_eqb_refl m e : num_eqb (S754_finite false m e) (S754_finite false m e) = true.
Proof.
  unfold num_eqb, SFeqb. cbn [SFcompare]. rewrite Z.compare_refl.
  change (Pos.compare_cont Eq m m) with (Pos.compare m m). now rewrite Pos.compare_refl.
Qed.

Lemma shortest_at_some x p q n k s n' :
  shortest_at x p q n k = Some (s, n') ->
  exists cand,
    (cand = (if 0 <=? k - n then p * 10 ^ (k - n) else p)
            / (if 0 <=? k - n then q else q * 10 ^ (- (k - n)))
     \/ cand = (if 0 <=? k - n then p * 10 ^ (k - n) else p)
               / (if 0 <=? k - n then q else q * 10 ^ (- (k - n))) + 1)
    /\ num_eqb (number_of_decimal cand (n - k)) x = true
    /\ (s, n') = (if cand =? 10 ^ k then (cand / 10, n + 1) else (cand, n)).
Proof.
  unfold shortest_at.
  set (num := if 0 <=? k - n then p * 10 ^ (k - n) else p).
  set (den := if 0 <=? k - n then q else q * 10 ^ (- (k - n))).
  set (lo := num / den).
  destruct (num_eqb (number_of_decimal lo (n - k)) x) eqn:Elo;
    destruct (num_eqb (number_of_decimal (lo + 1) (n - k)) x) eqn:Ehi; cbn [andb].
  - destruct (2 * (num - lo * den) ?= den); [destruct (Z.even lo)| |];
      intros H; injection H as H; rewrite <- H;
      first [ exists lo; split; [now left|]; split; [exact Elo|reflexivity]
            | exists (lo + 1); split; [now right|]; split; [exact Ehi|reflexivity] ].
  - intros H; injection H as H; rewrite <- H.
    exists lo; split; [now left|]; split; [exact Elo|reflexivity].
  - intros H; injection H as H; rewrite <- H.
    exists (lo + 1); split; [now right|]; split; [exact Ehi|reflexivity].
  - discriminate.
Qed.

Lemma shortest_at_none x p q n k :
  shortest_at x p q n k = None ->
  let lo := (if 0 <=? k - n then p * 10 ^ (k - n) else p)
            / (if 0 <=? k - n then q else q * 10 ^ (- (k - n))) in
  num_eqb (number_of_decimal lo (n - k)) x = false
  /\ num_eqb (number_of_decimal (lo + 1) (n - k)) x = false.
Proof.
  unfold shortest_at.
  set (num := if 0 <=? k - n then p * 10 ^ (k - n) else p).
  set (den := if 0 <=? k - n then q else q * 10 ^ (- (k - n))).
  set (lo := num / den). cbv zeta.
  destruct (num_eqb (number_of_decimal lo (n - k)) x) eqn:Elo;
    destruct (num_eqb (number_of_decimal (lo + 1) (n - k)) x) eqn:Ehi; cbn [andb];
    try discriminate; auto.
  destruct (2 * (num - lo * den) ?= den); [destruct (Z.even lo)| |]; discriminate.
Qed.

Lemma shortest_digits_spec f : forall x p q n k0 s n' k,
  shortest_digits f x p q n k0 = (s, n', k) ->
  (k0 <= k < k0 + Z.of_nat f /\ shortest_at x p q n k = Some (s, n'))
  \/ (k = k0 + Z.of_nat f /\ n' = n
      /\ (f = O \/ shortest_at x p q n (k - 1) = None)).
Proof.
  induction f as [|f IH]; intros x p q n k0 s n' k; cbn [shortest_digits].
  - intros H. injection H as _ <- <-. right. split; [lia|]. split; [reflexivity|now left].
  - destruct (shortest_at x p q n k0) as [[s0 n0]|] eqn:E.
    + intros H. injection H as <- <- <-. left. split; [lia|exact E].
    + intros H. destruct (IH _ _ _ _ _ _ _ _ H) as [[H1 H2]|(H1 & H2 & [H3|H3])].
      * left. split; [lia|exact H2].
      * right. split; [lia|]. split; [exact H2|]. right. subst f.
        replace (k - 1) with k0 by lia. exact E.
      * right. split; [lia|]. split; [exact H2|]. right. exact H3.
Qed.

(** ** Seventeen digits are enough *)

Lemma ar_seventeen m G b lo r :
  0 < G -> 0 < b -> m * G = b * lo + r -> 0 <= r < b ->
  10000000000000000 <= lo -> 4503599627370496 <= m < 9007199254740992 ->
  (2 * r < G /\ (m = 4503599627370496 -> 4 * r < G)) \/ 2 * (b - r) < G.
Proof.
  intros HG Hb Hdiv Hr Hlo Hm.
  assert (H1 : b * 10000000000000000 <= b * lo) by (apply Z.mul_le_mono_nonneg_l; lia).
  destruct (Z.eq_dec m 4503599627370496) as [Em|Nm].
  - subst m. destruct (Z.lt_ge_cases (4 * r) G) as [H4|H4].
    + left. split; [lia|intros _; exact H4].
    + right. lia.
  - assert (H2 : m * G <= 9007199254740991 * G) by (apply Z.mul_le_mono_nonneg_r; lia).
    destruct (Z.lt_ge_cases (2 * r) G) as [H4|H4].
    + left. split; [exact H4|intros E; congruence].
    + right. lia.
Qed.

(** For a normal binary64 value of decimal magnitude [n], one of the two
    candidates of seventeen digits reads back as the value: the search
    finds its digits before it runs out of rounds. *)
Lemma search_ends m e n :
  2 ^ 52 <= Zpos m < 2 ^ 53 -> -1074 < e <= 971 ->
  let p := if 0 <=? e then Zpos m * 2 ^ e else Zpos m in
  let q := if 0 <=? e then 1 else 2 ^ (- e) in
  below_pow10 p q n = true -> below_pow10 p q (n - 1) = false ->
  shortest_at (S754_finite false m e) p q n 17 = None -> False.
Proof.
  intros Hm He p q Hb Hnb Hnone.
  assert (C52 : 2 ^ 52 = 4503599627370496) by reflexivity.
  assert (C53 : 2 ^ 53 = 9007199254740992) by reflexivity.
  rewrite C52, C53 in Hm.
  set (P := 2 ^ Z.max e 0). set (N := 2 ^ Z.max (- e) 0).
  pose proof (pow2_gt0 (Z.max e 0) ltac:(lia)) as HP.
  pose proof (pow2_gt0 (Z.max (- e) 0) ltac:(lia)) as HN.
  fold P in HP. fold N in HN.
  assert (Ep : p = Zpos m * P).
  { unfold p, P. destruct (Z.leb_spec 0 e).
    - now rewrite Z.max_l by lia.
    - rewrite Z.max_r by lia. rewrite Z.pow_0_r. lia. }
  assert (Eq : q = N).
  { unfold q, N. destruct (Z.leb_spec 0 e).
    - rewrite Z.max_r by lia. reflexivity.
    - now rewrite Z.max_l by lia. }
  assert (Hp : 0 < p) by (rewrite Ep; nia).
  assert (Hq : 0 < q) by (rewrite Eq; exact HN).
  destruct (candidate_window p q n 17 Hp Hq ltac:(lia) Hb Hnb)
    as (Hden & Hlo & Hhi & Enum & Eden).
  apply shortest_at_none in Hnone. cbv zeta in Hnone. destruct Hnone as [Nlo Nhi].
  set (d := 17 - n) in *.
  set (num := if 0 <=? d then p * 10 ^ d else p) in *.
  set (den := if 0 <=? d then q else q * 10 ^ (- d)) in *.
  set (lo := num / den) in *.
  assert (Hlo16 : 10 ^ 16 <= lo).
  { apply Z.div_le_lower_bound; [exact Hden|]. change (17 - 1) with 16 in Hlo. lia. }
  change (10 ^ 16) with 10000000000000000 in Hlo16.
  pose proof (Z.div_mod num den ltac:(lia)) as Hdm. fold lo in Hdm.
  pose proof (Z.mod_pos_bound num den Hden) as Hmb.
  set (r := num mod den) in *.
  pose proof (pow10_gt0 (Z.max d 0) ltac:(lia)) as GU.
  pose proof (pow10_gt0 (Z.max (- d) 0) ltac:(lia)) as GD.
  set (Ud := 10 ^ Z.max d 0) in *. set (Dd := 10 ^ Z.max (- d) 0) in *.
  assert (Hnd : forall c, 0 < c ->
            number_of_decimal c (n - 17) = round_ratio (c * Dd) Ud).
  { intros c Hc. rewrite number_of_decimal_pos by exact Hc. unfold Dd, Ud, d.
    destruct (Z.leb_spec 0 (n - 17)).
    - rewrite (Z.max_l (- (17 - n))), (Z.max_r (17 - n)) by lia.
      rewrite Z.pow_0_r. f_equal. f_equal. f_equal. lia.
    - rewrite (Z.max_r (- (17 - n))), (Z.max_l (17 - n)) by lia.
      rewrite Z.pow_0_r, Z.mul_1_r. f_equal. f_equal. lia. }
  assert (Hdiv : Zpos m * (P * Ud) = (N * Dd) * lo + r).
  { rewrite <- Eq, <- Eden, <- Hdm, Enum, Ep. ring. }
  assert (Hr : 0 <= r < N * Dd) by (rewrite <- Eq, <- Eden; exact Hmb).
  assert (HG : 0 < P * Ud) by nia. assert (Hbb : 0 < N * Dd) by nia.
  destruct (ar_seventeen (Zpos m) (P * Ud) (N * Dd) lo r HG Hbb Hdiv Hr Hlo16 Hm)
    as [[H2r H4r]|H2b].
  - (* the quotient itself reads back *)
    assert (E : number_of_decimal lo (n - 17) = S754_finite false m e).
    { rewrite Hnd by lia.
      change (S754_finite false m e) with (S754_finite false (Z.to_pos (Zpos m)) e).
      apply round_ratio_near; fold P N.
      - apply Z.mul_pos_pos; lia.
      - exact GU.
      - rewrite C52, C53. exact Hm.
      - exact He.
      - clearbody P N Ud Dd lo r. nia.
      - clearbody P N Ud Dd lo r. nia.
      - rewrite C52. intros Em. specialize (H4r Em). clearbody P N Ud Dd lo r. nia. }
    rewrite E, num_eqb_refl in Nlo. discriminate.
  - (* its successor reads back *)
    assert (E : number_of_decimal (lo + 1) (n - 17) = S754_finite false m e).
    { rewrite Hnd by lia.
      change (S754_finite false m e) with (S754_finite false (Z.to_pos (Zpos m)) e).
      apply round_ratio_near; fold P N.
      - apply Z.mul_pos_pos; lia.
      - exact GU.
      - rewrite C52, C53. exact Hm.
      - exact He.
      - clearbody P N Ud Dd lo r. nia.
      - clearbody P N Ud Dd lo r. nia.
      - intros _. clearbody P N Ud Dd lo r. nia. }
    rewrite E, num_eqb_refl in Nhi. discriminate.
Qed.

(** ** A number printed without exponent reads back as itself *)

Lemma forallb_false_in (p : code_unit -> bool) l c :
  In c l -> p c = false -> forallb p l = false.
Proof.
  intros Hin Hc. destruct (forallb p l) eqn:E; [|reflexivity].
  rewrite forallb_forall in E. rewrite (E c Hin) in Hc. discriminate.
Qed.

Lemma exponent_not_plain n : forallb is_numch (exponent_text n) = false.
Proof. reflexivity. Qed.

Lemma format_plain_range s n k :
  1 <= k -> forallb is_numch (format_digits s n k) = true -> -6 < n <= 21.
Proof.
  intros Hk H.
  assert (Hexp : forallb is_numch
                   (if k =? 1 then digits_of_Z s ++ exponent_text n
                    else firstn 1 (digits_of_Z s) ++ 46%N :: skipn 1 (digits_of_Z s)
                         ++ exponent_text n) = false).
  { destruct (k =? 1).
    - rewrite forallb_app, exponent_not_plain. apply Bool.andb_false_r.
    - rewrite forallb_app. cbn [forallb]. rewrite forallb_app, exponent_not_plain.
      rewrite !Bool.andb_false_r. reflexivity. }
  destruct (Z.lt_ge_cases (-6) n) as [H1|H1];
    [destruct (Z.le_gt_cases n 21) as [H2|H2]; [lia|]|]; exfalso.
  - unfold format_digits in H. cbv zeta in H.
    destruct (Z.leb_spec n 21); [lia|]. destruct (Z.leb_spec n 0); [lia|].
    rewrite !Bool.andb_false_r in H.
    pose proof (eq_trans (eq_sym H) Hexp). discriminate.
  - unfold format_digits in H. cbv zeta in H.
    destruct (Z.leb_spec k n); [lia|]. destruct (Z.ltb_spec 0 n); [lia|].
    destruct (Z.ltb_spec (-6) n); [lia|]. cbn [andb] in H.
    pose proof (eq_trans (eq_sym H) Hexp). discriminate.
Qed.

Lemma power_of_ten_table k n :
  1 <= k <= 17 -> -6 <= n <= 20 ->
  num_eqb (parse_unsigned (format_digits (10 ^ k / 10) (n + 1) k))
          (number_of_decimal (10 ^ k) (n - k)) = true.
Proof.
  intros Hk Hn.
  assert (T : forallb (fun k' =>
                forallb (fun n' =>
                  num_eqb (parse_unsigned
                             (format_digits (10 ^ Z.of_nat k' / 10)
                                (Z.of_nat n' - 6 + 1) (Z.of_nat k')))
                          (number_of_decimal (10 ^ Z.of_nat k')
                             (Z.of_nat n' - 6 - Z.of_nat k')))
                  (seq 0 27))
                (seq 1 17) = true) by (vm_compute; reflexivity).
  rewrite forallb_forall in T.
  specialize (T (Z.to_nat k)). rewrite in_seq in T.
  specialize (T ltac:(lia)). rewrite forallb_forall in T.
  specialize (T (Z.to_nat (n + 6))). rewrite in_seq in T.
  specialize (T ltac:(lia)).
  rewrite !Z2Nat.id in T by lia.
  replace (n + 6 - 6) with n in T by lia. exact T.
Qed.

Lemma tiny_below m n :
  Zpos m < 2 ^ 53 -> -7 <= n -> below_pow10 (Zpos m) (2 ^ 1074) n = true.
Proof.
  intros Hm Hn. apply below_pow10_iff.
  assert (H1 : 10 ^ Z.max (- n) 0 <= 10 ^ 7) by (apply pow10_le; lia).
  pose proof (pow10_gt0 (Z.max n 0) ltac:(lia)) as H2.
  pose proof (pow10_gt0 (Z.max (- n) 0) ltac:(lia)) as H3.
  assert (H4 : 2 ^ 53 * 10 ^ 7 < 2 ^ 1074) by (vm_compute; reflexivity).
  assert (H5 : 0 < 2 ^ 1074) by (vm_compute; reflexivity).
  set (A := 10 ^ Z.max (- n) 0) in *. set (B := 10 ^ Z.max n 0) in *.
  set (K := 2 ^ 1074) in *. set (K53 := 2 ^ 53) in *. set (T7 := 10 ^ 7) in *.
  assert (0 < K53) by (unfold K53; vm_compute; reflexivity).
  clearbody A B K K53 T7.
  assert (Z.pos m * A <= K53 * T7).
  { apply Z.mul_le_mono_nonneg; lia. }
  assert (K * 1 <= K * B) by (apply Z.mul_le_mono_nonneg_l; lia).
  lia.
Qed.

(** The digits found, printed without exponent, are read by
    [parse_unsigned] as the value itself. *)
Lemma read_back_finite m e :
  (Zpos m <= 2 ^ 52 /\ e = -1074) \/ (2 ^ 52 <= Zpos m < 2 ^ 53 /\ -1074 <= e <= 971) ->
  forallb is_numch (Number_toString (S754_finite false m e)) = true ->
  parse_unsigned (Number_toString (S754_finite false m e)) = S754_finite false m e.
Proof.
  intros Hcan. unfold Number_toString.
  set (p := if 0 <=? e then Zpos m * 2 ^ e else Zpos m).
  set (q := if 0 <=? e then 1 else 2 ^ (- e)).
  set (n := find_magnitude 640 p q (-324)).
  destruct (shortest_digits 17 (S754_finite false m e) p q n 1) as [[s n'] k] eqn:Esd.
  cbn [app]. intros Hplain.
  assert (Hk1 : 1 <= k).
  { destruct (shortest_digits_spec _ _ _ _ _ _ _ _ _ Esd) as [[H _]|[H _]]; lia. }
  pose proof (format_plain_range s n' k Hk1 Hplain) as Hn'.
  destruct (find_magnitude_spec 640 p q (-324)) as (Hn1 & Hn2 & Hn3). fold n in Hn1, Hn2, Hn3.
  assert (Hmag : -6 <= n <= 21 ->
                 below_pow10 p q n = true /\ below_pow10 p q (n - 1) = false).
  { intros Hr. split; [apply Hn3; lia|apply Hn2; lia]. }
  assert (Hnormal : -6 <= n <= 21 -> 2 ^ 52 <= Zpos m < 2 ^ 53 /\ -1074 < e <= 971).
  { intros Hr. destruct (Hmag Hr) as [_ Hnb].
    assert (Hm53 : Zpos m < 2 ^ 53).
    { destruct Hcan as [[H _]|[H _]]; [|lia].
      assert (2 ^ 52 < 2 ^ 53) by (vm_compute; reflexivity). lia. }
    destruct (Z.eq_dec e (-1074)) as [Ee|Ne].
    - exfalso. unfold p, q in Hnb. rewrite Ee in Hnb.
      change (0 <=? -1074) with false in Hnb. cbv iota in Hnb.
      change (- -1074) with 1074 in Hnb.
      rewrite (tiny_below m (n - 1) Hm53) in Hnb by lia. discriminate.
    - destruct Hcan as [[_ H]|[H1 H2]]; [congruence|]. split; [exact H1|lia]. }
  destruct (shortest_digits_spec _ _ _ _ _ _ _ _ _ Esd) as [[Hk Hat]|(Hk & Hnn & [Hf|Hat])].
  - (* the search found the digits *)
    destruct (shortest_at_some _ _ _ _ _ _ _ Hat) as (cand & Hcand & Hok & Hsn).
    apply num_eqb_finite in Hok.
    assert (Hnr : -6 <= n <= 21).
    { destruct (cand =? 10 ^ k); injection Hsn as _ Hsn; lia. }
    destruct (Hmag Hnr) as [Hb Hnb]. destruct (Hnormal Hnr) as [Hm He].
    assert (Hp : 0 < p).
    { unfold p. destruct (Z.leb_spec 0 e); [|lia].
      pose proof (pow2_gt0 e ltac:(lia)). apply Z.mul_pos_pos; lia. }
    assert (Hq : 0 < q).
    { unfold q. destruct (Z.leb_spec 0 e); [lia|]. apply pow2_gt0. lia. }
    destruct (candidate_window p q n k Hp Hq Hk1 Hb Hnb) as (Hden & Hlo & Hhi & _ & _).
    set (num := if 0 <=? k - n then p * 10 ^ (k - n) else p) in *.
    set (den := if 0 <=? k - n then q else q * 10 ^ (- (k - n))) in *.
    assert (Hlo' : 10 ^ (k - 1) <= num / den < 10 ^ k).
    { split; [apply Z.div_le_lower_bound; lia|apply Z.div_lt_upper_bound; lia]. }
    destruct (Z.eqb_spec cand (10 ^ k)) as [Ec|Nc].
    + (* a power of ten *)
      injection Hsn as -> ->.
      rewrite Ec in *.
      pose proof (power_of_ten_table k n ltac:(lia) ltac:(lia)) as T.
      rewrite Hok in T. exact (num_eqb_finite _ _ _ T).
    + injection Hsn as -> ->.
      destruct (parse_format cand n k Hk1 ltac:(lia) Hn') as [_ Hpf].
      rewrite Hpf. exact Hok.
  - discriminate.
  - (* the search cannot run out *)
    exfalso. subst n'. assert (Hnr : -6 <= n <= 21) by lia.
    destruct (Hmag Hnr) as [Hb Hnb]. destruct (Hnormal Hnr) as [Hm He].
    replace (k - 1) with 17 in Hat by lia.
    exact (search_ends m e n Hm He Hb Hnb Hat).
Qed.

Lemma digits_value_nonneg ds : forall a, 0 <= a -> 0 <= digits_value a ds.
Proof.
  induction ds as [|d ds IH]; intros a Ha; cbn [digits_value]; [exact Ha|].
  apply IH. unfold digit_val. lia.
Qed.

Lemma parse_unsigned_cases s :
  parse_unsigned s = S754_infinity false \/ parse_unsigned s = NaN
  \/ exists m e, 0 <= m /\ parse_unsigned s = number_of_decimal m e.
Proof.
  unfold parse_unsigned. destruct (starts_with (lit "Infinity") s); [now left|right].
  destruct (span is_digit s) as [ip s1]. destruct s1 as [|c s2].
  - destruct ip as [|d ip]; [now left|right].
    eexists _, _. split; [|reflexivity]. apply digits_value_nonneg. lia.
  - destruct (N.eqb c 46).
    + destruct (span is_digit s2) as [fp s3].
      destruct (ip ++ fp) as [|d ds]; [now left|right].
      eexists _, _. split; [|reflexivity]. apply digits_value_nonneg. lia.
    + destruct ip as [|d ip]; [now left|right].
      eexists _, _. split; [|reflexivity]. apply digits_value_nonneg. lia.
Qed.

Lemma number_of_decimal_cases m e :
  0 <= m ->
  number_of_decimal m e = S754_zero false \/ number_of_decimal m e = S754_infinity false
  \/ number_of_decimal m e = NaN
  \/ exists m' e',
       number_of_decimal m e = S754_finite false m' e'
       /\ ((Zpos m' <= 2 ^ 52 /\ e' = -1074)
           \/ (2 ^ 52 <= Zpos m' < 2 ^ 53 /\ -1074 <= e' <= 971)).
Proof.
  intros Hm. destruct (Z.eq_dec m 0) as [->|Hne]; [now left|].
  pose proof (number_of_decimal_nn m e) as Hnn.
  rewrite number_of_decimal_pos in * by lia.
  set (num := if 0 <=? e then m * 10 ^ e else m) in *.
  set (den := if 0 <=? e then 1 else 10 ^ (- e)) in *.
  assert (Hnum : 0 < num).
  { unfold num. destruct (Z.leb_spec 0 e); [|lia].
    apply Z.mul_pos_pos; [lia|]. apply pow10_gt0. lia. }
  assert (Hden : 0 < den).
  { unfold den. destruct (Z.leb_spec 0 e); [lia|]. apply pow10_gt0. lia. }
  destruct (round_ratio num den) as [s|s| |s m' e'] eqn:E.
  - left. destruct s; [discriminate|reflexivity].
  - right. left. destruct s; [discriminate|reflexivity].
  - right. right. now left.
  - right. right. right. exists m', e'.
    destruct (round_ratio_canonical num den s m' e' Hnum Hden E) as [-> Hc]. auto.
Qed.

(** A number the scanner stores, when it prints as digits and dots only,
    is read back by [parseFloat] from that text as itself. *)
Lemma parsed_reads_back t :
  forallb is_alphach t = true ->
  forallb is_numch (Number_toString (parseFloat t)) = true ->
  parseFloat (Number_toString (parseFloat t)) = parseFloat t.
Proof.
  intros Ht. rewrite (parseFloat_alphach t Ht).
  intros Hplain.
  rewrite parseFloat_alphach
    by (revert Hplain; apply forallb_impl; intros c; apply numch_alphach).
  destruct (parse_unsigned_cases t) as [E|[E|(m & e & Hm & E)]]; rewrite E in *.
  - vm_compute in Hplain. discriminate.
  - vm_compute in Hplain. discriminate.
  - destruct (number_of_decimal_cases m e Hm) as [E'|[E'|[E'|(m' & e' & E' & Hc)]]];
      rewrite E' in *.
    + vm_compute. reflexivity.
    + vm_compute in Hplain. discriminate.
    + vm_compute in Hplain. discriminate.
    + now apply read_back_finite.
Qed.

Lemma emitted_prints_plainly t :
  forallb is_numch t = true ->
  forallb is_numch (Number_toString (parseFloat t)) = true ->
  prints_plainly (parseFloat t).
Proof.
  intros Ht Hp. split; [exact Hp|]. apply parsed_reads_back; [|exact Hp].
  revert Ht. apply forallb_impl. intros c. apply numch_alphach.
Qed.

End DigitSearch.


(** ** Serialising a parsed color and scanning it again *)

Lemma tscan_single tk :
  tokens_wf tk = true -> tscan 0 0 (tokens_text tk) = [(0, tk)].
Proof.
  intros Hwf. rewrite <- (app_nil_r (tokens_text tk)). now rewrite tscan_hit.
Qed.

Lemma plain_token x :
  isNaN x = false -> prints_plainly x ->
  forallb is_numch (Number_toString x) = true /\ nonempty (Number_toString x) = true.
Proof.
  intros Hx [Hp Hr]. split; [assumption|].
  destruct (Number_toString x); [|reflexivity].
  rewrite <- Hr in Hx. discriminate.
Qed.

Lemma tokens_fields tk :
  tokens_wf tk = true ->
  forallb is_numch (tk_t1 tk) = true /\ forallb is_numch (tk_t2 tk) = true
  /\ forallb is_numch (tk_t3 tk) = true.
Proof. unfold tokens_wf. rewrite !Bool.andb_true_iff. tauto. Qed.

(** C4 (amended). A color the scanner emits whose three numbers print in
    plain decimal notation (digits and dots only, no exponent) serialises to
    a text in which the scanner finds exactly one color, with the same l, c,
    h, alpha text and alpha. *)
Theorem serialize_rescan (doc : TextDocument) (r : Range)
  (colors : list ParsedOklch) (c : ParsedOklch) :
  parseOklchFunctionsInRange doc r = Some colors -> In c colors ->
  forallb is_numch (Number_toString (p_l c)) = true ->
  forallb is_numch (Number_toString (p_c c)) = true ->
  forallb is_numch (Number_toString (p_h c)) = true ->
  exists c',
    parseOklchFunctionsInRange (serialize c) (fullRange (serialize c)) = Some [c']
    /\ p_l c' = p_l c /\ p_c c' = p_c c /\ p_h c' = p_h c
    /\ alphaString c' = alphaString c /\ alpha c' = alpha c.
Proof.
  intros Hparse Hin Pl Pc Ph.
  destruct (emitted_color _ _ _ _ Hparse Hin) as (p & tk & _ & Hocc & Hv & ->).
  destruct Hocc as (pre & R & _ & _ & Hwf).
  cbn [color_of p_l p_c p_h alphaString alpha snd] in *.
  destruct (tokens_fields tk Hwf) as (F1 & F2 & F3).
  pose proof (emitted_prints_plainly _ F1 Pl) as Hl.
  pose proof (emitted_prints_plainly _ F2 Pc) as Hc.
  pose proof (emitted_prints_plainly _ F3 Ph) as Hh.
  unfold tokens_valid in Hv. rewrite !Bool.andb_true_iff, !Bool.negb_true_iff in Hv.
  destruct Hv as [[[V1 V2] V3] V4].
  destruct (plain_token _ V1 Hl) as [T1 N1].
  destruct (plain_token _ V2 Hc) as [T2 N2].
  destruct (plain_token _ V3 Hh) as [T3 N3].
  destruct Hl as [_ Rl], Hc as [_ Rc], Hh as [_ Rh].
  set (L := Number_toString (parseFloat (tk_t1 tk))) in *.
  set (C := Number_toString (parseFloat (tk_t2 tk))) in *.
  set (H := Number_toString (parseFloat (tk_t3 tk))) in *.
  set (tk' := MkTokens [] L [32%N] C [32%N] H (tk_alpha tk) []).
  assert (Hal : alpha_wf (tk_alpha tk) = true).
  { unfold tokens_wf in Hwf. rewrite !Bool.andb_true_iff in Hwf. tauto. }
  assert (Hwf' : tokens_wf tk' = true).
  { unfold tokens_wf, tk'. cbn [tk_w0 tk_t1 tk_w1 tk_t2 tk_w2 tk_t3 tk_alpha tk_wl].
    rewrite T1, N1, T2, N2, T3, N3, Hal. reflexivity. }
  assert (Htxt : serialize (color_of doc (offsetAt doc (r_start r)) (p, tk))
                 = tokens_text tk').
  { unfold serialize, replacementString, color_of, tokens_text, tk'.
    cbn [p_l p_c p_h alphaString oklch ok_l ok_c ok_h snd
         tk_w0 tk_t1 tk_w1 tk_t2 tk_w2 tk_t3 tk_alpha tk_wl].
    fold L C H. unfold tokens_alphaString.
    destruct (tk_alpha tk) as [x|]; cbn [alpha_text app]; reflexivity. }
  rewrite Htxt, parser_closed_full, (tscan_single _ Hwf').
  cbn [filter_map parsed_of_tokens].
  assert (Hv' : tokens_valid tk' = true).
  { unfold tokens_valid, tk'. cbn [tk_t1 tk_t2 tk_t3]. unfold tokens_alpha in *.
    cbn [tk_alpha].
    rewrite Rl, Rc, Rh, V1, V2, V3, V4. reflexivity. }
  rewrite Hv'. eexists. split; [reflexivity|].
  cbn [p_l p_c p_h alphaString alpha tk_t1 tk_t2 tk_t3 tk'].
  repeat split; auto.
Qed.

Lemma serialize_rescan_witness :
  let doc := lit "a { color: oklch(0.685 0.169  237.323 / 50% ) }" in
  let c := MkParsed (number_of_decimal 685 (-3)) (number_of_decimal 169 (-3))
             (number_of_decimal 237323 (-3)) (Some (number_of_decimal 5 (-1)))
             (Some (lit " / 50%")) (MkRange (MkPos 0 11) (MkPos 0 45)) in
  serialize c = lit "oklch(0.685 0.169 237.323 / 50%)"
  /\ exists c',
       parseOklchFunctionsInRange (serialize c) (fullRange (serialize c)) = Some [c']
       /\ p_l c' = p_l c /\ p_c c' = p_c c /\ p_h c' = p_h c
       /\ alphaString c' = alphaString c /\ alpha c' = alpha c.
Proof.
  intros doc c. split; [vm_compute; reflexivity|].
  apply (serialize_rescan doc (fullRange doc) [c] c).
  - vm_compute. reflexivity.
  - left. reflexivity.
  - vm_compute. reflexivity.
  - vm_compute. reflexivity.
  - vm_compute. reflexivity.
Defined.

(** C4, counterexample: 10^21 prints as [1e+21], which the scanner does not
    read: the serialised color scans to nothing. *)
Lemma large_number_not_rescanned :
  let doc := lit "oklch(1000000000000000000000 0 0)" in
  exists c,
    parseOklchFunctionsInRange doc (fullRange doc) = Some [c]
    /\ serialize c = lit "oklch(1e+21 0 0)"
    /\ parseOklchFunctionsInRange (serialize c) (fullRange (serialize c)) = Some [].
Proof.
  eexists. split; [vm_compute; reflexivity|]. split; vm_compute; reflexivity.
Qed.
(** ** What a number prints as *)

Lemma digit_plain c : is_digit c = true -> plain_char c = true.
Proof.
  rewrite is_digit_iff. intros H. unfold plain_char.
  assert (H1 : is_dot_char c = true) by (apply is_dot_char_iff; lia).
  assert (H2 : N.eqb c 41 = false) by (apply N.eqb_neq; lia).
  assert (H3 : N.eqb c 42 = false) by (apply N.eqb_neq; lia).
  now rewrite H1, H2, H3.
Qed.

Lemma decimal_digits_plain fuel :
  forall v acc, forallb plain_char acc = true ->
                forallb plain_char (decimal_digits fuel v acc) = true.
Proof.
  induction fuel as [|fuel IH]; intros v acc Hacc; cbn [decimal_digits]; [assumption|].
  assert (Hd : plain_char (Z.to_N (v mod 10) + 48)%N = true).
  { apply digit_plain, is_digit_iff.
    pose proof (Z.mod_pos_bound v 10 ltac:(lia)) as Hm. lia. }
  destruct (Z.ltb v 10).
  - cbn [forallb]. now rewrite Hd, Hacc.
  - apply IH. cbn [forallb]. now rewrite Hd, Hacc.
Qed.

Lemma digits_of_Z_plain v : forallb plain_char (digits_of_Z v) = true.
Proof. unfold digits_of_Z. now apply decimal_digits_plain. Qed.

Lemma zeros_plain n : forallb plain_char (zeros n) = true.
Proof. unfold zeros. induction (Z.to_nat n); cbn; auto. Qed.

Lemma exponent_text_plain n : forallb plain_char (exponent_text n) = true.
Proof.
  unfold exponent_text. cbn [forallb]. rewrite digits_of_Z_plain.
  destruct (Z.ltb (n - 1) 0); reflexivity.
Qed.

Lemma format_digits_plain s n k : forallb plain_char (format_digits s n k) = true.
Proof.
  unfold format_digits. pose proof (digits_of_Z_plain s) as Hd.
  repeat match goal with
         | |- context [if ?b then _ else _] => destruct b
         end;
    repeat (rewrite forallb_app || cbn [forallb]);
    rewrite ?Hd, ?zeros_plain, ?exponent_text_plain,
      ?(forallb_firstn _ _ _ Hd), ?(forallb_skipn _ _ _ Hd); reflexivity.
Qed.

Lemma Number_toString_plain x : forallb plain_char (Number_toString x) = true.
Proof.
  destruct x as [s|s| |s m e]; cbn [Number_toString]; try reflexivity.
  - destruct s; reflexivity.
  - destruct (shortest_digits 17 _ _ _ _ 1) as [[d n] k].
    rewrite forallb_app, format_digits_plain. destruct s; reflexivity.
Qed.

Lemma alpha_label_plain a : forallb plain_char (alpha_label a) = true.
Proof.
  unfold alpha_label. destruct a as [x|]; [|reflexivity].
  destruct (negb _); [|reflexivity].
  rewrite !forallb_app, Number_toString_plain. reflexivity.
Qed.

Lemma alpha_label_head a :
  match alpha_label a with
  | c :: _ => c = 32%N
  | [] => True
  end.
Proof.
  unfold alpha_label. destruct a as [x|]; [|exact I].
  destruct (negb _); [reflexivity|exact I].
Qed.
(** ** The handlers over offsets *)

Lemma loop_down_ext (A : Type) n (f g : nat -> list A) :
  (forall i, i < n -> f i = g i) -> loop_down n f = loop_down n g.
Proof.
  induction n as [|n IH]; intros H; [reflexivity|].
  cbn [loop_down]. rewrite (H n) by lia. f_equal. apply IH. intros i Hi. apply H. lia.
Qed.

Lemma loop_down_nth (A B : Type) (f : A -> list B) (l : list A) :
  loop_down (List.length l)
    (fun i => match nth_error l i with Some x => f x | None => [] end)
  = flat_map f (rev l).
Proof.
  induction l as [|a l IH] using rev_ind; [reflexivity|].
  rewrite length_app, Nat.add_comm. cbn [List.length Nat.add loop_down].
  rewrite nth_error_app2, Nat.sub_diag by lia. cbn [nth_error].
  rewrite rev_app_distr. cbn [rev app flat_map]. f_equal.
  rewrite <- IH. apply loop_down_ext. intros i Hi. now rewrite nth_error_app1.
Qed.

Lemma occ_end_bound doc x : In x (tscan 0 0 doc) -> occ_end x <= List.length doc.
Proof.
  destruct x as [p tk]. intros H.
  destruct (tscan_In _ _ _ _ H) as (pre & R & Hs & Hp & Hwf).
  unfold occ_end. cbn [fst snd]. rewrite Hs, !length_app. unfold tokens_len.
  simpl in Hp. lia.
Qed.

Lemma valid_occs_In text x :
  In x (valid_occs text) <-> In x (tscan 0 0 text) /\ tokens_valid (snd x) = true.
Proof. unfold valid_occs. apply filter_In. Qed.

Lemma annotate_color_offsets colorMap doc x :
  In x (tscan 0 0 doc) ->
  List.map (to_offsets doc) (annotate_color colorMap doc (color_of doc 0 x))
  = annot_F colorMap (snd x) (occ_end x) (line_rest (skipn (occ_end x) doc)).
Proof.
  intros Hin. pose proof (occ_end_bound _ _ Hin) as Hb.
  assert (Hr : r_end (range (color_of doc 0 x)) = positionAt doc (occ_end x)) by reflexivity.
  rewrite annotate_color_closed, !Hr, (textAfter_positionAt _ _ Hb).
  unfold annot_F, annotate_off.
  destruct (comment_split (line_rest (skipn (occ_end x) doc))) as [[[ws old] rest]|] eqn:E.
  - change (lit "/* " ++ baseCommentText colorMap (color_of doc 0 x) ++ lit " */")
      with (new_comment (label_of colorMap (snd x))).
    destruct (jsstring_eqb old _); [reflexivity|].
    apply comment_split_sound in E as (Hs & _).
    assert (Hl : List.length (line_rest (skipn (occ_end x) doc))
                 = List.length ws + List.length old + List.length rest).
    { rewrite Hs, !length_app. lia. }
    cbn [map]. unfold to_offsets, edit_replace. cbn [te_range te_newText r_start r_end].
    rewrite <- (Nat.add_assoc (character _)).
    rewrite !(offsetAt_positionAt doc (occ_end x)) by lia.
    now rewrite Nat.add_assoc.
  - cbn [map]. unfold to_offsets, edit_insert. cbn [te_range te_newText r_start r_end].
    rewrite (offsetAt_positionAt0 _ _ Hb). reflexivity.
Qed.

Lemma remove_color_offsets doc x :
  In x (tscan 0 0 doc) ->
  List.map (to_offsets doc) (remove_color doc (color_of doc 0 x))
  = remove_F (snd x) (occ_end x) (line_rest (skipn (occ_end x) doc)).
Proof.
  intros Hin. pose proof (occ_end_bound _ _ Hin) as Hb.
  assert (Hr : r_end (range (color_of doc 0 x)) = positionAt doc (occ_end x)) by reflexivity.
  unfold remove_color. rewrite !Hr, (textAfter_positionAt _ _ Hb), str_match_comment2.
  unfold remove_F, remove_off.
  destruct (comment_split (line_rest (skipn (occ_end x) doc))) as [[[ws old] rest]|] eqn:E;
    [|reflexivity].
  apply comment_split_sound in E as (Hs & _).
  assert (Hl : List.length (line_rest (skipn (occ_end x) doc))
               = List.length ws + List.length old + List.length rest).
  { rewrite Hs, !length_app. lia. }
  unfold group_text, group. cbn [mr_caps cap_lookup Nat.eqb]. rewrite Hs.
  rewrite substring_mid.
  assert (H1 : substring 0 (List.length ws) (ws ++ old ++ rest) = ws).
  { apply (substring_mid [] ws (old ++ rest)). }
  rewrite H1.
  cbn [map]. unfold to_offsets, edit_delete. cbn [te_range te_newText r_start r_end].
  rewrite <- (Nat.add_assoc (character _)).
  rewrite (offsetAt_positionAt doc (occ_end x)) by lia.
  pose proof (offsetAt_positionAt doc (occ_end x) 0 Hb ltac:(lia)) as H0.
  rewrite !Nat.add_0_r in H0. rewrite H0. now rewrite Nat.add_assoc.
Qed.

Lemma flat_map_map_offsets (A : Type) (f : A -> list TextEdit) (g : A -> list OffsetEdit)
  doc (l : list A) :
  (forall x, In x l -> List.map (to_offsets doc) (f x) = g x) ->
  List.map (to_offsets doc) (flat_map f l) = flat_map g l.
Proof.
  induction l as [|a l IH]; intros H; [reflexivity|].
  cbn [flat_map]. rewrite map_app, (H a (or_introl eq_refl)). f_equal.
  apply IH. intros x Hx. apply H. now right.
Qed.

Lemma annotate_edits_offsets colorMap doc :
  List.map (to_offsets doc)
    (annotate_edits colorMap doc (List.map (color_of doc 0) (valid_occs doc)))
  = annot_offsets colorMap doc.
Proof.
  unfold annotate_edits. rewrite loop_down_nth, <- map_rev, flat_map_map.
  unfold annot_offsets, occ_edits, inner_edits. rewrite app_nil_r.
  apply flat_map_map_offsets. intros x Hx. apply in_rev, valid_occs_In in Hx as [Hx _].
  now apply annotate_color_offsets.
Qed.

Lemma remove_edits_offsets doc :
  List.map (to_offsets doc) (remove_edits doc (List.map (color_of doc 0) (valid_occs doc)))
  = remove_offsets doc.
Proof.
  unfold remove_edits. rewrite loop_down_nth, <- map_rev, flat_map_map.
  unfold remove_offsets, occ_edits, inner_edits. rewrite app_nil_r.
  apply flat_map_map_offsets. intros x Hx. apply in_rev, valid_occs_In in Hx as [Hx _].
  now apply remove_color_offsets.
Qed.

Lemma annotate_handler_closed colorMap doc :
  annotateOklchColorsHandler colorMap doc
  = Some (if pairwise_disjoint (annot_offsets colorMap doc)
          then apply_all (sort_edits (annot_offsets colorMap doc)) doc else doc).
Proof.
  unfold annotateOklchColorsHandler. rewrite parser_closed_full, filter_map_parsed.
  fold (valid_occs doc). unfold applyEdit. rewrite annotate_edits_offsets.
  fold (apply_all (sort_edits (annot_offsets colorMap doc)) doc).
  destruct (List.map (color_of doc 0) (valid_occs doc)) eqn:E.
  - apply map_eq_nil in E. unfold annot_offsets, occ_edits, inner_edits. rewrite E.
    reflexivity.
  - destruct (pairwise_disjoint _); reflexivity.
Qed.

Lemma remove_handler_closed doc :
  removeOklchColorAnnotationsHandler doc
  = Some (if pairwise_disjoint (remove_offsets doc)
          then apply_all (sort_edits (remove_offsets doc)) doc else doc).
Proof.
  unfold removeOklchColorAnnotationsHandler. rewrite parser_closed_full, filter_map_parsed.
  fold (valid_occs doc). unfold applyEdit.
  rewrite <- (length_map (to_offsets doc)), remove_edits_offsets.
  fold (apply_all (sort_edits (remove_offsets doc)) doc).
  destruct (List.map (color_of doc 0) (valid_occs doc)) eqn:E.
  - apply map_eq_nil in E. unfold remove_offsets, occ_edits, inner_edits. rewrite E.
    reflexivity.
  - destruct (remove_offsets doc) eqn:E2; [reflexivity|].
    cbn [List.length Nat.ltb Nat.leb]. destruct (pairwise_disjoint _); reflexivity.
Qed.
(** ** Batches of edits *)

Lemma sort_descending es : descending es -> sort_edits es = es.
Proof.
  induction es as [|e es IH]; [reflexivity|]. intros [H1 H2].
  cbn [sort_edits]. rewrite (IH H2). destruct es as [|x es]; [reflexivity|].
  cbn [insert_edit]. unfold applied_before.
  apply Nat.ltb_lt in H1. now rewrite H1.
Qed.

Lemma apply_all_app a b t : apply_all (a ++ b) t = apply_all b (apply_all a t).
Proof. unfold apply_all. apply fold_left_app. Qed.

Lemma splice_shift pre e t :
  splice (shift_edit (List.length pre) e) (pre ++ t) = pre ++ splice e t.
Proof.
  unfold splice, shift_edit, oe_start, oe_end, oe_text. cbn [fst snd].
  rewrite firstn_app_2, skipn_add_app, <- app_assoc. reflexivity.
Qed.

Lemma apply_all_shift pre es :
  forall t, apply_all (List.map (shift_edit (List.length pre)) es) (pre ++ t)
            = pre ++ apply_all es t.
Proof.
  induction es as [|e es IH]; intros t; [reflexivity|].
  unfold apply_all in *. cbn [map fold_left]. rewrite splice_shift. apply IH.
Qed.

Lemma splice_at pre old new rest :
  splice (List.length pre, List.length pre + List.length old, new) (pre ++ old ++ rest)
  = pre ++ new ++ rest.
Proof.
  unfold splice, oe_start, oe_end, oe_text. cbn [fst snd].
  rewrite <- (Nat.add_0_r (List.length pre)) at 1.
  rewrite firstn_app_2, skipn_add_app, skipn_len_app. cbn [firstn]. now rewrite app_nil_r.
Qed.

Lemma disjoint_shift d a b :
  disjoint_edits (shift_edit d a) (shift_edit d b) = disjoint_edits a b.
Proof.
  unfold disjoint_edits, shift_edit, oe_start, oe_end. cbn [fst snd].
  destruct (Nat.leb_spec (snd (fst a)) (fst (fst b)));
    destruct (Nat.leb_spec (snd (fst b)) (fst (fst a)));
    destruct (Nat.leb_spec (d + snd (fst a)) (d + fst (fst b)));
    destruct (Nat.leb_spec (d + snd (fst b)) (d + fst (fst a))); try reflexivity; lia.
Qed.

Lemma pairwise_disjoint_shift d es :
  pairwise_disjoint (List.map (shift_edit d) es) = pairwise_disjoint es.
Proof.
  induction es as [|e es IH]; [reflexivity|].
  cbn [map pairwise_disjoint]. rewrite IH. f_equal.
  clear IH. induction es as [|x es IH]; [reflexivity|].
  cbn [map forallb]. now rewrite disjoint_shift, IH.
Qed.

Lemma pairwise_disjoint_snoc es h :
  pairwise_disjoint (es ++ [h])
  = pairwise_disjoint es && forallb (fun x => disjoint_edits x h) es.
Proof.
  induction es as [|e es IH]; [reflexivity|].
  cbn [app pairwise_disjoint forallb]. rewrite IH, forallb_app. cbn [forallb].
  destruct (forallb (disjoint_edits e) es), (disjoint_edits e h), (pairwise_disjoint es);
    reflexivity.
Qed.

Lemma descending_snoc es h :
  descending es -> (forall x, In x es -> oe_start h < oe_start x) -> descending (es ++ [h]).
Proof.
  induction es as [|e es IH]; intros Hd Hh; [simpl; auto|].
  destruct Hd as [H1 H2]. cbn [app descending]. split.
  - destruct es as [|x es]; cbn [app]; [apply Hh; now left|exact H1].
  - apply IH; [exact H2|]. intros x Hx. apply Hh. now right.
Qed.

Lemma descending_shift d es : descending es -> descending (List.map (shift_edit d) es).
Proof.
  induction es as [|e es IH]; [auto|]. intros [H1 H2]. cbn [map descending]. split.
  - destruct es as [|x es]; [exact I|]. cbn [map]. unfold shift_edit, oe_start in *.
    cbn [fst]. lia.
  - now apply IH.
Qed.

(** ** Texts the scanner settles *)

Lemma oklch_tokens_local X b Y Y' :
  X <> [] -> is_interior b = false ->
  oklch_tokens (X ++ b :: Y) = oklch_tokens (X ++ b :: Y').
Proof.
  intros HX Hb.
  destruct (oklch_tokens (X ++ b :: Y)) as [tk|] eqn:E.
  - destruct (oklch_tokens (X ++ b :: Y')) as [tk'|] eqn:E'.
    + pose proof (oklch_tokens_sound _ _ E) as (Hwf & rest & Hs).
      pose proof (oklch_tokens_sound _ _ E') as (Hwf' & rest' & Hs').
      destruct (tokens_text_shape _ Hwf) as (mid & Htxt & Hmid).
      (* the match ends at or before [b] *)
      change (X ++ b :: Y) with (X ++ [b] ++ Y) in Hs. rewrite app_assoc in Hs.
      apply app_prefix_cases in Hs as [(e & He & HY)|(e & He & Hrest)].
      * (* [X ++ [b]] is a prefix of the match *)
        destruct e as [|c e].
        -- rewrite app_nil_r in He.
           change (X ++ b :: Y') with (X ++ [b] ++ Y') in E'.
           rewrite app_assoc, <- He, (oklch_tokens_complete tk Y' Hwf) in E'.
           congruence.
        -- exfalso. rewrite Htxt in He.
           destruct X as [|x0 X]; [congruence|]. cbn [app] in He.
           inversion He as [[Hx He']]. clear He.
           assert (Hin : In b mid).
           { assert (Hc : (X ++ [b]) ++ c :: e = mid ++ [ch_rparen]) by (symmetry; exact He').
             apply app_prefix_cases in Hc as [(e0 & He0 & _)|(e0 & He0 & He1)].
             - rewrite He0. apply in_or_app. left. apply in_or_app. right. now left.
             - destruct e0 as [|c0 e0].
               + rewrite app_nil_r in He0. rewrite <- He0.
                 apply in_or_app. right. now left.
               + cbn [app] in He1. inversion He1 as [[Hc0 He2]].
                 destruct e0; discriminate. }
           rewrite forallb_forall in Hmid. specialize (Hmid _ Hin). congruence.
      * (* the match lies inside [X ++ [b]] *)
        change (X ++ b :: Y') with (X ++ [b] ++ Y') in E'.
        rewrite app_assoc, He, <- app_assoc, (oklch_tokens_complete tk _ Hwf) in E'.
        congruence.
    + exfalso. apply (oklch_tokens_barrier X b Y' Y HX Hb) in E'. congruence.
  - symmetry. now apply (oklch_tokens_barrier X b Y Y').
Qed.
Lemma closed_one P0 b :
  is_interior b = false -> b <> ch_o -> closed_text (P0 ++ [b]).
Proof.
  intros Hb Ho x s Hs Hne Y.
  destruct (exists_last Hne) as (s0 & c & ->).
  rewrite app_assoc in Hs. apply app_inj_tail in Hs as [_ <-].
  destruct s0 as [|a s0]; [cbn [app]; now rewrite !oklch_tokens_not_o|].
  rewrite <- app_assoc. cbn [app].
  apply (oklch_tokens_local (a :: s0) b Y []); [discriminate|assumption].
Qed.

Lemma closed_two P0 b c :
  is_interior b = false -> b <> ch_o -> c <> ch_o -> closed_text (P0 ++ [b; c]).
Proof.
  intros Hb Ho Hc x s Hs Hne Y.
  destruct (exists_last Hne) as (s0 & c' & ->).
  change (P0 ++ [b; c]) with (P0 ++ [b] ++ [c]) in Hs.
  rewrite !app_assoc in Hs. apply app_inj_tail in Hs as [Hs <-].
  destruct s0 as [|a0 s0'] eqn:E0; [cbn [app]; now rewrite !oklch_tokens_not_o|].
  rewrite <- E0 in *.
  assert (Hne0 : s0 <> []) by (rewrite E0; discriminate).
  destruct (exists_last Hne0) as (s1 & b' & ->).
  rewrite app_assoc in Hs. apply app_inj_tail in Hs as [_ <-].
  destruct s1 as [|a s1]; [cbn [app]; now rewrite !oklch_tokens_not_o|].
  rewrite <- !app_assoc. cbn [app].
  apply (oklch_tokens_local (a :: s1) b (c :: Y) [c]); [discriminate|assumption].
Qed.

Lemma closed_tail c P : closed_text (c :: P) -> closed_text P.
Proof. intros H x s Hs Hne Y. apply (H (c :: x) s); [now rewrite Hs|assumption]. Qed.

Lemma tscan_app_closed P :
  forall skip pos Y,
    closed_text P -> skip <= List.length P ->
    tscan skip pos (P ++ Y) = tscan skip pos P ++ tscan 0 (pos + List.length P) Y.
Proof.
  induction P as [|c P IH]; intros skip pos Y Hc Hs.
  - cbn [List.length] in *. replace skip with 0 by lia. now rewrite Nat.add_0_r.
  - pose proof (closed_tail _ _ Hc) as Hc'. cbn [List.length] in *.
    replace (pos + S (List.length P)) with (S pos + List.length P) by lia.
    cbn [app tscan]. destruct skip as [|k]; [|apply IH; [assumption|lia]].
    change (c :: P ++ Y) with ((c :: P) ++ Y).
    rewrite (Hc [] (c :: P) eq_refl ltac:(discriminate) Y).
    destruct (oklch_tokens (c :: P)) as [tk|] eqn:E; [|apply IH; [assumption|lia]].
    cbn [app]. f_equal. apply IH; [assumption|].
    apply oklch_tokens_sound in E as (_ & rest & E).
    apply (f_equal (@List.length _)) in E. rewrite length_app in E.
    cbn [List.length] in E. unfold tokens_len. lia.
Qed.

Lemma filter_shift_found d l :
  filter (fun x => tokens_valid (snd x)) (List.map (shift_found d) l)
  = List.map (shift_found d) (filter (fun x => tokens_valid (snd x)) l).
Proof.
  induction l as [|x l IH]; [reflexivity|].
  cbn [map filter]. unfold shift_found at 1. cbn [snd].
  destruct (tokens_valid (snd x)); cbn [map]; now rewrite IH.
Qed.

Lemma valid_occs_closed P S :
  closed_text P ->
  valid_occs (P ++ S) = valid_occs P ++ List.map (shift_found (List.length P)) (valid_occs S).
Proof.
  intros Hc. unfold valid_occs.
  rewrite (tscan_app_closed P 0 0 S Hc (Nat.le_0_l _)), filter_app. f_equal.
  rewrite <- filter_shift_found. f_equal.
  rewrite <- tscan_shift. f_equal. lia.
Qed.

Lemma map_flat_map (A B C : Type) (f : B -> C) (g : A -> list B) l :
  List.map f (flat_map g l) = flat_map (fun x => List.map f (g x)) l.
Proof.
  induction l as [|a l IH]; [reflexivity|]. cbn [flat_map]. now rewrite map_app, IH.
Qed.

Lemma occ_edits_closed F P S :
  shifts F -> closed_text P ->
  occ_edits F (P ++ S)
  = List.map (shift_edit (List.length P)) (occ_edits F S) ++ inner_edits F P S.
Proof.
  intros HF Hc. unfold occ_edits, inner_edits.
  rewrite !app_nil_r, (valid_occs_closed P S Hc), rev_app_distr, flat_map_app.
  f_equal. rewrite <- map_rev, flat_map_map, map_flat_map.
  apply flat_map_ext. intros x. unfold shift_found, occ_end. cbn [fst snd].
  rewrite <- Nat.add_assoc, skipn_add_app. apply HF.
Qed.

Lemma flat_map_ext_in (A B : Type) (f g : A -> list B) l :
  (forall x, In x l -> f x = g x) -> flat_map f l = flat_map g l.
Proof.
  induction l as [|a l IH]; intros H; [reflexivity|].
  cbn [flat_map]. rewrite (H a (or_introl eq_refl)), IH; [reflexivity|].
  intros x Hx. apply H. now right.
Qed.

Lemma inner_edits_ext F P S S' :
  (forall x, In x (valid_occs P) ->
             line_rest (skipn (occ_end x) (P ++ S)) = line_rest (skipn (occ_end x) (P ++ S'))) ->
  inner_edits F P S = inner_edits F P S'.
Proof.
  intros H. unfold inner_edits. apply flat_map_ext_in. intros x Hx.
  rewrite (H x); [reflexivity|]. now apply in_rev.
Qed.
(** ** The edit functions of the two handlers *)

Lemma shifts_annot colorMap : shifts (annot_F colorMap).
Proof.
  intros tk d e after. unfold annot_F, annotate_off.
  destruct (comment_split after) as [[[ws old] rest]|].
  - destruct (jsstring_eqb old _); [reflexivity|].
    cbn [map]. unfold shift_edit, oe_start, oe_end, oe_text. cbn [fst snd].
    rewrite <- !Nat.add_assoc. reflexivity.
  - reflexivity.
Qed.

Lemma shifts_remove : shifts remove_F.
Proof.
  intros tk d e after. unfold remove_F, remove_off.
  destruct (comment_split after) as [[[ws old] rest]|]; [|reflexivity].
  cbn [map]. unfold shift_edit, oe_start, oe_end, oe_text. cbn [fst snd].
  rewrite <- !Nat.add_assoc. reflexivity.
Qed.

Lemma comment_split_lead s ws old rest :
  comment_split s = Some (ws, old, rest) -> lead_spaces s = List.length ws.
Proof.
  unfold comment_split, lead_spaces. destruct (span is_space s) as [a r].
  destruct (starts_with _ r); [|discriminate].
  destruct (comment_body _) as [[b r']|]; [|discriminate].
  intros H. inversion H. reflexivity.
Qed.

Lemma starts_near_annot colorMap : starts_near (annot_F colorMap).
Proof.
  intros tk e after x. unfold annot_F, annotate_off.
  destruct (comment_split after) as [[[ws old] rest]|] eqn:E.
  - rewrite (comment_split_lead _ _ _ _ E).
    destruct (jsstring_eqb old _); [intros []|].
    intros [<-|[]]. unfold oe_start, oe_end. cbn [fst snd]. lia.
  - intros [<-|[]]. unfold oe_start, oe_end. cbn [fst snd]. lia.
Qed.

Lemma starts_near_remove : starts_near remove_F.
Proof.
  intros tk e after x. unfold remove_F, remove_off.
  destruct (comment_split after) as [[[ws old] rest]|] eqn:E; [|intros []].
  intros [<-|[]]. unfold oe_start, oe_end. cbn [fst snd]. lia.
Qed.

Lemma single_annot colorMap : single (annot_F colorMap).
Proof.
  intros tk e after. unfold annot_F, annotate_off.
  destruct (comment_split after) as [[[ws old] rest]|]; [|simpl; lia].
  destruct (jsstring_eqb old _); simpl; lia.
Qed.

Lemma single_remove : single remove_F.
Proof.
  intros tk e after. unfold remove_F, remove_off.
  destruct (comment_split after) as [[[ws old] rest]|]; simpl; lia.
Qed.

(** ** Where occurrences can start *)

Lemma occ_after_spaces ws Z x :
  forallb is_space ws = true -> In x (tscan 0 0 (ws ++ Z)) -> List.length ws <= fst x.
Proof.
  intros Hw Hin. destruct x as [p tk].
  destruct (tscan_In _ _ _ _ Hin) as (pre & R & Hs & Hp & Hwf).
  cbn [fst]. simpl in Hp. subst p.
  destruct (tokens_text_shape _ Hwf) as (mid & Htxt & _). rewrite Htxt in Hs.
  apply app_prefix_cases in Hs as [(e & He & _)|(e & He & HR)].
  - rewrite He, length_app. lia.
  - destruct e as [|c e]; [rewrite He, app_nil_r; lia|].
    exfalso. cbn [app] in HR. injection HR as Hc _. subst c.
    rewrite He, forallb_app in Hw. apply Bool.andb_true_iff in Hw as [_ Hw].
    cbn [forallb] in Hw. discriminate.
Qed.

Lemma line_rest_split s :
  exists tl, s = line_rest s ++ tl /\ line_rest tl = [] /\ no_lf (line_rest s) = true.
Proof.
  induction s as [|c s (tl & H1 & H2 & H3)].
  - exists []. auto.
  - cbn [line_rest]. destruct (is_lf c) eqn:E.
    + exists (c :: s). cbn [app line_rest]. rewrite E. auto.
    + exists tl. cbn [app]. rewrite <- H1. unfold no_lf in *. cbn [forallb].
      rewrite E. auto.
Qed.

Lemma occ_past_spaces R x :
  In x (tscan 0 0 R) -> lead_spaces (line_rest R) <= fst x.
Proof.
  intros Hin. destruct (line_rest_split R) as (tl & HR & _ & _).
  pose proof (span_app is_space (line_rest R)) as Hsp.
  pose proof (span_all is_space (line_rest R)) as Hall.
  rewrite <- Hsp, <- app_assoc in HR. rewrite HR in Hin.
  apply (occ_after_spaces _ _ _ Hall Hin).
Qed.

Lemma occ_edits_nil F T : valid_occs T = [] -> occ_edits F T = [].
Proof. intros H. unfold occ_edits, inner_edits. now rewrite H. Qed.

Lemma In_occ_edits F T a :
  In a (occ_edits F T) ->
  exists x, In x (valid_occs T)
            /\ In a (F (snd x) (occ_end x) (line_rest (skipn (occ_end x) T))).
Proof.
  unfold occ_edits, inner_edits. rewrite app_nil_r, in_flat_map.
  intros (x & Hx & Ha). exists x. split; [now apply in_rev|exact Ha].
Qed.

Lemma occ_edits_start F T a :
  starts_near F -> In a (occ_edits F T) -> lead_spaces (line_rest T) < oe_start a.
Proof.
  intros HF Ha. apply In_occ_edits in Ha as (x & Hx & Ha).
  apply valid_occs_In in Hx as [Hx _].
  pose proof (occ_past_spaces _ _ Hx) as H1.
  destruct (HF _ _ _ _ Ha) as (H2 & _).
  pose proof (tokens_len_pos (snd x)) as H3. unfold occ_end in H2. lia.
Qed.

(** ** The text up to the end of the first occurrence *)

Lemma head_closed g tk : tokens_wf tk = true -> closed_text (g ++ tokens_text tk).
Proof.
  intros Hwf. destruct (tokens_text_shape _ Hwf) as (mid & -> & _).
  change (g ++ ch_o :: mid ++ [ch_rparen]) with (g ++ (ch_o :: mid) ++ [ch_rparen]).
  rewrite app_assoc. apply closed_one; [reflexivity|discriminate].
Qed.

Lemma head_occs g tk R :
  tokens_wf tk = true ->
  (forall g0 g', g = g0 ++ g' -> g' <> [] ->
                 oklch_tokens (g' ++ tokens_text tk ++ R) = None) ->
  tscan 0 0 (g ++ tokens_text tk) = [(List.length g, tk)].
Proof.
  intros Hwf Hgap. pose proof (head_closed g tk Hwf) as Hc.
  rewrite tscan_gap.
  - rewrite <- (app_nil_r (tokens_text tk)), (tscan_hit _ tk [] Hwf). reflexivity.
  - intros g0 g' Hg Hne.
    rewrite <- (Hc g0 (g' ++ tokens_text tk)) with (Y := R).
    + rewrite <- app_assoc. now apply (Hgap g0).
    + now rewrite Hg, app_assoc.
    + destruct g'; [congruence|discriminate].
Qed.

Lemma occ_edits_head F g tk R X :
  shifts F -> tokens_wf tk = true ->
  (forall g0 g', g = g0 ++ g' -> g' <> [] ->
                 oklch_tokens (g' ++ tokens_text tk ++ R) = None) ->
  occ_edits F ((g ++ tokens_text tk) ++ X)
  = List.map (shift_edit (List.length (g ++ tokens_text tk))) (occ_edits F X)
    ++ (if tokens_valid tk
        then F tk (List.length (g ++ tokens_text tk)) (line_rest X) else []).
Proof.
  intros HF Hwf Hgap.
  rewrite (occ_edits_closed F _ X HF (head_closed g tk Hwf)). f_equal.
  unfold inner_edits, valid_occs. rewrite (head_occs g tk R Hwf Hgap).
  cbn [filter snd]. destruct (tokens_valid tk); [|reflexivity].
  cbn [rev app flat_map]. rewrite app_nil_r. unfold occ_end. cbn [fst snd].
  assert (Hl : List.length g + tokens_len tk = List.length (g ++ tokens_text tk)).
  { rewrite length_app. reflexivity. }
  rewrite Hl, skipn_len_app. reflexivity.
Qed.

Lemma descending_occ_edits F :
  shifts F -> starts_near F -> single F -> forall T, descending (occ_edits F T).
Proof.
  intros HF Hn H1 T.
  remember (List.length T) as n eqn:Hlen. revert T Hlen.
  induction n as [n IH] using lt_wf_ind. intros T Hlen.
  destruct (tscan_inv 0 T) as [[Hnil _]|(g & tk & R & HT & Hwf & Hgap & _)].
  - rewrite occ_edits_nil; [exact I|]. unfold valid_occs. now rewrite Hnil.
  - rewrite HT, app_assoc, (occ_edits_head F g tk R R HF Hwf Hgap).
    set (d := List.length (g ++ tokens_text tk)).
    assert (HR : descending (occ_edits F R)).
    { apply (IH (List.length R)); [|reflexivity].
      rewrite Hlen, HT, !length_app. pose proof (tokens_len_pos tk) as Hp.
      unfold tokens_len in Hp. lia. }
    destruct (tokens_valid tk); [|rewrite app_nil_r; now apply descending_shift].
    pose proof (H1 tk d (line_rest R)) as Hs.
    destruct (F tk d (line_rest R)) as [|h [|h' l]] eqn:EF;
      [rewrite app_nil_r; now apply descending_shift| |simpl in Hs; lia].
    apply descending_snoc; [now apply descending_shift|].
    intros a Ha. apply in_map_iff in Ha as (a' & <- & Ha').
    pose proof (occ_edits_start F R a' Hn Ha') as Hlt.
    destruct (Hn tk d (line_rest R) h) as (_ & Hh & _); [rewrite EF; now left|].
    unfold shift_edit, oe_start in *. cbn [fst]. lia.
Qed.
(** ** Comments *)

Lemma comment_closed ws b :
  closed_text (ws ++ ch_slash :: ch_star :: b ++ [ch_star; ch_slash]).
Proof.
  change (ws ++ ch_slash :: ch_star :: b ++ [ch_star; ch_slash])
    with (ws ++ (ch_slash :: ch_star :: b) ++ [ch_star; ch_slash]).
  rewrite app_assoc. apply closed_two; [reflexivity|discriminate|discriminate].
Qed.

Lemma no_lf_app a b : no_lf (a ++ b) = no_lf a && no_lf b.
Proof. unfold no_lf. apply forallb_app. Qed.

Lemma split_of_line R ws old rest :
  comment_split (line_rest R) = Some (ws, old, rest) ->
  exists R2, R = (ws ++ old) ++ R2 /\ line_rest R2 = rest /\ no_lf (ws ++ old) = true.
Proof.
  intros H. apply comment_split_sound in H as (Hs & _).
  destruct (line_rest_split R) as (tl & HR & Htl & Hno).
  rewrite Hs, !no_lf_app in Hno.
  apply Bool.andb_true_iff in Hno as [Hw Hno]. apply Bool.andb_true_iff in Hno as [Ho Hr].
  exists (rest ++ tl). split; [|split].
  - rewrite HR at 1. rewrite Hs, <- !app_assoc. reflexivity.
  - rewrite (line_rest_app _ _ Hr), Htl. apply app_nil_r.
  - rewrite no_lf_app, Hw, Ho. reflexivity.
Qed.

Lemma has_star_slash_app A B :
  has_star_slash A = false -> has_star_slash B = false ->
  match B with c :: _ => c <> ch_slash | [] => True end ->
  has_star_slash (A ++ B) = false.
Proof.
  intros HA HB Hhd. induction A as [|a A IH]; [exact HB|].
  cbn [app has_star_slash] in *. apply Bool.orb_false_iff in HA as [H1 H2].
  rewrite (IH H2), Bool.orb_false_r.
  destruct (unit_eqb ch_star a); [|reflexivity]. cbn [andb] in *.
  destruct A as [|a' A]; [|exact H1].
  cbn [app]. destruct B as [|c B]; [reflexivity|].
  cbn [starts_with]. rewrite Bool.andb_true_r.
  destruct (unit_eqb ch_slash c) eqn:E; [|reflexivity].
  apply unit_eqb_iff in E. congruence.
Qed.

Lemma plain_char_iff c :
  plain_char c = true <-> is_dot_char c = true /\ c <> ch_rparen /\ c <> ch_star.
Proof.
  unfold plain_char. rewrite !Bool.andb_true_iff, !Bool.negb_true_iff, !N.eqb_neq.
  unfold ch_rparen, ch_star. tauto.
Qed.

Lemma plain_no_star B : forallb plain_char B = true -> has_star_slash B = false.
Proof.
  induction B as [|c B IH]; [reflexivity|]. cbn [forallb has_star_slash].
  rewrite Bool.andb_true_iff. intros [Hc HB]. rewrite (IH HB), Bool.orb_false_r.
  apply plain_char_iff in Hc as (_ & _ & Hc).
  destruct (unit_eqb ch_star c) eqn:E; [|reflexivity].
  apply unit_eqb_iff in E. congruence.
Qed.

Lemma plain_dot B : forallb plain_char B = true -> forallb is_dot_char B = true.
Proof.
  apply forallb_impl. intros c Hc. now apply plain_char_iff in Hc.
Qed.

Lemma new_comment_shape L :
  new_comment L = ch_slash :: ch_star :: (32%N :: L ++ [32%N]) ++ [ch_star; ch_slash].
Proof. unfold new_comment. cbn [lit]. cbn. now rewrite <- app_assoc. Qed.

Lemma sane_label_body L :
  sane_label L ->
  forallb is_dot_char (32%N :: L ++ [32%N]) = true
  /\ has_star_slash (32%N :: L ++ [32%N]) = false.
Proof.
  intros (N & S & -> & (Hd & Hs & _) & Hp & Hhd). split.
  - cbn [forallb]. rewrite !forallb_app, Hd, (plain_dot _ Hp). reflexivity.
  - cbn [has_star_slash]. rewrite <- app_assoc.
    apply has_star_slash_app; [exact Hs| |].
    + apply plain_no_star. rewrite forallb_app, Hp. reflexivity.
    + destruct S as [|c S]; cbn [app]; [discriminate|]. subst c. discriminate.
Qed.

Lemma new_comment_split ws L rest :
  forallb is_space ws = true -> sane_label L ->
  comment_split (ws ++ new_comment L ++ rest) = Some (ws, new_comment L, rest).
Proof.
  intros Hw HL. destruct (sane_label_body L HL) as [Hd Hs].
  rewrite new_comment_shape. now apply comment_split_complete.
Qed.

Lemma dot_no_lf s : forallb is_dot_char s = true -> no_lf s = true.
Proof.
  unfold no_lf. apply forallb_impl. intros c Hc.
  apply is_dot_char_iff in Hc. unfold is_lf.
  apply Bool.negb_true_iff, N.eqb_neq. tauto.
Qed.

Lemma new_comment_no_lf L : sane_label L -> no_lf (new_comment L) = true.
Proof.
  intros HL. destruct (sane_label_body L HL) as [Hd _].
  rewrite new_comment_shape.
  change (ch_slash :: ch_star :: (32%N :: L ++ [32%N]) ++ [ch_star; ch_slash])
    with ([ch_slash; ch_star] ++ (32%N :: L ++ [32%N]) ++ [ch_star; ch_slash]).
  rewrite !no_lf_app, (dot_no_lf _ Hd). reflexivity.
Qed.

Lemma new_comment_closed ws L : closed_text (ws ++ new_comment L).
Proof. rewrite new_comment_shape. apply comment_closed. Qed.

(** ** No color inside a written comment *)

Lemma valid_occs_between A N B :
  (forall c, In c A -> c <> ch_o) -> (forall c, In c B -> c <> ch_rparen) ->
  valid_occs N = [] -> valid_occs (A ++ N ++ B) = [].
Proof.
  intros HA HB HN.
  destruct (valid_occs (A ++ N ++ B)) as [|x l] eqn:E; [reflexivity|exfalso].
  assert (Hx : In x (valid_occs (A ++ N ++ B))) by (rewrite E; now left).
  apply valid_occs_In in Hx as [Hx Hv]. destruct x as [p tk]. cbn [snd] in Hv.
  destruct (tscan_In _ _ _ _ Hx) as (pre & R & Hs & _ & Hwf).
  destruct (tokens_text_shape _ Hwf) as (mid & Htxt & _).
  assert (H1 : exists e, N ++ B = e ++ tokens_text tk ++ R).
  { symmetry in Hs. apply app_prefix_cases in Hs as [(e & He & HR)|(e & He & HR)].
    - destruct e as [|c e]; [exists []; cbn [app] in *; now symmetry|].
      exfalso. rewrite Htxt in HR. cbn [app] in HR. injection HR as Hc _.
      apply (HA c); [|congruence]. rewrite He. apply in_or_app. right. now left.
    - now exists e. }
  destruct H1 as (e & H1). rewrite app_assoc in H1.
  assert (Hocc : exists f, N = e ++ tokens_text tk ++ f).
  { apply app_prefix_cases in H1 as [(f & Hf & HBf)|(f & Hf & _)].
    - destruct f as [|z0 f0] eqn:Ef.
      + exists []. now rewrite app_nil_r in *.
      + exfalso. rewrite <- Ef in *. assert (Hne : f <> []) by (rewrite Ef; discriminate).
        destruct (exists_last Hne) as (f1 & z & Hz). rewrite Hz in Hf, HBf.
        rewrite Htxt in Hf.
        change (e ++ ch_o :: mid ++ [ch_rparen]) with (e ++ (ch_o :: mid) ++ [ch_rparen]) in Hf.
        rewrite !app_assoc in Hf. apply app_inj_tail in Hf as [_ Hz'].
        apply (HB z); [|congruence]. rewrite HBf.
        apply in_or_app. left. apply in_or_app. right. now left.
    - exists f. now rewrite Hf, <- app_assoc. }
  destruct Hocc as (f & Hocc).
  assert (Hin : In (List.length e, tk) (valid_occs N)).
  { apply valid_occs_In. split; [|exact Hv].
    apply tscan_occurrence. exists e, f. auto. }
  rewrite HN in Hin. exact Hin.
Qed.

Lemma sane_name_occs N : sane_name N -> valid_occs N = [].
Proof.
  intros (_ & _ & H). rewrite parser_closed_full, filter_map_parsed in H.
  injection H as H. now apply map_eq_nil in H.
Qed.

Lemma new_comment_occs ws L :
  forallb is_space ws = true -> sane_label L -> valid_occs (ws ++ new_comment L) = [].
Proof.
  intros Hw (N & S & -> & HN & Hp & _).
  assert (E : ws ++ new_comment (N ++ S) = (ws ++ lit "/* ") ++ N ++ (S ++ lit " */")).
  { unfold new_comment. now rewrite <- !app_assoc. }
  rewrite E. apply valid_occs_between; [| |now apply sane_name_occs].
  - intros c Hc Ho. subst c. apply in_app_or in Hc as [Hc|Hc].
    + rewrite forallb_forall in Hw. specialize (Hw _ Hc). discriminate.
    + cbn in Hc. unfold ch_o in Hc. intuition discriminate.
  - intros c Hc Hr. subst c. apply in_app_or in Hc as [Hc|Hc].
    + rewrite forallb_forall in Hp. specialize (Hp _ Hc). discriminate.
    + cbn in Hc. unfold ch_rparen in Hc. intuition discriminate.
Qed.

Lemma findColorName_In colorMap l c h n :
  findColorName colorMap l c h = Some n -> exists e, In e colorMap /\ name e = n.
Proof.
  induction colorMap as [|e cm IH]; cbn [findColorName]; [discriminate|].
  destruct (_ && _).
  - intros H. injection H as <-. exists e. split; [now left|reflexivity].
  - intros H. destruct (IH H) as (e' & He & Hn). exists e'. split; [now right|exact Hn].
Qed.

Lemma sane_custom : sane_name (lit "Custom").
Proof. repeat split; vm_compute; reflexivity. Qed.

Lemma sane_label_of colorMap tk : sane_palette colorMap -> sane_label (label_of colorMap tk).
Proof.
  intros Hp. unfold label_of, baseCommentText.
  set (a := alpha (color_of [] 0 (0, tk))).
  set (found := findColorName colorMap _ _ _).
  exists (if truthy found then match found with Some n => n | None => [] end
          else lit "Custom"), (alpha_label a).
  split; [reflexivity|]. split; [|split].
  - destruct found as [[|c n]|] eqn:E; cbn [truthy]; try apply sane_custom.
    apply findColorName_In in E as (e & He & Hn). rewrite <- Hn. now apply Hp.
  - apply alpha_label_plain.
  - apply alpha_label_head.
Qed.
(** ** Edits inside a comment *)

Lemma lead_bound Rr c Y :
  In c Rr -> is_space c = false -> lead_spaces (line_rest (Rr ++ Y)) < List.length Rr.
Proof.
  intros Hin Hc. induction Rr as [|x Rr IH]; [destruct Hin|].
  cbn [app line_rest List.length]. destruct (is_lf x); [unfold lead_spaces; simpl; lia|].
  unfold lead_spaces in *. cbn [span]. destruct (is_space x) eqn:Ex.
  - destruct Hin as [->|Hin]; [congruence|]. specialize (IH Hin).
    destruct (span is_space (line_rest (Rr ++ Y))) as [u v]. cbn [fst List.length] in *. lia.
  - simpl. lia.
Qed.

Lemma inner_edits_inside F ws b R2 a :
  starts_near F -> forallb is_space ws = true ->
  In a (inner_edits F (ws ++ ch_slash :: ch_star :: b ++ [ch_star; ch_slash]) R2) ->
  List.length ws < oe_start a
  /\ oe_start a < List.length (ws ++ ch_slash :: ch_star :: b ++ [ch_star; ch_slash])
  /\ oe_start a <= oe_end a.
Proof.
  intros HF Hw. set (P2 := ws ++ ch_slash :: ch_star :: b ++ [ch_star; ch_slash]).
  unfold inner_edits. rewrite in_flat_map. intros (x & Hx & Ha).
  apply in_rev, valid_occs_In in Hx as [Hx _].
  destruct (HF _ _ _ _ Ha) as (H1 & H2 & H3).
  pose proof (occ_after_spaces ws _ x Hw Hx) as H4.
  pose proof (tokens_len_pos (snd x)) as H5.
  destruct x as [p tk]. destruct (tscan_In _ _ _ _ Hx) as (pre & Rr & Hs & Hp & Hwf).
  unfold occ_end in *. cbn [fst snd] in *. simpl in Hp. subst p.
  assert (Hsk : skipn (List.length pre + tokens_len tk) (P2 ++ R2) = Rr ++ R2).
  { rewrite Hs. replace (List.length pre + tokens_len tk)
      with (List.length (pre ++ tokens_text tk)) by (rewrite length_app; reflexivity).
    rewrite app_assoc, <- app_assoc, skipn_len_app. reflexivity. }
  rewrite Hsk in H2.
  assert (HP : P2 = (ws ++ ch_slash :: ch_star :: b ++ [ch_star]) ++ [ch_slash]).
  { unfold P2. rewrite <- app_assoc. cbn [app]. now rewrite <- app_assoc. }
  assert (Hin : In ch_slash Rr).
  { destruct (tokens_text_shape _ Hwf) as (mid & Htxt & _).
    destruct Rr as [|r0 Rr0] eqn:ER.
    - exfalso. rewrite app_nil_r, Htxt, HP in Hs.
      change (pre ++ ch_o :: mid ++ [ch_rparen])
        with (pre ++ (ch_o :: mid) ++ [ch_rparen]) in Hs.
      rewrite app_assoc in Hs. apply app_inj_tail in Hs as [_ Hs]. discriminate.
    - rewrite <- ER in *. assert (Hne : Rr <> []) by (rewrite ER; discriminate).
      destruct (exists_last Hne) as (Rr1 & z & Hz).
      rewrite Hz, HP, !app_assoc in Hs. apply app_inj_tail in Hs as [_ Hs].
      rewrite Hz, <- Hs. apply in_or_app. right. now left. }
  pose proof (lead_bound Rr ch_slash R2 Hin eq_refl) as H6.
  assert (Hlen : List.length P2 = List.length pre + tokens_len tk + List.length Rr).
  { rewrite Hs, !length_app. unfold tokens_len. lia. }
  lia.
Qed.

Lemma inner_edits_nil F P Y : valid_occs P = [] -> inner_edits F P Y = [].
Proof. intros H. unfold inner_edits. now rewrite H. Qed.

Lemma splice_insert pre new rest :
  splice (List.length pre, List.length pre, new) (pre ++ rest) = pre ++ new ++ rest.
Proof.
  pose proof (splice_at pre [] new rest) as H. cbn [List.length app] in H.
  now rewrite Nat.add_0_r in H.
Qed.

Lemma splice_replace P1 ws old new rest :
  splice (List.length P1 + List.length ws,
          List.length P1 + List.length ws + List.length old, new)
         (P1 ++ (ws ++ old) ++ rest)
  = P1 ++ (ws ++ new) ++ rest.
Proof.
  pose proof (splice_at (P1 ++ ws) old new rest) as H.
  rewrite length_app in H. rewrite <- !app_assoc in *. exact H.
Qed.

(** ** A second run of the annotation *)

Lemma annot_after_comment colorMap g tk R ws Rn :
  sane_palette colorMap -> tokens_wf tk = true ->
  (forall g0 g', g = g0 ++ g' -> g' <> [] ->
                 oklch_tokens (g' ++ tokens_text tk ++ R) = None) ->
  forallb is_space ws = true -> no_lf ws = true ->
  annot_offsets colorMap Rn = [] ->
  annot_offsets colorMap
    ((g ++ tokens_text tk) ++ (ws ++ new_comment (label_of colorMap tk)) ++ Rn) = [].
Proof.
  intros Hp Hwf Hgap Hw Hno Hn. unfold annot_offsets in *.
  pose proof (sane_label_of colorMap tk Hp) as HL.
  rewrite (occ_edits_head _ g tk R _ (shifts_annot colorMap) Hwf Hgap).
  rewrite (occ_edits_closed _ _ Rn (shifts_annot colorMap) (new_comment_closed ws _)).
  rewrite Hn, (inner_edits_nil _ _ _ (new_comment_occs ws _ Hw HL)). cbn [map app].
  destruct (tokens_valid tk); [|reflexivity].
  unfold annot_F, annotate_off.
  rewrite line_rest_app by (rewrite no_lf_app, Hno, (new_comment_no_lf _ HL); reflexivity).
  rewrite <- app_assoc, (new_comment_split ws _ _ Hw HL).
  assert (E : jsstring_eqb (new_comment (label_of colorMap tk))
                (new_comment (label_of colorMap tk)) = true)
    by now apply jsstring_eqb_iff.
  now rewrite E.
Qed.

Lemma annot_after_invalid colorMap g tk R Rn :
  tokens_wf tk = true ->
  (forall g0 g', g = g0 ++ g' -> g' <> [] ->
                 oklch_tokens (g' ++ tokens_text tk ++ R) = None) ->
  tokens_valid tk = false ->
  annot_offsets colorMap Rn = [] ->
  annot_offsets colorMap ((g ++ tokens_text tk) ++ Rn) = [].
Proof.
  intros Hwf Hgap Hv Hn. unfold annot_offsets in *.
  rewrite (occ_edits_head _ g tk R _ (shifts_annot colorMap) Hwf Hgap), Hn, Hv.
  reflexivity.
Qed.

Lemma space_no_lf_line ws old :
  no_lf (ws ++ old) = true -> no_lf ws = true.
Proof. rewrite no_lf_app. intros H. now apply Bool.andb_true_iff in H as [H _]. Qed.

Lemma annotate_twice colorMap :
  sane_palette colorMap ->
  forall T,
    pairwise_disjoint (annot_offsets colorMap T) = true ->
    annot_offsets colorMap (apply_all (annot_offsets colorMap T) T) = [].
Proof.
  intros Hp T. remember (List.length T) as n eqn:Hlen. revert T Hlen.
  induction n as [n IH] using lt_wf_ind. intros T Hlen Hd.
  destruct (tscan_inv 0 T) as [[Hnil _]|(g & tk & R & HT & Hwf & Hgap & _)].
  - assert (E : annot_offsets colorMap T = []).
    { apply occ_edits_nil. unfold valid_occs. now rewrite Hnil. }
    rewrite E. exact E.
  - rewrite app_assoc in HT. set (P1 := g ++ tokens_text tk) in *.
    assert (HlenR : List.length R < n).
    { rewrite Hlen, HT, length_app. unfold P1. rewrite length_app.
      pose proof (tokens_len_pos tk) as H0. unfold tokens_len in H0. lia. }
    pose proof (sane_label_of colorMap tk Hp) as HL.
    assert (Hhead : annot_offsets colorMap T
                    = List.map (shift_edit (List.length P1)) (annot_offsets colorMap R)
                      ++ (if tokens_valid tk
                          then annot_F colorMap tk (List.length P1) (line_rest R) else [])).
    { rewrite HT. apply (occ_edits_head _ g tk R R (shifts_annot colorMap) Hwf Hgap). }
    rewrite Hhead in *. clear Hhead.
    destruct (tokens_valid tk) eqn:Hv.
    2:{ rewrite app_nil_r in *. rewrite pairwise_disjoint_shift in Hd.
        rewrite HT, apply_all_shift.
        apply (annot_after_invalid colorMap g tk R _ Hwf Hgap Hv).
        apply (IH _ HlenR R eq_refl Hd). }
    unfold annot_F, annotate_off in Hd |- *.
    destruct (comment_split (line_rest R)) as [[[ws old] rest]|] eqn:Ec.
    + (* a comment follows the color *)
      destruct (split_of_line _ _ _ _ Ec) as (R2 & HR & Hrest & Hno).
      pose proof (comment_split_sound _ _ _ _ Ec) as (_ & Hw & b & Hold & _).
      assert (HlenR2 : List.length R2 < n).
      { rewrite HR, length_app in HlenR. lia. }
      assert (Hcl : closed_text (ws ++ old)) by (rewrite Hold; apply comment_closed).
      assert (HA : annot_offsets colorMap R
                   = List.map (shift_edit (List.length (ws ++ old)))
                       (annot_offsets colorMap R2)
                     ++ inner_edits (annot_F colorMap) (ws ++ old) R2).
      { rewrite HR at 1. apply (occ_edits_closed _ _ _ (shifts_annot colorMap) Hcl). }
      assert (Hinner : inner_edits (annot_F colorMap) (ws ++ old) R2 = []
                       /\ pairwise_disjoint (annot_offsets colorMap R2) = true).
      { destruct (jsstring_eqb old (new_comment (label_of colorMap tk))) eqn:Eq.
        - apply jsstring_eqb_iff in Eq. rewrite app_nil_r, pairwise_disjoint_shift in Hd.
          assert (Hi : inner_edits (annot_F colorMap) (ws ++ old) R2 = []).
          { apply inner_edits_nil. rewrite Eq. now apply new_comment_occs. }
          split; [exact Hi|]. rewrite HA, Hi, app_nil_r, pairwise_disjoint_shift in Hd.
          exact Hd.
        - rewrite pairwise_disjoint_snoc in Hd. apply Bool.andb_true_iff in Hd as [Hd1 Hd2].
          rewrite pairwise_disjoint_shift in Hd1.
          assert (Hi : inner_edits (annot_F colorMap) (ws ++ old) R2 = []).
          { destruct (inner_edits (annot_F colorMap) (ws ++ old) R2) as [|a l] eqn:Ei;
              [reflexivity|exfalso].
            assert (Ha : In a (inner_edits (annot_F colorMap) (ws ++ old) R2))
              by (rewrite Ei; now left).
            rewrite Hold in Ha.
            apply (inner_edits_inside _ ws b R2 a (starts_near_annot colorMap) Hw) in Ha.
            rewrite <- Hold, length_app in Ha. destruct Ha as (Ha1 & Ha2 & Ha3).
            rewrite forallb_forall in Hd2.
            specialize (Hd2 (shift_edit (List.length P1) a)).
            rewrite HA in Hd2.
            assert (Hin : In (shift_edit (List.length P1) a)
                            (List.map (shift_edit (List.length P1))
                               (List.map (shift_edit (List.length (ws ++ old)))
                                  (annot_offsets colorMap R2) ++ a :: l))).
            { apply in_map, in_or_app. right. now left. }
            specialize (Hd2 Hin). unfold disjoint_edits, shift_edit, oe_start, oe_end in *.
            cbn [fst snd] in *. apply Bool.orb_true_iff in Hd2 as [H|H];
              apply Nat.leb_le in H; lia. }
          split; [exact Hi|]. rewrite HA, Hi, app_nil_r, pairwise_disjoint_shift in Hd1.
          exact Hd1. }
      destruct Hinner as [Hi Hd2].
      pose proof (IH _ HlenR2 R2 eq_refl Hd2) as IH2.
      assert (Hgoal : annot_offsets colorMap
                        (P1 ++ (ws ++ new_comment (label_of colorMap tk))
                            ++ apply_all (annot_offsets colorMap R2) R2) = []).
      { apply (annot_after_comment colorMap g tk R ws _ Hp Hwf Hgap Hw); [|exact IH2].
        now apply (space_no_lf_line ws old). }
      rewrite HA, Hi, app_nil_r.
      destruct (jsstring_eqb old (new_comment (label_of colorMap tk))) eqn:Eq.
      * apply jsstring_eqb_iff in Eq. rewrite app_nil_r, HT, HR, apply_all_shift,
          apply_all_shift, Eq. exact Hgoal.
      * rewrite apply_all_app, HT, HR, apply_all_shift, apply_all_shift.
        unfold apply_all at 1. cbn [fold_left]. rewrite splice_replace. exact Hgoal.
    + (* no comment follows: one is inserted *)
      rewrite pairwise_disjoint_snoc in Hd. apply Bool.andb_true_iff in Hd as [Hd1 _].
      rewrite pairwise_disjoint_shift in Hd1.
      rewrite apply_all_app, HT, apply_all_shift.
      unfold apply_all at 1. cbn [fold_left]. rewrite splice_insert.
      change (32%N :: new_comment (label_of colorMap tk))
        with ([32%N] ++ new_comment (label_of colorMap tk)).
      apply (annot_after_comment colorMap g tk R [32%N] _ Hp Hwf Hgap eq_refl eq_refl).
      apply (IH _ HlenR R eq_refl Hd1).
Qed.
(** ** Removal after annotation *)

Lemma forallb_shift_after d c h es :
  oe_end h <= d + c ->
  forallb (fun x => disjoint_edits x h)
    (List.map (shift_edit d) (List.map (shift_edit c) es)) = true.
Proof.
  intros Hh. apply forallb_forall. intros x Hx.
  apply in_map_iff in Hx as (y & <- & Hy). apply in_map_iff in Hy as (z & <- & _).
  unfold disjoint_edits, shift_edit, oe_start, oe_end in *. cbn [fst snd] in *.
  apply Bool.orb_true_iff. right. apply Nat.leb_le. lia.
Qed.

Lemma forallb_shift_insert d t es :
  forallb (fun x => disjoint_edits x (d, d, t)) (List.map (shift_edit d) es) = true.
Proof.
  apply forallb_forall. intros x Hx. apply in_map_iff in Hx as (y & <- & _).
  unfold disjoint_edits, shift_edit, oe_start, oe_end. cbn [fst snd].
  apply Bool.orb_true_iff. right. apply Nat.leb_le. lia.
Qed.

Lemma remove_after_annotate colorMap :
  sane_palette colorMap ->
  forall T,
    (forall x, In x (valid_occs T) ->
               comment_split (line_rest (skipn (occ_end x) T)) = None) ->
    pairwise_disjoint (annot_offsets colorMap T) = true
    /\ pairwise_disjoint (remove_offsets (apply_all (annot_offsets colorMap T) T)) = true
    /\ apply_all (remove_offsets (apply_all (annot_offsets colorMap T) T))
         (apply_all (annot_offsets colorMap T) T) = T.
Proof.
  intros Hp T. remember (List.length T) as n eqn:Hlen. revert T Hlen.
  induction n as [n IH] using lt_wf_ind. intros T Hlen Hfree.
  destruct (tscan_inv 0 T) as [[Hnil _]|(g & tk & R & HT & Hwf & Hgap & _)].
  - assert (Hv : valid_occs T = []) by (unfold valid_occs; now rewrite Hnil).
    assert (E : annot_offsets colorMap T = []) by now apply occ_edits_nil.
    assert (E' : remove_offsets T = []) by now apply occ_edits_nil.
    rewrite E. cbn [apply_all fold_left]. rewrite E'. auto.
  - rewrite app_assoc in HT. set (P1 := g ++ tokens_text tk) in *.
    assert (HlenR : List.length R < n).
    { rewrite Hlen, HT, length_app. unfold P1. rewrite length_app.
      pose proof (tokens_len_pos tk) as H0. unfold tokens_len in H0. lia. }
    pose proof (sane_label_of colorMap tk Hp) as HL.
    pose proof (head_closed g tk Hwf) as Hcl. fold P1 in Hcl.
    assert (Hocc : valid_occs T = valid_occs P1
                   ++ List.map (shift_found (List.length P1)) (valid_occs R)).
    { rewrite HT. now apply valid_occs_closed. }
    assert (HfreeR : forall x, In x (valid_occs R) ->
                               comment_split (line_rest (skipn (occ_end x) R)) = None).
    { intros x Hx. specialize (Hfree (shift_found (List.length P1) x)).
      rewrite Hocc in Hfree. unfold shift_found, occ_end in Hfree. cbn [fst snd] in Hfree.
      rewrite HT, <- Nat.add_assoc, skipn_add_app in Hfree. apply Hfree.
      apply in_or_app. right. now apply (in_map (shift_found (List.length P1))) in Hx. }
    destruct (IH _ HlenR R eq_refl HfreeR) as (IH1 & IH2 & IH3).
    set (A := annot_offsets colorMap R) in *. set (R' := apply_all A R) in *.
    assert (Hhead : annot_offsets colorMap T
                    = List.map (shift_edit (List.length P1)) A
                      ++ (if tokens_valid tk
                          then annot_F colorMap tk (List.length P1) (line_rest R) else [])).
    { rewrite HT. apply (occ_edits_head _ g tk R R (shifts_annot colorMap) Hwf Hgap). }
    rewrite Hhead. clear Hhead.
    destruct (tokens_valid tk) eqn:Hv.
    2:{ rewrite app_nil_r, pairwise_disjoint_shift, HT, apply_all_shift. fold R'.
        assert (Hrem : remove_offsets (P1 ++ R')
                       = List.map (shift_edit (List.length P1)) (remove_offsets R')).
        { unfold remove_offsets, P1.
          rewrite (occ_edits_head _ g tk R R' shifts_remove Hwf Hgap), Hv.
          apply app_nil_r. }
        rewrite Hrem, pairwise_disjoint_shift, apply_all_shift, IH3. auto. }
    assert (Hnone : comment_split (line_rest R) = None).
    { specialize (Hfree (List.length g, tk)). rewrite Hocc in Hfree.
      unfold occ_end in Hfree. cbn [fst snd] in Hfree.
      replace (List.length g + tokens_len tk) with (List.length P1) in Hfree
        by (unfold P1; now rewrite length_app).
      rewrite HT, skipn_len_app in Hfree. apply Hfree.
      apply in_or_app. left. unfold valid_occs, P1.
      rewrite (head_occs g tk R Hwf Hgap). cbn [filter snd]. rewrite Hv. now left. }
    unfold annot_F, annotate_off. rewrite Hnone.
    set (new := new_comment (label_of colorMap tk)).
    rewrite pairwise_disjoint_snoc, pairwise_disjoint_shift, IH1, forallb_shift_insert.
    assert (HT' : apply_all (List.map (shift_edit (List.length P1)) A
                             ++ [(List.length P1, List.length P1, 32%N :: new)]) T
                  = P1 ++ ([32%N] ++ new) ++ R').
    { rewrite apply_all_app, HT, apply_all_shift. fold R'.
      unfold apply_all. cbn [fold_left]. apply splice_insert. }
    rewrite HT'. clear HT'.
    assert (Hrem : remove_offsets (P1 ++ ([32%N] ++ new) ++ R')
                   = List.map (shift_edit (List.length P1))
                       (List.map (shift_edit (List.length ([32%N] ++ new)))
                          (remove_offsets R'))
                     ++ [(List.length P1,
                          List.length P1 + List.length ([32%N] ++ new), [])]).
    { unfold remove_offsets, P1, new.
      rewrite (occ_edits_head _ g tk R _ shifts_remove Hwf Hgap), Hv.
      rewrite (occ_edits_closed _ _ R' shifts_remove (new_comment_closed [32%N] _)).
      rewrite (inner_edits_nil _ _ _ (new_comment_occs [32%N] _ eq_refl HL)), app_nil_r.
      f_equal. unfold remove_F, remove_off.
      rewrite line_rest_app
        by (rewrite no_lf_app, (new_comment_no_lf _ HL); reflexivity).
      rewrite <- app_assoc, (new_comment_split [32%N] _ _ eq_refl HL).
      rewrite (length_app [32%N]), Nat.add_assoc. reflexivity. }
    rewrite Hrem, pairwise_disjoint_snoc, !pairwise_disjoint_shift, IH2.
    rewrite forallb_shift_after by (unfold oe_end; cbn [fst snd]; lia).
    split; [reflexivity|]. split; [reflexivity|].
    rewrite apply_all_app, apply_all_shift, apply_all_shift, IH3.
    unfold apply_all. cbn [fold_left].
    rewrite HT. exact (splice_at P1 ([32%N] ++ new) [] R).
Qed.
(** ** Annotate twice, and Annotate then RemoveAnnotations *)

Lemma descending_annot colorMap T : descending (annot_offsets colorMap T).
Proof.
  apply descending_occ_edits;
    [apply shifts_annot|apply starts_near_annot|apply single_annot].
Qed.

Lemma descending_remove T : descending (remove_offsets T).
Proof.
  apply descending_occ_edits; [apply shifts_remove|apply starts_near_remove|apply single_remove].
Qed.

Lemma parsed_colors doc :
  parseOklchFunctionsInRange doc (fullRange doc)
  = Some (List.map (color_of doc 0) (valid_occs doc)).
Proof. now rewrite parser_closed_full, filter_map_parsed. Qed.

(** C7 (amended). With a palette whose names hold no line terminator, no star
    directly followed by a slash and no color, Annotate is idempotent: for
    every text the handler returns a text, and run on that text it returns it
    again. When the edits of the first run were applied, the second run
    generates no edit at all. *)
Theorem annotate_idempotent (colorMap : list ColorMapEntry) (doc : TextDocument) :
  sane_palette colorMap ->
  exists colors doc1 colors1,
    parseOklchFunctionsInRange doc (fullRange doc) = Some colors
    /\ annotateOklchColorsHandler colorMap doc = Some doc1
    /\ parseOklchFunctionsInRange doc1 (fullRange doc1) = Some colors1
    /\ annotateOklchColorsHandler colorMap doc1 = Some doc1
    /\ (applyEdit doc (annotate_edits colorMap doc colors) <> None ->
        annotate_edits colorMap doc1 colors1 = []).
Proof.
  intros Hp. eexists. eexists. eexists.
  split; [apply parsed_colors|]. split; [apply annotate_handler_closed|].
  split; [apply parsed_colors|].
  rewrite annotate_handler_closed.
  unfold applyEdit. rewrite annotate_edits_offsets.
  destruct (pairwise_disjoint (annot_offsets colorMap doc)) eqn:Hd.
  - rewrite (sort_descending _ (descending_annot colorMap doc)).
    pose proof (annotate_twice colorMap Hp doc Hd) as H2.
    split.
    + rewrite H2. reflexivity.
    + intros _.
      apply (map_eq_nil (to_offsets (apply_all (annot_offsets colorMap doc) doc))).
      rewrite annotate_edits_offsets. exact H2.
  - rewrite Hd. split; [reflexivity|]. intros H. now contradiction H.
Qed.

Lemma annotate_idempotent_witness :
  let sky := MkEntry (lit "sky-500")
               (MkOklch (number_of_decimal 685 (-3)) (number_of_decimal 169 (-3))
                        (number_of_decimal 237323 (-3))) in
  let doc := lit "a { color: oklch(0.685 0.169 237.323); b: oklch(1 0 0 / 50%) /* x */ }" in
  sane_palette [sky]
  /\ exists colors doc1 colors1,
       parseOklchFunctionsInRange doc (fullRange doc) = Some colors
       /\ annotateOklchColorsHandler [sky] doc = Some doc1
       /\ parseOklchFunctionsInRange doc1 (fullRange doc1) = Some colors1
       /\ annotateOklchColorsHandler [sky] doc1 = Some doc1
       /\ (applyEdit doc (annotate_edits [sky] doc colors) <> None ->
           annotate_edits [sky] doc1 colors1 = []).
Proof.
  intros sky doc.
  assert (Hp : sane_palette [sky]).
  { intros e [<-|[]]. repeat split; vm_compute; reflexivity. }
  split; [exact Hp|]. apply (annotate_idempotent [sky] doc Hp).
Defined.

(** C7, counterexample: a palette name that holds a star directly followed by
    a slash ends the comment early; the second run finds a comment that is not
    the one it would write, and replaces it. *)
Lemma second_run_changes_text :
  let entry := MkEntry (lit "a*/b")
                 (MkOklch (number_of_decimal 1 0) (number_of_decimal 2 0)
                          (number_of_decimal 3 0)) in
  annotateOklchColorsHandler [entry] (lit "oklch(1 2 3)")
  = Some (lit "oklch(1 2 3) /* a*/b */")
  /\ annotateOklchColorsHandler [entry] (lit "oklch(1 2 3) /* a*/b */")
     = Some (lit "oklch(1 2 3) /* a*/b */b */")
  /\ lit "oklch(1 2 3) /* a*/b */b */" <> lit "oklch(1 2 3) /* a*/b */".
Proof. vm_compute. repeat split. discriminate. Qed.

(** A color inside the comment of another: the two edits overlap, the batch
    is refused and the text stays, so that every run generates the same two
    edits again. *)
Lemma refused_batch_generates_edits :
  let doc := lit "oklch(1 2 3) /* oklch(4 5 6) */" in
  annotateOklchColorsHandler [] doc = Some doc
  /\ exists colors,
       parseOklchFunctionsInRange doc (fullRange doc) = Some colors
       /\ List.length (annotate_edits [] doc colors) = 2
       /\ applyEdit doc (annotate_edits [] doc colors) = None.
Proof.
  intros doc. split; [vm_compute; reflexivity|].
  eexists. split; [vm_compute; reflexivity|].
  split; vm_compute; reflexivity.
Qed.

(** C8 (amended). With a palette whose names hold no line terminator, no star
    directly followed by a slash and no color, and on a text in which no
    parsed color is followed on its line, after optional white space, by a
    block comment, RemoveAnnotations undoes Annotate: Annotate returns a text,
    and RemoveAnnotations run on it returns the original text. *)
Theorem remove_undoes_annotate (colorMap : list ColorMapEntry) (doc : TextDocument)
  (colors : list ParsedOklch) :
  sane_palette colorMap ->
  parseOklchFunctionsInRange doc (fullRange doc) = Some colors ->
  (forall c, In c colors ->
             str_match comment_regex1 (textAfter doc (r_end (range c))) = None) ->
  exists doc1,
    annotateOklchColorsHandler colorMap doc = Some doc1
    /\ removeOklchColorAnnotationsHandler doc1 = Some doc.
Proof.
  intros Hp Hc Hfree. rewrite parsed_colors in Hc. injection Hc as Hc. subst colors.
  assert (Hfree' : forall x, In x (valid_occs doc) ->
                             comment_split (line_rest (skipn (occ_end x) doc)) = None).
  { intros x Hx. specialize (Hfree (color_of doc 0 x) (in_map _ _ _ Hx)).
    apply valid_occs_In in Hx as [Hx _]. pose proof (occ_end_bound _ _ Hx) as Hb.
    assert (Hr : r_end (range (color_of doc 0 x)) = positionAt doc (occ_end x))
      by reflexivity.
    rewrite Hr, (textAfter_positionAt _ _ Hb), str_match_comment1 in Hfree.
    destruct (comment_split _) as [[[ws old] rest]|]; [discriminate|reflexivity]. }
  destruct (remove_after_annotate colorMap Hp doc Hfree') as (H1 & H2 & H3).
  eexists. split; [apply annotate_handler_closed|].
  rewrite remove_handler_closed, H1.
  rewrite (sort_descending _ (descending_annot colorMap doc)), H2.
  rewrite (sort_descending _ (descending_remove _)), H3. reflexivity.
Qed.

Lemma remove_undoes_annotate_witness :
  let sky := MkEntry (lit "sky-500")
               (MkOklch (number_of_decimal 685 (-3)) (number_of_decimal 169 (-3))
                        (number_of_decimal 237323 (-3))) in
  let doc := lit "a { color: oklch(0.685 0.169 237.323); b: oklch(1 0 0 / 50%) }" in
  sane_palette [sky]
  /\ exists doc1,
       annotateOklchColorsHandler [sky] doc = Some doc1
       /\ removeOklchColorAnnotationsHandler doc1 = Some doc.
Proof.
  intros sky doc.
  assert (Hp : sane_palette [sky]).
  { intros e [<-|[]]. repeat split; vm_compute; reflexivity. }
  split; [exact Hp|].
  apply (remove_undoes_annotate [sky] doc
           (match parseOklchFunctionsInRange doc (fullRange doc) with
            | Some cs => cs
            | None => []
            end) Hp).
  - vm_compute. reflexivity.
  - vm_compute. intros c [<-|[<-|[]]]; reflexivity.
Defined.

(** C8, counterexample: a palette name that holds a star directly followed by
    a slash; the removal takes the comment to end there and leaves the rest
    of the inserted text. *)
Lemma remove_leaves_text :
  let entry := MkEntry (lit "a*/b")
                 (MkOklch (number_of_decimal 1 0) (number_of_decimal 2 0)
                          (number_of_decimal 3 0)) in
  let doc := lit "oklch(1 2 3)" in
  (exists colors,
     parseOklchFunctionsInRange doc (fullRange doc) = Some colors
     /\ forallb (fun c => match str_match comment_regex1 (textAfter doc (r_end (range c))) with
                          | None => true
                          | Some _ => false
                          end) colors = true)
  /\ annotateOklchColorsHandler [entry] doc = Some (lit "oklch(1 2 3) /* a*/b */")
  /\ removeOklchColorAnnotationsHandler (lit "oklch(1 2 3) /* a*/b */")
     = Some (lit "oklch(1 2 3)b */")
  /\ lit "oklch(1 2 3)b */" <> doc.
Proof.
  intros entry doc. split.
  - eexists. split; [vm_compute; reflexivity|]. vm_compute. reflexivity.
  - split; [vm_compute; reflexivity|]. split; [vm_compute; reflexivity|].
    vm_compute. discriminate.
Qed.
(** ** Lines of a document *)

Lemma next_line_length s t : next_line s = Some t -> List.length t < List.length s.
Proof.
  intros H. destruct (next_line_suffix _ _ H) as (pre & Hs).
  destruct pre as [|x pre].
  - exfalso. cbn [app] in Hs. subst t. clear -H.
    induction s as [|c s IH]; [discriminate|]. cbn [next_line] in H.
    destruct (is_lf c).
    + injection H as H. apply (f_equal (@List.length _)) in H. simpl in H. lia.
    + destruct (next_line_suffix _ _ H) as (pre & Hs).
      apply (f_equal (@List.length _)) in Hs. rewrite length_app in Hs. simpl in Hs. lia.
  - rewrite Hs. rewrite length_app. simpl. lia.
Qed.

Lemma from_line_length n : forall s t, from_line n s = Some t -> List.length t <= List.length s.
Proof.
  induction n as [|n IH]; intros s t; cbn [from_line].
  - intros H. injection H as <-. lia.
  - destruct (next_line s) as [s'|] eqn:E; [|discriminate]. intros H.
    specialize (IH _ _ H). apply next_line_length in E. lia.
Qed.

Lemma position_walk_line cp : forall l c rest,
  no_lf cp = true ->
  position_walk l c (List.length cp) (cp ++ rest) = MkPos l (c + List.length cp).
Proof.
  induction cp as [|x cp IH]; intros l c rest H.
  - cbn [List.length app]. rewrite Nat.add_0_r. destruct rest; reflexivity.
  - unfold no_lf in *. cbn [forallb] in H. apply Bool.andb_true_iff in H as [Hx Hcp].
    apply Bool.negb_true_iff in Hx. cbn [List.length app position_walk]. rewrite Hx.
    rewrite (IH l (S c) rest Hcp). f_equal. lia.
Qed.

Lemma position_walk_next s : forall l c t k,
  next_line s = Some t ->
  position_walk l c (List.length s - List.length t + k) s = position_walk (S l) 0 k t.
Proof.
  induction s as [|x s IH]; intros l c t k H; [discriminate|].
  cbn [next_line] in H. destruct (is_lf x) eqn:Ex.
  - injection H as <-. cbn [List.length].
    replace (S (List.length s) - List.length s + k) with (S k) by lia.
    cbn [position_walk]. now rewrite Ex.
  - pose proof (next_line_length _ _ H) as Hl. cbn [List.length].
    replace (S (List.length s) - List.length t + k)
      with (S (List.length s - List.length t + k)) by lia.
    cbn [position_walk]. rewrite Ex. apply IH. exact H.
Qed.

Lemma position_walk_from_line n : forall s t l k,
  from_line n s = Some t -> k <= List.length (line_rest t) ->
  position_walk l 0 (List.length s - List.length t + k) s = MkPos (l + n) k.
Proof.
  induction n as [|n IH]; intros s t l k; cbn [from_line].
  - intros H Hk. injection H as <-. rewrite Nat.sub_diag. cbn [Nat.add].
    destruct (line_rest_split s) as (tl & Hs & _ & Hno).
    assert (Hf : no_lf (firstn k (line_rest s)) = true).
    { unfold no_lf in *. now apply forallb_firstn. }
    assert (E : s = firstn k (line_rest s) ++ skipn k (line_rest s) ++ tl).
    { rewrite app_assoc, firstn_skipn. exact Hs. }
    rewrite E at 1.
    pose proof (position_walk_line (firstn k (line_rest s)) l 0
                  (skipn k (line_rest s) ++ tl) Hf) as Hw.
    rewrite firstn_length_le in Hw by exact Hk. rewrite Hw. f_equal. lia.
  - destruct (next_line s) as [s'|] eqn:E; [|discriminate]. intros H Hk.
    pose proof (from_line_length _ _ _ H) as H1. pose proof (next_line_length _ _ E) as H2.
    replace (List.length s - List.length t + k)
      with (List.length s - List.length s' + (List.length s' - List.length t + k)) by lia.
    rewrite (position_walk_next s l 0 s' _ E), (IH s' t (S l) k H Hk). f_equal. lia.
Qed.

Lemma positionAt_line doc n t k :
  from_line n doc = Some t -> k <= List.length (line_rest t) ->
  positionAt doc (List.length doc - List.length t + k) = MkPos n k.
Proof. intros H Hk. unfold positionAt. now rewrite (position_walk_from_line n doc t 0 k H Hk). Qed.

Lemma getText_line doc n t :
  from_line n doc = Some t ->
  getText doc (line_range doc n) = line_rest t
  /\ offsetAt doc (r_start (line_range doc n)) = List.length doc - List.length t.
Proof.
  intros H. unfold getText, line_range, offsetAt, lineAt, substring.
  cbn [r_start r_end line character]. rewrite H.
  rewrite Nat.min_0_l, Nat.add_0_r, Nat.min_id. split; [|reflexivity].
  destruct (from_line_suffix _ _ _ H) as (pre & Hd).
  assert (Hl : List.length doc - List.length t = List.length pre).
  { rewrite Hd, length_app. lia. }
  rewrite Hl. replace (List.length pre + List.length (line_rest t) - List.length pre)
    with (List.length (line_rest t)) by lia.
  rewrite Hd, skipn_len_app. destruct (line_rest_split t) as (tl & Ht & _ & _).
  rewrite Ht at 2. rewrite firstn_app, Nat.sub_diag, firstn_all. cbn [firstn]. apply app_nil_r.
Qed.

Lemma has_line_from doc n : has_line doc n = true -> exists t, from_line n doc = Some t.
Proof. unfold has_line. destruct (from_line n doc) as [t|]; [eauto|discriminate]. Qed.

(** ** Positions in order *)

Lemma next_line_rest_length t s :
  next_line t = Some s -> List.length t = List.length (line_rest t) + 1 + List.length s.
Proof.
  induction t as [|c t IH]; [discriminate|]. cbn [next_line line_rest].
  destruct (is_lf c).
  - intros H. injection H as <-. cbn [List.length]. lia.
  - intros H. cbn [List.length]. rewrite (IH H). lia.
Qed.

Lemma from_line_chain d : forall l doc s2,
  from_line (l + S d) doc = Some s2 ->
  exists s1, from_line l doc = Some s1
             /\ List.length s2 + List.length (line_rest s1) < List.length s1.
Proof.
  induction d as [|d IH]; intros l doc s2 H.
  - rewrite Nat.add_1_r, from_line_S in H.
    destruct (from_line l doc) as [t|]; [|discriminate].
    exists t. split; [reflexivity|]. apply next_line_rest_length in H. lia.
  - rewrite Nat.add_succ_r, from_line_S in H.
    destruct (from_line (l + S d) doc) as [t|] eqn:E; [|discriminate].
    destruct (IH l doc t E) as (s1 & H1 & H2). exists s1. split; [exact H1|].
    apply next_line_rest_length in H. lia.
Qed.

Lemma offsetAt_mono doc p q :
  isBefore q p = false -> offsetAt doc p <= offsetAt doc q.
Proof.
  unfold isBefore. intros H.
  destruct (Nat.ltb (line q) (line p)) eqn:E1; [discriminate|].
  apply Nat.ltb_ge in E1.
  destruct (Nat.ltb (line p) (line q)) eqn:E2.
  - apply Nat.ltb_lt in E2. clear H.
    unfold offsetAt at 2. destruct (from_line (line q) doc) as [s2|] eqn:Eq;
      [|apply offsetAt_le].
    replace (line q) with (line p + S (line q - line p - 1)) in Eq by lia.
    destruct (from_line_chain _ _ _ _ Eq) as (s1 & H1 & H2).
    unfold offsetAt. rewrite H1.
    pose proof (from_line_length _ _ _ H1). pose proof (from_line_length _ _ _ Eq). lia.
  - apply Nat.ltb_ge in E2, H. assert (El : line p = line q) by lia.
    unfold offsetAt. rewrite El. destruct (from_line (line q) doc); lia.
Qed.

Lemma Range_new_ordered r :
  isBefore (r_end r) (r_start r) = false ->
  Range_new (MkPos (line (r_start r)) (character (r_start r)))
            (MkPos (line (r_end r)) (character (r_end r))) = r.
Proof.
  destruct r as [[l1 c1] [l2 c2]]. unfold Range_new, isBefore. cbn [r_start r_end line character].
  intros H. destruct (Nat.ltb l2 l1) eqn:E1; [discriminate|].
  destruct (Nat.ltb l1 l2) eqn:E2; [reflexivity|].
  apply Nat.ltb_ge in E1, E2, H. destruct (Nat.ltb c1 c2) eqn:E3; [reflexivity|].
  apply Nat.ltb_ge in E3. assert (l1 = l2) by lia. assert (c1 = c2) by lia. now subst.
Qed.

Lemma positionAt_ordered doc a b :
  a <= b -> b <= List.length doc ->
  isBefore (positionAt doc b) (positionAt doc a) = false.
Proof.
  intros Hab Hb. destruct (isBefore (positionAt doc b) (positionAt doc a)) eqn:E; [|reflexivity].
  exfalso. destruct (Nat.eq_dec a b) as [->|Hne].
  - unfold isBefore in E. rewrite !Nat.ltb_irrefl in E. discriminate.
  - assert (H : isBefore (positionAt doc a) (positionAt doc b) = false).
    { unfold isBefore in *.
      destruct (Nat.ltb (line (positionAt doc b)) (line (positionAt doc a))) eqn:E1.
      - apply Nat.ltb_lt in E1.
        destruct (Nat.ltb (line (positionAt doc a)) (line (positionAt doc b))) eqn:E2;
          [apply Nat.ltb_lt in E2; lia|reflexivity].
      - destruct (Nat.ltb (line (positionAt doc a)) (line (positionAt doc b))); [discriminate|].
        apply Nat.ltb_lt in E. apply Nat.ltb_ge. lia. }
    apply (offsetAt_mono doc) in H. rewrite !offsetAt_positionAt0 in H by lia. lia.
Qed.

(** ** The replacement of a color: the document it leaves *)

Lemma comment2_groups s ws old rest :
  comment_split s = Some (ws, old, rest) ->
  exists m, str_match comment_regex2 s = Some m
            /\ group_text s m 1 = ws /\ group_text s m 2 = old.
Proof.
  intros E. rewrite str_match_comment2, E. eexists. split; [reflexivity|].
  apply comment_split_sound in E as (Hs & _).
  unfold group_text, group. cbn [mr_caps cap_lookup Nat.eqb]. rewrite Hs. split.
  - apply (substring_mid [] ws (old ++ rest)).
  - apply substring_mid.
Qed.

Lemma applyEdit_pair doc e1 e2 :
  oe_end (to_offsets doc e2) <= oe_start (to_offsets doc e1) ->
  applied_before (to_offsets doc e1) (to_offsets doc e2) = true ->
  applyEdit doc [e1; e2]
  = Some (splice (to_offsets doc e2) (splice (to_offsets doc e1) doc)).
Proof.
  intros H1 H2. unfold applyEdit. cbn [map pairwise_disjoint forallb].
  unfold disjoint_edits. apply Nat.leb_le in H1. rewrite H1, Bool.orb_true_r.
  cbn [andb sort_edits insert_edit]. rewrite H2. reflexivity.
Qed.

Lemma position_on_line doc p t :
  from_line (line p) doc = Some t -> character p <= List.length (line_rest t) ->
  p = positionAt doc (offsetAt doc p) /\ offsetAt doc p <= List.length doc.
Proof.
  intros Hf Hc. split; [|apply offsetAt_le]. unfold offsetAt. rewrite Hf.
  rewrite Nat.min_l by exact Hc. rewrite (positionAt_line doc (line p) t _ Hf Hc).
  now destruct p.
Qed.

Lemma select_missing_line doc targetRange originalAlphaString entry :
  has_line doc (line (r_end targetRange)) = false ->
  selectColorHandler doc targetRange originalAlphaString (Some entry) = None.
Proof. intros H. unfold selectColorHandler, select_edits. now rewrite H. Qed.

Lemma select_result_general (doc : TextDocument) (targetRange : Range)
  (originalAlphaString : option jsstring) (entry : ColorMapEntry) :
  has_line doc (line (r_end targetRange)) = true ->
  isBefore (r_end targetRange) (r_start targetRange) = false ->
  let after := textAfter doc (r_end targetRange) in
  let result := selectColorHandler doc targetRange originalAlphaString (Some entry) in
  exists pre old post,
    doc = pre ++ old ++ post
    /\ List.length pre = offsetAt doc (r_start targetRange)
    /\ List.length pre + List.length old = offsetAt doc (r_end targetRange)
    /\ ((str_match comment_regex2 after = None
         /\ result = Some (pre ++ replacementString entry originalAlphaString ++ post))
        \/ (exists m rest,
              str_match comment_regex2 after = Some m
              /\ post = group_text after m 1 ++ group_text after m 2 ++ rest
              /\ result = Some (pre ++ replacementString entry originalAlphaString
                                ++ group_text after m 1
                                ++ select_comment entry originalAlphaString
                                ++ rest))).
Proof.
  intros Hline Hord after result.
  destruct (has_line_from _ _ Hline) as (t & Hf).
  set (a := offsetAt doc (r_start targetRange)).
  set (b := offsetAt doc (r_end targetRange)).
  assert (Hab : a <= b) by (apply offsetAt_mono; exact Hord).
  assert (Hb : b <= List.length doc) by apply offsetAt_le.
  set (pre := firstn a doc). set (old := firstn (b - a) (skipn a doc)).
  set (post := skipn b doc).
  assert (Hd : doc = pre ++ old ++ post).
  { unfold pre, old, post. rewrite <- (firstn_skipn a doc) at 1. f_equal.
    rewrite <- (firstn_skipn (b - a) (skipn a doc)) at 1. f_equal.
    rewrite skipn_skipn. f_equal. lia. }
  assert (Hpre : List.length pre = a) by (unfold pre; apply firstn_length_le; lia).
  assert (Hold : List.length pre + List.length old = b).
  { unfold old. rewrite Hpre, firstn_length_le; [lia|]. rewrite length_skipn. lia. }
  exists pre, old, post. split; [exact Hd|]. split; [exact Hpre|]. split; [exact Hold|].
  assert (Hcol : to_offsets doc
                   (edit_replace targetRange (replacementString entry originalAlphaString))
                 = (List.length pre, List.length pre + List.length old,
                    replacementString entry originalAlphaString)).
  { unfold to_offsets, edit_replace. cbn [te_range te_newText]. fold a b.
    now rewrite Hold, Hpre. }
  unfold result, selectColorHandler, select_edits.
  rewrite Hline, (Range_new_ordered _ Hord). fold after.
  destruct (comment_split after) as [[[ws oldc] rest0]|] eqn:Ec.
  - right. destruct (comment2_groups _ _ _ _ Ec) as (m & Hm & G1 & G2).
    assert (Hchar : character (r_end targetRange) <= List.length (line_rest t)).
    { destruct (Nat.le_gt_cases (character (r_end targetRange)) (List.length (line_rest t)))
        as [H|H]; [exact H|exfalso].
      unfold after, textAfter, lineAt, substring_from in Ec. rewrite Hf in Ec.
      rewrite skipn_all2 in Ec by lia. vm_compute in Ec. discriminate. }
    destruct (position_on_line doc (r_end targetRange) t Hf Hchar) as [Hend _].
    fold b in Hend.
    assert (Hafter : after = line_rest post).
    { unfold after. rewrite Hend. apply textAfter_positionAt. exact Hb. }
    rewrite Hafter in Ec. destruct (split_of_line _ _ _ _ Ec) as (R2 & HR & _ & _).
    exists m, R2. rewrite Hm, G1, G2. split; [reflexivity|].
    split; [now rewrite HR, <- app_assoc|].
    cbn [app]. set (newc := select_comment entry originalAlphaString).
    assert (Hcm : to_offsets doc
                    (edit_replace
                       (MkRange (MkPos (line (r_end targetRange))
                                       (character (r_end targetRange) + List.length ws))
                                (MkPos (line (r_end targetRange))
                                       (character (r_end targetRange) + List.length ws
                                        + List.length oldc))) newc)
                  = (List.length (pre ++ old ++ ws),
                     List.length (pre ++ old ++ ws) + List.length oldc, newc)).
    { unfold to_offsets, edit_replace. cbn [te_range te_newText r_start r_end].
      assert (Hl : List.length ws + List.length oldc
                   <= List.length (line_rest (skipn b doc))).
      { fold post. apply comment_split_sound in Ec as (Hs & _).
        rewrite Hs, !length_app. lia. }
      rewrite Hend, <- (Nat.add_assoc (character _)).
      rewrite !(offsetAt_positionAt doc b) by lia.
      rewrite !length_app. f_equal. f_equal; lia. }
    assert (Hpos : 0 < List.length oldc).
    { apply comment_split_sound in Ec as (_ & _ & bd & -> & _). cbn [List.length]. lia. }
    rewrite applyEdit_pair.
    + rewrite Hcm, Hcol. rewrite Hd at 1. rewrite HR.
      replace (pre ++ old ++ (ws ++ oldc) ++ R2)
        with ((pre ++ old ++ ws) ++ oldc ++ R2) by (now rewrite <- !app_assoc).
      rewrite splice_at, <- !app_assoc. rewrite splice_at. reflexivity.
    + rewrite Hcm, Hcol. unfold oe_start, oe_end. cbn [fst snd].
      rewrite !length_app. lia.
    + rewrite Hcm, Hcol. unfold applied_before, oe_start, oe_end. cbn [fst snd].
      rewrite !length_app.
      destruct (Nat.ltb (List.length pre)
                  (List.length pre + (List.length old + List.length ws))) eqn:E1;
        [reflexivity|].
      apply Nat.ltb_ge in E1. cbn [orb]. apply Bool.andb_true_iff. split.
      * apply Nat.eqb_eq. lia.
      * apply Nat.ltb_lt. lia.
  - left. assert (Hm : str_match comment_regex2 after = None)
      by (now rewrite str_match_comment2, Ec).
    rewrite Hm. split; [reflexivity|]. cbn [app].
    rewrite applyEdit_single, Hcol. rewrite Hd at 1. now rewrite splice_at.
Qed.

Lemma Range_new_comm a b : Range_new a b = Range_new b a.
Proof.
  unfold Range_new, isBefore. destruct a as [l1 c1], b as [l2 c2]. cbn [line character].
  destruct (Nat.ltb_spec l1 l2); destruct (Nat.ltb_spec l2 l1); try lia; try reflexivity.
  destruct (Nat.ltb_spec c1 c2); destruct (Nat.ltb_spec c2 c1); try lia; try reflexivity.
  assert (l1 = l2) by lia. assert (c1 = c2) by lia. now subst.
Qed.

Lemma Range_new_in_order a b :
  isBefore (r_end (Range_new a b)) (r_start (Range_new a b)) = false.
Proof.
  unfold Range_new. destruct (isBefore a b) eqn:E; cbn [r_start r_end]; [|exact E].
  unfold isBefore in *.
  destruct (Nat.ltb_spec (line a) (line b)).
  - destruct (Nat.ltb_spec (line b) (line a)); [lia|].
    destruct (Nat.ltb_spec (line a) (line b)); [reflexivity|lia].
  - destruct (Nat.ltb_spec (line b) (line a)); [discriminate|].
    apply Nat.ltb_lt in E. apply Nat.ltb_ge. lia.
Qed.

(** C5 (amended). A target span is a range of the editor, built by its
    constructor from two positions. When the document has the line the span
    ends on, [selectColorHandler] replaces the text of the span by
    [oklch(l c h], the three numbers of the chosen entry, then the original
    alpha text as it was, then the closing parenthesis; the entry has no
    alpha to contribute. A comment that follows the span on its line, after
    optional white space, is replaced by the comment of the entry's name;
    the text before the span, the white space and the text after stay as
    they are. When the document has no such line, [lineAt] raises its error
    and nothing is written. *)
Theorem replacement_keeps_alpha_text (doc : TextDocument) (a b : Position)
  (originalAlphaString : option jsstring) (entry : ColorMapEntry) :
  let targetRange := Range_new a b in
  let replacement :=
    lit "oklch(" ++ Number_toString (ok_l (oklch entry)) ++ lit " "
    ++ Number_toString (ok_c (oklch entry)) ++ lit " "
    ++ Number_toString (ok_h (oklch entry))
    ++ match originalAlphaString with Some alphaText => alphaText | None => [] end
    ++ lit ")" in
  let after := textAfter doc (r_end targetRange) in
  let result := selectColorHandler doc targetRange originalAlphaString (Some entry) in
  if has_line doc (line (r_end targetRange)) then
    exists pre old post,
      doc = pre ++ old ++ post
      /\ List.length pre = offsetAt doc (r_start targetRange)
      /\ List.length pre + List.length old = offsetAt doc (r_end targetRange)
      /\ ((str_match comment_regex2 after = None
           /\ result = Some (pre ++ replacement ++ post))
          \/ (exists m rest,
                str_match comment_regex2 after = Some m
                /\ post = group_text after m 1 ++ group_text after m 2 ++ rest
                /\ result = Some (pre ++ replacement ++ group_text after m 1
                                  ++ select_comment entry originalAlphaString ++ rest)))
  else result = None.
Proof.
  intros targetRange replacement after result.
  destruct (has_line doc (line (r_end targetRange))) eqn:Hline.
  - exact (select_result_general doc targetRange originalAlphaString entry Hline
             (Range_new_in_order a b)).
  - exact (select_missing_line doc targetRange originalAlphaString entry Hline).
Qed.

Lemma replacement_keeps_alpha_text_witness :
  let sky := MkEntry (lit "sky-500")
               (MkOklch (number_of_decimal 685 (-3)) (number_of_decimal 169 (-3))
                        (number_of_decimal 237323 (-3))) in
  let doc := lit "a: oklch(1 2 3 / 50%)  /* old */ x;" in
  let targetRange := MkRange (MkPos 0 3) (MkPos 0 21) in
  let alphaText := Some (lit " / 50%") in
  let replacement := lit "oklch(0.685 0.169 237.323 / 50%)" in
  let after := textAfter doc (r_end targetRange) in
  let result := selectColorHandler doc targetRange alphaText (Some sky) in
  result = Some (lit "a: oklch(0.685 0.169 237.323 / 50%)  /* sky-500 / 50% */ x;")
  /\ exists pre old post,
       doc = pre ++ old ++ post
       /\ List.length pre = offsetAt doc (r_start targetRange)
       /\ List.length pre + List.length old = offsetAt doc (r_end targetRange)
       /\ ((str_match comment_regex2 after = None
            /\ result = Some (pre ++ replacement ++ post))
           \/ (exists m rest,
                 str_match comment_regex2 after = Some m
                 /\ post = group_text after m 1 ++ group_text after m 2 ++ rest
                 /\ result = Some (pre ++ replacement ++ group_text after m 1
                                   ++ select_comment sky alphaText ++ rest))).
Proof.
  intros sky doc targetRange alphaText replacement after result.
  split; [vm_compute; reflexivity|].
  assert (Hr : replacement
               = lit "oklch(" ++ Number_toString (ok_l (oklch sky)) ++ lit " "
                 ++ Number_toString (ok_c (oklch sky)) ++ lit " "
                 ++ Number_toString (ok_h (oklch sky))
                 ++ match alphaText with Some a => a | None => [] end ++ lit ")")
    by (vm_compute; reflexivity).
  rewrite Hr.
  exact (replacement_keeps_alpha_text doc (MkPos 0 3) (MkPos 0 21) alphaText sky).
Defined.

(** The span of the counterexample ends on a line the document does not
    have: [lineAt] raises its error and nothing is written. *)
Lemma select_stops_at_missing_line :
  let sky := MkEntry (lit "sky-500")
               (MkOklch (number_of_decimal 685 (-3)) (number_of_decimal 169 (-3))
                        (number_of_decimal 237323 (-3))) in
  let doc := lit "oklch(1 2 3)" in
  let targetRange := MkRange (MkPos 1 0) (MkPos 1 12) in
  has_line doc (line (r_end targetRange)) = false
  /\ select_edits doc targetRange None sky = None
  /\ selectColorHandler doc targetRange None (Some sky) = None.
Proof. vm_compute. repeat split. Qed.
(** * Further properties of the code *)

(** ** The scanner: ranges and windows *)

Lemma getText_split doc r :
  exists post,
    doc = firstn (offsetAt doc (r_start r)) doc ++ getText doc r ++ post
    /\ List.length (firstn (offsetAt doc (r_start r)) doc) = offsetAt doc (r_start r).
Proof.
  pose proof (offsetAt_le doc (r_start r)) as Hle.
  exists (skipn (offsetAt doc (r_end r) - offsetAt doc (r_start r))
            (skipn (offsetAt doc (r_start r)) doc)).
  unfold getText, substring. split.
  - now rewrite firstn_skipn, firstn_skipn.
  - apply firstn_length_le. exact Hle.
Qed.

Lemma getText_occurrence doc r p tk :
  occurrence_at (getText doc r) p tk ->
  occurrence_at doc (offsetAt doc (r_start r) + p) tk.
Proof.
  intros (pre & R & Hs & Hp & Hwf).
  destruct (getText_split doc r) as (post & Hd & Hl).
  exists (firstn (offsetAt doc (r_start r)) doc ++ pre), (R ++ post).
  split; [|split; [|exact Hwf]].
  - rewrite Hd at 1. rewrite Hs, <- !app_assoc. reflexivity.
  - rewrite length_app, Hl, Hp. reflexivity.
Qed.

Lemma occurrence_bound text p tk :
  occurrence_at text p tk -> p + tokens_len tk <= List.length text.
Proof.
  intros (pre & R & -> & <- & _). rewrite !length_app. unfold tokens_len. lia.
Qed.

Lemma color_of_text doc q tk :
  occurrence_at doc q tk ->
  getText doc (range (color_of doc 0 (q, tk))) = tokens_text tk
  /\ span_of doc (color_of doc 0 (q, tk)) = (q, q + tokens_len tk).
Proof.
  intros Hocc. pose proof (occurrence_bound _ _ _ Hocc) as Hb.
  destruct Hocc as (pre & R & Hs & Hp & Hwf).
  unfold getText, span_of, color_of. cbn [range r_start r_end fst snd Nat.add].
  rewrite !offsetAt_positionAt0 by lia. split; [|reflexivity].
  apply (substring_at pre (tokens_text tk) R); [exact Hs|now symmetry|].
  rewrite Hp. reflexivity.
Qed.

Lemma color_of_shift doc rs p tk :
  color_of doc rs (p, tk) = color_of doc 0 (rs + p, tk).
Proof.
  unfold color_of. cbn [fst snd Nat.add]. now rewrite Nat.add_assoc.
Qed.

Lemma emitted_iff doc r colors c :
  parseOklchFunctionsInRange doc r = Some colors ->
  (In c colors <->
   exists p tk, occurrence_at (getText doc r) p tk /\ tokens_valid tk = true
                /\ c = color_of doc (offsetAt doc (r_start r)) (p, tk)).
Proof.
  rewrite parser_closed, filter_map_parsed. intros H. injection H as <-.
  rewrite in_map_iff. split.
  - intros ([p tk] & <- & Hin). apply filter_In in Hin as [Hin Hv].
    exists p, tk. split; [now apply tscan_occurrence|]. auto.
  - intros (p & tk & Hocc & Hv & ->). exists (p, tk). split; [reflexivity|].
    apply filter_In. split; [now apply tscan_occurrence|exact Hv].
Qed.

(** X1. The text under the range of an emitted color is the occurrence the
    scanner matched: it starts with [oklch(], ends with the closing
    parenthesis, and scanned on its own it gives one color with the same
    numbers, alpha and alpha text. *)
Theorem emitted_range_text (doc : TextDocument) (r : Range)
  (colors : list ParsedOklch) (c : ParsedOklch) :
  parseOklchFunctionsInRange doc r = Some colors -> In c colors ->
  let text := getText doc (range c) in
  starts_with (lit "oklch(") text = true
  /\ endsWith text ch_rparen = true
  /\ List.length text = snd (span_of doc c) - fst (span_of doc c)
  /\ exists c',
       parseOklchFunctionsInRange text (fullRange text) = Some [c']
       /\ p_l c' = p_l c /\ p_c c' = p_c c /\ p_h c' = p_h c
       /\ alpha c' = alpha c /\ alphaString c' = alphaString c
       /\ span_of text c' = (0, List.length text).
Proof.
  intros Hparse Hin text.
  apply (emitted_iff doc r colors c Hparse) in Hin as (p & tk & Hocc & Hv & Hc).
  apply getText_occurrence in Hocc. rewrite color_of_shift in Hc.
  destruct (color_of_text doc _ tk Hocc) as [Ht Hsp].
  subst text. rewrite Hc, Ht, Hsp. cbn [fst snd].
  destruct Hocc as (_ & _ & _ & _ & Hwf).
  split; [|split; [|split]].
  - unfold tokens_text. reflexivity.
  - destruct (tokens_text_shape tk Hwf) as (mid & -> & _).
    unfold endsWith. cbn [rev]. rewrite rev_app_distr. reflexivity.
  - unfold tokens_len. lia.
  - exists (color_of (tokens_text tk) 0 (0, tk)).
    rewrite parser_closed_full, filter_map_parsed, (tscan_single tk Hwf).
    cbn [filter snd]. rewrite Hv. cbn [map].
    repeat (split; [reflexivity|]).
    assert (H0 : occurrence_at (tokens_text tk) 0 tk).
    { exists [], []. rewrite app_nil_r. auto. }
    destruct (color_of_text _ _ _ H0) as [_ ->]. reflexivity.
Qed.

Lemma emitted_range_text_witness :
  let doc := lit "a { color: oklch(0.5 0.1 20 / 50%); }" in
  let c := MkParsed (number_of_decimal 5 (-1)) (number_of_decimal 1 (-1))
             (number_of_decimal 20 0) (Some (number_of_decimal 5 (-1)))
             (Some (lit " / 50%")) (MkRange (MkPos 0 11) (MkPos 0 34)) in
  getText doc (range c) = lit "oklch(0.5 0.1 20 / 50%)"
  /\ exists c',
       parseOklchFunctionsInRange (getText doc (range c)) (fullRange (getText doc (range c)))
       = Some [c']
       /\ alphaString c' = alphaString c.
Proof.
  intros doc c. split; [vm_compute; reflexivity|].
  assert (Hp : parseOklchFunctionsInRange doc (fullRange doc) = Some [c])
    by (vm_compute; reflexivity).
  destruct (emitted_range_text doc (fullRange doc) [c] c Hp (or_introl eq_refl))
    as (_ & _ & _ & c' & H1 & _ & _ & _ & _ & H6 & _).
  exists c'. split; [exact H1|exact H6].
Defined.

(** X2. A window sees the colors of the document that lie in it: scanning a
    range gives exactly the colors of the whole-document scan whose
    occurrence starts at or after the start of the range and ends at or
    before its end. *)
Theorem window_scan (doc : TextDocument) (r : Range) :
  exists colors full,
    parseOklchFunctionsInRange doc r = Some colors
    /\ parseOklchFunctionsInRange doc (fullRange doc) = Some full
    /\ forall c,
         In c colors <->
         In c full /\ offsetAt doc (r_start r) <= fst (span_of doc c)
         /\ snd (span_of doc c) <= offsetAt doc (r_end r).
Proof.
  destruct (parser_total doc r) as (colors & Hc).
  destruct (parser_total doc (fullRange doc)) as (full & Hf).
  exists colors, full. split; [exact Hc|]. split; [exact Hf|].
  intros c. rewrite (emitted_iff doc r colors c Hc), (emitted_iff doc _ full c Hf).
  rewrite getText_fullRange.
  assert (H0 : offsetAt doc (r_start (fullRange doc)) = 0).
  { unfold fullRange. cbn [r_start]. apply offsetAt_positionAt0. lia. }
  rewrite H0. set (rs := offsetAt doc (r_start r)). set (re := offsetAt doc (r_end r)).
  split.
  - intros (p & tk & Hocc & Hv & ->).
    pose proof (occurrence_bound _ _ _ Hocc) as Hb.
    assert (Hlen : List.length (getText doc r) <= re - rs).
    { unfold getText, substring. fold rs re. rewrite length_firstn. lia. }
    apply getText_occurrence in Hocc. fold rs in Hocc.
    rewrite color_of_shift. destruct (color_of_text doc _ tk Hocc) as [_ Hsp].
    pose proof (tokens_len_pos tk) as Hpos.
    rewrite Hsp. cbn [fst snd]. split; [|lia].
    exists (rs + p), tk. auto.
  - intros ((q & tk & Hocc & Hv & ->) & H1 & H2).
    destruct (color_of_text doc _ tk Hocc) as [_ Hsp]. rewrite Hsp in H1, H2.
    cbn [fst snd] in H1, H2.
    exists (q - rs), tk. split; [|split; [exact Hv|]].
    + destruct Hocc as (pre & R & Hs & Hp & Hwf).
      exists (skipn rs pre), (firstn (re - (q + tokens_len tk)) R).
      split; [|split; [|exact Hwf]].
      * unfold getText, substring. fold rs re. rewrite Hs.
        rewrite skipn_app. replace (rs - List.length pre) with 0 by lia.
        cbn [skipn]. rewrite firstn_app, length_skipn.
        rewrite (firstn_all2 (skipn rs pre)) by (rewrite length_skipn; lia).
        f_equal. rewrite firstn_app.
        rewrite (firstn_all2 (tokens_text tk)) by (fold (tokens_len tk); lia).
        f_equal. f_equal. unfold tokens_len in *. lia.
      * rewrite length_skipn. lia.
    + rewrite (color_of_shift doc rs). replace (rs + (q - rs)) with q by lia. reflexivity.
Qed.
(** ** The scanner: the values it stores *)

Lemma tokens_wf_fields tk :
  tokens_wf tk = true ->
  forallb is_numch (tk_t1 tk) = true /\ forallb is_numch (tk_t2 tk) = true
  /\ forallb is_numch (tk_t3 tk) = true /\ alpha_wf (tk_alpha tk) = true.
Proof. unfold tokens_wf. rewrite !Bool.andb_true_iff. tauto. Qed.

Lemma parseFloat_numch_nn t :
  forallb is_numch t = true -> nonneg_or_nan (parseFloat t) = true.
Proof.
  intros H. rewrite parseFloat_alphach; [apply parse_unsigned_nn|].
  revert H. apply forallb_impl. apply numch_alphach.
Qed.

Lemma nonneg_of_valid x : nonneg_or_nan x = true -> isNaN x = false -> is_nonneg x = true.
Proof. unfold nonneg_or_nan. intros H Hn. now rewrite Hn in H. Qed.

Lemma parse_alpha_emitted tk :
  tokens_wf tk = true -> parse_alpha (tokens_alphaString tk) = tokens_alpha tk.
Proof.
  intros Hwf. destruct (tokens_wf_fields tk Hwf) as (_ & _ & _ & Hal).
  unfold tokens_alphaString, tokens_alpha.
  destruct (tk_alpha tk) as [[[w3 w4] t]|]; [|reflexivity].
  now apply parse_alpha_tokens.
Qed.

(** X3. The numbers of an emitted color are never NaN and never negative (the
    pattern has no sign); its alpha is present exactly when its alpha text
    is, the alpha text is never empty, and read again by the code that
    computes an alpha from an alpha text it gives the stored alpha. *)
Theorem emitted_values (doc : TextDocument) (r : Range)
  (colors : list ParsedOklch) (c : ParsedOklch) :
  parseOklchFunctionsInRange doc r = Some colors -> In c colors ->
  is_nonneg (p_l c) = true /\ is_nonneg (p_c c) = true /\ is_nonneg (p_h c) = true
  /\ (alpha c = None <-> alphaString c = None)
  /\ alphaString c <> Some []
  /\ parse_alpha (alphaString c) = alpha c.
Proof.
  intros Hparse Hin.
  destruct (emitted_color doc r colors c Hparse Hin) as (p & tk & _ & Hocc & Hv & ->).
  destruct Hocc as (_ & _ & _ & _ & Hwf).
  destruct (tokens_wf_fields tk Hwf) as (H1 & H2 & H3 & Hal).
  unfold tokens_valid in Hv. rewrite !Bool.andb_true_iff, !Bool.negb_true_iff in Hv.
  destruct Hv as [[[V1 V2] V3] V4].
  cbn [color_of p_l p_c p_h alpha alphaString snd].
  split; [apply nonneg_of_valid; [now apply parseFloat_numch_nn|exact V1]|].
  split; [apply nonneg_of_valid; [now apply parseFloat_numch_nn|exact V2]|].
  split; [apply nonneg_of_valid; [now apply parseFloat_numch_nn|exact V3]|].
  split; [|split; [|now apply parse_alpha_emitted]].
  - unfold tokens_alpha, tokens_alphaString.
    destruct (tk_alpha tk) as [[[w3 w4] t]|]; split; congruence.
  - unfold tokens_alphaString. destruct (tk_alpha tk) as [[[w3 w4] t]|]; [|discriminate].
    cbn [alpha_text]. intros H. injection H as H. destruct w3; discriminate.
Qed.

Lemma emitted_values_witness :
  let doc := lit "a { color: oklch(0.5 0.1 20 / 50%); }" in
  let c := MkParsed (number_of_decimal 5 (-1)) (number_of_decimal 1 (-1))
             (number_of_decimal 20 0) (Some (number_of_decimal 5 (-1)))
             (Some (lit " / 50%")) (MkRange (MkPos 0 11) (MkPos 0 34)) in
  is_nonneg (p_l c) = true /\ is_nonneg (p_c c) = true /\ is_nonneg (p_h c) = true
  /\ (alpha c = None <-> alphaString c = None)
  /\ alphaString c <> Some []
  /\ parse_alpha (alphaString c) = alpha c.
Proof.
  intros doc c.
  assert (Hp : parseOklchFunctionsInRange doc (fullRange doc) = Some [c])
    by (vm_compute; reflexivity).
  apply (emitted_values doc (fullRange doc) [c] c Hp). now left.
Defined.

(** ** The replacement of a color the scanner emitted *)

Lemma emitted_in_doc doc r colors c :
  parseOklchFunctionsInRange doc r = Some colors -> In c colors ->
  exists q tk pre post,
    c = color_of doc 0 (q, tk) /\ doc = pre ++ tokens_text tk ++ post
    /\ List.length pre = q /\ tokens_wf tk = true /\ tokens_valid tk = true.
Proof.
  intros Hparse Hin.
  apply (emitted_iff doc r colors c Hparse) in Hin as (p & tk & Hocc & Hv & ->).
  apply getText_occurrence in Hocc. rewrite color_of_shift.
  destruct Hocc as (pre & post & Hs & Hp & Hwf).
  exists (offsetAt doc (r_start r) + p), tk, pre, post. auto.
Qed.

Lemma app_eq_length (A : Type) (a a' b b' : list A) :
  a ++ b = a' ++ b' -> List.length a = List.length a' -> a = a' /\ b = b'.
Proof.
  revert a'. induction a as [|x a IH]; intros [|y a'] H Hl; try discriminate.
  - auto.
  - cbn [app] in H. injection H as -> H. cbn [List.length] in Hl.
    destruct (IH a' H) as [-> ->]; [lia|]. auto.
Qed.

Lemma select_comment_emitted entry tk :
  tokens_wf tk = true ->
  select_comment entry (tokens_alphaString tk)
  = lit "/* " ++ name entry ++ alpha_label (tokens_alpha tk) ++ lit " */".
Proof.
  intros Hwf. unfold select_comment. do 2 f_equal. f_equal.
  pose proof (parse_alpha_emitted tk Hwf) as Hpa. rewrite Hpa.
  destruct (truthy (tokens_alphaString tk)) eqn:Etr; [reflexivity|].
  rewrite <- Hpa. unfold parse_alpha. destruct (tokens_alphaString tk); [|reflexivity].
  now rewrite Etr.
Qed.

Lemma select_result_shape (doc : TextDocument) (r : Range)
  (colors : list ParsedOklch) (c : ParsedOklch) (entry : ColorMapEntry) :
  parseOklchFunctionsInRange doc r = Some colors -> In c colors ->
  let after := textAfter doc (r_end (range c)) in
  let result := selectColorHandler doc (range c) (alphaString c) (Some entry) in
  exists pre post,
    doc = pre ++ getText doc (range c) ++ post
    /\ List.length pre = fst (span_of doc c)
    /\ ((str_match comment_regex2 after = None
         /\ result = Some (pre ++ replacementString entry (alphaString c) ++ post))
        \/ (exists m rest,
              str_match comment_regex2 after = Some m
              /\ post = group_text after m 1 ++ group_text after m 2 ++ rest
              /\ result = Some (pre ++ replacementString entry (alphaString c)
                                ++ group_text after m 1
                                ++ (lit "/* " ++ name entry ++ alpha_label (alpha c)
                                    ++ lit " */")
                                ++ rest))).
Proof.
  intros Hparse Hin after result.
  destruct (emitted_in_doc doc r colors c Hparse Hin)
    as (q & tk & pre0 & post0 & Hc & Hd & Hq & Hwf & Hv).
  assert (Hocc : occurrence_at doc q tk) by (exists pre0, post0; auto).
  destruct (color_of_text doc q tk Hocc) as [Ht Hsp].
  pose proof (occurrence_bound _ _ _ Hocc) as Hb.
  assert (Hend : r_end (range c) = positionAt doc (q + tokens_len tk))
    by (rewrite Hc; reflexivity).
  assert (Hstart : r_start (range c) = positionAt doc q) by (rewrite Hc; reflexivity).
  assert (Hline : has_line doc (line (r_end (range c))) = true).
  { rewrite Hend. destruct (positionAt_spec doc (q + tokens_len tk) Hb)
      as (p1 & cp & _ & Hf & _). unfold has_line. now rewrite Hf. }
  assert (Hord : isBefore (r_end (range c)) (r_start (range c)) = false).
  { rewrite Hend, Hstart. apply positionAt_ordered; lia. }
  destruct (select_result_general doc (range c) (alphaString c) entry Hline Hord)
    as (pre & old & post & Hd' & Hpre & Hold & Hres).
  rewrite Hstart, offsetAt_positionAt0 in Hpre by lia.
  rewrite Hend, offsetAt_positionAt0 in Hold by lia.
  assert (E1 : pre = pre0 /\ old ++ post = tokens_text tk ++ post0).
  { apply app_eq_length; [rewrite <- Hd'; exact Hd|lia]. }
  destruct E1 as [-> E1].
  assert (E2 : old = tokens_text tk /\ post = post0).
  { apply app_eq_length; [exact E1|]. unfold tokens_len in Hold. lia. }
  destruct E2 as [-> ->].
  assert (Hsel : select_comment entry (alphaString c)
                 = lit "/* " ++ name entry ++ alpha_label (alpha c) ++ lit " */").
  { rewrite Hc. cbn [color_of alpha alphaString snd]. now apply select_comment_emitted. }
  exists pre0, post0. rewrite Hc at 1 2. rewrite Ht, Hsp. cbn [fst].
  split; [exact Hd|]. split; [exact Hq|].
  fold after result in Hres. rewrite Hsel in Hres. exact Hres.
Qed.

(** X10. [selectColorHandler] on a color the scanner emitted, for the entry the
    user picked: the text of the color is replaced by the replacement string;
    a comment that follows it on the line, after optional white space, is
    replaced by the comment of the entry's name with the alpha part of the
    original color; the text before the color, the white space between color
    and comment and the text after stay as they are. *)
Theorem select_on_emitted (doc : TextDocument) (r : Range)
  (colors : list ParsedOklch) (c : ParsedOklch) (entry : ColorMapEntry) :
  parseOklchFunctionsInRange doc r = Some colors -> In c colors ->
  let after := textAfter doc (r_end (range c)) in
  let result := selectColorHandler doc (range c) (alphaString c) (Some entry) in
  exists pre post,
    doc = pre ++ getText doc (range c) ++ post
    /\ List.length pre = fst (span_of doc c)
    /\ ((str_match comment_regex2 after = None
         /\ result = Some (pre ++ replacementString entry (alphaString c) ++ post))
        \/ (exists m rest,
              str_match comment_regex2 after = Some m
              /\ post = group_text after m 1 ++ group_text after m 2 ++ rest
              /\ result = Some (pre ++ replacementString entry (alphaString c)
                                ++ group_text after m 1
                                ++ (lit "/* " ++ name entry ++ alpha_label (alpha c)
                                    ++ lit " */")
                                ++ rest))).
Proof. exact (select_result_shape doc r colors c entry). Qed.

Lemma select_on_emitted_witness :
  let sky := MkEntry (lit "sky-500")
               (MkOklch (number_of_decimal 685 (-3)) (number_of_decimal 169 (-3))
                        (number_of_decimal 237323 (-3))) in
  let doc := lit "a: oklch(1 2 3 / 50%)  /* old */ x;" in
  let c := MkParsed (number_of_decimal 1 0) (number_of_decimal 2 0) (number_of_decimal 3 0)
             (Some (number_of_decimal 5 (-1))) (Some (lit " / 50%"))
             (MkRange (MkPos 0 3) (MkPos 0 21)) in
  selectColorHandler doc (range c) (alphaString c) (Some sky)
  = Some (lit "a: oklch(0.685 0.169 237.323 / 50%)  /* sky-500 / 50% */ x;")
  /\ exists pre post,
       doc = pre ++ getText doc (range c) ++ post
       /\ List.length pre = fst (span_of doc c)
       /\ ((str_match comment_regex2 (textAfter doc (r_end (range c))) = None
            /\ selectColorHandler doc (range c) (alphaString c) (Some sky)
               = Some (pre ++ replacementString sky (alphaString c) ++ post))
           \/ (exists m rest,
                 str_match comment_regex2 (textAfter doc (r_end (range c))) = Some m
                 /\ post = group_text (textAfter doc (r_end (range c))) m 1
                           ++ group_text (textAfter doc (r_end (range c))) m 2 ++ rest
                 /\ selectColorHandler doc (range c) (alphaString c) (Some sky)
                    = Some (pre ++ replacementString sky (alphaString c)
                            ++ group_text (textAfter doc (r_end (range c))) m 1
                            ++ (lit "/* " ++ name sky ++ alpha_label (alpha c) ++ lit " */")
                            ++ rest))).
Proof.
  intros sky doc c. split; [vm_compute; reflexivity|].
  assert (Hp : parseOklchFunctionsInRange doc (fullRange doc) = Some [c])
    by (vm_compute; reflexivity).
  apply (select_on_emitted doc (fullRange doc) [c] c sky Hp). now left.
Defined.

Lemma prints_plainly_token x :
  prints_plainly x ->
  forallb is_numch (Number_toString x) = true /\ nonempty (Number_toString x) = true
  /\ isNaN (parseFloat (Number_toString x)) = false.
Proof.
  intros [Hp Hr]. assert (Hn : isNaN x = false).
  { destruct x; try reflexivity. vm_compute in Hp. discriminate. }
  split; [exact Hp|]. split; [|now rewrite Hr].
  destruct (Number_toString x) eqn:E; [|reflexivity].
  rewrite <- Hr in Hn. discriminate.
Qed.

Lemma replacement_tokens entry tk :
  tokens_wf tk = true -> tokens_valid tk = true ->
  prints_plainly (ok_l (oklch entry)) -> prints_plainly (ok_c (oklch entry)) ->
  prints_plainly (ok_h (oklch entry)) ->
  exists tk',
    replacementString entry (tokens_alphaString tk) = tokens_text tk'
    /\ tokens_wf tk' = true /\ tokens_valid tk' = true
    /\ parseFloat (tk_t1 tk') = ok_l (oklch entry)
    /\ parseFloat (tk_t2 tk') = ok_c (oklch entry)
    /\ parseFloat (tk_t3 tk') = ok_h (oklch entry)
    /\ tk_alpha tk' = tk_alpha tk.
Proof.
  intros Hwf Hv Hl Hc Hh.
  destruct (prints_plainly_token _ Hl) as (T1 & N1 & V1).
  destruct (prints_plainly_token _ Hc) as (T2 & N2 & V2).
  destruct (prints_plainly_token _ Hh) as (T3 & N3 & V3).
  destruct Hl as [_ Rl], Hc as [_ Rc], Hh as [_ Rh].
  destruct (tokens_wf_fields tk Hwf) as (_ & _ & _ & Hal).
  exists (MkTokens [] (Number_toString (ok_l (oklch entry))) [32%N]
            (Number_toString (ok_c (oklch entry))) [32%N]
            (Number_toString (ok_h (oklch entry))) (tk_alpha tk) []).
  cbn [tk_t1 tk_t2 tk_t3 tk_alpha]. split; [|split; [|split]].
  - unfold replacementString, tokens_text, tokens_alphaString.
    cbn [tk_w0 tk_t1 tk_w1 tk_t2 tk_w2 tk_t3 tk_alpha tk_wl].
    destruct (tk_alpha tk) as [x|]; cbn [alpha_text app]; reflexivity.
  - unfold tokens_wf. cbn [tk_w0 tk_t1 tk_w1 tk_t2 tk_w2 tk_t3 tk_alpha tk_wl].
    rewrite T1, N1, T2, N2, T3, N3, Hal. reflexivity.
  - unfold tokens_valid in *. cbn [tk_t1 tk_t2 tk_t3]. unfold tokens_alpha in *.
    cbn [tk_alpha]. rewrite V1, V2, V3.
    rewrite !Bool.andb_true_iff in Hv. destruct Hv as [_ V4]. rewrite V4. reflexivity.
  - auto.
Qed.

(** X11. After [selectColorHandler] replaced a color the scanner emitted by an
    entry whose numbers print in plain decimal notation and read back as
    themselves, the scanner finds at the same offset a color that spans the
    replacement string, with the numbers of the entry and the alpha and alpha
    text of the original color. *)
Theorem replaced_color_scanned (doc : TextDocument) (r : Range)
  (colors : list ParsedOklch) (c : ParsedOklch) (entry : ColorMapEntry) :
  parseOklchFunctionsInRange doc r = Some colors -> In c colors ->
  prints_plainly (ok_l (oklch entry)) -> prints_plainly (ok_c (oklch entry)) ->
  prints_plainly (ok_h (oklch entry)) ->
  exists result full c',
    selectColorHandler doc (range c) (alphaString c) (Some entry) = Some result
    /\ parseOklchFunctionsInRange result (fullRange result) = Some full /\ In c' full
    /\ fst (span_of result c') = fst (span_of doc c)
    /\ getText result (range c') = replacementString entry (alphaString c)
    /\ p_l c' = ok_l (oklch entry) /\ p_c c' = ok_c (oklch entry)
    /\ p_h c' = ok_h (oklch entry)
    /\ alpha c' = alpha c /\ alphaString c' = alphaString c.
Proof.
  intros Hparse Hin Hl Hc Hh.
  destruct (select_result_shape doc r colors c entry Hparse Hin)
    as (pre & post & _ & Hpre & Hres).
  destruct (emitted_in_doc doc r colors c Hparse Hin)
    as (q & tk & pre0 & post0 & Hcq & Hd & Hq & Hwf & Hv).
  assert (Has : alphaString c = tokens_alphaString tk) by (rewrite Hcq; reflexivity).
  assert (Ha : alpha c = tokens_alpha tk) by (rewrite Hcq; reflexivity).
  destruct (replacement_tokens entry tk Hwf Hv Hl Hc Hh)
    as (tk' & Htxt & Hwf' & Hv' & P1 & P2 & P3 & Hal').
  assert (Hshape : exists tail,
             selectColorHandler doc (range c) (alphaString c) (Some entry)
             = Some (pre ++ replacementString entry (alphaString c) ++ tail)).
  { destruct Hres as [[_ ->]|(m & rest & _ & _ & ->)]; eauto. }
  destruct Hshape as (tail & Hsel).
  remember (pre ++ replacementString entry (alphaString c) ++ tail) as result eqn:Hshape.
  rewrite Has, Htxt in Hshape.
  assert (Hocc : occurrence_at result (List.length pre) tk')
    by (exists pre, tail; auto).
  destruct (color_of_text result _ tk' Hocc) as [Ht Hsp].
  destruct (parser_total result (fullRange result)) as (full & Hfull).
  exists result, full, (color_of result 0 (List.length pre, tk')).
  split; [exact Hsel|]. split; [exact Hfull|]. split.
  - apply (emitted_iff result _ full _ Hfull). rewrite getText_fullRange.
    exists (List.length pre), tk'. split; [exact Hocc|]. split; [exact Hv'|].
    unfold fullRange. cbn [r_start]. rewrite offsetAt_positionAt0 by lia. reflexivity.
  - rewrite Hsp, Ht, Has, Htxt. cbn [fst color_of p_l p_c p_h alpha alphaString snd].
    rewrite Ha. unfold tokens_alpha, tokens_alphaString. rewrite Hal'.
    repeat split; auto.
Qed.

Lemma replaced_color_scanned_witness :
  let sky := MkEntry (lit "sky-500")
               (MkOklch (number_of_decimal 685 (-3)) (number_of_decimal 169 (-3))
                        (number_of_decimal 237323 (-3))) in
  let doc := lit "a: oklch(1 2 3 / 50%)  /* old */ x;" in
  let c := MkParsed (number_of_decimal 1 0) (number_of_decimal 2 0) (number_of_decimal 3 0)
             (Some (number_of_decimal 5 (-1))) (Some (lit " / 50%"))
             (MkRange (MkPos 0 3) (MkPos 0 21)) in
  exists result full c',
    selectColorHandler doc (range c) (alphaString c) (Some sky) = Some result
    /\ parseOklchFunctionsInRange result (fullRange result) = Some full /\ In c' full
    /\ fst (span_of result c') = fst (span_of doc c)
    /\ getText result (range c') = replacementString sky (alphaString c)
    /\ p_l c' = ok_l (oklch sky) /\ p_c c' = ok_c (oklch sky)
    /\ p_h c' = ok_h (oklch sky)
    /\ alpha c' = alpha c /\ alphaString c' = alphaString c.
Proof.
  intros sky doc c.
  assert (Hp : parseOklchFunctionsInRange doc (fullRange doc) = Some [c])
    by (vm_compute; reflexivity).
  apply (replaced_color_scanned doc (fullRange doc) [c] c sky Hp).
  - now left.
  - split; vm_compute; reflexivity.
  - split; vm_compute; reflexivity.
  - split; vm_compute; reflexivity.
Defined.
(** ** The scanner on one line *)

Lemma line_scan_color doc n t colors c :
  from_line n doc = Some t ->
  parseOklchFunctionsInRange doc (line_range doc n) = Some colors -> In c colors ->
  exists a tk,
    occurrence_at (line_rest t) a tk /\ tokens_valid tk = true
    /\ c = color_of doc (List.length doc - List.length t) (a, tk)
    /\ range c = MkRange (MkPos n a) (MkPos n (a + tokens_len tk)).
Proof.
  intros Hn Hparse Hin. destruct (getText_line doc n t Hn) as [Ht Hs].
  apply (emitted_iff doc _ colors c Hparse) in Hin as (a & tk & Hocc & Hv & Hc).
  rewrite Ht in Hocc. rewrite Hs in Hc. exists a, tk.
  split; [exact Hocc|]. split; [exact Hv|]. split; [exact Hc|].
  pose proof (occurrence_bound _ _ _ Hocc) as Hb.
  rewrite Hc. unfold color_of. cbn [range fst snd].
  rewrite (positionAt_line doc n t a Hn) by lia.
  rewrite (positionAt_line doc n t (a + tokens_len tk) Hn) by lia. reflexivity.
Qed.

(** X4. A color found by scanning one line lies on that line: its range starts
    and ends there, at the columns of the text of the color, and the end is
    not past the end of the line. *)
Theorem line_scan_columns (doc : TextDocument) (n : nat)
  (colors : list ParsedOklch) (c : ParsedOklch) :
  has_line doc n = true ->
  parseOklchFunctionsInRange doc (line_range doc n) = Some colors -> In c colors ->
  exists a b,
    range c = MkRange (MkPos n a) (MkPos n b)
    /\ a < b /\ b <= List.length (lineAt doc n)
    /\ getText doc (range c) = substring a b (lineAt doc n).
Proof.
  intros Hl Hparse Hin. destruct (has_line_from doc n Hl) as (t & Hn).
  destruct (line_scan_color doc n t colors c Hn Hparse Hin)
    as (a & tk & Hocc & Hv & Hc & Hr).
  pose proof (occurrence_bound _ _ _ Hocc) as Hb.
  pose proof (tokens_len_pos tk) as Hp.
  exists a, (a + tokens_len tk). unfold lineAt. rewrite Hn.
  split; [exact Hr|]. split; [lia|]. split; [exact Hb|].
  destruct (getText_line doc n t Hn) as [Ht Hs].
  assert (Hd : occurrence_at doc (List.length doc - List.length t + a) tk).
  { rewrite <- Hs. apply getText_occurrence. now rewrite Ht. }
  rewrite Hc, color_of_shift. destruct (color_of_text doc _ tk Hd) as [-> _].
  destruct Hocc as (pre & R & HR & Hpre & _). symmetry.
  apply (substring_at pre (tokens_text tk) R); [exact HR|now symmetry|].
  rewrite Hpre. reflexivity.
Qed.

Lemma line_scan_columns_witness :
  let doc := lit "a {
  color: oklch(1 2 3);
}" in
  let c := MkParsed (number_of_decimal 1 0) (number_of_decimal 2 0) (number_of_decimal 3 0)
             None None (MkRange (MkPos 1 9) (MkPos 1 21)) in
  exists a b,
    range c = MkRange (MkPos 1 a) (MkPos 1 b)
    /\ a < b /\ b <= List.length (lineAt doc 1)
    /\ getText doc (range c) = substring a b (lineAt doc 1).
Proof.
  intros doc c.
  apply (line_scan_columns doc 1 [c] c).
  - reflexivity.
  - vm_compute. reflexivity.
  - now left.
Defined.

(** ** The providers *)

Lemma window_color_in_full doc r colors full c :
  parseOklchFunctionsInRange doc r = Some colors ->
  parseOklchFunctionsInRange doc (fullRange doc) = Some full ->
  In c colors -> In c full.
Proof.
  intros Hc Hf Hin.
  apply (emitted_iff doc r colors c Hc) in Hin as (p & tk & Hocc & Hv & ->).
  apply (emitted_iff doc _ full _ Hf). rewrite getText_fullRange.
  exists (offsetAt doc (r_start r) + p), tk.
  split; [now apply getText_occurrence|]. split; [exact Hv|].
  unfold fullRange. cbn [r_start]. rewrite offsetAt_positionAt0 by lia.
  apply color_of_shift.
Qed.

Lemma find_target_spec sel r colors :
  match find_target sel r colors with
  | Some c =>
      exists before rest,
        colors = before ++ c :: rest /\ target_test sel r c = true
        /\ forall c', In c' before -> target_test sel r c' = false
  | None => forall c, In c colors -> target_test sel r c = false
  end.
Proof.
  induction colors as [|x colors IH]; [intros c []|].
  cbn [find_target].
  assert (E : (if sel
               then match intersection (range x) r with
                    | Some _ => Some x
                    | None => find_target sel r colors
                    end
               else if contains_range (range x) r then Some x
                    else find_target sel r colors)
              = if target_test sel r x then Some x else find_target sel r colors).
  { unfold target_test. destruct sel; [destruct (intersection _ _)|]; reflexivity. }
  rewrite E. destruct (target_test sel r x) eqn:Ex.
  - exists [], colors. split; [reflexivity|]. split; [exact Ex|]. intros c' [].
  - destruct (find_target sel r colors) as [c|].
    + destruct IH as (before & rest & -> & Hc & Hb). exists (x :: before), rest.
      split; [reflexivity|]. split; [exact Hc|].
      intros c' [<-|Hin]; [exact Ex|now apply Hb].
    + intros c [<-|Hin]; [exact Ex|now apply IH].
Qed.

Lemma contains_same_line n a b p :
  contains_position (MkRange (MkPos n a) (MkPos n b)) p = true ->
  line p = n /\ a <= character p /\ character p <= b.
Proof.
  unfold contains_position, isBefore. cbn [r_start r_end line character].
  destruct (Nat.ltb_spec (line p) n); [discriminate|].
  destruct (Nat.ltb_spec n (line p)).
  - destruct (Nat.ltb_spec n (line p)); [discriminate|lia].
  - destruct (Nat.ltb_spec (character p) a); [discriminate|].
    destruct (Nat.ltb_spec n (line p)); [lia|].
    destruct (Nat.ltb_spec (line p) n); [lia|].
    destruct (Nat.ltb_spec b (character p)); [discriminate|]. lia.
Qed.

Lemma contains_range_point r p :
  contains_range r (MkRange p p) = contains_position r p.
Proof. unfold contains_range. cbn [r_start r_end]. apply Bool.andb_diag. Qed.

(** X13. [provideCodeActions] offers nothing, or one action. It offers nothing
    when no color found on the line of the request passes the test (it
    contains the requested range, or intersects the selection). Otherwise
    the action is for the first color of the line that passes the test; this
    color is one the whole-document scan finds, it lies on the line of the
    request, and the command of the action runs [selectColorHandler] on the
    range and the alpha text of that color. *)
Theorem code_action_target (doc : TextDocument) (r : Range) (isSelection : bool)
  (actions : list SelectColorArguments) :
  provideCodeActions doc r isSelection = Some actions ->
  exists colors full,
    parseOklchFunctionsInRange doc (line_range doc (line (r_start r))) = Some colors
    /\ parseOklchFunctionsInRange doc (fullRange doc) = Some full
    /\ ((actions = [] /\ forall c, In c colors -> target_test isSelection r c = false)
        \/ exists before c rest a b,
             colors = before ++ c :: rest
             /\ (forall c', In c' before -> target_test isSelection r c' = false)
             /\ target_test isSelection r c = true
             /\ In c full
             /\ range c = MkRange (MkPos (line (r_start r)) a) (MkPos (line (r_start r)) b)
             /\ a < b /\ b <= List.length (lineAt doc (line (r_start r)))
             /\ actions = [MkArguments (range c) (alphaString c)]
             /\ forall item,
                  selectColorCommand doc (MkArguments (range c) (alphaString c)) item
                  = selectColorHandler doc (range c) (alphaString c) item).
Proof.
  unfold provideCodeActions.
  destruct (has_line doc (line (r_start r))) eqn:Hl; [|discriminate].
  destruct (parseOklchFunctionsInRange doc (line_range doc (line (r_start r))))
    as [colors|] eqn:Hc; [|discriminate].
  destruct (parser_total doc (fullRange doc)) as (full & Hf).
  intros H. exists colors, full. split; [reflexivity|]. split; [exact Hf|].
  pose proof (find_target_spec isSelection r colors) as Hspec.
  destruct (find_target isSelection r colors) as [c|].
  - right. destruct Hspec as (before & rest & Hcol & Ht & Hb).
    assert (Hin : In c colors) by (rewrite Hcol; apply in_or_app; right; now left).
    destruct (has_line_from _ _ Hl) as (t & Hn).
    destruct (line_scan_color doc _ t colors c Hn Hc Hin) as (a & tk & Hocc & _ & _ & Hr).
    pose proof (occurrence_bound _ _ _ Hocc) as Hbd.
    pose proof (tokens_len_pos tk) as Hp.
    exists before, c, rest, a, (a + tokens_len tk).
    split; [exact Hcol|]. split; [exact Hb|]. split; [exact Ht|].
    split; [exact (window_color_in_full doc _ colors full c Hc Hf Hin)|].
    split; [exact Hr|]. split; [lia|].
    split; [unfold lineAt; now rewrite Hn|].
    rewrite range_eta in H. injection H as <-. split; [reflexivity|].
    intros item. unfold selectColorCommand. cbn [targetRangeData originalAlphaString].
    rewrite Range_new_ordered; [reflexivity|].
    rewrite Hr. unfold isBefore. cbn [r_start r_end line character].
    rewrite Nat.ltb_irrefl. apply Nat.ltb_ge. lia.
  - left. injection H as <-. split; [reflexivity|exact Hspec].
Qed.

Lemma code_action_target_witness :
  let doc := lit "a {
  color: oklch(1 2 3 / 50%); b: oklch(4 5 6)
}" in
  let r := MkRange (MkPos 1 12) (MkPos 1 12) in
  let actions := [MkArguments (MkRange (MkPos 1 9) (MkPos 1 27)) (Some (lit " / 50%"))] in
  provideCodeActions doc r false = Some actions
  /\ exists colors full,
       parseOklchFunctionsInRange doc (line_range doc (line (r_start r))) = Some colors
       /\ parseOklchFunctionsInRange doc (fullRange doc) = Some full
       /\ ((actions = [] /\ forall c, In c colors -> target_test false r c = false)
           \/ exists before c rest a b,
                colors = before ++ c :: rest
                /\ (forall c', In c' before -> target_test false r c' = false)
                /\ target_test false r c = true
                /\ In c full
                /\ range c = MkRange (MkPos (line (r_start r)) a) (MkPos (line (r_start r)) b)
                /\ a < b /\ b <= List.length (lineAt doc (line (r_start r)))
                /\ actions = [MkArguments (range c) (alphaString c)]
                /\ forall item,
                     selectColorCommand doc (MkArguments (range c) (alphaString c)) item
                     = selectColorHandler doc (range c) (alphaString c) item).
Proof.
  intros doc r actions.
  assert (H : provideCodeActions doc r false = Some actions) by (vm_compute; reflexivity).
  split; [exact H|]. exact (code_action_target doc r false actions H).
Defined.

(** X18. The [selectColor] command builds its range with the constructor of
    the editor, which puts the earlier position first: the command does the
    same whichever of the two ends its range data names as the start. *)
Theorem command_ignores_end_order (doc : TextDocument) (s e : Position)
  (alphaText : option jsstring) (item : option ColorMapEntry) :
  selectColorCommand doc (MkArguments (MkRange e s) alphaText) item
  = selectColorCommand doc (MkArguments (MkRange s e) alphaText) item.
Proof.
  unfold selectColorCommand. cbn [targetRangeData originalAlphaString r_start r_end].
  now rewrite Range_new_comm.
Qed.

Lemma hover_loop_target colorMap position colors :
  hover_loop colorMap position colors
  = match find_target false (MkRange position position) colors with
    | Some c =>
        match findColorName colorMap (p_l c) (p_c c) (p_h c) with
        | Some (x :: n) => Some (MkHover (hoverText (x :: n) (alpha c)) (range c))
        | _ => None
        end
    | None => None
    end.
Proof.
  induction colors as [|c colors IH]; [reflexivity|].
  cbn [hover_loop find_target]. rewrite contains_range_point.
  destruct (contains_position (range c) position); [|exact IH].
  destruct (findColorName colorMap (p_l c) (p_c c) (p_h c)) as [[|x n]|]; reflexivity.
Qed.

(** X14. [provideHover] looks at the color [provideCodeActions] targets for the
    position taken as an empty range: the first color of the line that
    contains the position, ends included. It shows nothing when there is no
    such color, or when the palette gives this color no name or an empty one;
    otherwise it shows the text built from the name and the alpha of this
    color, for the range of this color. *)
Theorem hover_target (colorMap : list ColorMapEntry) (doc : TextDocument)
  (position : Position) (result : option Hover) :
  provideHover colorMap doc position = Some result ->
  exists colors,
    parseOklchFunctionsInRange doc (line_range doc (line position)) = Some colors
    /\ ((result = None
         /\ provideCodeActions doc (MkRange position position) false = Some []
         /\ forall c, In c colors -> contains_position (range c) position = false)
        \/ exists c a b,
             In c colors
             /\ range c = MkRange (MkPos (line position) a) (MkPos (line position) b)
             /\ a <= character position /\ character position <= b
             /\ provideCodeActions doc (MkRange position position) false
                = Some [MkArguments (range c) (alphaString c)]
             /\ match findColorName colorMap (p_l c) (p_c c) (p_h c) with
                | Some (x :: n) =>
                    result = Some (MkHover (hoverText (x :: n) (alpha c)) (range c))
                | _ => result = None
                end).
Proof.
  unfold provideHover, provideCodeActions. cbn [r_start].
  destruct (has_line doc (line position)) eqn:Hl; [|discriminate].
  destruct (parseOklchFunctionsInRange doc (line_range doc (line position)))
    as [colors|] eqn:Hc; [|discriminate].
  intros H. injection H as <-. exists colors. split; [reflexivity|].
  rewrite hover_loop_target.
  pose proof (find_target_spec false (MkRange position position) colors) as Hspec.
  destruct (find_target false (MkRange position position) colors) as [c|].
  - right. destruct Hspec as (before & rest & Hcol & Ht & _).
    assert (Hin : In c colors) by (rewrite Hcol; apply in_or_app; right; now left).
    destruct (has_line_from _ _ Hl) as (t & Hn).
    destruct (line_scan_color doc _ t colors c Hn Hc Hin) as (a & tk & _ & _ & _ & Hr).
    unfold target_test in Ht. rewrite contains_range_point, Hr in Ht.
    apply contains_same_line in Ht as (_ & Ha & Hb).
    exists c, a, (a + tokens_len tk). rewrite range_eta.
    repeat (split; [assumption || reflexivity|]).
    destruct (findColorName colorMap (p_l c) (p_c c) (p_h c)) as [[|x n]|]; reflexivity.
  - left. split; [reflexivity|]. split; [reflexivity|].
    intros c Hin. specialize (Hspec c Hin). unfold target_test in Hspec.
    now rewrite contains_range_point in Hspec.
Qed.

Lemma hover_target_witness :
  let sky := MkEntry (lit "sky-500")
               (MkOklch (number_of_decimal 685 (-3)) (number_of_decimal 169 (-3))
                        (number_of_decimal 237323 (-3))) in
  let doc := lit "a {
  color: oklch(0.685 0.169 237.323 / 50%);
}" in
  let position := MkPos 1 41 in
  let result := Some (MkHover (lit "**sky-500** / 50%") (MkRange (MkPos 1 9) (MkPos 1 41))) in
  provideHover [sky] doc position = Some result
  /\ exists colors,
       parseOklchFunctionsInRange doc (line_range doc (line position)) = Some colors
       /\ ((result = None
            /\ provideCodeActions doc (MkRange position position) false = Some []
            /\ forall c, In c colors -> contains_position (range c) position = false)
           \/ exists c a b,
                In c colors
                /\ range c = MkRange (MkPos (line position) a) (MkPos (line position) b)
                /\ a <= character position /\ character position <= b
                /\ provideCodeActions doc (MkRange position position) false
                   = Some [MkArguments (range c) (alphaString c)]
                /\ match findColorName [sky] (p_l c) (p_c c) (p_h c) with
                   | Some (x :: n) =>
                       result = Some (MkHover (hoverText (x :: n) (alpha c)) (range c))
                   | _ => result = None
                   end).
Proof.
  intros sky doc position result.
  assert (H : provideHover [sky] doc position = Some result) by (vm_compute; reflexivity).
  split; [exact H|]. exact (hover_target [sky] doc position result H).
Defined.
(** ** The comparison of numbers and the lookup *)

Lemma binary_round_aux_abs s s' m e l :
  SFabs (binary_round_aux prec emax s m e l) = SFabs (binary_round_aux prec emax s' m e l).
Proof.
  unfold binary_round_aux. destruct (shr_fexp prec emax m e l) as [mrs e'].
  destruct (shr_fexp prec emax _ e' loc_Exact) as [mrs' e''].
  destruct (shr_m mrs'); try reflexivity.
  destruct (Z.leb e'' (emax - prec)); reflexivity.
Qed.

Lemma binary_normalize_opp z e sz :
  SFabs (binary_normalize prec emax (Z.opp z) e sz)
  = SFabs (binary_normalize prec emax z e sz).
Proof.
  destruct z as [|p|p]; cbn [Z.opp binary_normalize]; [reflexivity| |];
    unfold binary_round; destruct (shl_align _ _ _) as [mz ez]; apply binary_round_aux_abs.
Qed.

Lemma sub_abs_sym a b : num_abs (num_sub a b) = num_abs (num_sub b a).
Proof.
  unfold num_abs, num_sub.
  destruct a as [sa|sa| |sa ma ea], b as [sb|sb| |sb mb eb]; cbn [SFsub SFabs];
    try reflexivity; try (destruct sa, sb; reflexivity).
  rewrite (Z.min_comm eb ea), <- binary_normalize_opp. f_equal. f_equal. lia.
Qed.

(** X6. [approxEqual] does not depend on the order of the two numbers it
    compares, whatever they are (NaN and the infinities included). *)
Theorem approxEqual_symmetric (a b epsilon : number) :
  approxEqual a b epsilon = approxEqual b a epsilon.
Proof. unfold approxEqual. now rewrite sub_abs_sym. Qed.

Lemma approxEqual_finite a b epsilon :
  approxEqual a b epsilon = true -> is_finite a = true /\ is_finite b = true.
Proof.
  unfold approxEqual, num_ltb, num_abs, num_sub, SFltb.
  destruct a as [sa|sa| |sa ma ea], b as [sb|sb| |sb mb eb]; cbn [SFsub SFabs is_finite];
    auto; try discriminate;
    try (destruct sa, sb; cbn [SFabs SFcompare]; destruct epsilon as [s|s| |s m e];
         try discriminate; destruct s; discriminate);
    try (cbn [SFcompare]; destruct epsilon as [s|s| |s m e];
         try discriminate; destruct s; discriminate).
Qed.

Lemma sub_self x : is_finite x = true -> num_abs (num_sub x x) = S754_zero false.
Proof.
  unfold num_abs, num_sub. destruct x as [s|s| |s m e]; cbn [is_finite SFsub]; try discriminate.
  - intros _. destruct s; reflexivity.
  - intros _. rewrite Z.sub_diag. reflexivity.
Qed.

Lemma approxEqual_refl x : is_finite x = true -> approxEqual x x default_epsilon = true.
Proof.
  intros H. unfold approxEqual. rewrite (sub_self x H).
  assert (E : exists m e, default_epsilon = S754_finite false m e)
    by (vm_compute; eauto).
  destruct E as (m & e & ->). reflexivity.
Qed.

(** X7. A name is found only for finite numbers: when one of l, c, h is NaN or
    infinite the lookup finds nothing, whatever the table, and an entry with
    a NaN or infinite number is never the one found. *)
Theorem lookup_needs_finite (colorMap : list ColorMapEntry) (l c h : number) (n : jsstring) :
  findColorName colorMap l c h = Some n ->
  is_finite l = true /\ is_finite c = true /\ is_finite h = true
  /\ exists e, In e colorMap /\ name e = n
               /\ is_finite (ok_l (oklch e)) = true /\ is_finite (ok_c (oklch e)) = true
               /\ is_finite (ok_h (oklch e)) = true.
Proof.
  induction colorMap as [|e cm IH]; cbn [findColorName]; [discriminate|].
  destruct (approxEqual (ok_l (oklch e)) l default_epsilon) eqn:E1;
    [destruct (approxEqual (ok_c (oklch e)) c default_epsilon) eqn:E2;
     [destruct (approxEqual (ok_h (oklch e)) h default_epsilon) eqn:E3|]|];
    cbn [andb].
  - intros H. injection H as <-.
    apply approxEqual_finite in E1 as [F1 G1]. apply approxEqual_finite in E2 as [F2 G2].
    apply approxEqual_finite in E3 as [F3 G3].
    repeat (split; [assumption|]). exists e. repeat split; auto. now left.
  - intros H. destruct (IH H) as (A & B & C & e' & Hin & Hr). repeat (split; [assumption|]).
    exists e'. split; [now right|exact Hr].
  - intros H. destruct (IH H) as (A & B & C & e' & Hin & Hr). repeat (split; [assumption|]).
    exists e'. split; [now right|exact Hr].
  - intros H. destruct (IH H) as (A & B & C & e' & Hin & Hr). repeat (split; [assumption|]).
    exists e'. split; [now right|exact Hr].
Qed.

Lemma lookup_needs_finite_witness :
  let sky := MkEntry (lit "sky-500")
               (MkOklch (number_of_decimal 685 (-3)) (number_of_decimal 169 (-3))
                        (number_of_decimal 237323 (-3))) in
  let l := number_of_decimal 68500001 (-8) in
  let c := number_of_decimal 169 (-3) in
  let h := number_of_decimal 237323 (-3) in
  is_finite l = true /\ is_finite c = true /\ is_finite h = true
  /\ exists e, In e [sky] /\ name e = lit "sky-500"
               /\ is_finite (ok_l (oklch e)) = true /\ is_finite (ok_c (oklch e)) = true
               /\ is_finite (ok_h (oklch e)) = true.
Proof.
  intros sky l c h.
  apply (lookup_needs_finite [sky] l c h (lit "sky-500")). vm_compute. reflexivity.
Defined.

Lemma findColorName_app a b l c h :
  findColorName (a ++ b) l c h
  = match findColorName a l c h with
    | Some n => Some n
    | None => findColorName b l c h
    end.
Proof.
  induction a as [|e a IH]; [reflexivity|]. cbn [app findColorName].
  destruct (_ && _); [reflexivity|exact IH].
Qed.

Lemma findColorName_none colorMap l c h :
  findColorName colorMap l c h = None <->
  forall e, In e colorMap -> entry_close l c h e = false.
Proof.
  induction colorMap as [|e cm IH]; cbn [findColorName].
  - split; [intros _ e []|reflexivity].
  - change (approxEqual (ok_l (oklch e)) l default_epsilon
            && approxEqual (ok_c (oklch e)) c default_epsilon
            && approxEqual (ok_h (oklch e)) h default_epsilon)
      with (entry_close l c h e).
    destruct (entry_close l c h e) eqn:E.
    + split; [discriminate|]. intros H. specialize (H e (or_introl eq_refl)). congruence.
    + rewrite IH. split.
      * intros H x [<-|Hx]; [exact E|now apply H].
      * intros H x Hx. apply H. now right.
Qed.

(** X8. The lookup over two tables put one after the other is the lookup in the
    first, and in the second when the first has no match: entries added at
    the end of the table never change a name that was found. *)
Theorem lookup_appended (before rest : list ColorMapEntry) (l c h : number) :
  findColorName (before ++ rest) l c h
  = match findColorName before l c h with
    | Some n => Some n
    | None => findColorName rest l c h
    end.
Proof. apply findColorName_app. Qed.

(** X9. A palette entry with finite numbers, looked up by its own numbers, is
    always found under some name: its own when no entry before it in the
    table is within the tolerance of it. *)
Theorem lookup_own_entry (before rest : list ColorMapEntry) (e : ColorMapEntry) :
  is_finite (ok_l (oklch e)) = true -> is_finite (ok_c (oklch e)) = true ->
  is_finite (ok_h (oklch e)) = true ->
  findColorName (before ++ e :: rest) (ok_l (oklch e)) (ok_c (oklch e)) (ok_h (oklch e))
  <> None
  /\ ((forall x, In x before ->
                 entry_close (ok_l (oklch e)) (ok_c (oklch e)) (ok_h (oklch e)) x = false) ->
      findColorName (before ++ e :: rest)
        (ok_l (oklch e)) (ok_c (oklch e)) (ok_h (oklch e)) = Some (name e)).
Proof.
  intros Fl Fc Fh.
  assert (Hown : findColorName (e :: rest) (ok_l (oklch e)) (ok_c (oklch e)) (ok_h (oklch e))
                 = Some (name e)).
  { cbn [findColorName]. now rewrite !approxEqual_refl. }
  rewrite findColorName_app, Hown. split.
  - destruct (findColorName before _ _ _); discriminate.
  - intros H. apply findColorName_none in H. now rewrite H.
Qed.

Lemma lookup_own_entry_witness :
  let sky := MkEntry (lit "sky-500")
               (MkOklch (number_of_decimal 685 (-3)) (number_of_decimal 169 (-3))
                        (number_of_decimal 237323 (-3))) in
  let red := MkEntry (lit "red-500")
               (MkOklch (number_of_decimal 637 (-3)) (number_of_decimal 237 (-3))
                        (number_of_decimal 25331 (-3))) in
  findColorName ([red] ++ sky :: []) (ok_l (oklch sky)) (ok_c (oklch sky)) (ok_h (oklch sky))
  <> None
  /\ ((forall x, In x [red] ->
                 entry_close (ok_l (oklch sky)) (ok_c (oklch sky)) (ok_h (oklch sky)) x
                 = false) ->
      findColorName ([red] ++ sky :: [])
        (ok_l (oklch sky)) (ok_c (oklch sky)) (ok_h (oklch sky)) = Some (name sky)).
Proof.
  intros sky red. apply (lookup_own_entry [red] [] sky); reflexivity.
Defined.
(** ** The text Annotate leaves *)

Lemma flat_map_nil (A B : Type) (f : A -> list B) l x :
  flat_map f l = [] -> In x l -> f x = [].
Proof.
  induction l as [|a l IH]; [intros _ []|]. cbn [flat_map]. intros H [<-|Hin].
  - now apply app_eq_nil in H.
  - apply IH; [now apply app_eq_nil in H|exact Hin].
Qed.

Lemma annotate_off_nil L e after :
  annotate_off L e after = [] ->
  exists ws rest, after = ws ++ new_comment L ++ rest /\ forallb is_space ws = true.
Proof.
  unfold annotate_off. destruct (comment_split after) as [[[ws old] rest]|] eqn:E;
    [|discriminate].
  destruct (jsstring_eqb old (new_comment L)) eqn:Eq; [|discriminate]. intros _.
  apply jsstring_eqb_iff in Eq. subst old.
  apply comment_split_sound in E as (Hs & Hw & _). eauto.
Qed.

(** X15. With a palette of sane names, when the edits of Annotate are applied
    every color of the text it leaves is followed on its line, after optional
    white space, by the comment Annotate builds for it. *)
Theorem annotated_colors_labelled (colorMap : list ColorMapEntry) (doc : TextDocument)
  (colors : list ParsedOklch) :
  sane_palette colorMap ->
  parseOklchFunctionsInRange doc (fullRange doc) = Some colors ->
  applyEdit doc (annotate_edits colorMap doc colors) <> None ->
  exists doc1 colors1,
    annotateOklchColorsHandler colorMap doc = Some doc1
    /\ parseOklchFunctionsInRange doc1 (fullRange doc1) = Some colors1
    /\ forall c1, In c1 colors1 ->
         exists ws rest,
           textAfter doc1 (r_end (range c1)) = ws ++ trim (commentText colorMap c1) ++ rest
           /\ forallb is_space ws = true.
Proof.
  intros Hp Hc Happ. rewrite parsed_colors in Hc. injection Hc as <-.
  unfold applyEdit in Happ. rewrite annotate_edits_offsets in Happ.
  destruct (pairwise_disjoint (annot_offsets colorMap doc)) eqn:Hd;
    [clear Happ|now contradiction Happ].
  eexists. eexists. split; [apply annotate_handler_closed|].
  split; [apply parsed_colors|].
  rewrite Hd, (sort_descending _ (descending_annot colorMap doc)).
  set (doc1 := apply_all (annot_offsets colorMap doc) doc).
  pose proof (annotate_twice colorMap Hp doc Hd) as H2. fold doc1 in H2.
  intros c1 Hin. apply in_map_iff in Hin as (x & <- & Hx).
  pose proof Hx as Hx'. apply valid_occs_In in Hx' as [Hocc _].
  pose proof (occ_end_bound _ _ Hocc) as Hb.
  unfold annot_offsets, occ_edits, inner_edits in H2. rewrite app_nil_r in H2.
  assert (Hnil := flat_map_nil _ _ _ _ x H2 (proj1 (in_rev _ _) Hx)). cbn beta in Hnil.
  unfold annot_F in Hnil.
  apply annotate_off_nil in Hnil as (ws & rest & Hs & Hw).
  exists ws, rest. split; [|exact Hw].
  assert (Hr : r_end (range (color_of doc1 0 x)) = positionAt doc1 (occ_end x))
    by reflexivity.
  rewrite Hr, (textAfter_positionAt _ _ Hb), trim_commentText. exact Hs.
Qed.

Lemma annotated_colors_labelled_witness :
  let sky := MkEntry (lit "sky-500")
               (MkOklch (number_of_decimal 685 (-3)) (number_of_decimal 169 (-3))
                        (number_of_decimal 237323 (-3))) in
  let doc := lit "a { color: oklch(0.685 0.169 237.323); b: oklch(1 0 0 / 50%) /* x */ }" in
  sane_palette [sky]
  /\ exists doc1 colors1,
       annotateOklchColorsHandler [sky] doc = Some doc1
       /\ parseOklchFunctionsInRange doc1 (fullRange doc1) = Some colors1
       /\ forall c1, In c1 colors1 ->
            exists ws rest,
              textAfter doc1 (r_end (range c1)) = ws ++ trim (commentText [sky] c1) ++ rest
              /\ forallb is_space ws = true.
Proof.
  intros sky doc.
  assert (Hp : sane_palette [sky]).
  { intros e [<-|[]]. repeat split; vm_compute; reflexivity. }
  split; [exact Hp|].
  apply (annotated_colors_labelled [sky] doc
           (match parseOklchFunctionsInRange doc (fullRange doc) with
            | Some cs => cs
            | None => []
            end) Hp).
  - vm_compute. reflexivity.
  - vm_compute. discriminate.
Defined.
(** ** Colors over several lines *)

Lemma no_lf_substring a b s : no_lf s = true -> no_lf (substring a b s) = true.
Proof.
  unfold no_lf, substring. intros H. now apply forallb_firstn, forallb_skipn.
Qed.

Lemma line_scan_text doc n t colors c :
  from_line n doc = Some t ->
  parseOklchFunctionsInRange doc (line_range doc n) = Some colors -> In c colors ->
  exists a b, getText doc (range c) = substring a b (line_rest t).
Proof.
  intros Hn Hparse Hin.
  destruct (line_scan_color doc n t colors c Hn Hparse Hin) as (a & tk & Hocc & _ & Hc & _).
  destruct (getText_line doc n t Hn) as [Ht Hs].
  assert (Hd : occurrence_at doc (List.length doc - List.length t + a) tk).
  { rewrite <- Hs. apply getText_occurrence. now rewrite Ht. }
  rewrite Hc, color_of_shift. destruct (color_of_text doc _ tk Hd) as [-> _].
  destruct Hocc as (pre & R & HR & Hpre & _).
  exists a, (a + tokens_len tk). symmetry.
  apply (substring_at pre (tokens_text tk) R); [exact HR|now symmetry|].
  rewrite Hpre. reflexivity.
Qed.

(** X5. The scans of single lines, which the hover and the code actions use,
    find exactly the colors of the document whose text holds no line break:
    a color written over several lines (the white space of the pattern may
    be a line break) is found by the whole-document scan only. *)
Theorem line_scans_cover (doc : TextDocument) (full : list ParsedOklch) (c : ParsedOklch) :
  parseOklchFunctionsInRange doc (fullRange doc) = Some full -> In c full ->
  ((exists n colors,
      has_line doc n = true
      /\ parseOklchFunctionsInRange doc (line_range doc n) = Some colors /\ In c colors)
   <-> forallb (fun u => negb (is_lf u)) (getText doc (range c)) = true).
Proof.
  intros Hf Hin. change (forallb (fun u => negb (is_lf u)) (getText doc (range c)))
    with (no_lf (getText doc (range c))).
  split.
  - intros (n & colors & Hl & Hc & Hinc).
    destruct (has_line_from doc n Hl) as (t & Hn).
    destruct (line_scan_text doc n t colors c Hn Hc Hinc) as (a & b & ->).
    apply no_lf_substring. destruct (line_rest_split t) as (_ & _ & _ & H). exact H.
  - intros Hno.
    apply (emitted_iff doc _ full c Hf) in Hin as (q & tk & Hocc & Hv & Hc).
    rewrite getText_fullRange in Hocc.
    assert (H0 : offsetAt doc (r_start (fullRange doc)) = 0).
    { unfold fullRange. cbn [r_start]. apply offsetAt_positionAt0. lia. }
    rewrite H0 in Hc. destruct (color_of_text doc q tk Hocc) as [Ht _].
    rewrite Hc, Ht in Hno.
    pose proof (occurrence_bound _ _ _ Hocc) as Hb.
    destruct Hocc as (pre0 & R & Hd & Hq & Hwf).
    assert (Hq' : q <= List.length doc) by lia.
    destruct (positionAt_spec doc q Hq') as (pre & cp & Hdoc & Hline & Hcp & Hnocp).
    assert (Hsk : skipn q doc = tokens_text tk ++ R).
    { rewrite Hd, <- Hq. apply skipn_len_app. }
    rewrite Hsk in Hdoc, Hline.
    set (n := line (positionAt doc q)) in *.
    set (t := cp ++ tokens_text tk ++ R) in *.
    assert (Hl : has_line doc n = true) by (unfold has_line; now rewrite Hline).
    destruct (parser_total doc (line_range doc n)) as (colors & Hcol).
    exists n, colors. split; [exact Hl|]. split; [exact Hcol|].
    apply (emitted_iff doc _ colors c Hcol).
    destruct (getText_line doc n t Hline) as [Hgt Hrs]. rewrite Hgt, Hrs.
    exists (List.length cp), tk. split; [|split; [exact Hv|]].
    + exists cp, (line_rest R). split; [|auto]. unfold t.
      rewrite line_rest_app by exact Hnocp. f_equal.
      now rewrite line_rest_app by exact Hno.
    + rewrite Hc, (color_of_shift doc (List.length doc - List.length t)).
      f_equal. f_equal.
      assert (E1 : List.length doc = List.length pre + List.length t).
      { rewrite Hdoc at 1. rewrite length_app. reflexivity. }
      assert (E2 : List.length doc = q + List.length (tokens_text tk ++ R)).
      { rewrite <- Hsk, length_skipn. lia. }
      unfold t in *. rewrite !length_app in *. lia.
Qed.

Lemma line_scans_cover_witness :
  let doc := lit "a: oklch(1 2 3); b: oklch(4
 5 6);" in
  let c1 := MkParsed (number_of_decimal 1 0) (number_of_decimal 2 0) (number_of_decimal 3 0)
              None None (MkRange (MkPos 0 3) (MkPos 0 15)) in
  let c2 := MkParsed (number_of_decimal 4 0) (number_of_decimal 5 0) (number_of_decimal 6 0)
              None None (MkRange (MkPos 0 20) (MkPos 1 5)) in
  parseOklchFunctionsInRange doc (fullRange doc) = Some [c1; c2]
  /\ forallb (fun u => negb (is_lf u)) (getText doc (range c2)) = false
  /\ ((exists n colors,
         has_line doc n = true
         /\ parseOklchFunctionsInRange doc (line_range doc n) = Some colors /\ In c1 colors)
      <-> forallb (fun u => negb (is_lf u)) (getText doc (range c1)) = true).
Proof.
  intros doc c1 c2.
  assert (Hp : parseOklchFunctionsInRange doc (fullRange doc) = Some [c1; c2])
    by (vm_compute; reflexivity).
  split; [exact Hp|]. split; [vm_compute; reflexivity|].
  apply (line_scans_cover doc [c1; c2] c1 Hp). now left.
Defined.
(** ** The comment of a replacement and the comment of Annotate *)

Lemma label_body N S :
  forallb is_dot_char N = true -> has_star_slash N = false ->
  forallb plain_char S = true ->
  match S with c :: _ => c = 32%N | [] => True end ->
  forallb is_dot_char (32%N :: (N ++ S) ++ [32%N]) = true
  /\ has_star_slash (32%N :: (N ++ S) ++ [32%N]) = false.
Proof.
  intros Hd Hs Hp Hhd. split.
  - cbn [forallb]. rewrite !forallb_app, Hd, (plain_dot _ Hp). reflexivity.
  - cbn [has_star_slash]. rewrite <- app_assoc.
    apply has_star_slash_app; [exact Hs| |].
    + apply plain_no_star. rewrite forallb_app, Hp. reflexivity.
    + destruct S as [|c S]; cbn [app]; [discriminate|]. subst c. discriminate.
Qed.

(** X12. When [selectColorHandler] replaces a color the scanner emitted that has a
    comment after it, by an entry whose numbers print plainly and which the
    lookup finds under its own non-empty name, the comment it writes is the
    one Annotate builds for the color the scanner then finds in its place;
    and when that name holds no line terminator and no star directly
    followed by a slash, Annotate adds no edit for that color. *)
Theorem select_comment_is_annotation (colorMap : list ColorMapEntry) (doc : TextDocument)
  (r : Range) (colors : list ParsedOklch) (c : ParsedOklch) (entry : ColorMapEntry)
  (m : MatchResult) :
  parseOklchFunctionsInRange doc r = Some colors -> In c colors ->
  str_match comment_regex2 (textAfter doc (r_end (range c))) = Some m ->
  prints_plainly (ok_l (oklch entry)) -> prints_plainly (ok_c (oklch entry)) ->
  prints_plainly (ok_h (oklch entry)) ->
  findColorName colorMap (ok_l (oklch entry)) (ok_c (oklch entry)) (ok_h (oklch entry))
  = Some (name entry) ->
  name entry <> [] ->
  let after := textAfter doc (r_end (range c)) in
  exists result pre rest full c',
    selectColorHandler doc (range c) (alphaString c) (Some entry) = Some result
    /\ doc = pre ++ getText doc (range c) ++ group_text after m 1 ++ group_text after m 2 ++ rest
    /\ parseOklchFunctionsInRange result (fullRange result) = Some full /\ In c' full
    /\ fst (span_of result c') = List.length pre
    /\ result = pre ++ getText result (range c') ++ group_text after m 1
                ++ trim (commentText colorMap c') ++ rest
    /\ (forallb is_dot_char (name entry) = true -> has_star_slash (name entry) = false ->
        annotate_color colorMap result c' = []).
Proof.
  intros Hparse Hin Hm Hl Hc Hh Hfind Hname after.
  destruct (select_result_shape doc r colors c entry Hparse Hin)
    as (pre & post & Hdoc & _ & Hres).
  fold after in Hres. fold after in Hm.
  destruct Hres as [[Hnone _]|(m' & rest & Hm' & Hpost & Hres)]; [congruence|].
  rewrite Hm in Hm'. injection Hm' as <-.
  remember (pre ++ replacementString entry (alphaString c) ++ group_text after m 1
            ++ (lit "/* " ++ name entry ++ alpha_label (alpha c) ++ lit " */") ++ rest)
    as result eqn:Hshape.
  destruct (emitted_in_doc doc r colors c Hparse Hin)
    as (q & tk & pre0 & post0 & Hcq & Hd0 & Hq & Hwf & Hv).
  assert (Has : alphaString c = tokens_alphaString tk) by (rewrite Hcq; reflexivity).
  assert (Ha : alpha c = tokens_alpha tk) by (rewrite Hcq; reflexivity).
  destruct (replacement_tokens entry tk Hwf Hv Hl Hc Hh)
    as (tk' & Htxt & Hwf' & Hv' & P1 & P2 & P3 & Hal').
  rewrite Has, Htxt in Hshape.
  assert (Hocc : occurrence_at result (List.length pre) tk').
  { exists pre, (group_text after m 1
                   ++ (lit "/* " ++ name entry ++ alpha_label (alpha c) ++ lit " */") ++ rest).
    auto. }
  destruct (color_of_text result _ tk' Hocc) as [Ht Hsp].
  destruct (parser_total result (fullRange result)) as (full & Hfull).
  set (c' := color_of result 0 (List.length pre, tk')) in *.
  assert (Hbase : baseCommentText colorMap c' = name entry ++ alpha_label (alpha c)).
  { unfold baseCommentText, c'. cbn [color_of p_l p_c p_h alpha snd].
    rewrite P1, P2, P3, Hfind.
    assert (Htr : truthy (Some (name entry)) = true)
      by (destruct (name entry); [congruence|reflexivity]).
    rewrite Htr. unfold tokens_alpha at 1. rewrite Hal'. fold (tokens_alpha tk).
    now rewrite <- Ha. }
  exists result, pre, rest, full, c'.
  split; [exact Hres|].
  split; [rewrite <- Hpost; exact Hdoc|]. split; [exact Hfull|]. split; [|split; [|split]].
  - apply (emitted_iff result _ full _ Hfull). rewrite getText_fullRange.
    exists (List.length pre), tk'. split; [exact Hocc|]. split; [exact Hv'|].
    unfold fullRange. cbn [r_start]. rewrite offsetAt_positionAt0 by lia. reflexivity.
  - now rewrite Hsp.
  - rewrite Ht, trim_commentText, Hbase, <- (app_assoc (name entry)). exact Hshape.
  - intros Hdot Hstar. rewrite annotate_color_closed, Hbase.
    pose proof (occurrence_bound _ _ _ Hocc) as Hb'.
    assert (Hend : r_end (range c') = positionAt result (List.length pre + tokens_len tk'))
      by reflexivity.
    rewrite Hend, (textAfter_positionAt _ _ Hb').
    (* the white space before the old comment *)
    assert (Hb : q + tokens_len tk <= List.length doc).
    { apply (occurrence_bound doc q tk). exists pre0, post0. auto. }
    assert (Hafter : after = line_rest (skipn (q + tokens_len tk) doc)).
    { unfold after. rewrite Hcq. cbn [color_of range r_end fst snd].
      rewrite Nat.add_0_l. apply textAfter_positionAt. exact Hb. }
    pose proof Hm as Hm0. rewrite str_match_comment2 in Hm0.
    destruct (comment_split after) as [[[ws old] rest0]|] eqn:Ec; [|discriminate].
    clear Hm0. destruct (comment2_groups _ _ _ _ Ec) as (m2 & Hm2 & G1 & _).
    rewrite Hm in Hm2. injection Hm2 as <-.
    pose proof Ec as Ec2. rewrite Hafter in Ec2.
    destruct (split_of_line _ _ _ _ Ec2) as (_ & _ & _ & Hno).
    apply comment_split_sound in Ec as (_ & Hsp_ws & _).
    rewrite no_lf_app in Hno. apply Bool.andb_true_iff in Hno as [Hno _].
    destruct (label_body (name entry) (alpha_label (alpha c)) Hdot Hstar
                (alpha_label_plain _) (alpha_label_head _)) as [Bd Bs].
    assert (Hnew : lit "/* " ++ (name entry ++ alpha_label (alpha c)) ++ lit " */"
                   = ch_slash :: ch_star
                     :: (32%N :: (name entry ++ alpha_label (alpha c)) ++ [32%N])
                     ++ [ch_star; ch_slash])
      by (apply (new_comment_shape (name entry ++ alpha_label (alpha c)))).
    assert (Hskip : skipn (List.length pre + tokens_len tk') result
                    = ws ++ (lit "/* " ++ (name entry ++ alpha_label (alpha c)) ++ lit " */")
                      ++ rest).
    { rewrite Hshape, G1.
      replace (List.length pre + tokens_len tk')
        with (List.length (pre ++ tokens_text tk'))
        by (rewrite length_app; reflexivity).
      rewrite (app_assoc pre), skipn_len_app, <- (app_assoc (name entry)). reflexivity. }
    rewrite Hskip. rewrite app_assoc, line_rest_app, <- app_assoc.
    + rewrite Hnew. rewrite (comment_split_complete ws _ _ Hsp_ws Bd Bs).
      match goal with
      | |- (if jsstring_eqb ?x ?y then _ else _) = _ =>
          assert (E : jsstring_eqb x y = true)
            by (apply jsstring_eqb_iff; first [reflexivity | symmetry; exact Hnew | exact Hnew]);
          rewrite E
      end. reflexivity.
    + rewrite no_lf_app, Hno, Hnew. cbn [andb].
      change (ch_slash :: ch_star
              :: (32%N :: (name entry ++ alpha_label (alpha c)) ++ [32%N])
              ++ [ch_star; ch_slash])
        with ([ch_slash; ch_star]
              ++ (32%N :: (name entry ++ alpha_label (alpha c)) ++ [32%N])
              ++ [ch_star; ch_slash]).
      rewrite !no_lf_app, (dot_no_lf _ Bd). reflexivity.
Qed.

Lemma select_comment_is_annotation_witness :
  let sky := MkEntry (lit "sky-500")
               (MkOklch (number_of_decimal 685 (-3)) (number_of_decimal 169 (-3))
                        (number_of_decimal 237323 (-3))) in
  let doc := lit "a: oklch(1 2 3 / 50%)  /* old */ x;" in
  let c := MkParsed (number_of_decimal 1 0) (number_of_decimal 2 0) (number_of_decimal 3 0)
             (Some (number_of_decimal 5 (-1))) (Some (lit " / 50%"))
             (MkRange (MkPos 0 3) (MkPos 0 21)) in
  let m := MkMatch 0 11 [(2, (2, 11)); (1, (0, 2))] in
  let after := textAfter doc (r_end (range c)) in
  exists result pre rest full c',
    selectColorHandler doc (range c) (alphaString c) (Some sky) = Some result
    /\ doc = pre ++ getText doc (range c) ++ group_text after m 1 ++ group_text after m 2 ++ rest
    /\ parseOklchFunctionsInRange result (fullRange result) = Some full /\ In c' full
    /\ fst (span_of result c') = List.length pre
    /\ result = pre ++ getText result (range c') ++ group_text after m 1
                ++ trim (commentText [sky] c') ++ rest
    /\ annotate_color [sky] result c' = [].
Proof.
  intros sky doc c m after.
  assert (Hp : parseOklchFunctionsInRange doc (fullRange doc) = Some [c])
    by (vm_compute; reflexivity).
  destruct (select_comment_is_annotation [sky] doc (fullRange doc) [c] c sky m Hp)
    as (result & pre & rest & full & c' & H1 & H2 & H3 & H4 & H5 & H6 & H7).
  - now left.
  - vm_compute. reflexivity.
  - split; vm_compute; reflexivity.
  - split; vm_compute; reflexivity.
  - split; vm_compute; reflexivity.
  - vm_compute. reflexivity.
  - discriminate.
  - exists result, pre, rest, full, c'. repeat (split; [assumption|]).
    apply H7; vm_compute; reflexivity.
Defined.
(** ** The handlers create no color *)

Lemma valid_occs_head g tk R :
  tokens_wf tk = true ->
  (forall g0 g', g = g0 ++ g' -> g' <> [] ->
                 oklch_tokens (g' ++ tokens_text tk ++ R) = None) ->
  forall X,
    valid_occs ((g ++ tokens_text tk) ++ X)
    = (if tokens_valid tk then [(List.length g, tk)] else [])
      ++ List.map (shift_found (List.length (g ++ tokens_text tk))) (valid_occs X).
Proof.
  intros Hwf Hgap X. rewrite (valid_occs_closed _ X (head_closed g tk Hwf)). f_equal.
  unfold valid_occs. rewrite (head_occs g tk R Hwf Hgap). cbn [filter snd].
  destruct (tokens_valid tk); reflexivity.
Qed.

Lemma In_shifted d x l :
  In x (List.map (shift_found d) l) -> exists y, In y l /\ snd y = snd x.
Proof.
  intros H. apply in_map_iff in H as (y & <- & Hy). exists y. split; [exact Hy|reflexivity].
Qed.

Lemma shifted_In d y l : In y l -> In (shift_found d y) (List.map (shift_found d) l).
Proof. apply in_map. Qed.

Lemma inner_overlap F ws b R2 d h_end (t : jsstring) a :
  starts_near F -> forallb is_space ws = true ->
  In a (inner_edits F (ws ++ ch_slash :: ch_star :: b ++ [ch_star; ch_slash]) R2) ->
  forall h_start,
    h_start <= d + List.length ws ->
    h_end = d + List.length (ws ++ ch_slash :: ch_star :: b ++ [ch_star; ch_slash]) ->
    disjoint_edits (shift_edit d a) (h_start, h_end, t) = false.
Proof.
  intros HF Hw Ha h_start Hs He.
  apply (inner_edits_inside F ws b R2 a HF Hw) in Ha as (H1 & H2 & H3).
  unfold disjoint_edits, shift_edit, oe_start, oe_end in *. cbn [fst snd] in *.
  apply Bool.orb_false_iff. split; apply Nat.leb_gt; lia.
Qed.

Lemma remove_keeps_tokens :
  forall T,
    pairwise_disjoint (remove_offsets T) = true ->
    forall x', In x' (valid_occs (apply_all (remove_offsets T) T)) ->
               exists x, In x (valid_occs T) /\ snd x = snd x'.
Proof.
  intros T. remember (List.length T) as n eqn:Hlen. revert T Hlen.
  induction n as [n IH] using lt_wf_ind. intros T Hlen Hd x' Hx'.
  destruct (tscan_inv 0 T) as [[Hnil _]|(g & tk & R & HT & Hwf & Hgap & _)].
  - assert (E : remove_offsets T = []).
    { apply occ_edits_nil. unfold valid_occs. now rewrite Hnil. }
    rewrite E in Hx'. exists x'. auto.
  - rewrite app_assoc in HT. set (P1 := g ++ tokens_text tk) in *.
    assert (HlenR : List.length R < n).
    { rewrite Hlen, HT, length_app. unfold P1. rewrite length_app.
      pose proof (tokens_len_pos tk) as H0. unfold tokens_len in H0. lia. }
    assert (Hhead : remove_offsets T
                    = List.map (shift_edit (List.length P1)) (remove_offsets R)
                      ++ (if tokens_valid tk
                          then remove_F tk (List.length P1) (line_rest R) else [])).
    { rewrite HT. apply (occ_edits_head _ g tk R R shifts_remove Hwf Hgap). }
    assert (HoccT : forall X, valid_occs (P1 ++ X)
                      = (if tokens_valid tk then [(List.length g, tk)] else [])
                        ++ List.map (shift_found (List.length P1)) (valid_occs X)).
    { intros X. apply (valid_occs_head g tk R Hwf Hgap). }
    rewrite Hhead in Hd, Hx'. clear Hhead.
    assert (Hcase :
      (exists R0 Rn, pairwise_disjoint (remove_offsets R0) = true
                     /\ List.length R0 < n
                     /\ Rn = apply_all (remove_offsets R0) R0
                     /\ apply_all
                          (List.map (shift_edit (List.length P1)) (remove_offsets R)
                           ++ (if tokens_valid tk
                               then remove_F tk (List.length P1) (line_rest R) else [])) T
                        = P1 ++ Rn
                     /\ forall y, In y (valid_occs R0) ->
                                  exists x, In x (valid_occs R) /\ snd x = snd y)).
    { destruct (tokens_valid tk) eqn:Hv.
      2:{ exists R, (apply_all (remove_offsets R) R).
          rewrite app_nil_r in *. rewrite pairwise_disjoint_shift in Hd.
          repeat split; auto. { now rewrite HT, apply_all_shift. } eauto. }
      unfold remove_F, remove_off in *.
      destruct (comment_split (line_rest R)) as [[[ws old] rest]|] eqn:Ec.
      2:{ exists R, (apply_all (remove_offsets R) R).
          rewrite app_nil_r in *. rewrite pairwise_disjoint_shift in Hd.
          repeat split; auto. { now rewrite HT, apply_all_shift. } eauto. }
      destruct (split_of_line _ _ _ _ Ec) as (R2 & HR & _ & _).
      pose proof (comment_split_sound _ _ _ _ Ec) as (_ & Hw & b & Hold & _).
      assert (Hcl : closed_text (ws ++ old)) by (rewrite Hold; apply comment_closed).
      assert (HA : remove_offsets R
                   = List.map (shift_edit (List.length (ws ++ old))) (remove_offsets R2)
                     ++ inner_edits remove_F (ws ++ old) R2).
      { rewrite HR at 1. apply (occ_edits_closed _ _ _ shifts_remove Hcl). }
      rewrite pairwise_disjoint_snoc in Hd. apply Bool.andb_true_iff in Hd as [Hd1 Hd2].
      rewrite pairwise_disjoint_shift in Hd1.
      assert (Hi : inner_edits remove_F (ws ++ old) R2 = []).
      { destruct (inner_edits remove_F (ws ++ old) R2) as [|a l] eqn:Ei;
          [reflexivity|exfalso].
        assert (Ha : In a (inner_edits remove_F (ws ++ old) R2)) by (rewrite Ei; now left).
        rewrite Hold in Ha. rewrite forallb_forall in Hd2.
        specialize (Hd2 (shift_edit (List.length P1) a)).
        rewrite (inner_overlap remove_F ws b R2 (List.length P1) _ [] a
                   starts_near_remove Hw Ha (List.length P1)) in Hd2.
        - assert (Hin : In (shift_edit (List.length P1) a)
                          (List.map (shift_edit (List.length P1)) (remove_offsets R))).
          { apply in_map. rewrite HA. apply in_or_app. right. now left. }
          specialize (Hd2 Hin). discriminate.
        - lia.
        - rewrite <- Hold, length_app. lia. }
      rewrite HA, Hi, app_nil_r in Hd1 |- *. rewrite pairwise_disjoint_shift in Hd1.
      exists R2, (apply_all (remove_offsets R2) R2).
      split; [exact Hd1|]. split; [rewrite HR, length_app in HlenR; lia|].
      split; [reflexivity|]. split.
      - rewrite apply_all_app, HT, HR, apply_all_shift, apply_all_shift.
        unfold apply_all at 1. cbn [fold_left].
        rewrite <- Nat.add_assoc, <- length_app.
        exact (splice_at P1 (ws ++ old) [] _).
      - intros y Hy. exists (shift_found (List.length (ws ++ old)) y). split; [|reflexivity].
        rewrite HR, (valid_occs_closed _ _ Hcl). apply in_or_app. right.
        now apply shifted_In. }
    destruct Hcase as (R0 & Rn & Hd0 & Hlen0 & HRn & HT' & Hsub).
    rewrite HT', HoccT in Hx'. rewrite HT, HoccT.
    apply in_app_or in Hx' as [Hx'|Hx'].
    + exists x'. split; [apply in_or_app; now left|reflexivity].
    + apply In_shifted in Hx' as (y' & Hy' & Hs'). rewrite HRn in Hy'.
      destruct (IH _ Hlen0 R0 eq_refl Hd0 y' Hy') as (y & Hy & Hs).
      destruct (Hsub y Hy) as (x & Hx & Hsx).
      exists (shift_found (List.length P1) x). split.
      * apply in_or_app. right. now apply shifted_In.
      * cbn [shift_found snd]. congruence.
Qed.

Lemma closed_nil : closed_text [].
Proof. intros x s H Hne. destruct x; destruct s; try discriminate. congruence. Qed.

Lemma annotate_keeps_tokens colorMap :
  sane_palette colorMap ->
  forall T,
    pairwise_disjoint (annot_offsets colorMap T) = true ->
    forall x', In x' (valid_occs (apply_all (annot_offsets colorMap T) T)) ->
               exists x, In x (valid_occs T) /\ snd x = snd x'.
Proof.
  intros Hp T. remember (List.length T) as n eqn:Hlen. revert T Hlen.
  induction n as [n IH] using lt_wf_ind. intros T Hlen Hd x' Hx'.
  destruct (tscan_inv 0 T) as [[Hnil _]|(g & tk & R & HT & Hwf & Hgap & _)].
  - assert (E : annot_offsets colorMap T = []).
    { apply occ_edits_nil. unfold valid_occs. now rewrite Hnil. }
    rewrite E in Hx'. exists x'. auto.
  - rewrite app_assoc in HT. set (P1 := g ++ tokens_text tk) in *.
    assert (HlenR : List.length R < n).
    { rewrite Hlen, HT, length_app. unfold P1. rewrite length_app.
      pose proof (tokens_len_pos tk) as H0. unfold tokens_len in H0. lia. }
    pose proof (sane_label_of colorMap tk Hp) as HL.
    assert (Hhead : annot_offsets colorMap T
                    = List.map (shift_edit (List.length P1)) (annot_offsets colorMap R)
                      ++ (if tokens_valid tk
                          then annot_F colorMap tk (List.length P1) (line_rest R) else [])).
    { rewrite HT. apply (occ_edits_head _ g tk R R (shifts_annot colorMap) Hwf Hgap). }
    assert (HoccT : forall X, valid_occs (P1 ++ X)
                      = (if tokens_valid tk then [(List.length g, tk)] else [])
                        ++ List.map (shift_found (List.length P1)) (valid_occs X)).
    { intros X. apply (valid_occs_head g tk R Hwf Hgap). }
    rewrite Hhead in Hd, Hx'. clear Hhead.
    assert (Hcase :
      (exists R0 Rn mid,
          pairwise_disjoint (annot_offsets colorMap R0) = true
          /\ List.length R0 < n
          /\ Rn = apply_all (annot_offsets colorMap R0) R0
          /\ apply_all
               (List.map (shift_edit (List.length P1)) (annot_offsets colorMap R)
                ++ (if tokens_valid tk
                    then annot_F colorMap tk (List.length P1) (line_rest R) else [])) T
             = P1 ++ mid ++ Rn
          /\ closed_text mid /\ valid_occs mid = []
          /\ forall y, In y (valid_occs R0) ->
                       exists x, In x (valid_occs R) /\ snd x = snd y)).
    { destruct (tokens_valid tk) eqn:Hv.
      2:{ exists R, (apply_all (annot_offsets colorMap R) R), [].
          rewrite app_nil_r in *. rewrite pairwise_disjoint_shift in Hd.
          repeat split; auto.
          - now rewrite HT, apply_all_shift.
          - apply closed_nil.
          - eauto. }
      unfold annot_F, annotate_off in *.
      destruct (comment_split (line_rest R)) as [[[ws old] rest]|] eqn:Ec.
      2:{ exists R, (apply_all (annot_offsets colorMap R) R),
            ([32%N] ++ new_comment (label_of colorMap tk)).
          rewrite pairwise_disjoint_snoc in Hd. apply Bool.andb_true_iff in Hd as [Hd1 _].
          rewrite pairwise_disjoint_shift in Hd1.
          split; [exact Hd1|]. split; [exact HlenR|]. split; [reflexivity|]. split.
          - rewrite apply_all_app, HT, apply_all_shift.
            unfold apply_all at 1. cbn [fold_left]. rewrite splice_insert. reflexivity.
          - split; [apply new_comment_closed|].
            split; [now apply new_comment_occs|]. eauto. }
      destruct (split_of_line _ _ _ _ Ec) as (R2 & HR & _ & _).
      pose proof (comment_split_sound _ _ _ _ Ec) as (_ & Hw & b & Hold & _).
      assert (Hcl : closed_text (ws ++ old)) by (rewrite Hold; apply comment_closed).
      assert (HA : annot_offsets colorMap R
                   = List.map (shift_edit (List.length (ws ++ old)))
                       (annot_offsets colorMap R2)
                     ++ inner_edits (annot_F colorMap) (ws ++ old) R2).
      { rewrite HR at 1. apply (occ_edits_closed _ _ _ (shifts_annot colorMap) Hcl). }
      assert (Hsub : forall y, In y (valid_occs R2) ->
                               exists x, In x (valid_occs R) /\ snd x = snd y).
      { intros y Hy. exists (shift_found (List.length (ws ++ old)) y). split; [|reflexivity].
        rewrite HR, (valid_occs_closed _ _ Hcl). apply in_or_app. right.
        now apply shifted_In. }
      exists R2, (apply_all (annot_offsets colorMap R2) R2),
        (ws ++ new_comment (label_of colorMap tk)).
      destruct (jsstring_eqb old (new_comment (label_of colorMap tk))) eqn:Eq.
      - apply jsstring_eqb_iff in Eq. rewrite app_nil_r in *.
        rewrite pairwise_disjoint_shift in Hd.
        assert (Hi : inner_edits (annot_F colorMap) (ws ++ old) R2 = []).
        { apply inner_edits_nil. rewrite Eq. now apply new_comment_occs. }
        rewrite HA, Hi, app_nil_r in Hd |- *. rewrite pairwise_disjoint_shift in Hd.
        split; [exact Hd|]. split; [rewrite HR, length_app in HlenR; lia|].
        split; [reflexivity|]. split.
        + rewrite HT, HR, apply_all_shift, apply_all_shift, Eq, <- app_assoc. reflexivity.
        + split; [apply new_comment_closed|]. split; [now apply new_comment_occs|exact Hsub].
      - rewrite pairwise_disjoint_snoc in Hd. apply Bool.andb_true_iff in Hd as [Hd1 Hd2].
        rewrite pairwise_disjoint_shift in Hd1.
        assert (Hi : inner_edits (annot_F colorMap) (ws ++ old) R2 = []).
        { destruct (inner_edits (annot_F colorMap) (ws ++ old) R2) as [|a l] eqn:Ei;
            [reflexivity|exfalso].
          assert (Ha : In a (inner_edits (annot_F colorMap) (ws ++ old) R2))
            by (rewrite Ei; now left).
          rewrite Hold in Ha. rewrite forallb_forall in Hd2.
          specialize (Hd2 (shift_edit (List.length P1) a)).
          rewrite (inner_overlap (annot_F colorMap) ws b R2 (List.length P1) _
                     (new_comment (label_of colorMap tk)) a
                     (starts_near_annot colorMap) Hw Ha
                     (List.length P1 + List.length ws)) in Hd2.
          - assert (Hin : In (shift_edit (List.length P1) a)
                            (List.map (shift_edit (List.length P1))
                               (annot_offsets colorMap R))).
            { apply in_map. rewrite HA. apply in_or_app. right. now left. }
            specialize (Hd2 Hin). discriminate.
          - lia.
          - rewrite <- Hold, length_app. lia. }
        rewrite HA, Hi, app_nil_r in Hd1 |- *. rewrite pairwise_disjoint_shift in Hd1.
        split; [exact Hd1|]. split; [rewrite HR, length_app in HlenR; lia|].
        split; [reflexivity|]. split.
        + rewrite apply_all_app, HT, HR, apply_all_shift, apply_all_shift.
          unfold apply_all at 1. cbn [fold_left]. rewrite splice_replace, <- app_assoc.
          reflexivity.
        + split; [apply new_comment_closed|]. split; [now apply new_comment_occs|exact Hsub]. }
    destruct Hcase as (R0 & Rn & mid & Hd0 & Hlen0 & HRn & HT' & Hclm & Hmid & Hsub).
    rewrite HT', HoccT, (valid_occs_closed mid Rn Hclm), Hmid in Hx'. cbn [app] in Hx'.
    rewrite HT, HoccT.
    apply in_app_or in Hx' as [Hx'|Hx'].
    + exists x'. split; [apply in_or_app; now left|reflexivity].
    + apply In_shifted in Hx' as (z' & Hz' & Hsz').
      apply In_shifted in Hz' as (y' & Hy' & Hs'). rewrite HRn in Hy'.
      destruct (IH _ Hlen0 R0 eq_refl Hd0 y' Hy') as (y & Hy & Hs).
      destruct (Hsub y Hy) as (x & Hx & Hsx).
      exists (shift_found (List.length P1) x). split.
      * apply in_or_app. right. now apply shifted_In.
      * cbn [shift_found snd]. congruence.
Qed.

Lemma same_tokens_color doc doc' x x' :
  In x (valid_occs doc) -> In x' (valid_occs doc') -> snd x = snd x' ->
  let c := color_of doc 0 x in
  let c' := color_of doc' 0 x' in
  p_l c = p_l c' /\ p_c c = p_c c' /\ p_h c = p_h c'
  /\ alpha c = alpha c' /\ alphaString c = alphaString c'
  /\ getText doc (range c) = getText doc' (range c').
Proof.
  intros Hx Hx' Hs c c'. subst c c'. cbn [color_of p_l p_c p_h alpha alphaString].
  rewrite Hs. repeat (split; [reflexivity|]).
  apply valid_occs_In in Hx as [Hx _]. apply valid_occs_In in Hx' as [Hx' _].
  destruct x as [p tk], x' as [p' tk']. cbn [snd] in Hs. subst tk'.
  apply tscan_occurrence in Hx, Hx'.
  destruct (color_of_text doc p tk Hx) as [-> _].
  destruct (color_of_text doc' p' tk Hx') as [-> _]. reflexivity.
Qed.

(** X17. RemoveAnnotations creates no color: every color the scanner finds in the
    text it leaves is a color of the text it was given, with the same
    numbers, alpha, alpha text and text. *)
Theorem remove_creates_no_color (doc : TextDocument) :
  exists doc' colors colors',
    removeOklchColorAnnotationsHandler doc = Some doc'
    /\ parseOklchFunctionsInRange doc (fullRange doc) = Some colors
    /\ parseOklchFunctionsInRange doc' (fullRange doc') = Some colors'
    /\ forall c', In c' colors' ->
         exists c, In c colors
                   /\ p_l c = p_l c' /\ p_c c = p_c c' /\ p_h c = p_h c'
                   /\ alpha c = alpha c' /\ alphaString c = alphaString c'
                   /\ getText doc (range c) = getText doc' (range c').
Proof.
  eexists. eexists. eexists. split; [apply remove_handler_closed|].
  split; [apply parsed_colors|]. split; [apply parsed_colors|].
  intros c' Hin. apply in_map_iff in Hin as (x' & <- & Hx').
  destruct (pairwise_disjoint (remove_offsets doc)) eqn:Hd.
  - rewrite (sort_descending _ (descending_remove doc)) in Hx' |- *.
    destruct (remove_keeps_tokens doc Hd x' Hx') as (x & Hx & Hs).
    exists (color_of doc 0 x). split; [now apply in_map|].
    now apply same_tokens_color.
  - exists (color_of doc 0 x'). split; [now apply in_map|].
    now apply same_tokens_color.
Qed.

(** X16. With a palette of sane names Annotate creates no color: every color the
    scanner finds in the text it leaves is a color of the text it was given,
    with the same numbers, alpha, alpha text and text. *)
Theorem annotate_creates_no_color (colorMap : list ColorMapEntry) (doc : TextDocument) :
  sane_palette colorMap ->
  exists doc' colors colors',
    annotateOklchColorsHandler colorMap doc = Some doc'
    /\ parseOklchFunctionsInRange doc (fullRange doc) = Some colors
    /\ parseOklchFunctionsInRange doc' (fullRange doc') = Some colors'
    /\ forall c', In c' colors' ->
         exists c, In c colors
                   /\ p_l c = p_l c' /\ p_c c = p_c c' /\ p_h c = p_h c'
                   /\ alpha c = alpha c' /\ alphaString c = alphaString c'
                   /\ getText doc (range c) = getText doc' (range c').
Proof.
  intros Hp.
  eexists. eexists. eexists. split; [apply annotate_handler_closed|].
  split; [apply parsed_colors|]. split; [apply parsed_colors|].
  intros c' Hin. apply in_map_iff in Hin as (x' & <- & Hx').
  destruct (pairwise_disjoint (annot_offsets colorMap doc)) eqn:Hd.
  - rewrite (sort_descending _ (descending_annot colorMap doc)) in Hx' |- *.
    destruct (annotate_keeps_tokens colorMap Hp doc Hd x' Hx') as (x & Hx & Hs).
    exists (color_of doc 0 x). split; [now apply in_map|].
    now apply same_tokens_color.
  - exists (color_of doc 0 x'). split; [now apply in_map|].
    now apply same_tokens_color.
Qed.

Lemma annotate_creates_no_color_witness :
  let sky := MkEntry (lit "sky-500")
               (MkOklch (number_of_decimal 685 (-3)) (number_of_decimal 169 (-3))
                        (number_of_decimal 237323 (-3))) in
  let doc := lit "a { color: oklch(0.685 0.169 237.323); b: oklch(1 0 0 / 50%) /* x */ }" in
  sane_palette [sky]
  /\ exists doc' colors colors',
       annotateOklchColorsHandler [sky] doc = Some doc'
       /\ parseOklchFunctionsInRange doc (fullRange doc) = Some colors
       /\ parseOklchFunctionsInRange doc' (fullRange doc') = Some colors'
       /\ forall c', In c' colors' ->
            exists c, In c colors
                      /\ p_l c = p_l c' /\ p_c c = p_c c' /\ p_h c = p_h c'
                      /\ alpha c = alpha c' /\ alphaString c = alphaString c'
                      /\ getText doc (range c) = getText doc' (range c').
Proof.
  intros sky doc.
  assert (Hp : sane_palette [sky]).
  { intros e [<-|[]]. repeat split; vm_compute; reflexivity. }
  split; [exact Hp|]. exact (annotate_creates_no_color [sky] doc Hp).
Defined.

(** A palette name that holds a color: Annotate writes it into the comment,
    and the scanner finds a color there that the text did not have. *)
Lemma named_color_is_created :
  let entry := MkEntry (lit "oklch(4 5 6)")
                 (MkOklch (number_of_decimal 1 0) (number_of_decimal 2 0)
                          (number_of_decimal 3 0)) in
  let doc := lit "oklch(1 2 3)" in
  annotateOklchColorsHandler [entry] doc = Some (lit "oklch(1 2 3) /* oklch(4 5 6) */")
  /\ exists c1 c2,
       parseOklchFunctionsInRange (lit "oklch(1 2 3) /* oklch(4 5 6) */")
         (fullRange (lit "oklch(1 2 3) /* oklch(4 5 6) */")) = Some [c1; c2]
       /\ p_l c2 = number_of_decimal 4 0.
Proof.
  intros entry doc. split; [vm_compute; reflexivity|].
  eexists. eexists. split; [vm_compute; reflexivity|]. reflexivity.
Qed.
